(** * A shallow embedding of [mm.c]: a segregated-fits allocator

    The allocator of [src/mm.c] keeps sixteen size-ordered explicit free
    lists whose head slots live at the start of the heap, in front of the
    prologue block.  Blocks carry boundary tags (header and footer).

    The embedding follows the C text function by function, on an LP64
    target: [__SIZEOF_POINTER__] is 8, [unsigned long] and [size_t] are
    64-bit words (a [Z] reduced modulo [2^64]), [int] is a 32-bit signed
    word (a [Z] folded into [-2^31 .. 2^31-1]).  Memory is a byte store;
    [GET] and [PUT] move eight bytes, little-endian. *)

From Stdlib Require Import ZArith List Lia Bool Permutation.
Import ListNotations.
Open Scope Z_scope.

(** ** Machine integers *)

Definition u64 (x : Z) : Z := x mod 2 ^ 64.
Definition s32 (x : Z) : Z := (x + 2 ^ 31) mod 2 ^ 32 - 2 ^ 31.

(** C truth values: [!x], and the test [if (x)]. *)
Definition lnot (x : Z) : Z := if x =? 0 then 1 else 0.
Definition truth (x : Z) : bool := negb (x =? 0).

Definition NULL : Z := 0.

(** ** Constants of [mm.c] *)

Definition ALIGNMENT : Z := 8.
Definition WSIZE : Z := 8.
Definition DSIZE : Z := 2 * WSIZE.
Definition CHUNKSIZE : Z := 2 ^ 12 + DSIZE.
Definition INITSIZE : Z := 2 ^ 7 + DSIZE.
Definition LISTSIZE : Z := 16.
Definition THRESHOLD : Z := 7.

Definition ALIGN (size : Z) : Z :=
  u64 (u64 (size + (ALIGNMENT - 1)) / ALIGNMENT * ALIGNMENT).

Definition MAX (x y : Z) : Z := if x >? y then x else y.

Definition PACK (size alloc : Z) : Z := Z.lor size alloc.

(** ** The byte store *)

Definition memory := Z -> Z.

Fixpoint load_bytes (n : nat) (m : memory) (p : Z) : Z :=
  match n with
  | O => 0
  | S n' => m p mod 256 + 256 * load_bytes n' m (p + 1)
  end.

Definition store_bytes (m : memory) (p v : Z) : memory :=
  fun a => if (p <=? a) && (a <? p + 8) then (v / 256 ^ (a - p)) mod 256
           else m a.

(** [GET(p)] and [PUT(p, val)]: the value is cast to [unsigned long]. *)
Definition GET (m : memory) (p : Z) : Z := load_bytes 8 m p.
Definition PUT (m : memory) (p val : Z) : memory := store_bytes m p (u64 val).

(** A call returns a value or faults.  The one fault of [mm.c] that the
    embedding follows is the store through the null pointer: page 0 is not
    mapped, and the program stops there. *)
Inductive outcome (A : Type) : Type :=
| Returns (a : A)
| Faults.

Arguments Returns {A} a.
Arguments Faults {A}.

(** The value of a call that returns. *)
Definition returned {A : Type} (x : option (outcome A)) : option A :=
  match x with
  | Some (Returns a) => Some a
  | _ => None
  end.

(** The memory after [n] bytes were copied from [src] to [dst]; the source
    bytes are those before the copy. *)
Definition copy_bytes (m : memory) (dst src n : Z) : memory :=
  fun a => if (dst <=? a) && (a <? dst + n) then m (src + (a - dst)) else m a.

(** [memcpy(dst, src, n)]: a copy of one byte or more to the null pointer
    faults. *)
Definition memcpy (m : memory) (dst src n : Z) : outcome memory :=
  if (dst =? NULL) && (n >? 0) then Faults
  else Returns (copy_bytes m dst src n).

Definition GET_SIZE (m : memory) (p : Z) : Z := Z.land (GET m p) (u64 (Z.lnot 7)).
Definition GET_ALLOC (m : memory) (p : Z) : Z := Z.land (GET m p) 1.

Definition HDRP (bp : Z) : Z := u64 (bp - WSIZE).
Definition FTRP (m : memory) (bp : Z) : Z :=
  u64 (bp + GET_SIZE m (HDRP bp) - DSIZE).
Definition NEXT_BLKP (m : memory) (bp : Z) : Z :=
  u64 (bp + GET_SIZE m (u64 (bp - WSIZE))).
Definition PREV_BLKP (m : memory) (bp : Z) : Z :=
  u64 (bp - GET_SIZE m (u64 (bp - DSIZE))).

Definition PRED_BLKP (m : memory) (bp : Z) : Z := GET m bp.
Definition SUCC_BLKP (m : memory) (bp : Z) : Z := GET m (u64 (bp + WSIZE)).

(** ** The allocator state

    [heap_ptr] is the global of [mm.c]; the other three fields are the
    heap region behind [mem_sbrk]. *)

Record state := mkState {
  mem : memory;
  heap_ptr : Z;
  mem_heap : Z;
  mem_brk : Z;
  mem_max_addr : Z
}.

Definition set_mem (s : state) (m : memory) : state :=
  mkState m (heap_ptr s) (mem_heap s) (mem_brk s) (mem_max_addr s).

Definition set_heap_ptr (s : state) (p : Z) : state :=
  mkState (mem s) p (mem_heap s) (mem_brk s) (mem_max_addr s).

Definition put (s : state) (p val : Z) : state := set_mem s (PUT (mem s) p val).

(** Modelled from the spec: the heap-region accessor ([memlib.c] is not part
    of the sources).  [grow(extra_bytes)] extends the heap by exactly
    [extra_bytes] and returns the first byte of the new space, or fails;
    the failure value is the [(void * )-1] that [mm.c] tests for. *)
Definition SBRK_FAIL : Z := u64 (-1).

Definition mem_sbrk (s : state) (incr : Z) : state * Z :=
  if mem_brk s + incr >? mem_max_addr s then (s, SBRK_FAIL)
  else (mkState (mem s) (heap_ptr s) (mem_heap s) (mem_brk s + incr)
                (mem_max_addr s), mem_brk s).

(** Modelled from the spec: [heap_bounds] and [heap_size] of the accessor. *)
Definition mem_heap_hi (s : state) : Z := u64 (mem_brk s - 1).
Definition mem_heapsize (s : state) : Z := u64 (mem_brk s - mem_heap s).

Definition freelists (s : state) (index : Z) : Z :=
  u64 (heap_ptr s - (LISTSIZE + 1 - index) * WSIZE).

(** ** Divergence

    [add_free] and the checker walk linked lists; a walk that does not end
    is [None]. *)

Definition bind {A B : Type} (x : option A) (f : A -> option B) : option B :=
  match x with Some a => f a | None => None end.

Notation "x <- c ;; k" := (bind c (fun x => k))
  (at level 61, c at next level, right associativity).
Notation "' ( x , y ) <- c ;; k" := (bind c (fun xy => let '(x, y) := xy in k))
  (at level 61, c at next level, x name, y name, right associativity).

(** ** Helper functions *)

Definition align_size (size : Z) : Z :=
  if size <=? DSIZE then 2 * DSIZE else ALIGN (u64 (size + DSIZE)).

(** The [for] loop of [index_of]; [n] bounds the doublings left. *)
Fixpoint index_of_loop (n : nat) (curr_size index size : Z) : Z :=
  if curr_size <? Z.shiftl (4 * WSIZE) (LISTSIZE - 1) then
    if curr_size >=? size then index
    else match n with
         | O => index
         | S n' => index_of_loop n' (s32 (curr_size * 2)) (index + 1) size
         end
  else index.

Definition index_of (size : Z) : Z := index_of_loop 16 (4 * WSIZE) 0 size.

(** The [while] loop of [add_free]: returns [(curr_ptr, pred_ptr)]. *)
Fixpoint add_free_walk (fuel : nat) (m : memory) (size curr_ptr pred_ptr : Z)
  : option (Z * Z) :=
  if negb (curr_ptr =? NULL) && (size >? GET_SIZE m (HDRP curr_ptr)) then
    match fuel with
    | O => None
    | S fuel' => add_free_walk fuel' m size (SUCC_BLKP m curr_ptr) curr_ptr
    end
  else Some (curr_ptr, pred_ptr).

Definition add_free (fuel : nat) (s : state) (bp size : Z) : option state :=
  let index := index_of size in
  let curr_ptr := if GET (mem s) (freelists s index) =? 0 then NULL
                  else GET (mem s) (freelists s index) in
  '(curr_ptr, pred_ptr) <- add_free_walk fuel (mem s) size curr_ptr curr_ptr ;;
  if GET (mem s) (freelists s index) =? 0 then
    let s := put s bp NULL in
    let s := put s (u64 (bp + WSIZE)) NULL in
    Some (put s (freelists s index) bp)
  else if curr_ptr =? NULL then
    let s := put s bp pred_ptr in
    let s := put s (u64 (bp + WSIZE)) NULL in
    Some (put s (u64 (pred_ptr + WSIZE)) bp)
  else if curr_ptr =? GET (mem s) (freelists s index) then
    let s := put s bp NULL in
    let s := put s (u64 (bp + WSIZE)) curr_ptr in
    let s := put s curr_ptr bp in
    Some (put s (freelists s index) bp)
  else
    let s := put s bp pred_ptr in
    let s := put s (u64 (bp + WSIZE)) curr_ptr in
    let s := put s curr_ptr bp in
    Some (put s (u64 (pred_ptr + WSIZE)) bp).

Definition pop_free (s : state) (bp : Z) : state :=
  let size := GET_SIZE (mem s) (HDRP bp) in
  let index := index_of size in
  if PRED_BLKP (mem s) bp =? NULL then
    if SUCC_BLKP (mem s) bp =? NULL then
      put s (freelists s index) 0
    else
      let s := put s (freelists s index) (SUCC_BLKP (mem s) bp) in
      put s (SUCC_BLKP (mem s) bp) NULL
  else
    if SUCC_BLKP (mem s) bp =? NULL then
      put s (u64 (PRED_BLKP (mem s) bp + WSIZE)) NULL
    else
      let s := put s (u64 (PRED_BLKP (mem s) bp + WSIZE)) (SUCC_BLKP (mem s) bp) in
      put s (SUCC_BLKP (mem s) bp) (PRED_BLKP (mem s) bp).

(** The two merge steps of [coalesce]: the body of [if (prev_free)], which
    also moves [bp], and the body of [if (next_free)]. *)
Definition coalesce_prev (s : state) (size bp : Z) : state * Z * Z :=
  let s := pop_free s (PREV_BLKP (mem s) bp) in
  let size :=
    s32 (u64 (u64 size + GET_SIZE (mem s) (HDRP (PREV_BLKP (mem s) bp)))) in
  let s := put s (FTRP (mem s) bp) (PACK size 0) in
  let s := put s (HDRP (PREV_BLKP (mem s) bp)) (PACK size 0) in
  (s, size, PREV_BLKP (mem s) bp).

Definition coalesce_next (s : state) (size bp : Z) : state * Z :=
  let s := pop_free s (NEXT_BLKP (mem s) bp) in
  let size :=
    s32 (u64 (u64 size + GET_SIZE (mem s) (HDRP (NEXT_BLKP (mem s) bp)))) in
  let s := put s (FTRP (mem s) (NEXT_BLKP (mem s) bp)) (PACK size 0) in
  let s := put s (HDRP bp) (PACK size 0) in
  (s, size).

Definition coalesce (fuel : nat) (s : state) (bp : Z) : option (state * Z) :=
  let prev_free := lnot (GET_ALLOC (mem s) (HDRP (PREV_BLKP (mem s) bp))) in
  let next_free := lnot (GET_ALLOC (mem s) (HDRP (NEXT_BLKP (mem s) bp))) in
  let size := s32 (GET_SIZE (mem s) (HDRP bp)) in
  if truth (lnot prev_free) && truth (lnot next_free) then Some (s, bp)
  else
    let s := pop_free s bp in
    let '(s, size, bp) :=
      if truth prev_free then coalesce_prev s size bp else (s, size, bp) in
    let '(s, size) :=
      if truth next_free then coalesce_next s size bp else (s, size) in
    s <- add_free fuel s bp (u64 size) ;;
    Some (s, bp).

Definition extend_heap (fuel : nat) (s : state) (size : Z)
  : option (state * Z) :=
  let size := ALIGN size in
  let '(s, bp) := mem_sbrk s size in
  if bp =? SBRK_FAIL then Some (s, NULL)
  else
    let s := put s (HDRP bp) (PACK size 0) in
    let s := put s (FTRP (mem s) bp) (PACK size 0) in
    let s := put s (HDRP (NEXT_BLKP (mem s) bp)) (PACK 0 1) in
    s <- add_free fuel s bp size ;;
    coalesce fuel s bp.

Definition place_fb (s : state) (bp fsize bsize alloc : Z) : state :=
  let s := put s (HDRP bp) (PACK fsize alloc) in
  let s := put s (FTRP (mem s) bp) (PACK fsize alloc) in
  let s := put s (HDRP (NEXT_BLKP (mem s) bp)) (PACK bsize (lnot alloc)) in
  put s (FTRP (mem s) (NEXT_BLKP (mem s) bp)) (PACK bsize (lnot alloc)).

Definition place (fuel : nat) (s : state) (bp size : Z) : option (state * Z) :=
  let total_size := GET_SIZE (mem s) (HDRP bp) in
  let rem_size := u64 (total_size - size) in
  let s := pop_free s bp in
  if rem_size <? 4 * WSIZE then
    let s := put s (HDRP bp) (PACK total_size 1) in
    let s := put s (FTRP (mem s) bp) (PACK total_size 1) in
    Some (s, bp)
  else if rem_size >=? u64 (THRESHOLD * size) then
    let s := place_fb s bp size rem_size 1 in
    s <- add_free fuel s (NEXT_BLKP (mem s) bp) rem_size ;;
    Some (s, bp)
  else
    let s := place_fb s bp rem_size size 0 in
    s <- add_free fuel s bp rem_size ;;
    Some (s, NEXT_BLKP (mem s) bp).

(** ** The public functions *)

Definition mm_init (fuel : nat) (s : state) : option (state * Z) :=
  let '(s, p) := mem_sbrk s ((LISTSIZE + 4) * WSIZE) in
  let s := set_heap_ptr s p in
  if p =? SBRK_FAIL then Some (s, -1)
  else
    let s := put s (heap_ptr s) 0 in
    let s := put s (u64 (heap_ptr s + (LISTSIZE + 1) * WSIZE)) (PACK DSIZE 1) in
    let s := put s (u64 (heap_ptr s + (LISTSIZE + 2) * WSIZE)) (PACK DSIZE 1) in
    let s := put s (u64 (heap_ptr s + (LISTSIZE + 3) * WSIZE)) (PACK 0 1) in
    let s := fold_left (fun s i => put s (u64 (heap_ptr s + i * WSIZE)) 0)
                       (map Z.of_nat (seq 1 16)) s in
    let s := set_heap_ptr s (u64 (heap_ptr s + (LISTSIZE + 2) * WSIZE)) in
    '(s, r) <- extend_heap fuel s INITSIZE ;;
    if r =? NULL then Some (s, -1) else Some (s, 0).

(** The scan of [mm_malloc] over the class heads, from [index] upward;
    [n] is the number of classes left. *)
Fixpoint find_fit (n : nat) (s : state) (index size : Z) : Z :=
  match n with
  | O => NULL
  | S n' =>
      if negb (GET (mem s) (freelists s index) =? 0) &&
         (GET_SIZE (mem s) (HDRP (GET (mem s) (freelists s index))) >? size)
      then GET (mem s) (freelists s index)
      else find_fit n' s (index + 1) size
  end.

Definition mm_malloc (fuel : nat) (s : state) (size : Z) : option (state * Z) :=
  if size =? 0 then Some (s, NULL)
  else
    let size := align_size size in
    let bp := find_fit (Z.to_nat LISTSIZE) s 0 size in
    if bp =? NULL then
      '(s, bp) <- extend_heap fuel s (MAX size CHUNKSIZE) ;;
      if bp =? NULL then Some (s, NULL)
      else place fuel s bp size
    else place fuel s bp size.

Definition mm_free (fuel : nat) (s : state) (bp : Z) : option state :=
  let size := GET_SIZE (mem s) (HDRP bp) in
  let s := put s (HDRP bp) (PACK size 0) in
  let s := put s (FTRP (mem s) bp) (PACK size 0) in
  s <- add_free fuel s bp size ;;
  '(s, _) <- coalesce fuel s bp ;;
  Some s.

(** Case 1-b of [mm_realloc]: the next block is taken out of its list and
    the block is re-tagged with [size + rem_size]. *)
Definition realloc_grow (s : state) (bp size rem_size : Z) : state :=
  let s := pop_free s (NEXT_BLKP (mem s) bp) in
  let s := put s (HDRP bp) (PACK (u64 (size + rem_size)) 1) in
  put s (FTRP (mem s) bp) (PACK (u64 (size + rem_size)) 1).

(** Case 2 of [mm_realloc]: allocate elsewhere, copy, release.  The result
    of [mm_malloc] is not tested before the copy. *)
Definition realloc_move (fuel : nat) (s : state) (bp size : Z)
  : option (outcome (state * Z)) :=
  '(s, new_bp) <- mm_malloc fuel s size ;;
  match memcpy (mem s) new_bp bp (GET_SIZE (mem s) (HDRP bp)) with
  | Faults => Some Faults
  | Returns m =>
      let s := set_mem s m in
      s <- mm_free fuel s bp ;;
      Some (Returns (s, new_bp))
  end.

Definition mm_realloc (fuel : nat) (s : state) (bp size : Z)
  : option (outcome (state * Z)) :=
  if size =? 0 then Some (Returns (s, NULL))
  else
    let size := align_size size in
    if GET_SIZE (mem s) (HDRP bp) >=? size then Some (Returns (s, bp))
    else
      let next_epi := lnot (GET_SIZE (mem s) (HDRP (NEXT_BLKP (mem s) bp))) in
      let next_free := lnot (GET_ALLOC (mem s) (HDRP (NEXT_BLKP (mem s) bp))) in
      if truth next_free || truth next_epi then
        let rem_size :=
          s32 (u64 (u64 (GET_SIZE (mem s) (HDRP bp) +
                         GET_SIZE (mem s) (HDRP (NEXT_BLKP (mem s) bp))) - size)) in
        if rem_size <? 0 then
          '(s, r) <- extend_heap fuel s (u64 (MAX CHUNKSIZE (s32 (- rem_size)))) ;;
          if r =? NULL then Some (Returns (s, NULL))
          else
            let rem_size := s32 (rem_size + MAX CHUNKSIZE (s32 (- rem_size))) in
            Some (Returns (realloc_grow s bp size rem_size, bp))
        else Some (Returns (realloc_grow s bp size rem_size, bp))
      else realloc_move fuel s bp size.

(** ** A fresh region and a first run *)

Definition zero_mem : memory := fun _ => 0.

Definition fresh (lo max : Z) : state := mkState zero_mem 0 lo lo max.

Definition run_init (lo max : Z) : option state :=
  '(s, _) <- mm_init 100 (fresh lo max) ;; Some s.

(** ** The heap consistency checker ([mm_check], compiled under [DEBUG])

    The [printf] calls are left out.  The two walks are given fuel; the
    checker's counters keep their C types ([int] and [size_t]). *)

(** Tally of one class list, from the block [bp] on: [None] inside is the
    early [return 0]. *)
Fixpoint check_list (fuel : nat) (m : memory) (bp count fre : Z)
  : option (option (Z * Z)) :=
  let count := s32 (count + 1) in
  let fre := u64 (fre + GET_SIZE m (HDRP bp)) in
  if GET_ALLOC m (HDRP bp) =? 1 then Some None
  else if SUCC_BLKP m bp =? NULL then Some (Some (count, fre))
  else match fuel with
       | O => None
       | S fuel' => check_list fuel' m (SUCC_BLKP m bp) count fre
       end.

(** The [for] loop over the classes [index .. LISTSIZE-1]. *)
Fixpoint check_lists (n fuel : nat) (s : state) (index count fre : Z)
  : option (option (Z * Z)) :=
  match n with
  | O => Some (Some (count, fre))
  | S n' =>
      if negb (GET (mem s) (freelists s index) =? 0) then
        r <- check_list fuel (mem s) (GET (mem s) (freelists s index)) count fre ;;
        match r with
        | None => Some None
        | Some (count, fre) => check_lists n' fuel s (index + 1) count fre
        end
      else check_lists n' fuel s (index + 1) count fre
  end.

(** The walk over the implicit list; returns [(count, pld_size,
    fre_size_implicit)]. *)
Fixpoint check_walk (fuel : nat) (s : state) (bp count consec pld fre : Z)
  : option (option (Z * Z * Z)) :=
  if u64 bp <? mem_heap_hi s then
    match fuel with
    | O => None
    | S fuel' =>
        let free := GET_ALLOC (mem s) (HDRP bp) =? 0 in
        let count := if free then s32 (count - 1) else count in
        let consec := if free then s32 (consec + 1) else consec in
        let fre := if free then u64 (fre + GET_SIZE (mem s) (HDRP bp)) else fre in
        let pld := if free then pld else u64 (pld + GET_SIZE (mem s) (HDRP bp)) in
        if consec >=? 2 then Some None
        else check_walk fuel' s (NEXT_BLKP (mem s) bp) count (s32 (consec - 1))
                        pld fre
    end
  else Some (Some (count, pld, fre)).

Definition mm_check (fuel : nat) (s : state) : option Z :=
  if negb (GET_SIZE (mem s) (HDRP (heap_ptr s)) =? DSIZE) ||
     truth (lnot (GET_ALLOC (mem s) (HDRP (heap_ptr s)))) then Some 0
  else if negb (GET_SIZE (mem s) (u64 (mem_heap_hi s - WSIZE + 1)) =? 0) ||
          truth (lnot (GET_ALLOC (mem s) (u64 (mem_heap_hi s - WSIZE + 1))))
  then Some 0
  else
    r <- check_lists (Z.to_nat LISTSIZE) fuel s 0 0 0 ;;
    match r with
    | None => Some 0
    | Some (count, fre_size_explicit) =>
        r <- check_walk fuel s (heap_ptr s) count 0 0 0 ;;
        match r with
        | None => Some 0
        | Some (count, pld_size, fre_size_implicit) =>
            if count <? 0 then Some 0
            else if count >? 0 then Some 0
            else if negb (fre_size_explicit =? fre_size_implicit) then Some 0
            else if u64 (u64 (fre_size_explicit + pld_size) +
                         (LISTSIZE + 2) * WSIZE) >? mem_heapsize s
            then Some 0
            else Some 1
        end
    end.

(** ** Scenarios on a fresh heap *)

(** The region used by the examples: bytes [1000 .. max), all zero. *)
Definition heap0 (max : Z) : state :=
  match mm_init 100 (fresh 1000 max) with
  | Some (s, _) => s
  | None => fresh 1000 max
  end.

(** Scenario B of the specification: three [mm_malloc(16)], release of the
    second block, one more [mm_malloc(16)]. *)
Definition scenario_B (fuel : nat) (s : state) : option (Z * Z * Z * Z) :=
  '(s, p1) <- mm_malloc fuel s 16 ;;
  '(s, p2) <- mm_malloc fuel s 16 ;;
  '(s, p3) <- mm_malloc fuel s 16 ;;
  s <- mm_free fuel s p2 ;;
  '(_, p4) <- mm_malloc fuel s 16 ;;
  Some (p1, p2, p3, p4).

(** The blocks met by walking the implicit list from [bp]: payload address,
    size and allocated bit; the walk stops at a zero size or past the heap. *)
Fixpoint heap_walk (fuel : nat) (s : state) (bp : Z) : list (Z * Z * Z) :=
  match fuel with
  | O => []
  | S fuel' =>
      if (GET_SIZE (mem s) (HDRP bp) =? 0) || (bp >=? mem_brk s) then []
      else (bp, GET_SIZE (mem s) (HDRP bp), GET_ALLOC (mem s) (HDRP bp))
             :: heap_walk fuel' s (NEXT_BLKP (mem s) bp)
  end.

(** The blocks of one class list, from [bp] on, with their recorded sizes. *)
Fixpoint list_walk (fuel : nat) (m : memory) (bp : Z) : list (Z * Z) :=
  match fuel with
  | O => []
  | S fuel' =>
      if bp =? NULL then []
      else (bp, GET_SIZE m (HDRP bp)) :: list_walk fuel' m (SUCC_BLKP m bp)
  end.

Definition class_list (fuel : nat) (s : state) (index : Z) : list (Z * Z) :=
  list_walk fuel (mem s) (GET (mem s) (freelists s index)).

(** Two physically adjacent blocks that are both marked free. *)
Fixpoint adjacent_free (l : list (Z * Z * Z)) : bool :=
  match l with
  | (_, _, a1) :: (((_, _, a2) :: _) as l') =>
      ((a1 =? 0) && (a2 =? 0)) || adjacent_free l'
  | _ => false
  end.

(** Sizes non-decreasing from head to tail. *)
Fixpoint ascending (l : list (Z * Z)) : bool :=
  match l with
  | (_, s1) :: (((_, s2) :: _) as l') => (s1 <=? s2) && ascending l'
  | _ => true
  end.

(** ** The candidate search of [mm_malloc], in the words of the specification

    A class head qualifies when the class is non-empty and the size of its
    head block strictly exceeds the aligned request; the candidate is the
    head of the first qualifying class, classes taken from the smallest. *)

Definition head_fits (s : state) (size index : Z) : bool :=
  negb (GET (mem s) (freelists s index) =? 0) &&
  (GET_SIZE (mem s) (HDRP (GET (mem s) (freelists s index))) >? size).

Definition first_fit_class (s : state) (size : Z) : option Z :=
  find (head_fits s size) (map Z.of_nat (seq 0 (Z.to_nat LISTSIZE))).

(** ** Failing runs *)

(** Three 32-byte blocks on a region too small to grow again; the middle
    one holds a pattern written by its owner and is then resized. *)
Definition pattern : Z := 0xABABABABABABABAB.

Definition before_failed_resize : option (state * Z) :=
  '(s, _) <- mm_malloc 100 (heap0 1400) 16 ;;
  '(s, p) <- mm_malloc 100 s 16 ;;
  '(s, _) <- mm_malloc 100 s 16 ;;
  Some (put (put s p pattern) (p + 8) pattern, p).

Definition failed_resize : option (state * Z * outcome (state * Z)) :=
  '(s, p) <- before_failed_resize ;;
  o <- mm_realloc 100 s p 200 ;;
  Some (s, p, o).

(** A live block resized to zero bytes. *)
Definition resize_to_zero : option (state * Z * state * Z) :=
  '(s, p) <- mm_malloc 100 (heap0 100000) 16 ;;
  '(s', r) <- returned (mm_realloc 100 s p 0) ;;
  Some (s, p, s', r).

(** A block grown in place over a free successor that is not the last block
    of the heap: blocks [a] (32 bytes), a free block of 4080 bytes, [b1] and
    [b2] (4112 bytes each) end the heap; [a] is resized to 5000 bytes, then
    [b1] and [b2] are released. *)
Definition grow_over_inner_free : option (state * Z * Z * Z) :=
  '(s, _) <- mm_malloc 100 (heap0 1000000) 100 ;;
  '(s, _) <- mm_malloc 100 s 4096 ;;
  '(s, a) <- mm_malloc 100 s 16 ;;
  '(s, b1) <- mm_malloc 100 s 4096 ;;
  '(s, b2) <- mm_malloc 100 s 4096 ;;
  '(s, a') <- returned (mm_realloc 100 s a 5000) ;;
  s <- mm_free 100 s b1 ;;
  s <- mm_free 100 s b2 ;;
  Some (s, a', b1, b2).

(** The same growth when the block [b] before the heap end has 4104 bytes
    and class 8 already holds a free block [m] of 4112 bytes. *)
Definition grow_onto_listed_header : option (state * Z) :=
  '(s, _) <- mm_malloc 100 (heap0 1000000) 100 ;;
  '(s, m) <- mm_malloc 100 s 4096 ;;
  '(s, a) <- mm_malloc 100 s 16 ;;
  '(s, b) <- mm_malloc 100 s 4088 ;;
  s <- mm_free 100 s m ;;
  '(s, a') <- returned (mm_realloc 100 s a 5000) ;;
  Some (s, a').

(** [s'] has the region and the [heap_ptr] of [s]; only memory may differ. *)
Definition same_region (s s' : state) : Prop :=
  heap_ptr s' = heap_ptr s /\ mem_heap s' = mem_heap s /\
  mem_brk s' = mem_brk s /\ mem_max_addr s' = mem_max_addr s.

(** ** The heap invariant

    A heap is described by the sequence [B] of its blocks in address order,
    each with payload address, size and allocated flag, and by the contents
    [L i] of the sixteen class lists, each entry a payload address with the
    size of its block. *)

Definition block : Type := Z * Z * bool.

Definition tag (size : Z) (alloc : bool) : Z := size + (if alloc then 1 else 0).

(** The blocks tile the addresses from payload address [p] to [e]; every
    size is a multiple of the word and at least four words. *)
Fixpoint chain (p : Z) (B : list block) (e : Z) : Prop :=
  match B with
  | [] => p = e
  | (b, size, _) :: B' =>
      b = p /\ 4 * WSIZE <= size /\ size mod WSIZE = 0 /\ chain (p + size) B' e
  end.

(** Header and footer of every block hold its size and flag. *)
Definition tags_ok (m : memory) (B : list block) : Prop :=
  forall b size alloc, In (b, size, alloc) B ->
    GET m (b - WSIZE) = tag size alloc /\ GET m (b + size - DSIZE) = tag size alloc.

Record layout (s : state) (B : list block) : Prop := mkLayout {
  lay_lo : 0 <= mem_heap s;
  lay_hp : heap_ptr s = mem_heap s + (LISTSIZE + 2) * WSIZE;
  lay_chain : chain (heap_ptr s + DSIZE) B (mem_brk s);
  lay_brk : mem_brk s <= mem_max_addr s;
  lay_max : mem_max_addr s - mem_heap s < 2 ^ 31;
  lay_top : mem_max_addr s < 2 ^ 64;
  lay_pro : GET (mem s) (heap_ptr s - WSIZE) = tag DSIZE true /\
            GET (mem s) (heap_ptr s) = tag DSIZE true;
  lay_epi : GET (mem s) (mem_brk s - WSIZE) = tag 0 true;
  lay_tags : tags_ok (mem s) B
}.

(** Address of the head slot of class [i]. *)
Definition slot (s : state) (i : Z) : Z :=
  heap_ptr s - (LISTSIZE + 1 - i) * WSIZE.

(** The blocks of [l] are linked in this order: the predecessor word of the
    first is [prev], the successor word of the last is [last_succ]. *)
Fixpoint dlist (m : memory) (prev : Z) (l : list Z) (last_succ : Z) : Prop :=
  match l with
  | [] => True
  | b :: l' =>
      GET m b = prev /\ GET m (b + WSIZE) = hd last_succ l' /\
      dlist m b l' last_succ
  end.

(** The entries of a class list before the first one whose size is at least
    [size], and the entries from that one on. *)
Fixpoint list_before (size : Z) (l : list (Z * Z)) : list (Z * Z) :=
  match l with
  | [] => []
  | x :: l' => if size >? snd x then x :: list_before size l' else []
  end.

Fixpoint list_from (size : Z) (l : list (Z * Z)) : list (Z * Z) :=
  match l with
  | [] => []
  | x :: l' => if size >? snd x then list_from size l' else l
  end.

(** Splice [x] in immediately before the first entry at least as large. *)
Definition insert_by_size (x : Z * Z) (l : list (Z * Z)) : list (Z * Z) :=
  list_before (snd x) l ++ x :: list_from (snd x) l.

(** Take the entry with payload address [b] out. *)
Definition remove_block (b : Z) (l : list (Z * Z)) : list (Z * Z) :=
  filter (fun x => negb (fst x =? b)) l.

Definition class_ok (s : state) (B : list block) (i : Z) (l : list (Z * Z))
  : Prop :=
  GET (mem s) (slot s i) = hd 0 (map fst l) /\
  dlist (mem s) 0 (map fst l) 0 /\
  (forall b size, In (b, size) l -> In (b, size, false) B /\ index_of size = i) /\
  NoDup (map fst l) /\
  ascending l = true.

Definition lists_ok (s : state) (B : list block) (L : Z -> list (Z * Z)) : Prop :=
  forall i, 0 <= i < LISTSIZE -> class_ok s B i (L i).

(** Tags and lists are consistent; the lists may miss some free blocks. *)
Definition heap_rep (s : state) (B : list block) (L : Z -> list (Z * Z)) : Prop :=
  layout s B /\ lists_ok s B L.

(** Every free block is in the list of its class. *)
Definition complete (B : list block) (L : Z -> list (Z * Z)) : Prop :=
  forall b size, In (b, size, false) B -> In (b, size) (L (index_of size)).

(** The heap is consistent: some sequence of blocks and some class lists
    describe it. *)
Definition heap_ok (s : state) : Prop :=
  exists B L, heap_rep s B L /\ complete B L.

(** [p] is the payload address of an allocated block of [size] bytes of a
    consistent heap. *)
Definition allocated_block (s : state) (p size : Z) : Prop :=
  exists B L, heap_rep s B L /\ complete B L /\ In (p, size, true) B.

(** [p] is the payload address of a listed free block of [size] bytes of a
    consistent heap. *)
Definition free_block (s : state) (p size : Z) : Prop :=
  exists B L, heap_rep s B L /\ complete B L /\ In (p, size, false) B.

Definition upd (L : Z -> list (Z * Z)) (i : Z) (l : list (Z * Z))
  : Z -> list (Z * Z) :=
  fun j => if j =? i then l else L j.

(** The payload bytes of the allocated blocks of [B] are the same in [s']
    as in [s]. *)
Definition payload_frame (s s' : state) (B : list block) : Prop :=
  forall b size a, In (b, size, true) B -> b <= a < b + size - DSIZE ->
    mem s' a = mem s a.

(** Two words apart: eight-byte accesses at [a] and [q] do not overlap. *)
Definition disj (a q : Z) : Prop := a + 8 <= q \/ q + 8 <= a.

(** The bytes outside the head slot at [sl] and outside the two link words
    of the blocks [bs] are the same in [s'] as in [s]. *)
Definition touched_frame (s s' : state) (sl : Z) (bs : list Z) : Prop :=
  forall a, a < sl \/ sl + 8 <= a ->
    (forall b, In b bs -> a < b \/ b + 16 <= a) ->
    mem s' a = mem s a.

(** The bytes outside the head slots and outside the two link words of the
    free blocks of [B] are the same in [s'] as in [s]. *)
Definition links_frame (s s' : state) (B : list block) : Prop :=
  forall a, a < heap_ptr s - 136 \/ heap_ptr s - 8 <= a ->
    (forall b size, In (b, size, false) B -> a < b \/ b + 16 <= a) ->
    mem s' a = mem s a.

(** [b] is in no class list. *)
Definition unlisted (L : Z -> list (Z * Z)) (b : Z) : Prop :=
  forall i, 0 <= i < LISTSIZE -> ~ In b (map fst (L i)).

(** The lists after unlinking, and after linking in, a block of [size]. *)
Definition unlist (L : Z -> list (Z * Z)) (b size : Z) : Z -> list (Z * Z) :=
  upd L (index_of size) (remove_block b (L (index_of size))).

Definition enlist (L : Z -> list (Z * Z)) (b size : Z) : Z -> list (Z * Z) :=
  upd L (index_of size) (insert_by_size (b, size) (L (index_of size))).

(** Every free block is in the list of its class, save those at the
    addresses [X]. *)
Definition complete_except (B : list block) (L : Z -> list (Z * Z))
  (X : list Z) : Prop :=
  forall b size, In (b, size, false) B -> In b X \/ In (b, size) (L (index_of size)).

(** Fuel that covers any class list of the region. *)
Definition enough_fuel (s : state) (fuel : nat) : Prop :=
  (mem_max_addr s - mem_heap s) / 32 <= Z.of_nat fuel.

(** A heap in the middle of an operation: the lists miss exactly the blocks
    at the addresses [X], which are linked nowhere. *)
Definition wip (s : state) (B : list block) (L : Z -> list (Z * Z))
  (X : list Z) : Prop :=
  heap_rep s B L /\ complete_except B L X /\ forall x, In x X -> unlisted L x.

(** A block of a consistent heap that is free but, for the moment, in no
    class list; every other free block is listed. *)
Definition unlisted_block (s : state) (p size : Z) : Prop :=
  exists B L, wip s B L [p] /\ In (p, size, false) B.

(** A block as the walk over the implicit list reads it. *)
Definition block_words (x : block) : Z * Z * Z :=
  let '(b, size, alloc) := x in (b, size, if alloc then 1 else 0).

(** ** A region to run on

    A region of 29000 bytes at address 1000, initialised; then one and two
    requests of 16 bytes, and the release of the first. *)
Definition arena : state :=
  match mm_init 1000 (fresh 1000 30000) with
  | Some (s, _) => s
  | None => fresh 1000 30000
  end.

Definition arena_one : state * Z :=
  match mm_malloc 1000 arena 16 with
  | Some r => r
  | None => (arena, NULL)
  end.

Definition arena_two : state * Z :=
  match mm_malloc 1000 (fst arena_one) 16 with
  | Some r => r
  | None => (arena, NULL)
  end.

(** The first of the two blocks released again: an allocated block with a
    free block after it. *)
Definition arena_gap : state :=
  match mm_free 1000 (fst arena_two) 1272 with
  | Some s => s
  | None => arena
  end.

(** ** Tallies of the checker

    The free blocks of [B] as list entries, the bytes of its allocated
    blocks, the sum of [f] over a list of entries, and the entries of the
    classes [k .. k + n - 1] one list after the other. *)
Fixpoint free_entries (B : list block) : list (Z * Z) :=
  match B with
  | [] => []
  | (b, size, alloc) :: B' =>
      if alloc then free_entries B' else (b, size) :: free_entries B'
  end.

Fixpoint allocated_bytes (B : list block) : Z :=
  match B with
  | [] => 0
  | (_, size, alloc) :: B' => (if alloc then size else 0) + allocated_bytes B'
  end.

Fixpoint total (f : Z * Z -> Z) (l : list (Z * Z)) : Z :=
  match l with
  | [] => 0
  | x :: l' => f x + total f l'
  end.

Fixpoint listed (L : Z -> list (Z * Z)) (n : nat) (k : Z) : list (Z * Z) :=
  match n with
  | O => []
  | S n' => L k ++ listed L n' (k + 1)
  end.

(** ** Neighbouring free blocks and reachable states *)

(** No two neighbours of a sequence of flags are both [false]. *)
Fixpoint no_free_pair (l : list bool) : bool :=
  match l with
  | a1 :: ((a2 :: _) as l') => (a1 || a2) && no_free_pair l'
  | _ => true
  end.

(** No two blocks next to each other in [B] are both free. *)
Definition coalesced (B : list block) : bool := no_free_pair (map snd B).


(** ** Reachable states

    The states an application reaches, with the requests that are live:
    [mm_init] on an empty region that has room for it, then any sequence of
    [mm_malloc] with a size of at most [2^64 - 24] and of [mm_free] on a
    block that [mm_malloc] returned and that was not released since.
    [live] holds those blocks, each with the size asked for. *)
Inductive reachable (fuel : nat) : state -> list (Z * Z) -> Prop :=
| reach_init s0 s :
    mem_brk s0 = mem_heap s0 -> 0 <= mem_heap s0 ->
    mem_heap s0 + 304 <= mem_max_addr s0 ->
    mem_max_addr s0 - mem_heap s0 < 2 ^ 31 -> mem_max_addr s0 < 2 ^ 64 ->
    enough_fuel s0 fuel ->
    mm_init fuel s0 = Some (s, 0) -> reachable fuel s []
| reach_malloc s live size s' r :
    reachable fuel s live -> 0 <= size <= 2 ^ 64 - 24 ->
    mm_malloc fuel s size = Some (s', r) -> r <> NULL ->
    reachable fuel s' ((r, size) :: live)
| reach_malloc_null s live size s' :
    reachable fuel s live -> 0 <= size <= 2 ^ 64 - 24 ->
    mm_malloc fuel s size = Some (s', NULL) ->
    reachable fuel s' live
| reach_free s live p size s' :
    reachable fuel s live -> In (p, size) live ->
    mm_free fuel s p = Some s' ->
    reachable fuel s' (filter (fun x => negb (fst x =? p)) live).

(** [mm_free] up to its call of [coalesce]: the block is marked free and
    linked into its class list. *)
Definition mm_free_listed (fuel : nat) (s : state) (bp : Z) : option state :=
  let size := GET_SIZE (mem s) (HDRP bp) in
  let s := put s (HDRP bp) (PACK size 0) in
  let s := put s (FTRP (mem s) bp) (PACK size 0) in
  add_free fuel s bp size.

(** The block at 1240 of [arena_gap] as [mm_free] hands it to [coalesce]:
    free and listed, between the free blocks at 1160 and at 1272. *)
Definition arena_mid : state :=
  match mm_free_listed 1000 arena_gap 1240 with
  | Some s => s
  | None => arena
  end.

(** On [arena]: a request of 32 bytes, one of 16 bytes, and the release of
    the first; two free blocks of class 1 are left, of 48 and 64 bytes. *)
Definition arena_big : state * Z :=
  match mm_malloc 1000 arena 32 with
  | Some r => r
  | None => (arena, NULL)
  end.

Definition arena_big_small : state * Z :=
  match mm_malloc 1000 (fst arena_big) 16 with
  | Some r => r
  | None => (arena, NULL)
  end.

Definition arena_pair : state :=
  match mm_free 1000 (fst arena_big_small) (snd arena_big) with
  | Some s => s
  | None => arena
  end.

(** * Properties *)

(** ** Machine words *)

Lemma u64_range x : 0 <= u64 x < 2 ^ 64.
Proof. unfold u64. apply Z.mod_pos_bound. lia. Qed.

Lemma u64_small x : 0 <= x < 2 ^ 64 -> u64 x = x.
Proof. intros H. unfold u64. apply Z.mod_small. exact H. Qed.

Lemma s32_small x : - 2 ^ 31 <= x < 2 ^ 31 -> s32 x = x.
Proof. intros H. unfold s32. rewrite Z.mod_small; lia. Qed.

Lemma load_bytes_range n m p : 0 <= load_bytes n m p < 256 ^ Z.of_nat n.
Proof.
  revert p. induction n as [|n IH]; intros p.
  - simpl. lia.
  - rewrite Nat2Z.inj_succ, Z.pow_succ_r by lia.
    cbn [load_bytes]. specialize (IH (p + 1)).
    assert (0 <= m p mod 256 < 256) by (apply Z.mod_pos_bound; lia). lia.
Qed.

Lemma GET_range m p : 0 <= GET m p < 2 ^ 64.
Proof. unfold GET. pose proof (load_bytes_range 8 m p) as H. exact H. Qed.

Lemma load_store_same n : forall m p w k,
  0 <= k -> k + Z.of_nat n <= 8 ->
  load_bytes n (store_bytes m p w) (p + k) = (w / 256 ^ k) mod 256 ^ Z.of_nat n.
Proof.
  induction n as [|n IH]; intros m p w k Hk Hn.
  - simpl. now rewrite Z.mod_1_r.
  - rewrite Nat2Z.inj_succ, Z.pow_succ_r by lia. cbn [load_bytes].
    replace (p + k + 1) with (p + (k + 1)) by lia.
    rewrite IH by lia.
    unfold store_bytes at 1.
    replace ((p <=? p + k) && (p + k <? p + 8)) with true
      by (symmetry; apply andb_true_iff; split; [apply Z.leb_le|apply Z.ltb_lt]; lia).
    replace (p + k - p) with k by lia.
    rewrite Z.mod_mod by lia.
    rewrite Z.pow_add_r, Z.pow_1_r by lia.
    rewrite <- Z.div_div by lia.
    rewrite Z.rem_mul_r by lia. reflexivity.
Qed.

Lemma load_store_other n : forall m p w q,
  q + Z.of_nat n <= p \/ p + 8 <= q ->
  load_bytes n (store_bytes m p w) q = load_bytes n m q.
Proof.
  induction n as [|n IH]; intros m p w q H.
  - reflexivity.
  - rewrite Nat2Z.inj_succ in H. cbn [load_bytes].
    rewrite IH by lia. unfold store_bytes.
    replace ((p <=? q) && (q <? p + 8)) with false; [reflexivity|].
    symmetry. apply andb_false_iff.
    destruct H; [left; apply Z.leb_gt|right; apply Z.ltb_ge]; lia.
Qed.

Lemma GET_PUT_same m p v : GET (PUT m p v) p = u64 v.
Proof.
  unfold GET, PUT. replace p with (p + 0) at 2 by lia.
  rewrite load_store_same by lia.
  rewrite Z.pow_0_r, Z.div_1_r. change (256 ^ Z.of_nat 8) with (2 ^ 64).
  apply Z.mod_small. apply u64_range.
Qed.

Lemma GET_PUT_other m p v q :
  q + 8 <= p \/ p + 8 <= q -> GET (PUT m p v) q = GET m q.
Proof. intros H. unfold GET, PUT. apply load_store_other. exact H. Qed.

Lemma PUT_byte_other m p v a : a < p \/ p + 8 <= a -> PUT m p v a = m a.
Proof.
  intros H. unfold PUT, store_bytes.
  replace ((p <=? a) && (a <? p + 8)) with false; [reflexivity|].
  symmetry. apply andb_false_iff.
  destruct H; [left; apply Z.leb_gt|right; apply Z.ltb_ge]; lia.
Qed.

Lemma load_bytes_ext n : forall m m' p,
  (forall a, p <= a < p + Z.of_nat n -> m' a = m a) ->
  load_bytes n m' p = load_bytes n m p.
Proof.
  induction n as [|n IH]; intros m m' p H.
  - reflexivity.
  - rewrite Nat2Z.inj_succ in H. cbn [load_bytes].
    rewrite (H p) by lia. rewrite (IH m m' (p + 1)); [reflexivity|].
    intros a Ha. apply H. lia.
Qed.

Lemma GET_ext m m' p :
  (forall a, p <= a < p + 8 -> m' a = m a) -> GET m' p = GET m p.
Proof. intros H. unfold GET. apply load_bytes_ext. exact H. Qed.

(** ** Tags *)

Lemma mask_low3 w : 0 <= w < 2 ^ 64 -> Z.land w (u64 (Z.lnot 7)) = w / 8 * 8.
Proof.
  intros Hw.
  change (u64 (Z.lnot 7)) with (Z.land (Z.lnot 7) (Z.ones 64)).
  rewrite Z.land_assoc, (Z.land_comm w), <- Z.land_assoc.
  rewrite (Z.land_ones w 64) by lia. rewrite Z.mod_small by lia.
  rewrite Z.land_comm, <- Z.ldiff_land.
  change 7 with (Z.ones 3). rewrite Z.ldiff_ones_r by lia.
  rewrite Z.shiftr_div_pow2, Z.shiftl_mul_pow2 by lia. reflexivity.
Qed.

Lemma GET_SIZE_eq m p : GET_SIZE m p = GET m p / 8 * 8.
Proof. unfold GET_SIZE. apply mask_low3. apply GET_range. Qed.

Lemma GET_SIZE_range m p : 0 <= GET_SIZE m p < 2 ^ 64.
Proof.
  rewrite GET_SIZE_eq. pose proof (GET_range m p) as H.
  pose proof (Z.mul_div_le (GET m p) 8 ltac:(lia)) as H1.
  assert (0 <= GET m p / 8) by (apply Z.div_pos; lia). lia.
Qed.

Lemma GET_ALLOC_eq m p : GET_ALLOC m p = GET m p mod 2.
Proof. unfold GET_ALLOC. change 1 with (Z.ones 1). apply Z.land_ones. lia. Qed.

Lemma PACK_0 size : PACK size 0 = size.
Proof. apply Z.lor_0_r. Qed.

Lemma PACK_1 size : 0 <= size -> size mod 8 = 0 -> PACK size 1 = size + 1.
Proof.
  intros H0 H8. unfold PACK.
  assert (Hl : Z.land size 1 = 0).
  { change 1 with (Z.ones 1). rewrite Z.land_ones by lia.
    change (2 ^ 1) with 2.
    rewrite (Z.div_mod size 8) by lia. rewrite H8.
    replace (8 * (size / 8) + 0) with (size / 8 * 4 * 2) by lia.
    apply Z.mod_mul. lia. }
  pose proof (Z.add_lor_land size 1) as H. lia.
Qed.

(** ** Requests of size zero *)

(** C2 (as the code has it): [mm_realloc(bp, 0)] returns null at once and
    leaves the whole state as it was; the block is not released. *)
Theorem realloc_zero_returns_null_unchanged :
  forall (fuel : nat) (s : state) (bp : Z),
    mm_realloc fuel s bp 0 = Some (Returns (s, NULL)).
Proof. intros fuel s bp. reflexivity. Qed.

(** C2 (counterexample): after [mm_realloc(p, 0)] on a live 32-byte block
    the result is null, but the header of [p] still carries the allocated
    bit and class 0 (where a released 32-byte block would go) is empty. *)
Lemma realloc_zero_does_not_free :
  match resize_to_zero with
  | Some (s, p, s', r) =>
      GET_ALLOC (mem s) (HDRP p) = 1 /\ r = NULL /\
      GET_ALLOC (mem s') (HDRP p) = 1 /\ class_list 100 s' 0 = []
  | None => False
  end.
Proof. vm_compute. repeat split. Qed.

(** ** Alignment of sizes *)

Lemma ALIGN_mod size : ALIGN size mod ALIGNMENT = 0.
Proof.
  unfold ALIGN, ALIGNMENT.
  pose proof (u64_range (size + (8 - 1))) as Hr.
  pose proof (Z.mul_div_le (u64 (size + (8 - 1))) 8 ltac:(lia)) as Hle.
  assert (0 <= u64 (size + (8 - 1)) / 8) by (apply Z.div_pos; lia).
  rewrite u64_small by lia. apply Z.mod_mul. lia.
Qed.

Lemma align_size_mod size : align_size size mod ALIGNMENT = 0.
Proof.
  unfold align_size. destruct (size <=? DSIZE).
  - reflexivity.
  - apply ALIGN_mod.
Qed.

(** C5 (as the code has it): sizes are multiples of the word, not of the
    double word.  Whatever the state, the size read from a header or footer
    word is a multiple of [ALIGNMENT = WSIZE], and so is every result of
    [align_size]. *)
Theorem sizes_are_word_multiples :
  forall (s : state) (p size : Z),
    GET_SIZE (mem s) p mod WSIZE = 0 /\
    GET_SIZE (mem s) (FTRP (mem s) p) mod WSIZE = 0 /\
    align_size size mod WSIZE = 0.
Proof.
  intros s p size. repeat split.
  - rewrite GET_SIZE_eq. apply Z.mod_mul. unfold WSIZE. lia.
  - rewrite GET_SIZE_eq. apply Z.mod_mul. unfold WSIZE. lia.
  - apply align_size_mod.
Qed.

(** C5 (counterexample): [align_size 17] is 40, and after [mm_init] and
    [mm_malloc(17)] the header and the footer of the returned block record
    the size 40, which is not a multiple of the double word. *)
Lemma size_not_double_word_multiple :
  align_size 17 mod DSIZE <> 0 /\
  match mm_malloc 100 (heap0 100000) 17 with
  | Some (s, p) =>
      GET_SIZE (mem s) (HDRP p) = 40 /\
      GET_SIZE (mem s) (FTRP (mem s) p) = 40 /\
      GET_SIZE (mem s) (HDRP p) mod DSIZE <> 0
  | None => False
  end.
Proof. vm_compute. repeat split; discriminate. Qed.

(** ** Runs that break the contract *)

(** C1 (the code at the failing input): the block [p] lies between two
    allocated blocks, holds a pattern, and the region cannot grow.
    [mm_realloc(p, 200)] takes the relocate path; [mm_malloc] returns null
    and leaves the break and the block as they were; the result is not
    tested and [memcpy(NULL, p, 32)] faults.  The call does not return
    null: it does not return, and [mm_free(p)] is never reached. *)
Theorem realloc_failure_faults :
  match failed_resize with
  | Some (s, p, o) =>
      GET_ALLOC (mem s) (HDRP p) = 1 /\ GET_SIZE (mem s) (HDRP p) = 32 /\
      GET (mem s) p = pattern /\
      GET_ALLOC (mem s) (HDRP (NEXT_BLKP (mem s) p)) = 1 /\
      GET_SIZE (mem s) (HDRP (NEXT_BLKP (mem s) p)) <> 0 /\
      match mm_malloc 100 s (align_size 200) with
      | Some (s1, r) =>
          r = NULL /\ mem_brk s1 = mem_brk s /\
          GET_ALLOC (mem s1) (HDRP p) = 1 /\ GET (mem s1) p = pattern /\
          memcpy (mem s1) r p (GET_SIZE (mem s1) (HDRP p)) = Faults
      | None => False
      end /\
      o = Faults
  | None => False
  end.
Proof. vm_compute. repeat split; discriminate. Qed.

(** C4 (counterexample): on a fresh heap the three blocks are contiguous
    ([p3], [p2], [p1] in address order) and the allocation that follows the
    release of [p2] returns another address. *)
Lemma freed_middle_block_not_reused :
  match scenario_B 100 (heap0 100000) with
  | Some (p1, p2, p3, p4) =>
      p3 + 32 = p2 /\ p2 + 32 = p1 /\ p4 <> p2
  | None => False
  end.
Proof. vm_compute. repeat split; discriminate. Qed.

(** C6 (the code at the failing input): [mm_realloc] grows [a] in place over
    a free successor that does not end the heap; the heap is extended at its
    far end, yet the block is re-tagged as if the new space followed it, and
    it swallows the live block [b1].  Once [b1] and [b2] are released, the
    implicit list shows [b2] and the block after it both free. *)
Theorem free_leaves_adjacent_free_blocks :
  match grow_over_inner_free with
  | Some (s, a', b1, b2) =>
      heap_walk 100 s (heap_ptr s + DSIZE) =
        [(1160, 144, 1); (1304, 4112, 1); (a', 8224, 1);
         (b2, 4112, 0); (b2 + 4112, 4112, 0)] /\
      a' < b1 < a' + 8224 /\
      adjacent_free (heap_walk 100 s (heap_ptr s + DSIZE)) = true
  | None => False
  end.
Proof. vm_compute. repeat split. Qed.

(** C8 (the code at the failing input): the same in-place growth, when the
    block before the heap end has 4104 bytes, writes the footer of the grown
    block onto the header of the free block that [extend_heap] has just put
    at the head of class 8; the list then reads 8232 before 4112. *)
Theorem free_list_out_of_order :
  match grow_onto_listed_header with
  | Some (s, a') =>
      class_list 100 s 8 = [(13640, 8232); (1304, 4112)] /\
      FTRP (mem s) a' = HDRP 13640 /\
      ascending (class_list 100 s 8) = false
  | None => False
  end.
Proof. vm_compute. repeat split. Qed.

(** ** The candidate search of [mm_malloc] *)

Lemma find_first_index (f : Z -> bool) : forall n k i,
  find f (map Z.of_nat (seq k n)) = Some i ->
  Z.of_nat k <= i < Z.of_nat (k + n) /\ f i = true /\
  forall j, Z.of_nat k <= j < i -> f j = false.
Proof.
  induction n as [|n IH]; intros k i H.
  - discriminate.
  - cbn [seq map find] in H. destruct (f (Z.of_nat k)) eqn:Hk.
    + injection H as <-. repeat split; try lia. exact Hk.
    + apply IH in H. destruct H as (Hr & Hi & Hj).
      repeat split; try lia. exact Hi.
      intros j Hjr. destruct (Z.eq_dec j (Z.of_nat k)) as [->|Hne].
      * exact Hk.
      * apply Hj. lia.
Qed.

Lemma find_no_index (f : Z -> bool) : forall n k,
  find f (map Z.of_nat (seq k n)) = None ->
  forall j, Z.of_nat k <= j < Z.of_nat (k + n) -> f j = false.
Proof.
  induction n as [|n IH]; intros k H j Hj.
  - lia.
  - cbn [seq map find] in H. destruct (f (Z.of_nat k)) eqn:Hk.
    + discriminate.
    + destruct (Z.eq_dec j (Z.of_nat k)) as [->|Hne].
      * exact Hk.
      * apply (IH (S k) H). lia.
Qed.

Lemma find_fit_find s size : forall n k,
  find_fit n s (Z.of_nat k) size =
  match find (head_fits s size) (map Z.of_nat (seq k n)) with
  | Some i => GET (mem s) (freelists s i)
  | None => NULL
  end.
Proof.
  induction n as [|n IH]; intros k.
  - reflexivity.
  - cbn [find_fit seq map find]. unfold head_fits at 1.
    destruct (negb (GET (mem s) (freelists s (Z.of_nat k)) =? 0) &&
              (GET_SIZE (mem s) (HDRP (GET (mem s) (freelists s (Z.of_nat k)))) >? size)).
    + reflexivity.
    + replace (Z.of_nat k + 1) with (Z.of_nat (S k)) by lia. apply IH.
Qed.

Lemma head_fits_nonnull s size i :
  head_fits s size i = true -> (GET (mem s) (freelists s i) =? NULL) = false.
Proof.
  unfold head_fits. intros H. apply andb_true_iff in H. destruct H as [H _].
  now apply negb_true_iff in H.
Qed.

Lemma align_size_bound size : 0 <= align_size size <= 2 ^ 64 - 8.
Proof.
  pose proof (align_size_mod size) as Hm. unfold ALIGNMENT in Hm.
  assert (Hr : 0 <= align_size size < 2 ^ 64).
  { unfold align_size. destruct (size <=? DSIZE).
    - unfold DSIZE, WSIZE. lia.
    - unfold ALIGN. apply u64_range. }
  apply Z.mod_divide in Hm; [|lia]. destruct Hm as [q Hq]. lia.
Qed.

Lemma ALIGN_id size : 0 <= size <= 2 ^ 64 - 8 -> size mod 8 = 0 -> ALIGN size = size.
Proof.
  intros Hr Hm. unfold ALIGN, ALIGNMENT.
  rewrite (u64_small (size + (8 - 1))) by lia.
  apply Z.mod_divide in Hm; [|lia]. destruct Hm as [q Hq]. subst size.
  replace (q * 8 + (8 - 1)) with (7 + q * 8) by lia.
  rewrite Z.div_add by lia. change (7 / 8) with 0.
  apply u64_small. lia.
Qed.

Lemma MAX_cases x y : (MAX x y = x /\ y <= x) \/ (MAX x y = y /\ x <= y).
Proof. unfold MAX. destruct (x >? y) eqn:H; [left|right]; split; lia. Qed.

Lemma ALIGN_growth size :
  ALIGN (MAX (align_size size) CHUNKSIZE) = MAX (align_size size) CHUNKSIZE.
Proof.
  pose proof (align_size_bound size) as Hb.
  pose proof (align_size_mod size) as Hm. unfold ALIGNMENT in Hm.
  destruct (MAX_cases (align_size size) CHUNKSIZE) as [[-> _]|[-> _]].
  - apply ALIGN_id; assumption.
  - reflexivity.
Qed.

(** The region fields do not move under the list and tag updates. *)

Lemma same_region_refl s : same_region s s.
Proof. repeat split. Qed.

Lemma same_region_trans s1 s2 s3 :
  same_region s1 s2 -> same_region s2 s3 -> same_region s1 s3.
Proof. unfold same_region. intuition congruence. Qed.

Lemma same_region_put s p v : same_region s (put s p v).
Proof. repeat split. Qed.

Lemma same_region_set_mem s m : same_region s (set_mem s m).
Proof. repeat split. Qed.

Lemma same_region_pop_free s bp : same_region s (pop_free s bp).
Proof.
  unfold pop_free.
  repeat match goal with |- context [if ?b then _ else _] => destruct b end;
    repeat split.
Qed.

Lemma same_region_add_free fuel s bp size s' :
  add_free fuel s bp size = Some s' -> same_region s s'.
Proof.
  unfold add_free, bind.
  destruct (add_free_walk fuel (mem s) size _ _) as [[c p]|]; [|discriminate].
  repeat match goal with |- context [if ?b then _ else _] => destruct b end;
    intros H; injection H as <-; repeat split.
Qed.

Lemma same_region_coalesce_prev s size bp :
  same_region s (fst (fst (coalesce_prev s size bp))).
Proof.
  unfold coalesce_prev. cbv zeta. cbn [fst].
  eapply same_region_trans; [apply same_region_pop_free|].
  eapply same_region_trans; apply same_region_put.
Qed.

Lemma same_region_coalesce_next s size bp :
  same_region s (fst (coalesce_next s size bp)).
Proof.
  unfold coalesce_next. cbv zeta. cbn [fst].
  eapply same_region_trans; [apply same_region_pop_free|].
  eapply same_region_trans; apply same_region_put.
Qed.

Lemma same_region_coalesce fuel s bp s' r :
  coalesce fuel s bp = Some (s', r) -> same_region s s'.
Proof.
  unfold coalesce.
  destruct (truth (lnot (lnot (GET_ALLOC (mem s) (HDRP (PREV_BLKP (mem s) bp))))) &&
            truth (lnot (lnot (GET_ALLOC (mem s) (HDRP (NEXT_BLKP (mem s) bp)))))).
  - intros H. injection H as <- _. apply same_region_refl.
  - cbv zeta.
    pose proof (same_region_pop_free s bp) as H1.
    destruct (truth (lnot (GET_ALLOC (mem s) (HDRP (PREV_BLKP (mem s) bp))))).
    + pose proof (same_region_coalesce_prev (pop_free s bp)
                    (s32 (GET_SIZE (mem s) (HDRP bp))) bp) as H2.
      destruct (coalesce_prev (pop_free s bp) (s32 (GET_SIZE (mem s) (HDRP bp))) bp)
        as [[s1 size1] bp1]. cbn [fst] in H2.
      destruct (truth (lnot (GET_ALLOC (mem s) (HDRP (NEXT_BLKP (mem s) bp))))).
      * pose proof (same_region_coalesce_next s1 size1 bp1) as H3.
        destruct (coalesce_next s1 size1 bp1) as [s2 size2]. cbn [fst] in H3.
        unfold bind. destruct (add_free fuel s2 bp1 (u64 size2)) as [s3|] eqn:Ha;
          [|discriminate].
        intros H. injection H as <- _. apply same_region_add_free in Ha.
        eauto using same_region_trans.
      * unfold bind. destruct (add_free fuel s1 bp1 (u64 size1)) as [s3|] eqn:Ha;
          [|discriminate].
        intros H. injection H as <- _. apply same_region_add_free in Ha.
        eauto using same_region_trans.
    + destruct (truth (lnot (GET_ALLOC (mem s) (HDRP (NEXT_BLKP (mem s) bp))))).
      * pose proof (same_region_coalesce_next (pop_free s bp)
                      (s32 (GET_SIZE (mem s) (HDRP bp))) bp) as H3.
        destruct (coalesce_next (pop_free s bp) (s32 (GET_SIZE (mem s) (HDRP bp))) bp)
          as [s2 size2]. cbn [fst] in H3.
        unfold bind. destruct (add_free fuel s2 bp (u64 size2)) as [s3|] eqn:Ha;
          [|discriminate].
        intros H. injection H as <- _. apply same_region_add_free in Ha.
        eauto using same_region_trans.
      * unfold bind.
        destruct (add_free fuel (pop_free s bp) bp
                    (u64 (s32 (GET_SIZE (mem s) (HDRP bp))))) as [s3|] eqn:Ha;
          [|discriminate].
        intros H. injection H as <- _. apply same_region_add_free in Ha.
        eauto using same_region_trans.
Qed.

Lemma extend_heap_brk fuel s size s' r :
  extend_heap fuel s size = Some (s', r) -> r <> NULL ->
  mem_brk s' = mem_brk s + ALIGN size.
Proof.
  unfold extend_heap, mem_sbrk.
  destruct (mem_brk s + ALIGN size >? mem_max_addr s).
  - rewrite Z.eqb_refl. intros H. injection H as _ <-. congruence.
  - destruct (mem_brk s =? SBRK_FAIL).
    + intros H. injection H as _ <-. congruence.
    + cbv zeta. unfold bind.
      match goal with |- context [add_free ?f ?t ?b ?z] =>
        destruct (add_free f t b z) as [t'|] eqn:Ha; [|discriminate] end.
      intros H _. apply same_region_coalesce in H. apply same_region_add_free in Ha.
      destruct H as (_ & _ & H & _). destruct Ha as (_ & _ & Ha & _).
      rewrite H, Ha. reflexivity.
Qed.

(** ** The size check of [mm_check] *)

Lemma u64_decomp x : exists k, u64 x = x + k * 2 ^ 64.
Proof.
  exists (- (x / 2 ^ 64)). unfold u64.
  pose proof (Z.div_mod x (2 ^ 64) ltac:(lia)) as H. lia.
Qed.

Lemma GET_SIZE_mult m p : exists q, GET_SIZE m p = 8 * q.
Proof. exists (GET m p / 8). rewrite GET_SIZE_eq. lia. Qed.

(** Where the walk of the checker stops, and what it has then added up:
    it stops at an address [final] at or past the last heap byte, a
    multiple of 8 away from its start; the two byte counts have grown by
    [final - bp] modulo [2^64]. *)
Lemma check_walk_end s : forall fuel bp count consec pld fre count' pld' fre',
  0 <= bp < 2 ^ 64 ->
  check_walk fuel s bp count consec pld fre = Some (Some (count', pld', fre')) ->
  exists final j k,
    mem_heap_hi s <= final < 2 ^ 64 /\ final - bp = 8 * j /\
    pld' + fre' = pld + fre + (final - bp) + k * 2 ^ 64.
Proof.
  induction fuel as [|fuel IH]; intros bp count consec pld fre count' pld' fre' Hbp H.
  - cbn [check_walk] in H. rewrite (u64_small bp Hbp) in H.
    destruct (bp <? mem_heap_hi s) eqn:Hlt; [discriminate|].
    injection H as _ <- <-. exists bp, 0, 0. apply Z.ltb_ge in Hlt. lia.
  - cbn [check_walk] in H. rewrite (u64_small bp Hbp) in H.
    destruct (bp <? mem_heap_hi s) eqn:Hlt.
    + set (sz := GET_SIZE (mem s) (HDRP bp)) in *.
      destruct (GET_SIZE_mult (mem s) (HDRP bp)) as [q Hq]. fold sz in Hq.
      assert (Hnext : NEXT_BLKP (mem s) bp = u64 (bp + sz)) by reflexivity.
      rewrite Hnext in H.
      destruct (u64_decomp (bp + sz)) as [k1 Hk1].
      pose proof (u64_range (bp + sz)) as Hr1.
      destruct (GET_ALLOC (mem s) (HDRP bp) =? 0).
      * destruct (s32 (consec + 1) >=? 2); [discriminate|].
        apply IH in H; [|exact Hr1].
        destruct H as (final & j & k & Hf & Hj & Hsum).
        destruct (u64_decomp (fre + sz)) as [k2 Hk2].
        exists final, (j + q + k1 * 2 ^ 61), (k - k1 + k2).
        split; [exact Hf|]. split; lia.
      * destruct (consec >=? 2); [discriminate|].
        apply IH in H; [|exact Hr1].
        destruct H as (final & j & k & Hf & Hj & Hsum).
        destruct (u64_decomp (pld + sz)) as [k2 Hk2].
        exists final, (j + q + k1 * 2 ^ 61), (k - k1 + k2).
        split; [exact Hf|]. split; lia.
    + injection H as _ <- <-. exists bp, 0, 0. apply Z.ltb_ge in Hlt. lia.
Qed.

(** On a heap laid out by [mm_init], the total of the checker is a multiple
    of 8 that is at least the heap size. *)
Lemma check_walk_total fuel s count count' pld fre :
  0 <= mem_heap s ->
  heap_ptr s = mem_heap s + (LISTSIZE + 2) * WSIZE ->
  heap_ptr s <= mem_brk s < 2 ^ 64 ->
  (mem_brk s - mem_heap s) mod WSIZE = 0 ->
  check_walk fuel s (heap_ptr s) count 0 0 0 = Some (Some (count', pld, fre)) ->
  mem_heapsize s <= u64 (u64 (fre + pld) + (LISTSIZE + 2) * WSIZE).
Proof.
  unfold LISTSIZE, WSIZE. intros Hlo Hhp Hbrk Hmod H.
  apply check_walk_end in H; [|lia].
  destruct H as (final & j & k & Hf & Hj & Hsum).
  unfold mem_heap_hi in Hf. rewrite u64_small in Hf by lia.
  unfold mem_heapsize. rewrite (u64_small (mem_brk s - mem_heap s)) by lia.
  apply Z.mod_divide in Hmod; [|lia]. destruct Hmod as [h Hh].
  destruct (u64_decomp (fre + pld)) as [k1 Hk1].
  destruct (u64_decomp (u64 (fre + pld) + (16 + 2) * 8)) as [k2 Hk2].
  pose proof (u64_range (u64 (fre + pld) + (16 + 2) * 8)) as Hr.
  lia.
Qed.

(** C10: on a heap laid out by [mm_init] ([heap_ptr] stands [LISTSIZE + 2]
    words above the heap start, and the heap size is a multiple of the word,
    as every request to [mem_sbrk] is), whenever the two tallies of the
    checker end and the sum [fre_size_explicit + pld_size + (LISTSIZE+2) *
    WSIZE] differs from [mem_heapsize()], [mm_check] returns 0; and when
    [mm_check] returns 1 the tallies exist and the sum equals the heap size.
    The test in the code is [>], but a walk that ends has covered the heap,
    so the sum is never below the heap size. *)
Theorem checker_rejects_wrong_total :
  forall (fuel : nat) (s : state),
    0 <= mem_heap s ->
    heap_ptr s = mem_heap s + (LISTSIZE + 2) * WSIZE ->
    heap_ptr s <= mem_brk s < 2 ^ 64 ->
    (mem_brk s - mem_heap s) mod WSIZE = 0 ->
    (forall count fre_size_explicit count' pld_size fre_size_implicit,
       check_lists (Z.to_nat LISTSIZE) fuel s 0 0 0 =
         Some (Some (count, fre_size_explicit)) ->
       check_walk fuel s (heap_ptr s) count 0 0 0 =
         Some (Some (count', pld_size, fre_size_implicit)) ->
       u64 (u64 (fre_size_explicit + pld_size) + (LISTSIZE + 2) * WSIZE)
         <> mem_heapsize s ->
       mm_check fuel s = Some 0) /\
    (mm_check fuel s = Some 1 ->
     exists count fre_size count' pld_size,
       check_lists (Z.to_nat LISTSIZE) fuel s 0 0 0 = Some (Some (count, fre_size)) /\
       check_walk fuel s (heap_ptr s) count 0 0 0 =
         Some (Some (count', pld_size, fre_size)) /\
       u64 (u64 (fre_size + pld_size) + (LISTSIZE + 2) * WSIZE) = mem_heapsize s).
Proof.
  intros fuel s Hlo Hhp Hbrk Hmod. split.
  - intros count fe count' pld fi Hl Hw Hne. unfold mm_check.
    destruct (_ || _); [reflexivity|].
    destruct (_ || _); [reflexivity|].
    rewrite Hl. cbn [bind]. rewrite Hw. cbn [bind].
    destruct (count' <? 0); [reflexivity|].
    destruct (count' >? 0); [reflexivity|].
    destruct (fe =? fi) eqn:He; [|reflexivity]. cbn [negb].
    apply Z.eqb_eq in He. subst fi.
    pose proof (check_walk_total _ _ _ _ _ _ Hlo Hhp Hbrk Hmod Hw) as Hge.
    destruct (_ >? _) eqn:Hgt; [reflexivity|]. lia.
  - unfold mm_check.
    destruct (_ || _); [discriminate|].
    destruct (_ || _); [discriminate|].
    destruct (check_lists (Z.to_nat LISTSIZE) fuel s 0 0 0) as [[[count fe]|]|];
      cbn [bind]; try discriminate.
    destruct (check_walk fuel s (heap_ptr s) count 0 0 0) as [[[[count' pld] fi]|]|]
      eqn:Hw; cbn [bind]; try discriminate.
    destruct (count' <? 0); [discriminate|].
    destruct (count' >? 0); [discriminate|].
    destruct (fe =? fi) eqn:He; [|discriminate]. cbn [negb].
    apply Z.eqb_eq in He. subst fi.
    destruct (_ >? _) eqn:Hgt; [discriminate|]. intros _.
    pose proof (check_walk_total _ _ _ _ _ _ Hlo Hhp Hbrk Hmod Hw) as Hge.
    exists count, fe, count', pld.
    split; [reflexivity|]. split; [exact Hw|]. lia.
Qed.

Lemma checker_rejects_wrong_total_witness :
  mm_check 100 (heap0 100000) = Some 1 /\
  exists count fre_size count' pld_size,
    check_lists (Z.to_nat LISTSIZE) 100 (heap0 100000) 0 0 0 =
      Some (Some (count, fre_size)) /\
    check_walk 100 (heap0 100000) (heap_ptr (heap0 100000)) count 0 0 0 =
      Some (Some (count', pld_size, fre_size)) /\
    u64 (u64 (fre_size + pld_size) + (LISTSIZE + 2) * WSIZE) =
      mem_heapsize (heap0 100000).
Proof.
  assert (H1 : mm_check 100 (heap0 100000) = Some 1) by (vm_compute; reflexivity).
  split; [exact H1|].
  refine (proj2 (checker_rejects_wrong_total 100 (heap0 100000) _ _ _ _) H1).
  - vm_compute. discriminate.
  - vm_compute. reflexivity.
  - vm_compute. split; [discriminate|reflexivity].
  - vm_compute. reflexivity.
Defined.

(** ** The block sequence *)

Ltac consts :=
  unfold CHUNKSIZE, INITSIZE, DSIZE, WSIZE, LISTSIZE, THRESHOLD, ALIGNMENT, NULL in *.

Lemma chain_app B1 : forall p B2 e,
  chain p (B1 ++ B2) e <-> exists q, chain p B1 q /\ chain q B2 e.
Proof.
  induction B1 as [|[[b sz] al] B1 IH]; intros p B2 e; cbn [app chain].
  - split.
    + intros H. exists p. split; [reflexivity|exact H].
    + intros (q & -> & H). exact H.
  - rewrite IH. split.
    + intros (Hb & Hs & Hm & q & H1 & H2). exists q. tauto.
    + intros (q & (Hb & Hs & Hm & H1) & H2). repeat split; try assumption.
      exists q. tauto.
Qed.

Lemma chain_le B : forall p e, chain p B e -> p <= e.
Proof.
  induction B as [|[[b sz] al] B IH]; intros p e H; cbn [chain] in H.
  - lia.
  - destruct H as (_ & Hs & _ & H). apply IH in H. consts. lia.
Qed.

Lemma chain_in B : forall p e b sz al,
  chain p B e -> In (b, sz, al) B ->
  p <= b /\ b + sz <= e /\ 32 <= sz /\ sz mod 8 = 0.
Proof.
  induction B as [|[[b0 sz0] al0] B IH]; intros p e b sz al H Hin.
  - destruct Hin.
  - cbn [chain] in H. destruct H as (Hb & Hs & Hm & H).
    destruct Hin as [Heq|Hin].
    + injection Heq as -> -> ->. apply chain_le in H. consts. lia.
    + apply (IH _ _ _ _ _ H) in Hin. consts. lia.
Qed.

(** Two entries of the sequence are the same entry or occupy disjoint
    address ranges. *)
Lemma chain_sep B : forall p e b1 sz1 al1 b2 sz2 al2,
  chain p B e -> In (b1, sz1, al1) B -> In (b2, sz2, al2) B ->
  (b1, sz1, al1) = (b2, sz2, al2) \/ b1 + sz1 <= b2 \/ b2 + sz2 <= b1.
Proof.
  induction B as [|[[b0 sz0] al0] B IH]; intros p e b1 sz1 al1 b2 sz2 al2 H H1 H2.
  - destruct H1.
  - cbn [chain] in H. destruct H as (Hb & Hs & Hm & H).
    destruct H1 as [E1|H1]; destruct H2 as [E2|H2].
    + left. congruence.
    + injection E1 as -> -> ->. apply (chain_in _ _ _ _ _ _ H) in H2. right. left. lia.
    + injection E2 as -> -> ->. apply (chain_in _ _ _ _ _ _ H) in H1. right. right. lia.
    + eapply IH; eassumption.
Qed.

Lemma chain_same_addr B p e b sz1 al1 sz2 al2 :
  chain p B e -> In (b, sz1, al1) B -> In (b, sz2, al2) B ->
  sz1 = sz2 /\ al1 = al2.
Proof.
  intros H H1 H2.
  pose proof (chain_in _ _ _ _ _ _ H H1). pose proof (chain_in _ _ _ _ _ _ H H2).
  destruct (chain_sep _ _ _ _ _ _ _ _ _ H H1 H2) as [E|[?|?]]; try lia.
  injection E as -> ->. tauto.
Qed.

(** ** Reading tags *)

Lemma tag_size m p sz al :
  GET m p = tag sz al -> 0 <= sz -> sz mod 8 = 0 -> GET_SIZE m p = sz.
Proof.
  intros H H0 Hm. rewrite GET_SIZE_eq, H. unfold tag.
  apply Z.mod_divide in Hm; [|lia]. destruct Hm as [q ->].
  destruct al.
  - replace (q * 8 + 1) with (1 + q * 8) by lia. rewrite Z.div_add by lia.
    change (1 / 8) with 0. lia.
  - rewrite Z.add_0_r, Z.div_mul by lia. reflexivity.
Qed.

Lemma tag_alloc m p sz al :
  GET m p = tag sz al -> sz mod 8 = 0 -> GET_ALLOC m p = if al then 1 else 0.
Proof.
  intros H Hm. rewrite GET_ALLOC_eq, H. unfold tag.
  apply Z.mod_divide in Hm; [|lia]. destruct Hm as [q ->].
  destruct al.
  - replace (q * 8 + 1) with (1 + q * 4 * 2) by lia. rewrite Z.mod_add by lia.
    reflexivity.
  - replace (q * 8 + 0) with (0 + q * 4 * 2) by lia. rewrite Z.mod_add by lia.
    reflexivity.
Qed.

Lemma PACK_tag sz (al : bool) :
  0 <= sz -> sz mod 8 = 0 -> PACK sz (if al then 1 else 0) = tag sz al.
Proof.
  intros H0 Hm. unfold tag. destruct al.
  - apply PACK_1; assumption.
  - rewrite PACK_0. lia.
Qed.

(** ** Facts read off a layout *)

Lemma layout_block s B b sz al :
  layout s B -> In (b, sz, al) B ->
  heap_ptr s + 16 <= b /\ b + sz <= mem_brk s /\ 32 <= sz /\ sz mod 8 = 0.
Proof.
  intros [] Hin. apply (chain_in _ _ _ _ _ _ lay_chain0) in Hin. consts. lia.
Qed.

Lemma layout_range s B :
  layout s B ->
  0 <= mem_heap s /\ heap_ptr s = mem_heap s + 144 /\
  heap_ptr s + 16 <= mem_brk s /\ mem_brk s <= mem_max_addr s /\
  mem_max_addr s - mem_heap s < 2 ^ 31 /\ mem_max_addr s < 2 ^ 64.
Proof.
  intros []. apply chain_le in lay_chain0. consts. lia.
Qed.

Lemma layout_tag s B b sz al :
  layout s B -> In (b, sz, al) B ->
  GET (mem s) (b - 8) = tag sz al /\ GET (mem s) (b + sz - 16) = tag sz al.
Proof. intros [] Hin. apply lay_tags0 in Hin. exact Hin. Qed.

Lemma layout_same_region s s' B :
  same_region s s' -> mem s' = mem s -> layout s B -> layout s' B.
Proof.
  intros (H1 & H2 & H3 & H4) Hm []. constructor; rewrite ?H1, ?H2, ?H3, ?H4, ?Hm;
    assumption.
Qed.

Lemma slot_eq s i : 0 <= heap_ptr s - 136 -> heap_ptr s < 2 ^ 64 -> 0 <= i < 16 ->
  freelists s i = slot s i.
Proof.
  intros H1 H2 Hi. unfold freelists, slot. apply u64_small. consts. lia.
Qed.

Lemma slot_val s i : slot s i = heap_ptr s - 136 + 8 * i.
Proof. unfold slot. consts. lia. Qed.

(** ** Linked lists in memory *)

Lemma dlist_ext m m' : forall l prev e,
  (forall b, In b l -> GET m' b = GET m b /\ GET m' (b + WSIZE) = GET m (b + WSIZE)) ->
  dlist m prev l e -> dlist m' prev l e.
Proof.
  induction l as [|b l IH]; intros prev e Hext H.
  - exact I.
  - cbn [dlist] in *. destruct H as (H1 & H2 & H3).
    destruct (Hext b (or_introl eq_refl)) as [E1 E2].
    rewrite E1, E2. repeat split; try assumption.
    apply IH; [|exact H3]. intros b' Hb'. apply Hext. now right.
Qed.

Lemma last_cons_default (l : list Z) : forall b d, last (b :: l) d = last l b.
Proof.
  induction l as [|c l IH]; intros b d; [reflexivity|].
  change (last (b :: c :: l) d) with (last (c :: l) d).
  now rewrite (IH c d), (IH c b).
Qed.

Lemma dlist_app m : forall l1 l2 prev e,
  dlist m prev (l1 ++ l2) e <->
  dlist m prev l1 (hd e l2) /\ dlist m (last l1 prev) l2 e.
Proof.
  induction l1 as [|b l1 IH]; intros l2 prev e.
  - cbn. tauto.
  - cbn [app dlist]. rewrite IH.
    assert (Hhd : hd e (l1 ++ l2) = hd (hd e l2) l1) by (destruct l1; reflexivity).
    rewrite Hhd, last_cons_default. tauto.
Qed.

Lemma last_in (l : list Z) d : l <> [] -> In (last l d) l.
Proof.
  induction l as [|b l IH]; intros H; [congruence|].
  destruct l as [|c l]; [now left|]. right. apply IH. discriminate.
Qed.

Lemma last_nonempty_default (l : list Z) d d' : l <> [] -> last l d = last l d'.
Proof.
  induction l as [|b l IH]; intros H; [congruence|].
  destruct l as [|c l]; [reflexivity|]. apply IH. discriminate.
Qed.

(** Re-pointing the successor word of the last block. *)
Lemma dlist_change_end m m' : forall l prev e e',
  l <> [] -> NoDup l -> dlist m prev l e ->
  (forall b, In b l -> GET m' b = GET m b) ->
  (forall b, In b l -> b <> last l 0 -> GET m' (b + WSIZE) = GET m (b + WSIZE)) ->
  GET m' (last l 0 + WSIZE) = e' ->
  dlist m' prev l e'.
Proof.
  induction l as [|b l IH]; intros prev e e' Hne Hnd H Hp Hs He; [congruence|].
  cbn [dlist] in *. destruct H as (H1 & H2 & H3).
  apply NoDup_cons_iff in Hnd. destruct Hnd as [Hnotin Hnd'].
  destruct l as [|c l].
  - cbn [last hd] in *. rewrite (Hp b) by (now left).
    split; [exact H1|]. split; [exact He|exact I].
  - rewrite (Hp b) by (now left). split; [exact H1|].
    assert (Hl : last (b :: c :: l) 0 = last (c :: l) 0) by reflexivity.
    split.
    + rewrite Hs; [exact H2|now left|]. rewrite Hl. intros E.
      apply Hnotin. rewrite E. apply last_in. discriminate.
    + apply (IH b e e'); try assumption; try discriminate.
      * intros b' Hb'. apply Hp. now right.
      * intros b' Hb' Hneq. apply Hs; [now right|]. rewrite Hl. exact Hneq.
Qed.

(** Re-pointing the predecessor word of the first block. *)
Lemma dlist_change_prev m m' : forall l prev prev' e,
  l <> [] -> NoDup l -> dlist m prev l e ->
  (forall b, In b l -> GET m' (b + WSIZE) = GET m (b + WSIZE)) ->
  (forall b, In b l -> b <> hd 0 l -> GET m' b = GET m b) ->
  GET m' (hd 0 l) = prev' ->
  dlist m' prev' l e.
Proof.
  intros [|b l] prev prev' e Hne Hnd H Hs Hp He; [congruence|].
  cbn [dlist hd] in *. destruct H as (H1 & H2 & H3).
  apply NoDup_cons_iff in Hnd. destruct Hnd as [Hnotin Hnd'].
  split; [exact He|]. split.
  - rewrite Hs by (now left). exact H2.
  - apply (dlist_ext m); [|exact H3]. intros b' Hb'. split.
    + apply Hp; [now right|]. intros ->. contradiction.
    + apply Hs. now right.
Qed.

(** ** Splitting a class list at a size *)

Lemma before_from size l : list_before size l ++ list_from size l = l.
Proof.
  induction l as [|x l IH]; [reflexivity|]. cbn [list_before list_from].
  destruct (size >? snd x); [cbn; now rewrite IH|reflexivity].
Qed.

Lemma list_before_lt size l x : In x (list_before size l) -> snd x < size.
Proof.
  induction l as [|y l IH]; [contradiction|]. cbn [list_before].
  destruct (size >? snd y) eqn:H; [|contradiction].
  intros [<-|Hin]; [lia|]. apply IH. exact Hin.
Qed.

Lemma list_from_hd size l x l' : list_from size l = x :: l' -> size <= snd x.
Proof.
  induction l as [|y l IH]; [discriminate|]. cbn [list_from].
  destruct (size >? snd y) eqn:H; [exact IH|].
  intros E. injection E as <- _. lia.
Qed.

(** The loop of [add_free] stops at the first entry at least as large as
    [size], with the entry before it as predecessor. *)
Lemma add_free_walk_spec m size : forall l fuel prev pred,
  dlist m prev (map fst l) 0 ->
  (forall b sz, In (b, sz) l ->
     GET_SIZE m (HDRP b) = sz /\ b <> 0 /\ 0 <= b + WSIZE < 2 ^ 64) ->
  (length l <= fuel)%nat ->
  add_free_walk fuel m size (hd 0 (map fst l)) pred =
  Some (hd 0 (map fst (list_from size l)),
        last (map fst (list_before size l)) pred).
Proof.
  induction l as [|[b sz] l IH]; intros fuel prev pred Hd Hl Hf.
  - destruct fuel; reflexivity.
  - cbn [map fst hd list_from list_before snd].
    destruct (Hl b sz (or_introl eq_refl)) as (Hsz & Hb & Hr).
    assert (Hstep : negb (b =? NULL) && (size >? GET_SIZE m (HDRP b)) = (size >? sz)).
    { rewrite Hsz. replace (b =? NULL) with false; [reflexivity|].
      symmetry. apply Z.eqb_neq. exact Hb. }
    destruct fuel as [|fuel].
    + cbn in Hf. lia.
    + cbn [add_free_walk]. rewrite Hstep.
      destruct (size >? sz) eqn:Hgt.
      * cbn [dlist map fst] in Hd. destruct Hd as (_ & Hs & Hd).
        unfold SUCC_BLKP. rewrite u64_small by exact Hr. rewrite Hs.
        cbn [map fst]. rewrite last_cons_default.
        apply (IH fuel b b); [exact Hd| |cbn in Hf; lia].
        intros b' sz' Hin. apply Hl. now right.
      * reflexivity.
Qed.

Lemma ascending_app l1 : forall l2,
  ascending (l1 ++ l2) = true ->
  ascending l1 = true /\ ascending l2 = true.
Proof.
  induction l1 as [|[b1 s1] l1 IH]; intros l2 H.
  - split; [reflexivity|exact H].
  - destruct l1 as [|[b2 s2] l1].
    + split; [reflexivity|]. cbn [app ascending] in H.
      destruct l2 as [|[b2 s2] l2]; [reflexivity|].
      apply andb_true_iff in H. tauto.
    + cbn [app ascending] in H. apply andb_true_iff in H. destruct H as [H1 H2].
      apply (IH l2) in H2. destruct H2 as [H2 H3]. split; [|exact H3].
      cbn [ascending]. apply andb_true_iff. tauto.
Qed.

Lemma ascending_join l1 : forall l2,
  ascending l1 = true -> ascending l2 = true ->
  (forall x y, In x l1 -> In y l2 -> snd x <= snd y) ->
  ascending (l1 ++ l2) = true.
Proof.
  induction l1 as [|[b1 s1] l1 IH]; intros l2 H1 H2 H.
  - exact H2.
  - destruct l1 as [|[b2 s2] l1].
    + cbn [app]. destruct l2 as [|[b2 s2] l2]; [reflexivity|].
      cbn [ascending]. apply andb_true_iff. split; [|exact H2].
      apply Z.leb_le. apply (H (b1, s1) (b2, s2)); now left.
    + cbn [app ascending] in *. apply andb_true_iff in H1. destruct H1 as [Ha Hb].
      apply andb_true_iff. split; [exact Ha|].
      apply IH; try assumption. intros x y Hx Hy. apply H; [now right|exact Hy].
Qed.

Lemma ascending_head b s l x :
  ascending ((b, s) :: l) = true -> In x l -> s <= snd x.
Proof.
  revert b s. induction l as [|[b2 s2] l IH]; intros b s H Hin; [contradiction|].
  cbn [ascending] in H. apply andb_true_iff in H. destruct H as [H1 H2].
  apply Z.leb_le in H1. destruct Hin as [<-|Hin]; [exact H1|].
  specialize (IH b2 s2 H2 Hin). lia.
Qed.

Lemma insert_ascending x l :
  ascending l = true -> ascending (insert_by_size x l) = true.
Proof.
  intros H. unfold insert_by_size.
  rewrite <- (before_from (snd x) l) in H. apply ascending_app in H.
  destruct H as [H1 H2].
  apply ascending_join; [exact H1| |].
  - destruct x as [b s]. cbn [snd] in *.
    destruct (list_from s l) as [|[b2 s2] l2] eqn:E.
    + reflexivity.
    + cbn [ascending].
      apply andb_true_iff. split; [|exact H2].
      apply Z.leb_le. apply (list_from_hd _ _ _ _ E).
  - intros y z Hy [<-|Hz].
    + apply list_before_lt in Hy. lia.
    + apply list_before_lt in Hy.
      destruct (list_from (snd x) l) as [|[b2 s2] l2] eqn:E; [contradiction|].
      pose proof (list_from_hd _ _ _ _ E) as Hh. cbn [snd] in Hh.
      destruct Hz as [<-|Hz]; [cbn [snd]; lia|].
      pose proof (ascending_head _ _ _ _ H2 Hz). lia.
Qed.

(** ** Frames *)

Lemma touched_refl s sl bs : touched_frame s s sl bs.
Proof. intros a _ _. reflexivity. Qed.

Lemma touched_trans s1 s2 s3 sl bs :
  touched_frame s1 s2 sl bs -> touched_frame s2 s3 sl bs ->
  touched_frame s1 s3 sl bs.
Proof. intros H1 H2 a Ha Hb. rewrite H2, H1; auto. Qed.

Lemma touched_put_slot s v sl bs : touched_frame s (put s sl v) sl bs.
Proof. intros a Ha _. cbn. apply PUT_byte_other. lia. Qed.

Lemma touched_put_link s p v sl bs b :
  In b bs -> p = b \/ p = b + 8 -> touched_frame s (put s p v) sl bs.
Proof.
  intros Hin Hp a _ Hb. cbn. apply PUT_byte_other. specialize (Hb b Hin). lia.
Qed.

Lemma touched_put_after s s1 p v sl bs :
  touched_frame s s1 sl bs ->
  p = sl \/ (exists b, In b bs /\ (p = b \/ p = b + 8)) ->
  touched_frame s (put s1 p v) sl bs.
Proof.
  intros H Hp a Ha Hb. cbn. rewrite PUT_byte_other; [now apply H|].
  destruct Hp as [->|(b & Hin & Hp)]; [lia|]. specialize (Hb b Hin). lia.
Qed.

Ltac tf_slot := apply touched_put_after; [|now left].
Ltac tf_link b :=
  apply touched_put_after;
  [|right; exists b; split;
    [first [now left|right; assumption|idtac]|first [now left|now right]]].

Lemma NoDup_app_disj (l1 l2 : list Z) b :
  NoDup (l1 ++ l2) -> In b l1 -> In b l2 -> False.
Proof.
  induction l1 as [|c l1 IH]; intros Hnd H1 H2; [contradiction|].
  cbn [app] in Hnd. apply NoDup_cons_iff in Hnd. destruct Hnd as [Hnotin Hnd].
  destruct H1 as [->|H1].
  - apply Hnotin. apply in_or_app. now right.
  - now apply IH.
Qed.

Lemma NoDup_app_l (l1 l2 : list Z) : NoDup (l1 ++ l2) -> NoDup l1.
Proof.
  induction l1 as [|c l1 IH]; intros Hnd; [constructor|].
  cbn [app] in Hnd. apply NoDup_cons_iff in Hnd. destruct Hnd as [Hnotin Hnd].
  constructor; [|now apply IH]. intros Hin. apply Hnotin. apply in_or_app. now left.
Qed.

Lemma NoDup_app_r (l1 l2 : list Z) : NoDup (l1 ++ l2) -> NoDup l2.
Proof.
  induction l1 as [|c l1 IH]; intros Hnd; [exact Hnd|].
  cbn [app] in Hnd. apply NoDup_cons_iff in Hnd. now apply IH.
Qed.

Lemma NoDup_insert (l1 l2 : list Z) x :
  NoDup (l1 ++ l2) -> ~ In x (l1 ++ l2) -> NoDup (l1 ++ x :: l2).
Proof.
  induction l1 as [|c l1 IH]; intros Hnd Hx.
  - constructor; assumption.
  - cbn [app] in *. apply NoDup_cons_iff in Hnd. destruct Hnd as [Hnotin Hnd].
    constructor.
    + intros Hin. apply in_app_or in Hin. destruct Hin as [Hin|[->|Hin]].
      * apply Hnotin. apply in_or_app. now left.
      * apply Hx. now left.
      * apply Hnotin. apply in_or_app. now right.
    + apply IH; [exact Hnd|]. intros Hin. apply Hx. now right.
Qed.

(** Linking a block in between [l1] and [l2]. *)
Lemma dlist_insert m m' l1 l2 bp :
  NoDup (l1 ++ l2) -> dlist m 0 (l1 ++ l2) 0 ->
  GET m' bp = last l1 0 -> GET m' (bp + WSIZE) = hd 0 l2 ->
  (l1 <> [] -> GET m' (last l1 0 + WSIZE) = bp) ->
  (l2 <> [] -> GET m' (hd 0 l2) = bp) ->
  (forall b, In b (l1 ++ l2) -> b <> hd 0 l2 \/ l2 = [] -> GET m' b = GET m b) ->
  (forall b, In b (l1 ++ l2) -> b <> last l1 0 \/ l1 = [] ->
     GET m' (b + WSIZE) = GET m (b + WSIZE)) ->
  dlist m' 0 (l1 ++ bp :: l2) 0.
Proof.
  intros Hnd Hd Hp Hs Hl1 Hl2 Hpred Hsucc.
  apply dlist_app in Hd. destruct Hd as [Hd1 Hd2].
  apply dlist_app. cbn [hd dlist]. split; [|split; [exact Hp|split; [exact Hs|]]].
  - destruct l1 as [|c l1]; [exact I|].
    assert (Hne : c :: l1 <> []) by discriminate.
    apply (dlist_change_end m m' _ _ (hd 0 l2)); try assumption.
    + eapply NoDup_app_l; eassumption.
    + intros b Hb. apply Hpred; [apply in_or_app; now left|].
      destruct l2 as [|d l2]; [now right|left]. intros ->.
      apply (NoDup_app_disj _ _ _ Hnd Hb). now left.
    + intros b Hb Hneq. apply Hsucc; [apply in_or_app; now left|now left].
    + now apply Hl1.
  - destruct l2 as [|d l2]; [exact I|].
    assert (Hne : d :: l2 <> []) by discriminate.
    apply (dlist_change_prev m m' _ (last l1 0)); try assumption.
    + eapply NoDup_app_r; eassumption.
    + intros b Hb. apply Hsucc; [apply in_or_app; now right|].
      destruct l1 as [|c l1]; [now right|left]. intros ->.
      apply (NoDup_app_disj _ _ (last (c :: l1) 0) Hnd); [|exact Hb].
      apply last_in. discriminate.
    + intros b Hb Hneq. apply Hpred; [apply in_or_app; now right|now left].
    + now apply Hl2.
Qed.

(** Unlinking the block between [l1] and [l2]. *)
Lemma dlist_remove m m' l1 l2 bp :
  NoDup (l1 ++ bp :: l2) -> dlist m 0 (l1 ++ bp :: l2) 0 ->
  (l1 <> [] -> GET m' (last l1 0 + WSIZE) = hd 0 l2) ->
  (l2 <> [] -> GET m' (hd 0 l2) = last l1 0) ->
  (forall b, In b (l1 ++ l2) -> b <> hd 0 l2 \/ l2 = [] -> GET m' b = GET m b) ->
  (forall b, In b (l1 ++ l2) -> b <> last l1 0 \/ l1 = [] ->
     GET m' (b + WSIZE) = GET m (b + WSIZE)) ->
  dlist m' 0 (l1 ++ l2) 0.
Proof.
  intros Hnd Hd Hl1 Hl2 Hpred Hsucc.
  apply dlist_app in Hd. cbn [hd dlist] in Hd. destruct Hd as (Hd1 & _ & _ & Hd2).
  assert (Hnd1 : NoDup l1) by (eapply NoDup_app_l; eassumption).
  assert (Hnd2 : NoDup l2).
  { apply NoDup_app_r in Hnd. apply NoDup_cons_iff in Hnd. tauto. }
  assert (Hdisj : forall b, In b l1 -> In b l2 -> False).
  { intros b H1 H2. apply (NoDup_app_disj _ _ b Hnd H1). now right. }
  apply dlist_app. split.
  - destruct l1 as [|c l1]; [exact I|].
    assert (Hne : c :: l1 <> []) by discriminate.
    apply (dlist_change_end m m' _ _ bp); try assumption.
    + intros b Hb. apply Hpred; [apply in_or_app; now left|].
      destruct l2 as [|d l2]; [now right|left]. intros ->.
      apply (Hdisj d Hb). now left.
    + intros b Hb Hneq. apply Hsucc; [apply in_or_app; now left|now left].
    + now apply Hl1.
  - destruct l2 as [|d l2]; [exact I|].
    assert (Hne : d :: l2 <> []) by discriminate.
    apply (dlist_change_prev m m' _ bp); try assumption.
    + intros b Hb. apply Hsucc; [apply in_or_app; now right|].
      destruct l1 as [|c l1]; [now right|left]. intros ->.
      apply (Hdisj (last (c :: l1) 0)); [|exact Hb]. apply last_in. discriminate.
    + intros b Hb Hneq. apply Hpred; [apply in_or_app; now right|now left].
    + now apply Hl2.
Qed.

(** ** Addresses of listed blocks *)

Lemma blocks_apart s B b1 sz1 al1 b2 sz2 al2 :
  layout s B -> In (b1, sz1, al1) B -> In (b2, sz2, al2) B ->
  b1 = b2 \/ b1 + 32 <= b2 \/ b2 + 32 <= b1.
Proof.
  intros Hlay H1 H2. destruct Hlay.
  pose proof (chain_in _ _ _ _ _ _ lay_chain0 H1).
  pose proof (chain_in _ _ _ _ _ _ lay_chain0 H2).
  destruct (chain_sep _ _ _ _ _ _ _ _ _ lay_chain0 H1 H2) as [E|[?|?]]; try lia.
  injection E as -> _ _. now left.
Qed.

Lemma class_member s B i l b :
  class_ok s B i l -> In b (map fst l) ->
  exists sz, In (b, sz) l /\ In (b, sz, false) B /\ index_of sz = i.
Proof.
  intros (_ & _ & Hm & _) Hin. apply in_map_iff in Hin.
  destruct Hin as ([b' sz] & <- & Hin). exists sz. cbn [fst].
  destruct (Hm _ _ Hin). tauto.
Qed.

Lemma hd_nonzero (l : list Z) : (forall b, In b l -> b <> 0) -> (hd 0 l = 0 <-> l = []).
Proof.
  intros H. destruct l as [|b l]; [tauto|]. cbn [hd]. split.
  - intros E. exfalso. apply (H b); [now left|exact E].
  - discriminate.
Qed.

(** ** [add_free] *)

Lemma freelists_put s p v i : freelists (put s p v) i = freelists s i.
Proof. reflexivity. Qed.

Lemma slot_put s p v i : slot (put s p v) i = slot s i.
Proof. reflexivity. Qed.

Lemma mem_put s p v : mem (put s p v) = PUT (mem s) p v.
Proof. reflexivity. Qed.

Ltac gput :=
  repeat first [ rewrite GET_PUT_same | rewrite GET_PUT_other by lia ].

(** Sizes and addresses of the entries of a class list. *)
Lemma class_entries s B i l :
  layout s B -> class_ok s B i l ->
  forall b, In b (map fst l) ->
    heap_ptr s + 16 <= b /\ b + 32 <= mem_brk s /\
    exists sz, In (b, sz) l /\ In (b, sz, false) B /\ index_of sz = i /\
      GET_SIZE (mem s) (HDRP b) = sz.
Proof.
  intros Hlay Hc b Hb. pose proof (layout_range _ _ Hlay) as Hr.
  destruct (class_member _ _ _ _ _ Hc Hb) as (sz & Hin & HB & Hidx).
  pose proof (layout_block _ _ _ _ _ Hlay HB) as Hbr.
  split; [lia|]. split; [lia|]. exists sz. repeat split; try assumption.
  unfold HDRP. consts. rewrite u64_small by lia.
  apply (tag_size _ _ _ false); [|lia|tauto].
  apply (layout_tag _ _ _ _ _ Hlay HB).
Qed.

Lemma class_apart s B i l b b' :
  layout s B -> class_ok s B i l ->
  In b (map fst l) -> In b' (map fst l) ->
  b = b' \/ b + 32 <= b' \/ b' + 32 <= b.
Proof.
  intros Hlay Hc Hb Hb'.
  destruct (class_member _ _ _ _ _ Hc Hb) as (sz & _ & HB & _).
  destruct (class_member _ _ _ _ _ Hc Hb') as (sz' & _ & HB' & _).
  eapply blocks_apart; eassumption.
Qed.

Lemma add_free_spec fuel s B i l bp size :
  layout s B -> 0 <= i < 16 -> class_ok s B i l -> index_of size = i ->
  In (bp, size, false) B -> ~ In bp (map fst l) -> (length l <= fuel)%nat ->
  exists s', add_free fuel s bp size = Some s' /\ same_region s s' /\
    class_ok s' B i (insert_by_size (bp, size) l) /\
    touched_frame s s' (slot s i) (bp :: map fst l).
Proof.
  intros Hlay Hi Hc Hidx Hbp Hnin Hfuel.
  pose proof (layout_range _ _ Hlay) as Hr.
  pose proof (layout_block _ _ _ _ _ Hlay Hbp) as Hbpr.
  pose proof (class_entries _ _ _ _ Hlay Hc) as Hent.
  pose proof (class_apart s B i l) as Hap.
  specialize (fun b b' => Hap b b' Hlay Hc).
  assert (Hapbp : forall b, In b (map fst l) -> b + 32 <= bp \/ bp + 32 <= b).
  { intros b Hb. destruct (class_member _ _ _ _ _ Hc Hb) as (sz & _ & HB & _).
    destruct (blocks_apart _ _ _ _ _ _ _ _ Hlay HB Hbp) as [->|?]; [contradiction|lia]. }
  destruct Hc as (Hhead & Hd & Hmem & Hnd & Hasc).
  pose proof (slot_val s i) as Hsl.
  (* the parts of the result that do not depend on memory *)
  assert (Hmem' : forall b sz, In (b, sz) (insert_by_size (bp, size) l) ->
                    In (b, sz, false) B /\ index_of sz = i).
  { intros b sz Hin. unfold insert_by_size in Hin. cbn [snd] in Hin.
    apply in_app_or in Hin. destruct Hin as [Hin|[E|Hin]].
    - apply Hmem. rewrite <- (before_from size l). apply in_or_app. now left.
    - injection E as <- <-. tauto.
    - apply Hmem. rewrite <- (before_from size l). apply in_or_app. now right. }
  assert (Hasc' := insert_ascending (bp, size) l Hasc).
  assert (HL : map fst l = map fst (list_before size l) ++ map fst (list_from size l)).
  { rewrite <- map_app, before_from. reflexivity. }
  assert (HL' : map fst (insert_by_size (bp, size) l) =
                map fst (list_before size l) ++ bp :: map fst (list_from size l)).
  { unfold insert_by_size. cbn [snd]. rewrite map_app. reflexivity. }
  set (L1 := map fst (list_before size l)) in *.
  set (L2 := map fst (list_from size l)) in *.
  assert (Hnd' : NoDup (map fst (insert_by_size (bp, size) l))).
  { rewrite HL'. apply NoDup_insert; rewrite <- HL; assumption. }
  assert (Hnz : forall b, In b (map fst l) -> b <> 0).
  { intros b Hb. specialize (Hent b Hb). lia. }
  (* the walk *)
  assert (Hwalk : add_free_walk fuel (mem s) size (hd 0 (map fst l)) (hd 0 (map fst l))
                  = Some (hd 0 L2, last L1 (hd 0 (map fst l)))).
  { apply (add_free_walk_spec _ _ l fuel 0); [exact Hd| |exact Hfuel].
    intros b sz Hin.
    assert (Hb : In b (map fst l)) by (apply in_map_iff; exists (b, sz); tauto).
    destruct (Hent b Hb) as (H1 & H2 & sz' & Hin' & HB & _ & Hsz).
    destruct (Hmem _ _ Hin) as [HB2 _].
    destruct Hlay. destruct (chain_same_addr _ _ _ _ _ _ _ _ lay_chain0 HB HB2) as [-> _].
    consts. repeat split; [exact Hsz|lia|lia|lia]. }
  unfold add_free. rewrite Hidx. rewrite (slot_eq s i) by lia. rewrite Hhead.
  replace (if hd 0 (map fst l) =? 0 then NULL else hd 0 (map fst l))
    with (hd 0 (map fst l))
    by (unfold NULL; destruct (Z.eqb_spec (hd 0 (map fst l)) 0); congruence).
  rewrite Hwalk. cbn [bind]. rewrite !freelists_put, (slot_eq s i) by lia.
  assert (Hcases : (L1 = [] /\ L2 = []) \/ (L1 <> [] /\ L2 = []) \/
                   (L1 = [] /\ L2 <> []) \/ (L1 <> [] /\ L2 <> [])).
  { destruct L1, L2; [left|right; right; left|right; left|right; right; right];
      split; congruence. }
  consts. rewrite !(u64_small (bp + 8)) by lia.
  destruct Hcases as [[E1 E2]|[[E1 E2]|[[E1 E2]|[E1 E2]]]].
  - (* the list is empty *)
    assert (El : map fst l = []) by (rewrite HL, E1, E2; reflexivity).
    rewrite El in *. cbn [hd]. rewrite Z.eqb_refl.
    eexists. split; [reflexivity|]. split; [repeat split|]. split.
    + split; [|split; [|split; [exact Hmem'|split; [exact Hnd'|exact Hasc']]]].
      * rewrite !slot_put, !mem_put, HL', E1, E2. cbn [hd app]. rewrite Hsl.
        gput. apply u64_small. lia.
      * rewrite HL', E1, E2. cbn [app dlist hd]. rewrite !mem_put. consts.
        gput. rewrite !u64_small by lia. tauto.
    + tf_slot. tf_link bp. tf_link bp. apply touched_refl.
  - (* at the tail *)
    assert (Hne : map fst l <> []) by (rewrite HL, E2, app_nil_r; exact E1).
    assert (Hh : hd 0 (map fst l) <> 0).
    { intros E. apply (hd_nonzero _ Hnz) in E. contradiction. }
    replace (hd 0 (map fst l) =? 0) with false by (symmetry; now apply Z.eqb_neq).
    rewrite E2. cbn [hd]. rewrite Z.eqb_refl.
    rewrite (last_nonempty_default L1 _ 0 E1).
    assert (Hpin : In (last L1 0) (map fst l)).
    { rewrite HL. apply in_or_app. left. now apply last_in. }
    pose proof (Hent _ Hpin) as (Hp1 & Hp2 & _). pose proof (Hapbp _ Hpin) as Hp3.
    rewrite (u64_small (last L1 0 + 8)) by lia.
    eexists. split; [reflexivity|]. split; [repeat split|]. split.
    + split; [|split; [|split; [exact Hmem'|split; [exact Hnd'|exact Hasc']]]].
      * rewrite !slot_put, !mem_put. rewrite Hsl. gput.
        rewrite <- Hsl, Hhead, HL', HL, E2. destruct L1; [congruence|reflexivity].
      * rewrite HL'. rewrite !mem_put.
        apply (dlist_insert (mem s)); rewrite <- ?HL; try assumption; consts.
        -- gput. apply u64_small. lia.
        -- gput. rewrite E2. reflexivity.
        -- intros _. gput. apply u64_small. lia.
        -- intros C. rewrite E2 in C. congruence.
        -- intros b Hb _. pose proof (Hent _ Hb) as (? & ? & _).
           pose proof (Hapbp _ Hb). pose proof (Hap b (last L1 0) Hb Hpin).
           gput. reflexivity.
        -- intros b Hb [Hneq|C]; [|congruence]. pose proof (Hent _ Hb) as (? & ? & _).
           pose proof (Hapbp _ Hb). pose proof (Hap b (last L1 0) Hb Hpin).
           gput. reflexivity.
    + tf_link (last L1 0). tf_link bp. tf_link bp. apply touched_refl.
  - (* at the head *)
    assert (Hne : map fst l <> []) by (rewrite HL, E1; exact E2).
    assert (Hh : hd 0 (map fst l) <> 0).
    { intros E. apply (hd_nonzero _ Hnz) in E. contradiction. }
    replace (hd 0 (map fst l) =? 0) with false by (symmetry; now apply Z.eqb_neq).
    assert (Hhd : hd 0 L2 = hd 0 (map fst l)) by (rewrite HL, E1; reflexivity).
    rewrite Hhd. replace (hd 0 (map fst l) =? 0) with false by (symmetry; now apply Z.eqb_neq).
    rewrite Z.eqb_refl.
    assert (Hcin : In (hd 0 (map fst l)) (map fst l)).
    { destruct (map fst l); [congruence|now left]. }
    pose proof (Hent _ Hcin) as (Hc1 & Hc2 & _). pose proof (Hapbp _ Hcin) as Hc3.
    eexists. split; [reflexivity|]. split; [repeat split|]. split.
    + split; [|split; [|split; [exact Hmem'|split; [exact Hnd'|exact Hasc']]]].
      * rewrite !slot_put, !mem_put. rewrite Hsl. gput.
        rewrite HL', E1. cbn [app hd]. apply u64_small. lia.
      * rewrite HL'. rewrite !mem_put.
        apply (dlist_insert (mem s)); rewrite <- ?HL; try assumption; consts;
          rewrite ?Hhd, ?Hsl.
        -- gput. rewrite E1. reflexivity.
        -- gput. apply u64_small. lia.
        -- intros C. congruence.
        -- intros _. gput. apply u64_small. lia.
        -- intros b Hb [Hneq|C]; [|congruence]. pose proof (Hent _ Hb) as (? & ? & _).
           pose proof (Hapbp _ Hb). pose proof (Hap b _ Hb Hcin).
           gput. reflexivity.
        -- intros b Hb _. pose proof (Hent _ Hb) as (? & ? & _).
           pose proof (Hapbp _ Hb). pose proof (Hap b _ Hb Hcin).
           gput. reflexivity.
    + tf_slot. tf_link (hd 0 (map fst l)). tf_link bp. tf_link bp. apply touched_refl.
  - (* in the middle *)
    assert (Hne : map fst l <> []).
    { rewrite HL. destruct L1; [congruence|discriminate]. }
    assert (Hh : hd 0 (map fst l) <> 0).
    { intros E. apply (hd_nonzero _ Hnz) in E. contradiction. }
    replace (hd 0 (map fst l) =? 0) with false by (symmetry; now apply Z.eqb_neq).
    rewrite (last_nonempty_default L1 _ 0 E1).
    assert (Hpin : In (last L1 0) (map fst l)).
    { rewrite HL. apply in_or_app. left. now apply last_in. }
    assert (Hcin : In (hd 0 L2) (map fst l)).
    { rewrite HL. apply in_or_app. right. destruct L2; [congruence|now left]. }
    pose proof (Hent _ Hpin) as (Hp1 & Hp2 & _). pose proof (Hapbp _ Hpin) as Hp3.
    pose proof (Hent _ Hcin) as (Hc1 & Hc2 & _). pose proof (Hapbp _ Hcin) as Hc3.
    assert (Hcne : hd 0 L2 <> hd 0 (map fst l)).
    { rewrite HL. intros E.
      apply (NoDup_app_disj L1 L2 (hd 0 L2)).
      - rewrite <- HL. exact Hnd.
      - rewrite E. destruct L1; [congruence|now left].
      - destruct L2; [congruence|now left]. }
    assert (Hpc : last L1 0 + 32 <= hd 0 L2 \/ hd 0 L2 + 32 <= last L1 0).
    { destruct (Hap _ _ Hpin Hcin) as [E|?]; [|lia]. exfalso.
      apply (NoDup_app_disj L1 L2 (hd 0 L2)).
      - rewrite <- HL. exact Hnd.
      - rewrite <- E. now apply last_in.
      - destruct L2; [congruence|now left]. }
    replace (hd 0 L2 =? 0) with false by (symmetry; apply Z.eqb_neq; lia).
    replace (hd 0 L2 =? hd 0 (map fst l)) with false by (symmetry; now apply Z.eqb_neq).
    rewrite (u64_small (last L1 0 + 8)) by lia.
    eexists. split; [reflexivity|]. split; [repeat split|]. split.
    + split; [|split; [|split; [exact Hmem'|split; [exact Hnd'|exact Hasc']]]].
      * rewrite !slot_put, !mem_put. rewrite Hsl. gput.
        rewrite <- Hsl, Hhead, HL', HL. destruct L1; [congruence|reflexivity].
      * rewrite HL'. rewrite !mem_put.
        apply (dlist_insert (mem s)); rewrite <- ?HL; try assumption; consts.
        -- gput. apply u64_small. lia.
        -- gput. apply u64_small. lia.
        -- intros _. gput. apply u64_small. lia.
        -- intros _. gput. apply u64_small. lia.
        -- intros b Hb [Hneq|C]; [|congruence]. pose proof (Hent _ Hb) as (? & ? & _).
           pose proof (Hapbp _ Hb). pose proof (Hap b _ Hb Hcin).
           pose proof (Hap b _ Hb Hpin). gput. reflexivity.
        -- intros b Hb [Hneq|C]; [|congruence]. pose proof (Hent _ Hb) as (? & ? & _).
           pose proof (Hapbp _ Hb). pose proof (Hap b _ Hb Hcin).
           pose proof (Hap b _ Hb Hpin). gput. reflexivity.
    + tf_link (last L1 0). tf_link (hd 0 L2). tf_link bp. tf_link bp. apply touched_refl.
Qed.

(** ** [pop_free] *)

Lemma ascending_pairwise l1 : forall l2 y z,
  ascending (l1 ++ l2) = true -> In y l1 -> In z l2 -> snd y <= snd z.
Proof.
  induction l1 as [|[b s] l1 IH]; intros l2 y z H Hy Hz; [contradiction|].
  destruct Hy as [<-|Hy].
  - cbn [snd]. apply (ascending_head b s (l1 ++ l2) z H). apply in_or_app. now right.
  - apply (IH l2); try assumption.
    cbn [app] in H. destruct (l1 ++ l2) as [|[b2 s2] r]; [reflexivity|].
    cbn [ascending] in H. apply andb_true_iff in H. tauto.
Qed.

Lemma ascending_remove l1 x l2 :
  ascending (l1 ++ x :: l2) = true -> ascending (l1 ++ l2) = true.
Proof.
  intros H. pose proof (ascending_app _ _ H) as [H1 H2].
  apply ascending_join; [exact H1| |].
  - destruct x as [b s]. destruct l2 as [|[b2 s2] l2]; [reflexivity|].
    cbn [ascending] in H2. apply andb_true_iff in H2. tauto.
  - intros y z Hy Hz. apply (ascending_pairwise l1 (x :: l2)); try assumption.
    now right.
Qed.

Lemma remove_block_notin b l : ~ In b (map fst l) -> remove_block b l = l.
Proof.
  induction l as [|[c s] l IH]; intros H; [reflexivity|].
  cbn [remove_block filter fst]. cbn [map fst In] in H.
  replace (c =? b) with false by (symmetry; apply Z.eqb_neq; tauto).
  cbn [negb]. unfold remove_block in IH. rewrite IH by tauto. reflexivity.
Qed.

Lemma remove_block_split b size la lb :
  NoDup (map fst (la ++ (b, size) :: lb)) ->
  remove_block b (la ++ (b, size) :: lb) = la ++ lb.
Proof.
  intros Hnd. rewrite map_app in Hnd. cbn [map fst] in Hnd.
  unfold remove_block. rewrite filter_app. cbn [filter fst].
  rewrite Z.eqb_refl. cbn [negb].
  fold (remove_block b la). fold (remove_block b lb).
  rewrite !remove_block_notin; [reflexivity| |].
  - apply NoDup_app_r in Hnd. apply NoDup_cons_iff in Hnd. tauto.
  - intros Hin. apply (NoDup_app_disj _ _ b Hnd Hin). now left.
Qed.

Lemma remove_block_in b l x : In x (remove_block b l) -> In x l /\ fst x <> b.
Proof.
  unfold remove_block. intros H. apply filter_In in H. destruct H as [H1 H2].
  split; [exact H1|]. apply negb_true_iff in H2. now apply Z.eqb_neq.
Qed.

Lemma pop_free_spec s B i l bp size :
  layout s B -> 0 <= i < 16 -> class_ok s B i l -> In (bp, size) l ->
  class_ok (pop_free s bp) B i (remove_block bp l) /\
  touched_frame s (pop_free s bp) (slot s i) (map fst l).
Proof.
  intros Hlay Hi Hc Hin.
  pose proof (layout_range _ _ Hlay) as Hr.
  pose proof (class_entries _ _ _ _ Hlay Hc) as Hent.
  pose proof (class_apart s B i l) as Hap.
  specialize (fun b b' => Hap b b' Hlay Hc).
  assert (Hbpin : In bp (map fst l)) by (apply in_map_iff; exists (bp, size); tauto).
  destruct (Hent _ Hbpin) as (Hb1 & Hb2 & sz & Hin' & HB & Hidx & Hsz).
  destruct Hc as (Hhead & Hd & Hmem & Hnd & Hasc).
  pose proof (slot_val s i) as Hsl.
  destruct (in_split _ _ Hin) as (la & lb & El). subst l.
  rewrite (remove_block_split _ _ _ _ Hnd).
  assert (Hsame : sz = size).
  { destruct (Hmem _ _ Hin) as [HB2 _]. destruct Hlay.
    now destruct (chain_same_addr _ _ _ _ _ _ _ _ lay_chain0 HB HB2). }
  rewrite Hsame in Hsz, Hidx, HB. clear Hin' Hsame sz.
  rewrite map_app in *. cbn [map fst] in *.
  set (L1 := map fst la) in *. set (L2 := map fst lb) in *.
  assert (Hmem' : forall b sz, In (b, sz) (la ++ lb) ->
                    In (b, sz, false) B /\ index_of sz = i).
  { intros b sz Hb. apply Hmem. apply in_app_or in Hb. apply in_or_app.
    destruct Hb; [now left|right; now right]. }
  assert (Hnd' : NoDup (L1 ++ L2)).
  { clear - Hnd. induction L1 as [|c L1 IH]; cbn [app] in *.
    - apply NoDup_cons_iff in Hnd. tauto.
    - apply NoDup_cons_iff in Hnd. destruct Hnd as [Hn Hnd]. constructor.
      + intros Hc. apply Hn. apply in_app_or in Hc. apply in_or_app.
        destruct Hc; [now left|right; now right].
      + now apply IH. }
  assert (Hasc' := ascending_remove _ _ _ Hasc).
  assert (Hsub : forall b, In b (L1 ++ L2) -> In b (L1 ++ bp :: L2)).
  { intros b Hb. apply in_app_or in Hb. apply in_or_app.
    destruct Hb; [now left|right; now right]. }
  assert (Hne_bp : forall b, In b (L1 ++ L2) -> b + 32 <= bp \/ bp + 32 <= b).
  { intros b Hb. destruct (Hap b bp (Hsub b Hb) Hbpin) as [->|?]; [|lia].
    exfalso. apply in_app_or in Hb. destruct Hb as [Hb|Hb].
    - apply (NoDup_app_disj _ _ bp Hnd Hb). now left.
    - apply NoDup_app_r in Hnd. apply NoDup_cons_iff in Hnd. tauto. }
  pose proof Hd as Hd0.
  apply dlist_app in Hd0. cbn [hd dlist] in Hd0.
  destruct Hd0 as (_ & Hpred & Hsucc & _). consts.
  assert (Hnz : forall b, In b (L1 ++ L2) -> b <> 0).
  { intros b Hb. specialize (Hent b (Hsub b Hb)). lia. }
  unfold pop_free. rewrite Hsz, Hidx. unfold PRED_BLKP, SUCC_BLKP. consts.
  rewrite ?mem_put, ?freelists_put, (slot_eq s i) by lia.
  rewrite (u64_small (bp + 8)) by lia.
  assert (Hcases : (L1 = [] /\ L2 = []) \/ (L1 <> [] /\ L2 = []) \/
                   (L1 = [] /\ L2 <> []) \/ (L1 <> [] /\ L2 <> [])).
  { destruct L1, L2; [left|right; right; left|right; left|right; right; right];
      split; congruence. }
  assert (Hl1 : L1 <> [] -> In (last L1 0) (L1 ++ L2)).
  { intros H. apply in_or_app. left. now apply last_in. }
  assert (Hl2 : L2 <> [] -> In (hd 0 L2) (L1 ++ L2)).
  { intros H. apply in_or_app. right. destruct L2; [congruence|now left]. }
  assert (Hp0 : last L1 0 = 0 <-> L1 = []).
  { split; [|intros ->; reflexivity]. intros E.
    destruct L1 as [|c L1]; [reflexivity|]. exfalso.
    apply (Hnz (last (c :: L1) 0)); [apply Hl1; discriminate|exact E]. }
  assert (Hs0 : hd 0 L2 = 0 <-> L2 = []).
  { split; [|intros ->; reflexivity]. intros E.
    destruct L2 as [|c L2]; [reflexivity|]. exfalso.
    apply (Hnz (hd 0 (c :: L2))); [apply Hl2; discriminate|exact E]. }
  assert (Hfinal : forall s',
    same_region s s' ->
    GET (mem s') (slot s i) = hd 0 (L1 ++ L2) ->
    (L1 <> [] -> GET (mem s') (last L1 0 + 8) = hd 0 L2) ->
    (L2 <> [] -> GET (mem s') (hd 0 L2) = last L1 0) ->
    (forall b, In b (L1 ++ L2) -> b <> hd 0 L2 \/ L2 = [] ->
       GET (mem s') b = GET (mem s) b) ->
    (forall b, In b (L1 ++ L2) -> b <> last L1 0 \/ L1 = [] ->
       GET (mem s') (b + 8) = GET (mem s) (b + 8)) ->
    class_ok s' B i (la ++ lb)).
  { intros s' (Hhp & _) H1 H2 H3 H4 H5.
    split; [|split; [|split; [exact Hmem'|split; [|exact Hasc']]]].
    - unfold slot. rewrite Hhp. fold (slot s i). rewrite map_app. exact H1.
    - rewrite map_app. apply (dlist_remove (mem s) _ _ _ bp); assumption.
    - rewrite map_app. exact Hnd'. }
  destruct Hcases as [[E1 E2]|[[E1 E2]|[[E1 E2]|[E1 E2]]]].
  - (* only entry *)
    assert (Hl0 : last L1 0 = 0) by (rewrite E1; reflexivity).
    assert (Hh0 : hd 0 L2 = 0) by (rewrite E2; reflexivity).
    rewrite Hpred, Hsucc, Hl0, Hh0. rewrite !Z.eqb_refl. split.
    + apply Hfinal; [repeat split| | | | |]; rewrite ?mem_put.
      * rewrite Hsl. gput. rewrite E1, E2. reflexivity.
      * congruence.
      * congruence.
      * intros b Hb. rewrite E1, E2 in Hb. destruct Hb.
      * intros b Hb. rewrite E1, E2 in Hb. destruct Hb.
    + tf_slot. apply touched_refl.
  - (* last entry *)
    assert (Hh0 : hd 0 L2 = 0) by (rewrite E2; reflexivity).
    rewrite Hpred, Hsucc, Hh0.
    replace (last L1 0 =? 0) with false by (symmetry; apply Z.eqb_neq; tauto).
    rewrite Z.eqb_refl.
    pose proof (Hent _ (Hsub _ (Hl1 E1))) as (Hq1 & Hq2 & _).
    pose proof (Hne_bp _ (Hl1 E1)) as Hq3.
    rewrite (u64_small (last L1 0 + 8)) by lia. split.
    + apply Hfinal; [repeat split| | | | |]; rewrite ?mem_put.
      * rewrite Hsl. gput. rewrite <- Hsl, Hhead.
        destruct L1; [congruence|reflexivity].
      * intros _. gput. rewrite Hh0. reflexivity.
      * congruence.
      * intros b Hb _. pose proof (Hent _ (Hsub _ Hb)) as (? & ? & _).
        pose proof (Hap b _ (Hsub _ Hb) (Hsub _ (Hl1 E1))). gput. reflexivity.
      * intros b Hb [Hneq|C]; [|congruence].
        pose proof (Hent _ (Hsub _ Hb)) as (? & ? & _).
        pose proof (Hap b _ (Hsub _ Hb) (Hsub _ (Hl1 E1))). gput. reflexivity.
    + tf_link (last L1 0); [apply touched_refl|]. apply Hsub. now apply Hl1.
  - (* first entry *)
    assert (Hl0 : last L1 0 = 0) by (rewrite E1; reflexivity).
    rewrite Hpred, Hsucc, Hl0. rewrite Z.eqb_refl.
    replace (hd 0 L2 =? 0) with false by (symmetry; apply Z.eqb_neq; tauto).
    pose proof (Hent _ (Hsub _ (Hl2 E2))) as (Hq1 & Hq2 & _).
    pose proof (Hne_bp _ (Hl2 E2)) as Hq3.
    rewrite Hsl. rewrite (GET_PUT_other _ _ _ (bp + 8)) by lia. rewrite Hsucc.
    split.
    + apply Hfinal; [repeat split| | | | |]; rewrite ?mem_put.
      * rewrite Hsl. gput. rewrite E1. cbn [app]. apply u64_small. lia.
      * congruence.
      * intros _. gput. rewrite Hl0. reflexivity.
      * intros b Hb [Hneq|C]; [|congruence].
        pose proof (Hent _ (Hsub _ Hb)) as (? & ? & _).
        pose proof (Hap b _ (Hsub _ Hb) (Hsub _ (Hl2 E2))). gput. reflexivity.
      * intros b Hb _. pose proof (Hent _ (Hsub _ Hb)) as (? & ? & _).
        pose proof (Hap b _ (Hsub _ Hb) (Hsub _ (Hl2 E2))). gput. reflexivity.
    + rewrite <- Hsl. tf_link (hd 0 L2); [tf_slot; apply touched_refl|].
      apply Hsub. now apply Hl2.
  - (* inner entry *)
    rewrite Hpred, Hsucc.
    replace (last L1 0 =? 0) with false by (symmetry; apply Z.eqb_neq; tauto).
    replace (hd 0 L2 =? 0) with false by (symmetry; apply Z.eqb_neq; tauto).
    pose proof (Hent _ (Hsub _ (Hl1 E1))) as (Hp1 & Hp2 & _).
    pose proof (Hne_bp _ (Hl1 E1)) as Hp3.
    pose proof (Hent _ (Hsub _ (Hl2 E2))) as (Hq1 & Hq2 & _).
    pose proof (Hne_bp _ (Hl2 E2)) as Hq3.
    assert (Hpq : last L1 0 + 32 <= hd 0 L2 \/ hd 0 L2 + 32 <= last L1 0).
    { destruct (Hap _ _ (Hsub _ (Hl1 E1)) (Hsub _ (Hl2 E2))) as [E|?]; [|lia].
      exfalso. apply (NoDup_app_disj L1 L2 (hd 0 L2) Hnd').
      - rewrite <- E. now apply last_in.
      - destruct L2; [congruence|now left]. }
    rewrite (u64_small (last L1 0 + 8)) by lia.
    rewrite (GET_PUT_other _ _ _ (bp + 8)) by lia.
    rewrite (GET_PUT_other _ _ _ bp) by lia. rewrite Hpred, Hsucc.
    split.
    + apply Hfinal; [repeat split| | | | |]; rewrite ?mem_put.
      * rewrite Hsl. gput. rewrite <- Hsl, Hhead.
        destruct L1; [congruence|reflexivity].
      * intros _. gput. apply u64_small. lia.
      * intros _. gput. apply u64_small. lia.
      * intros b Hb [Hneq|C]; [|congruence].
        pose proof (Hent _ (Hsub _ Hb)) as (? & ? & _).
        pose proof (Hap b _ (Hsub _ Hb) (Hsub _ (Hl2 E2))).
        pose proof (Hap b _ (Hsub _ Hb) (Hsub _ (Hl1 E1))). gput. reflexivity.
      * intros b Hb [Hneq|C]; [|congruence].
        pose proof (Hent _ (Hsub _ Hb)) as (? & ? & _).
        pose proof (Hap b _ (Hsub _ Hb) (Hsub _ (Hl2 E2))).
        pose proof (Hap b _ (Hsub _ Hb) (Hsub _ (Hl1 E1))). gput. reflexivity.
    + tf_link (hd 0 L2); [tf_link (last L1 0); [apply touched_refl|]|].
      * apply Hsub. now apply Hl1.
      * apply Hsub. now apply Hl2.
Qed.

(** ** Size classes *)

Lemma index_of_loop_range : forall n idx size,
  0 <= idx <= 15 -> idx <= index_of_loop n (32 * 2 ^ idx) idx size <= 15.
Proof.
  induction n as [|n IH]; intros idx size Hidx.
  - cbn [index_of_loop].
    destruct (_ <? _); [destruct (_ >=? _)|]; lia.
  - cbn [index_of_loop].
    change (Z.shiftl (4 * WSIZE) (LISTSIZE - 1)) with (32 * 2 ^ 15).
    destruct (Z.ltb_spec (32 * 2 ^ idx) (32 * 2 ^ 15)) as [Hlt|Hge]; [|lia].
    destruct (_ >=? _); [lia|].
    assert (Hi : idx < 15).
    { destruct (Z.lt_ge_cases idx 15) as [?|Hc]; [assumption|].
      assert (idx = 15) by lia. subst idx. lia. }
    assert (Hp : 2 ^ idx <= 2 ^ 14) by (apply Z.pow_le_mono_r; lia).
    replace (s32 (32 * 2 ^ idx * 2)) with (32 * 2 ^ (idx + 1)).
    + specialize (IH (idx + 1) size ltac:(lia)). lia.
    + rewrite Z.pow_add_r by lia. rewrite s32_small; lia.
Qed.

Lemma index_of_range size : 0 <= index_of size < 16.
Proof.
  pose proof (index_of_loop_range 16 0 size ltac:(lia)) as H.
  change (32 * 2 ^ 0) with 32 in H. unfold index_of.
  change (4 * WSIZE) with 32. lia.
Qed.

(** ** Lifting the frames *)

Lemma touched_links s s' B i bs :
  layout s B -> 0 <= i < 16 ->
  (forall b, In b bs -> exists sz, In (b, sz, false) B) ->
  touched_frame s s' (slot s i) bs -> links_frame s s' B.
Proof.
  intros Hlay Hi Hbs H a Ha Hb. apply H.
  - rewrite slot_val. lia.
  - intros b Hin. destruct (Hbs b Hin) as [sz HB]. apply (Hb b sz HB).
Qed.

Lemma links_frame_GET s s' B p :
  links_frame s s' B ->
  p + 8 <= heap_ptr s - 136 \/ heap_ptr s - 8 <= p ->
  (forall b size, In (b, size, false) B -> p + 8 <= b \/ b + 16 <= p) ->
  GET (mem s') p = GET (mem s) p.
Proof.
  intros H Hp Hb. apply GET_ext. intros a Ha. apply H; [lia|].
  intros b size HB. specialize (Hb b size HB). lia.
Qed.

Lemma layout_frame s s' B :
  layout s B -> same_region s s' -> links_frame s s' B -> layout s' B.
Proof.
  intros Hlay (Hhp & Hlo & Hbrk & Hmax) Hf.
  pose proof (layout_range _ _ Hlay) as Hr.
  assert (Hsep : forall b sz (al : bool) b' sz',
            In (b, sz, al) B -> In (b', sz', false) B ->
            (b - 8 + 8 <= b' \/ b' + 16 <= b - 8) /\
            (b + sz - 16 + 8 <= b' \/ b' + 16 <= b + sz - 16)).
  { intros b sz al b' sz' H1 H2.
    pose proof (layout_block _ _ _ _ _ Hlay H1).
    pose proof (layout_block _ _ _ _ _ Hlay H2).
    destruct Hlay.
    destruct (chain_sep _ _ _ _ _ _ _ _ _ lay_chain0 H1 H2) as [E|[?|?]]; [|lia|lia].
    injection E as -> -> ->. lia. }
  destruct Hlay. constructor; rewrite ?Hhp, ?Hlo, ?Hbrk, ?Hmax; try assumption.
  - consts. destruct lay_pro0 as [H1 H2]. split.
    + rewrite <- H1. apply (links_frame_GET _ _ _ _ Hf); [lia|].
      intros b sz HB. pose proof (chain_in _ _ _ _ _ _ lay_chain0 HB). lia.
    + rewrite <- H2. apply (links_frame_GET _ _ _ _ Hf); [lia|].
      intros b sz HB. pose proof (chain_in _ _ _ _ _ _ lay_chain0 HB). lia.
  - consts. rewrite <- lay_epi0. apply (links_frame_GET _ _ _ _ Hf); [lia|].
    intros b sz HB. pose proof (chain_in _ _ _ _ _ _ lay_chain0 HB). lia.
  - intros b sz al HB. destruct (lay_tags0 b sz al HB) as [H1 H2].
    pose proof (chain_in _ _ _ _ _ _ lay_chain0 HB). consts. split.
    + rewrite <- H1. apply (links_frame_GET _ _ _ _ Hf); [lia|].
      intros b' sz' HB'. apply (Hsep b sz al b' sz' HB HB').
    + rewrite <- H2. apply (links_frame_GET _ _ _ _ Hf); [lia|].
      intros b' sz' HB'. apply (Hsep b sz al b' sz' HB HB').
Qed.

Lemma payload_links_frame s s' B :
  layout s B -> links_frame s s' B -> payload_frame s s' B.
Proof.
  intros Hlay Hf b sz a HB Ha. pose proof (layout_block _ _ _ _ _ Hlay HB).
  consts. apply Hf; [lia|].
  intros b' sz' HB'. pose proof (layout_block _ _ _ _ _ Hlay HB').
  destruct Hlay.
  destruct (chain_sep _ _ _ _ _ _ _ _ _ lay_chain0 HB HB') as [E|[?|?]]; [|lia|lia].
  discriminate.
Qed.

(** A class list survives when its slot and the link words of its entries
    are not written. *)
Lemma class_ok_frame s s' B j l :
  class_ok s B j l -> heap_ptr s' = heap_ptr s ->
  (forall a, slot s j <= a < slot s j + 8 -> mem s' a = mem s a) ->
  (forall b a, In b (map fst l) -> b <= a < b + 16 -> mem s' a = mem s a) ->
  class_ok s' B j l.
Proof.
  intros (Hhead & Hd & Hmem & Hnd & Hasc) Hhp Hslot Hlinks.
  split; [|split; [|split; [exact Hmem|split; [exact Hnd|exact Hasc]]]].
  - unfold slot. rewrite Hhp. fold (slot s j). rewrite <- Hhead.
    apply GET_ext. exact Hslot.
  - apply (dlist_ext (mem s)); [|exact Hd]. intros b Hb. consts. split.
    + apply GET_ext. intros a Ha. apply (Hlinks b a Hb). lia.
    + apply GET_ext. intros a Ha. apply (Hlinks b a Hb). lia.
Qed.

(** Writes to class [i] leave the other classes alone. *)
Lemma class_ok_other s s' B i j bs lj :
  layout s B -> 0 <= i < 16 -> 0 <= j < 16 -> j <> i ->
  class_ok s B j lj -> heap_ptr s' = heap_ptr s ->
  (forall b, In b bs -> exists sz, In (b, sz, false) B /\ index_of sz = i) ->
  touched_frame s s' (slot s i) bs ->
  class_ok s' B j lj.
Proof.
  intros Hlay Hi Hj Hne Hc Hhp Hbs Hf.
  pose proof (layout_range _ _ Hlay) as Hr.
  pose proof (class_entries _ _ _ _ Hlay Hc) as Hent.
  apply (class_ok_frame s _ _ _ _ Hc Hhp).
  - intros a Ha. rewrite slot_val in Ha. apply Hf.
    + rewrite slot_val. lia.
    + intros b Hb. destruct (Hbs b Hb) as (sz & HB & _).
      pose proof (layout_block _ _ _ _ _ Hlay HB). lia.
  - intros b a Hb Ha. destruct (Hent b Hb) as (H1 & H2 & sz & _ & HB & Hidx & _).
    apply Hf.
    + rewrite slot_val. lia.
    + intros b' Hb'. destruct (Hbs b' Hb') as (sz' & HB' & Hidx').
      destruct (blocks_apart _ _ _ _ _ _ _ _ Hlay HB HB') as [E|?]; [|lia].
      subst b'. destruct Hlay.
      destruct (chain_same_addr _ _ _ _ _ _ _ _ lay_chain0 HB HB') as [E _].
      congruence.
Qed.

(** ** Fuel *)

Lemma chain_length B : forall p e, chain p B e -> 32 * Z.of_nat (length B) <= e - p.
Proof.
  induction B as [|[[b sz] al] B IH]; intros p e H; cbn [chain length] in *.
  - lia.
  - destruct H as (_ & Hs & _ & H). apply IH in H. consts. lia.
Qed.

Lemma class_length s B i l :
  class_ok s B i l -> (length l <= length B)%nat.
Proof.
  intros (_ & _ & Hm & Hnd & _).
  rewrite <- (length_map fst l), <- (length_map (fun x : block => fst (fst x)) B).
  apply NoDup_incl_length; [exact Hnd|].
  intros b Hb. apply in_map_iff in Hb. destruct Hb as ([b' sz] & <- & Hin).
  apply in_map_iff. exists (b', sz, false). split; [reflexivity|].
  now apply Hm.
Qed.

Lemma fuel_covers s B L fuel i :
  heap_rep s B L -> enough_fuel s fuel -> 0 <= i < 16 ->
  (length (L i) <= fuel)%nat.
Proof.
  intros [Hlay Hl] Hf Hi. pose proof (layout_range _ _ Hlay) as Hr.
  pose proof (class_length _ _ _ _ (Hl i Hi)) as H1.
  destruct Hlay. apply chain_length in lay_chain0. unfold enough_fuel in Hf.
  assert (Z.of_nat (length B) <= (mem_max_addr s - mem_heap s) / 32).
  { apply Z.div_le_lower_bound; consts; lia. }
  lia.
Qed.

Lemma enough_fuel_region s s' fuel :
  same_region s s' -> enough_fuel s fuel -> enough_fuel s' fuel.
Proof. intros (_ & H1 & _ & H2) H. unfold enough_fuel in *. now rewrite H1, H2. Qed.

(** ** The lists as a whole *)

Lemma upd_same L i l : upd L i l i = l.
Proof. unfold upd. now rewrite Z.eqb_refl. Qed.

Lemma upd_other L i l j : j <> i -> upd L i l j = L j.
Proof. intros H. unfold upd. now replace (j =? i) with false by (symmetry; now apply Z.eqb_neq). Qed.

Lemma heap_rep_add_free fuel s B L bp size :
  heap_rep s B L -> In (bp, size, false) B -> unlisted L bp ->
  enough_fuel s fuel ->
  exists s', add_free fuel s bp size = Some s' /\ same_region s s' /\
    heap_rep s' B (enlist L bp size) /\ links_frame s s' B.
Proof.
  intros Hrep Hbp Hun Hfuel. pose proof Hrep as [Hlay Hl].
  pose proof (index_of_range size) as Hi. set (i := index_of size) in *.
  destruct (add_free_spec fuel s B i (L i) bp size Hlay Hi (Hl i Hi) eq_refl Hbp
              (Hun i Hi) (fuel_covers _ _ _ _ _ Hrep Hfuel Hi))
    as (s' & Heq & Hreg & Hc & Hf).
  assert (Hbs : forall b, In b (bp :: map fst (L i)) ->
                  exists sz, In (b, sz, false) B /\ index_of sz = i).
  { intros b [<-|Hb]; [exists size; tauto|].
    destruct (class_member _ _ _ _ _ (Hl i Hi) Hb) as (sz & _ & HB & Hidx).
    exists sz. tauto. }
  assert (Hlf : links_frame s s' B).
  { apply (touched_links _ _ _ i (bp :: map fst (L i))); try assumption.
    intros b Hb. destruct (Hbs b Hb) as (sz & HB & _). now exists sz. }
  exists s'. split; [exact Heq|]. split; [exact Hreg|]. split; [|exact Hlf].
  split; [apply (layout_frame s); assumption|].
  intros j Hj. unfold enlist. fold i. destruct (Z.eq_dec j i) as [->|Hne].
  - rewrite upd_same. exact Hc.
  - rewrite upd_other by exact Hne.
    apply (class_ok_other s s' B i j (bp :: map fst (L i))); try assumption.
    + apply Hl. exact Hj.
    + apply Hreg.
Qed.

Lemma heap_rep_pop_free s B L bp size :
  heap_rep s B L -> In (bp, size) (L (index_of size)) ->
  heap_rep (pop_free s bp) B (unlist L bp size) /\
  links_frame s (pop_free s bp) B.
Proof.
  intros [Hlay Hl] Hin. pose proof (index_of_range size) as Hi.
  set (i := index_of size) in *.
  destruct (pop_free_spec s B i (L i) bp size Hlay Hi (Hl i Hi) Hin) as [Hc Hf].
  pose proof (same_region_pop_free s bp) as Hreg.
  assert (Hbs : forall b, In b (map fst (L i)) ->
                  exists sz, In (b, sz, false) B /\ index_of sz = i).
  { intros b Hb.
    destruct (class_member _ _ _ _ _ (Hl i Hi) Hb) as (sz & _ & HB & Hidx).
    exists sz. tauto. }
  assert (Hlf : links_frame s (pop_free s bp) B).
  { apply (touched_links _ _ _ i (map fst (L i))); try assumption.
    intros b Hb. destruct (Hbs b Hb) as (sz & HB & _). now exists sz. }
  split; [|exact Hlf].
  split; [apply (layout_frame s); assumption|].
  intros j Hj. unfold unlist. fold i. destruct (Z.eq_dec j i) as [->|Hne].
  - rewrite upd_same. exact Hc.
  - rewrite upd_other by exact Hne.
    apply (class_ok_other s _ B i j (map fst (L i))); try assumption.
    + apply Hl. exact Hj.
    + apply Hreg.
Qed.

Lemma chain_end_unique B : forall p e e', chain p B e -> chain p B e' -> e = e'.
Proof.
  induction B as [|[[b z] al] B IH]; intros p e e' H H'; cbn [chain] in *.
  - lia.
  - destruct H as (_ & _ & _ & H). destruct H' as (_ & _ & _ & H').
    eapply IH; eassumption.
Qed.

(** ** Re-tagging a run of blocks

    A run [Bmid] of unlisted blocks between [p] and [q] may be replaced by
    any other tiling [Bmid'] of the same addresses, provided the new tags
    are in place and nothing outside the run was written. *)
Lemma region_retag s s' B1 Bmid Bmid' B2 L p q :
  heap_rep s (B1 ++ Bmid ++ B2) L -> same_region s s' ->
  chain (heap_ptr s + 16) B1 p -> chain p Bmid q -> chain p Bmid' q ->
  (forall a, a < p - 8 \/ q - 8 <= a -> mem s' a = mem s a) ->
  tags_ok (mem s') Bmid' ->
  (forall b z al, In (b, z, al) Bmid -> unlisted L b) ->
  heap_rep s' (B1 ++ Bmid' ++ B2) L.
Proof.
  intros [Hlay Hl] (Hhp & Hlo & Hbrk & Hmax) H1 Hm Hm' Hfr Ht Hun.
  pose proof (layout_range _ _ Hlay) as Hr.
  assert (Hq : chain q B2 (mem_brk s)).
  { destruct Hlay. consts. change (2 * 8) with 16 in lay_chain0.
    apply chain_app in lay_chain0.
    destruct lay_chain0 as (p' & Hc1 & Hc2). apply chain_app in Hc2.
    destruct Hc2 as (q' & Hc2 & Hc3).
    rewrite (chain_end_unique _ _ _ _ Hc1 H1) in Hc2.
    rewrite (chain_end_unique _ _ _ _ Hc2 Hm) in Hc3. exact Hc3. }
  pose proof (chain_le _ _ _ H1) as Hp1. pose proof (chain_le _ _ _ Hm) as Hp2.
  pose proof (chain_le _ _ _ Hq) as Hp3.
  assert (Hget : forall x, x + 8 <= p - 8 \/ q - 8 <= x ->
                   GET (mem s') x = GET (mem s) x).
  { intros x Hx. apply GET_ext. intros a Ha. apply Hfr. lia. }
  split.
  - destruct Hlay.
    constructor; rewrite ?Hhp, ?Hlo, ?Hbrk, ?Hmax; try assumption.
    + consts. apply chain_app. exists p. split; [exact H1|].
      apply chain_app. exists q. tauto.
    + consts. destruct lay_pro0 as [E1 E2]. rewrite !Hget by lia. tauto.
    + consts. rewrite Hget by lia. exact lay_epi0.
    + intros b z al Hin. apply in_app_or in Hin. destruct Hin as [Hin|Hin].
      * pose proof (chain_in _ _ _ _ _ _ H1 Hin). consts.
        rewrite !Hget by lia. apply lay_tags0. apply in_or_app. now left.
      * apply in_app_or in Hin. destruct Hin as [Hin|Hin]; [now apply Ht|].
        pose proof (chain_in _ _ _ _ _ _ Hq Hin). consts.
        rewrite !Hget by lia. apply lay_tags0. apply in_or_app. right.
        apply in_or_app. now right.
  - intros i Hi. pose proof (Hl i Hi) as Hc.
    pose proof (class_entries _ _ _ _ Hlay Hc) as Hent.
    assert (Hout : forall b sz, In (b, sz) (L i) ->
              In (b, sz, false) (B1 ++ Bmid' ++ B2) /\ (b + 16 <= p - 8 \/ q <= b)).
    { intros b sz Hin. destruct Hc as (_ & _ & Hmem & _).
      destruct (Hmem _ _ Hin) as [HB _].
      apply in_app_or in HB. destruct HB as [HB|HB].
      - pose proof (chain_in _ _ _ _ _ _ H1 HB). split; [|lia].
        apply in_or_app. now left.
      - apply in_app_or in HB. destruct HB as [HB|HB].
        + exfalso. apply (Hun _ _ _ HB i Hi). apply in_map_iff.
          exists (b, sz). tauto.
        + pose proof (chain_in _ _ _ _ _ _ Hq HB). split; [|lia].
          apply in_or_app. right. apply in_or_app. now right. }
    assert (Hc' : class_ok s' (B1 ++ Bmid ++ B2) i (L i)).
    { apply (class_ok_frame s); try assumption.
      - intros a Ha. rewrite slot_val in Ha. apply Hfr. unfold LISTSIZE in Hi. lia.
      - intros b a Hb Ha. apply in_map_iff in Hb.
        destruct Hb as ([b' sz] & <- & Hin). cbn [fst] in Ha.
        destruct (Hout _ _ Hin) as [_ Ho]. apply Hfr. lia. }
    destruct Hc' as (E1 & E2 & E3 & E4 & E5).
    split; [exact E1|]. split; [exact E2|]. split; [|tauto].
    intros b sz Hin. split; [now apply Hout|]. apply (E3 _ _ Hin).
Qed.

(** ** Neighbours *)

Lemma list_last_cases {A} (l : list A) : l = [] \/ exists l' x, l = l' ++ [x].
Proof.
  destruct l as [|a l]; [now left|right].
  destruct (@exists_last A (a :: l) ltac:(discriminate)) as (l' & x & E).
  now exists l', x.
Qed.

Lemma HDRP_eq bp : 8 <= bp < 2 ^ 64 -> HDRP bp = bp - 8.
Proof. intros H. unfold HDRP. consts. apply u64_small. lia. Qed.

(** The word before the header of a block is the footer of the block before
    it, or of the prologue. *)
Lemma prev_tag s B1 bp sz al B2 :
  layout s (B1 ++ (bp, sz, al) :: B2) ->
  exists psz pal,
    GET (mem s) (bp - 16) = tag psz pal /\ 16 <= psz /\ psz mod 8 = 0 /\
    GET (mem s) (bp - psz - 8) = tag psz pal /\
    ((B1 = [] /\ psz = 16 /\ pal = true /\ bp = heap_ptr s + 16) \/
     (exists B1', B1 = B1' ++ [(bp - psz, psz, pal)])).
Proof.
  intros Hlay. pose proof Hlay as [].
  destruct (list_last_cases B1) as [E|(B1' & [[pb psz] pal] & E)].
  - subst B1. cbn [app chain] in lay_chain0. destruct lay_chain0 as (Hb & _).
    exists 16, true. consts. replace (bp - 16) with (heap_ptr s) by lia.
    replace (heap_ptr s + 2 * 8 - 16 - 8) with (heap_ptr s - 8) by lia.
    destruct lay_pro0. repeat split; try assumption; try lia. left. repeat split. lia.
  - subst B1.
    rewrite <- app_assoc in lay_chain0. cbn [app] in lay_chain0.
    apply chain_app in lay_chain0. destruct lay_chain0 as (q & _ & Hc).
    cbn [chain] in Hc. destruct Hc as (-> & Hs1 & Hm1 & -> & _).
    assert (Hin : In (q, psz, pal) ((B1' ++ [(q, psz, pal)]) ++ (q + psz, sz, al) :: B2)).
    { apply in_or_app. left. apply in_or_app. right. now left. }
    destruct (lay_tags0 _ _ _ Hin) as [H1 H2]. consts.
    exists psz, pal. replace (q + psz - 16) with (q + psz - 2 * 8) by lia.
    replace (q + psz - psz - 8) with (q - 8) by lia.
    repeat split; try assumption; try lia. right. exists B1'.
    replace (q + psz - psz) with q by lia. reflexivity.
Qed.

(** The word after a block is the header of the next block, or the
    epilogue. *)
Lemma next_tag s B1 bp sz al B2 :
  layout s (B1 ++ (bp, sz, al) :: B2) ->
  exists nsz nal,
    GET (mem s) (bp + sz - 8) = tag nsz nal /\ 0 <= nsz /\ nsz mod 8 = 0 /\
    ((B2 = [] /\ nsz = 0 /\ nal = true /\ bp + sz = mem_brk s) \/
     (exists B2', B2 = (bp + sz, nsz, nal) :: B2')).
Proof.
  intros Hlay. pose proof Hlay as [].
  apply chain_app in lay_chain0. destruct lay_chain0 as (q & _ & Hc).
  cbn [chain] in Hc. destruct Hc as (-> & Hs1 & Hm1 & Hc).
  destruct B2 as [|[[nb nsz] nal] B2'].
  - cbn [chain] in Hc. exists 0, true. consts. rewrite Hc.
    repeat split; try assumption; try lia. left. tauto.
  - cbn [chain] in Hc. destruct Hc as (-> & Hs2 & Hm2 & _).
    assert (Hin : In (q + sz, nsz, nal) (B1 ++ (q, sz, al) :: (q + sz, nsz, nal) :: B2')).
    { apply in_or_app. right. right. now left. }
    destruct (lay_tags0 _ _ _ Hin) as [H1 _]. consts.
    exists nsz, nal. repeat split; try assumption; try lia. right. now exists B2'.
Qed.

Lemma layout_in_mid s B1 bp sz al B2 :
  layout s (B1 ++ (bp, sz, al) :: B2) ->
  In (bp, sz, al) (B1 ++ (bp, sz, al) :: B2) /\
  chain (heap_ptr s + 16) B1 bp /\ chain (bp + sz) B2 (mem_brk s).
Proof.
  intros []. split; [apply in_or_app; right; now left|].
  consts. change (2 * 8) with 16 in lay_chain0.
  apply chain_app in lay_chain0. destruct lay_chain0 as (q & H1 & Hc).
  cbn [chain] in Hc. destruct Hc as (-> & _ & _ & Hc). tauto.
Qed.

(** ** Re-tagging steps *)

Lemma mod8_add a b : a mod 8 = 0 -> b mod 8 = 0 -> (a + b) mod 8 = 0.
Proof.
  intros Ha Hb. apply Z.mod_divide in Ha; [|lia]. apply Z.mod_divide in Hb; [|lia].
  destruct Ha as [x ->]. destruct Hb as [y ->].
  replace (x * 8 + y * 8) with ((x + y) * 8) by lia. apply Z.mod_mul. lia.
Qed.

Lemma mod8_sub a b : a mod 8 = 0 -> b mod 8 = 0 -> (a - b) mod 8 = 0.
Proof.
  intros Ha Hb. apply Z.mod_divide in Ha; [|lia]. apply Z.mod_divide in Hb; [|lia].
  destruct Ha as [x ->]. destruct Hb as [y ->].
  replace (x * 8 - y * 8) with ((x - y) * 8) by lia. apply Z.mod_mul. lia.
Qed.

Lemma tag_range z al : 0 <= z < 2 ^ 63 -> 0 <= tag z al < 2 ^ 64.
Proof. intros H. unfold tag. destruct al; lia. Qed.

(** Payload bytes of the allocated blocks lie outside a tag word of any
    block of the sequence. *)
Lemma payload_off_tags s B b z al b' z' a :
  layout s B -> In (b, z, al) B -> In (b', z', true) B ->
  b' <= a < b' + z' - 16 ->
  (a < b - 8 \/ b <= a) /\ (a < b + z - 16 \/ b + z - 8 <= a).
Proof.
  intros Hlay H1 H2 Ha. pose proof (layout_block _ _ _ _ _ Hlay H1).
  pose proof (layout_block _ _ _ _ _ Hlay H2). destruct Hlay.
  destruct (chain_sep _ _ _ _ _ _ _ _ _ lay_chain0 H1 H2) as [E|[?|?]]; [|lia|lia].
  injection E as -> -> ->. lia.
Qed.

(** Changing the flag of one unlisted block. *)
Lemma retag_one s B1 b z al al' B2 L :
  heap_rep s (B1 ++ (b, z, al) :: B2) L -> unlisted L b ->
  let s' := put (put s (b - 8) (tag z al')) (b + z - 16) (tag z al') in
  heap_rep s' (B1 ++ (b, z, al') :: B2) L /\
  payload_frame s s' (B1 ++ (b, z, al) :: B2).
Proof.
  intros Hrep Hun s'. pose proof Hrep as [Hlay _].
  destruct (layout_in_mid _ _ _ _ _ _ Hlay) as (Hin & Hc1 & Hc2).
  pose proof (layout_block _ _ _ _ _ Hlay Hin) as Hb.
  pose proof (layout_range _ _ Hlay) as Hr.
  assert (Ht : 0 <= tag z al' < 2 ^ 64) by (apply tag_range; lia).
  split.
  - apply (region_retag s s' B1 [(b, z, al)] [(b, z, al')] B2 L b (b + z));
      try assumption.
    + repeat split.
    + cbn [chain]. consts. repeat split; lia.
    + cbn [chain]. consts. repeat split; lia.
    + intros a Ha. unfold s'. rewrite !mem_put. rewrite !PUT_byte_other by lia.
      reflexivity.
    + intros b0 z0 al0 [E|[]]. injection E as <- <- <-. unfold s'. rewrite !mem_put.
      consts. gput. rewrite !u64_small by lia. tauto.
    + intros b0 z0 al0 [E|[]]. injection E as <- _ _. exact Hun.
  - intros b' z' a HB Ha. unfold s'. rewrite !mem_put.
    destruct (payload_off_tags _ _ _ _ _ _ _ _ Hlay Hin HB Ha). consts.
    rewrite !PUT_byte_other by lia. reflexivity.
Qed.

(** Two unlisted neighbours become one block. *)
Lemma retag_merge s B1 b1 z1 a1 b2 z2 a2 al B2 L :
  heap_rep s (B1 ++ (b1, z1, a1) :: (b2, z2, a2) :: B2) L ->
  unlisted L b1 -> unlisted L b2 ->
  let s' := put (put s (b2 + z2 - 16) (tag (z1 + z2) al)) (b1 - 8)
                (tag (z1 + z2) al) in
  heap_rep s' (B1 ++ (b1, z1 + z2, al) :: B2) L /\
  payload_frame s s' (B1 ++ (b1, z1, a1) :: (b2, z2, a2) :: B2).
Proof.
  intros Hrep Hun1 Hun2 s'. pose proof Hrep as [Hlay _].
  destruct (layout_in_mid _ _ _ _ _ _ Hlay) as (Hin1 & Hc1 & Hc2).
  assert (Hin2 : In (b2, z2, a2) (B1 ++ (b1, z1, a1) :: (b2, z2, a2) :: B2)).
  { apply in_or_app. right. right. now left. }
  pose proof (layout_block _ _ _ _ _ Hlay Hin1) as Hb1.
  pose proof (layout_block _ _ _ _ _ Hlay Hin2) as Hb2.
  pose proof (layout_range _ _ Hlay) as Hr.
  cbn [chain] in Hc2. destruct Hc2 as (E2 & _ & _ & Hc2).
  assert (Ht : 0 <= tag (z1 + z2) al < 2 ^ 64) by (apply tag_range; lia).
  split.
  - apply (region_retag s s' B1 [(b1, z1, a1); (b2, z2, a2)] [(b1, z1 + z2, al)]
             B2 L b1 (b1 + z1 + z2)); try assumption.
    + repeat split.
    + cbn [chain]. consts. repeat split; lia.
    + cbn [chain]. consts. repeat split; try lia. apply mod8_add; tauto.
    + intros a Ha. unfold s'. rewrite !mem_put. rewrite !PUT_byte_other by lia.
      reflexivity.
    + intros b0 z0 al0 [E|[]]. injection E as <- <- <-. unfold s'. rewrite !mem_put.
      consts. replace (b1 + (z1 + z2) - 2 * 8) with (b2 + z2 - 16) by lia.
      gput. rewrite !u64_small by lia. tauto.
    + intros b0 z0 al0 [E|[E|[]]]; injection E as <- _ _; assumption.
  - intros b' z' a HB Ha. unfold s'. rewrite !mem_put.
    destruct (payload_off_tags _ _ _ _ _ _ _ _ Hlay Hin1 HB Ha).
    destruct (payload_off_tags _ _ _ _ _ _ _ _ Hlay Hin2 HB Ha).
    rewrite !PUT_byte_other by lia. reflexivity.
Qed.

(** One free unlisted block becomes two; the four tags are those written by
    [place_fb]. *)
Lemma retag_split s B1 b z z1 z2 a1 a2 B2 L :
  heap_rep s (B1 ++ (b, z, false) :: B2) L -> unlisted L b ->
  z = z1 + z2 -> 32 <= z1 -> 32 <= z2 -> z1 mod 8 = 0 ->
  let s' := put (put (put (put s (b - 8) (tag z1 a1)) (b + z1 - 16) (tag z1 a1))
                   (b + z1 - 8) (tag z2 a2)) (b + z - 16) (tag z2 a2) in
  heap_rep s' (B1 ++ (b, z1, a1) :: (b + z1, z2, a2) :: B2) L /\
  payload_frame s s' (B1 ++ (b, z, false) :: B2).
Proof.
  intros Hrep Hun Hz Hz1 Hz2 Hm1 s'. pose proof Hrep as [Hlay _].
  destruct (layout_in_mid _ _ _ _ _ _ Hlay) as (Hin & Hc1 & Hc2).
  pose proof (layout_block _ _ _ _ _ Hlay Hin) as Hb.
  pose proof (layout_range _ _ Hlay) as Hr.
  assert (Hm2 : z2 mod 8 = 0).
  { replace z2 with (z - z1) by lia. apply mod8_sub; tauto. }
  assert (Ht1 : 0 <= tag z1 a1 < 2 ^ 64) by (apply tag_range; lia).
  assert (Ht2 : 0 <= tag z2 a2 < 2 ^ 64) by (apply tag_range; lia).
  split.
  - apply (region_retag s s' B1 [(b, z, false)] [(b, z1, a1); (b + z1, z2, a2)]
             B2 L b (b + z)); try assumption.
    + repeat split.
    + cbn [chain]. consts. repeat split; lia.
    + cbn [chain]. consts. repeat split; lia.
    + intros a Ha. unfold s'. rewrite !mem_put. rewrite !PUT_byte_other by lia.
      reflexivity.
    + intros b0 z0 al0 [E|[E|[]]]; injection E as <- <- <-; unfold s';
        rewrite !mem_put; consts.
      * gput. rewrite !u64_small by lia. tauto.
      * replace (b + z1 + z2 - 2 * 8) with (b + z - 16) by lia.
        gput. rewrite !u64_small by lia. tauto.
    + intros b0 z0 al0 [E|[]]. injection E as <- _ _. exact Hun.
  - intros b' z' a HB Ha. unfold s'. rewrite !mem_put.
    pose proof (layout_block _ _ _ _ _ Hlay HB) as Hb'. destruct Hlay.
    destruct (chain_sep _ _ _ _ _ _ _ _ _ lay_chain0 Hin HB) as [E|[?|?]];
      [discriminate| |]; consts; rewrite !PUT_byte_other by lia; reflexivity.
Qed.

(** ** Which blocks are listed *)

Lemma complete_iff B L : complete B L <-> complete_except B L [].
Proof.
  split.
  - intros H b z HB. right. now apply H.
  - intros H b z HB. destruct (H b z HB) as [[]|Hin]. exact Hin.
Qed.

Lemma insert_in x l y : In y (insert_by_size x l) <-> y = x \/ In y l.
Proof.
  unfold insert_by_size. rewrite <- (before_from (snd x) l) at 3.
  rewrite !in_app_iff. cbn [In]. intuition congruence.
Qed.

Lemma complete_except_unlist B L X b sz :
  complete_except B L X -> complete_except B (unlist L b sz) (b :: X).
Proof.
  intros H b0 z0 HB. destruct (Z.eq_dec b0 b) as [->|Hne]; [left; now left|].
  destruct (H b0 z0 HB) as [Hx|Hin]; [left; now right|right].
  unfold unlist, upd. destruct (index_of z0 =? index_of sz) eqn:E; [|exact Hin].
  apply Z.eqb_eq in E. rewrite <- E. unfold remove_block. apply filter_In.
  split; [exact Hin|]. cbn [fst]. apply negb_true_iff. now apply Z.eqb_neq.
Qed.

Lemma complete_except_enlist B L X X' b sz p e :
  chain p B e -> In (b, sz, false) B -> complete_except B L X ->
  (forall x, In x X -> x = b \/ In x X') ->
  complete_except B (enlist L b sz) X'.
Proof.
  intros Hc Hb H HX b0 z0 HB.
  assert (Hkeep : In (b0, z0) (L (index_of z0)) ->
                  In (b0, z0) (enlist L b sz (index_of z0))).
  { intros Hin. unfold enlist, upd.
    destruct (index_of z0 =? index_of sz) eqn:E; [|exact Hin].
    apply Z.eqb_eq in E. rewrite <- E. apply insert_in. now right. }
  destruct (H b0 z0 HB) as [Hx|Hin]; [|right; now apply Hkeep].
  destruct (HX b0 Hx) as [->|Hx']; [|now left]. right.
  destruct (chain_same_addr _ _ _ _ _ _ _ _ Hc HB Hb) as [-> _].
  unfold enlist. rewrite upd_same. apply insert_in. now left.
Qed.

Lemma complete_except_retag B1 Bmid Bmid' B2 L X X' p0 e :
  chain p0 (B1 ++ Bmid ++ B2) e ->
  complete_except (B1 ++ Bmid ++ B2) L X ->
  (forall b z, In (b, z, false) Bmid' -> In b X') ->
  (forall x, In x X -> In x X' \/ exists z al, In (x, z, al) Bmid) ->
  complete_except (B1 ++ Bmid' ++ B2) L X'.
Proof.
  intros Hc H Hmid HX b z HB.
  apply chain_app in Hc. destruct Hc as (p & Hc1 & Hc). apply chain_app in Hc.
  destruct Hc as (q & Hc2 & Hc3).
  assert (Hold : In (b, z, false) (B1 ++ B2) -> In b X' \/ In (b, z) (L (index_of z))).
  { intros Hin.
    assert (HB0 : In (b, z, false) (B1 ++ Bmid ++ B2)).
    { apply in_app_or in Hin. apply in_or_app.
      destruct Hin; [now left|right; apply in_or_app; now right]. }
    destruct (H b z HB0) as [Hx|Hl]; [|now right].
    destruct (HX b Hx) as [Hx'|(z' & al' & Hm)]; [now left|exfalso].
    pose proof (chain_in _ _ _ _ _ _ Hc2 Hm).
    apply in_app_or in Hin. destruct Hin as [Hin|Hin].
    - pose proof (chain_in _ _ _ _ _ _ Hc1 Hin). lia.
    - pose proof (chain_in _ _ _ _ _ _ Hc3 Hin). lia. }
  apply in_app_or in HB. destruct HB as [HB|HB].
  - apply Hold. apply in_or_app. now left.
  - apply in_app_or in HB. destruct HB as [HB|HB].
    + left. now apply (Hmid b z).
    + apply Hold. apply in_or_app. now right.
Qed.

Lemma listed_class s B L i b :
  heap_rep s B L -> 0 <= i < 16 -> In b (map fst (L i)) ->
  exists sz, In (b, sz) (L i) /\ In (b, sz, false) B /\ index_of sz = i.
Proof. intros [_ Hl] Hi Hb. apply (class_member s B i (L i) b (Hl i Hi) Hb). Qed.

Lemma unlisted_unlist_same s B L b sz :
  heap_rep s B L -> In (b, sz) (L (index_of sz)) -> unlisted (unlist L b sz) b.
Proof.
  intros Hrep Hin i Hi Hb. unfold LISTSIZE in Hi. unfold unlist, upd in Hb.
  destruct (i =? index_of sz) eqn:E.
  - apply in_map_iff in Hb. destruct Hb as ([b' z'] & Eb & Hb). cbn [fst] in Eb.
    subst b'. apply remove_block_in in Hb. cbn [fst] in Hb. tauto.
  - apply Z.eqb_neq in E.
    destruct (listed_class _ _ _ _ _ Hrep Hi Hb) as (z' & _ & HB' & Hidx).
    pose proof (index_of_range sz) as Hr.
    destruct Hrep as [Hlay Hl]. destruct (Hl _ Hr) as (_ & _ & Hm & _).
    destruct (Hm _ _ Hin) as [HB _]. destruct Hlay.
    destruct (chain_same_addr _ _ _ _ _ _ _ _ lay_chain0 HB HB') as [-> _].
    congruence.
Qed.

Lemma unlisted_unlist_mono L b sz b' :
  unlisted L b' -> unlisted (unlist L b sz) b'.
Proof.
  intros H i Hi Hb. apply (H i Hi). unfold unlist, upd in Hb.
  destruct (i =? index_of sz) eqn:E; [|exact Hb].
  apply Z.eqb_eq in E. subst i. apply in_map_iff in Hb.
  destruct Hb as (x & Ex & Hx). apply remove_block_in in Hx.
  apply in_map_iff. exists x. tauto.
Qed.

Lemma unlisted_enlist_other L b sz b' :
  unlisted L b' -> b' <> b -> unlisted (enlist L b sz) b'.
Proof.
  intros H Hne i Hi Hb. apply (H i Hi). unfold enlist, upd in Hb.
  destruct (i =? index_of sz) eqn:E; [|exact Hb].
  apply Z.eqb_eq in E. subst i. apply in_map_iff in Hb.
  destruct Hb as ([x z] & Ex & Hx). cbn [fst] in Ex. subst x.
  apply insert_in in Hx. destruct Hx as [Hx|Hx]; [congruence|].
  apply in_map_iff. exists (b', z). tauto.
Qed.

Lemma allocated_unlisted s B L b z :
  heap_rep s B L -> In (b, z, true) B -> unlisted L b.
Proof.
  intros Hrep HB i Hi Hb. unfold LISTSIZE in Hi.
  destruct (listed_class _ _ _ _ _ Hrep Hi Hb) as (z' & _ & HB' & _).
  destruct Hrep as [[] _].
  destruct (chain_same_addr _ _ _ _ _ _ _ _ lay_chain0 HB HB'). discriminate.
Qed.

Lemma complete_listed B L X b z :
  complete_except B L X -> In (b, z, false) B -> ~ In b X ->
  In (b, z) (L (index_of z)).
Proof. intros H HB Hx. destruct (H b z HB); [contradiction|assumption]. Qed.

(** ** Reading the macros on a laid-out heap *)

Lemma GET_SIZE_PUT_other m p v q :
  q + 8 <= p \/ p + 8 <= q -> GET_SIZE (PUT m p v) q = GET_SIZE m q.
Proof. intros H. unfold GET_SIZE. now rewrite GET_PUT_other. Qed.

Lemma GET_ALLOC_PUT_other m p v q :
  q + 8 <= p \/ p + 8 <= q -> GET_ALLOC (PUT m p v) q = GET_ALLOC m q.
Proof. intros H. unfold GET_ALLOC. now rewrite GET_PUT_other. Qed.

Lemma rd_block s B b z al :
  layout s B -> In (b, z, al) B ->
  HDRP b = b - 8 /\
  GET_SIZE (mem s) (b - 8) = z /\
  GET_ALLOC (mem s) (b - 8) = (if al then 1 else 0) /\
  NEXT_BLKP (mem s) b = b + z /\ FTRP (mem s) b = b + z - 16.
Proof.
  intros Hlay HB. pose proof (layout_range _ _ Hlay) as Hr.
  pose proof (layout_block _ _ _ _ _ Hlay HB) as Hb.
  destruct (layout_tag _ _ _ _ _ Hlay HB) as [Hh _].
  assert (Hs : GET_SIZE (mem s) (b - 8) = z) by (apply (tag_size _ _ _ al); [assumption|lia|tauto]).
  assert (Hh8 : HDRP b = b - 8) by (apply HDRP_eq; lia).
  split; [exact Hh8|]. split; [exact Hs|]. split.
  - apply (tag_alloc _ _ z); [assumption|tauto].
  - unfold NEXT_BLKP, FTRP. rewrite Hh8. consts.
    rewrite (u64_small (b - 8)) by lia. rewrite Hs. split; apply u64_small; lia.
Qed.

Lemma rd_prev s B1 bp sz al B2 psz pal :
  layout s (B1 ++ (bp, sz, al) :: B2) ->
  GET (mem s) (bp - 16) = tag psz pal -> 16 <= psz -> psz mod 8 = 0 ->
  heap_ptr s <= bp - psz ->
  PREV_BLKP (mem s) bp = bp - psz.
Proof.
  intros Hlay Ht Hp Hm Hlo. pose proof (layout_range _ _ Hlay) as Hr.
  destruct (layout_in_mid _ _ _ _ _ _ Hlay) as (Hin & _).
  pose proof (layout_block _ _ _ _ _ Hlay Hin) as Hb.
  unfold PREV_BLKP. consts. rewrite (u64_small (bp - 2 * 8)) by lia.
  replace (bp - 2 * 8) with (bp - 16) by lia.
  rewrite (tag_size _ _ _ _ Ht) by lia. apply u64_small. lia.
Qed.

Lemma payload_frame_trans s1 s2 s3 B B' :
  payload_frame s1 s2 B -> payload_frame s2 s3 B' ->
  (forall b z, In (b, z, true) B -> In (b, z, true) B') ->
  payload_frame s1 s3 B.
Proof.
  intros H1 H2 Hsub b z a HB Ha. rewrite (H2 b z a (Hsub _ _ HB) Ha).
  apply (H1 b z a HB Ha).
Qed.

Lemma payload_frame_refl s B : payload_frame s s B.
Proof. intros b z a _ _. reflexivity. Qed.

Lemma wip_pop s B L X b z :
  wip s B L X -> In (b, z, false) B -> ~ In b X ->
  wip (pop_free s b) B (unlist L b z) (b :: X) /\
  payload_frame s (pop_free s b) B.
Proof.
  intros (Hrep & Hc & Hun) HB Hx.
  pose proof (complete_listed _ _ _ _ _ Hc HB Hx) as Hin.
  destruct (heap_rep_pop_free _ _ _ _ _ Hrep Hin) as [Hrep' Hf].
  split; [split; [exact Hrep'|split]|].
  - now apply complete_except_unlist.
  - intros x [<-|Hxx].
    + apply (unlisted_unlist_same _ _ _ _ _ Hrep Hin).
    + apply unlisted_unlist_mono. now apply Hun.
  - apply payload_links_frame; [apply Hrep|exact Hf].
Qed.

(** ** [coalesce] *)

Lemma PREV_BLKP_PUT_other m p v bp :
  16 <= bp < 2 ^ 64 -> bp - 8 <= p \/ p + 8 <= bp - 16 ->
  PREV_BLKP (PUT m p v) bp = PREV_BLKP m bp.
Proof.
  intros Hb Hp. unfold PREV_BLKP. consts. rewrite (u64_small (bp - 2 * 8)) by lia.
  rewrite GET_SIZE_PUT_other by lia. reflexivity.
Qed.

Lemma mid_pair s B1 b1 z1 a1 b2 z2 a2 B2 :
  layout s (B1 ++ (b1, z1, a1) :: (b2, z2, a2) :: B2) ->
  In (b1, z1, a1) (B1 ++ (b1, z1, a1) :: (b2, z2, a2) :: B2) /\
  In (b2, z2, a2) (B1 ++ (b1, z1, a1) :: (b2, z2, a2) :: B2) /\
  b2 = b1 + z1.
Proof.
  intros Hlay. destruct (layout_in_mid _ _ _ _ _ _ Hlay) as (H1 & _ & Hc).
  split; [exact H1|]. split; [apply in_or_app; right; right; now left|].
  cbn [chain] in Hc. tauto.
Qed.

Lemma coalesce_prev_spec s B1 pb psz bp sz B2 L :
  wip s (B1 ++ (pb, psz, false) :: (bp, sz, false) :: B2) L [bp] ->
  exists s' L',
    coalesce_prev s sz bp = (s', psz + sz, pb) /\ same_region s s' /\
    wip s' (B1 ++ (pb, psz + sz, false) :: B2) L' [pb] /\
    payload_frame s s' (B1 ++ (pb, psz, false) :: (bp, sz, false) :: B2).
Proof.
  set (B := B1 ++ (pb, psz, false) :: (bp, sz, false) :: B2).
  intros Hw. pose proof Hw as ([Hlay _] & _ & _).
  destruct (mid_pair _ _ _ _ _ _ _ _ _ Hlay) as (HBp & HBb & Ebp). fold B in HBp, HBb.
  pose proof (layout_range _ _ Hlay) as Hr.
  pose proof (layout_block _ _ _ _ _ Hlay HBp) as Hp.
  pose proof (layout_block _ _ _ _ _ Hlay HBb) as Hb.
  assert (Hne : ~ In pb [bp]) by (intros [E|[]]; lia).
  destruct (wip_pop _ _ _ _ _ _ Hw HBp Hne) as [Hw1 Hf1].
  set (s1 := pop_free s pb) in *. set (L1 := unlist L pb psz) in *.
  pose proof Hw1 as ([Hlay1 Hl1] & Hc1 & Hun1).
  pose proof (same_region_pop_free s pb) as Hreg1. fold s1 in Hreg1.
  assert (Hprev : forall t, layout t B -> PREV_BLKP (mem t) bp = pb).
  { intros t Ht. destruct (layout_tag _ _ _ _ _ Ht HBp) as [_ Hft].
    pose proof (layout_block t B pb psz false Ht HBp) as Hx.
    replace pb with (bp - psz) by lia.
    change B with (B1 ++ (pb, psz, false) :: (bp, sz, false) :: B2) in Ht.
    replace (B1 ++ (pb, psz, false) :: (bp, sz, false) :: B2)
      with ((B1 ++ [(pb, psz, false)]) ++ (bp, sz, false) :: B2) in Ht
      by (rewrite <- app_assoc; reflexivity).
    apply (rd_prev t _ _ _ _ _ psz false Ht); try lia.
    rewrite <- Hft. f_equal. lia. }
  destruct (rd_block _ _ _ _ _ Hlay1 HBp) as (Hh_p & Hs_p & _).
  destruct (rd_block _ _ _ _ _ Hlay1 HBb) as (Hh_b & Hs_b & _ & _ & Hf_b).
  destruct Hreg1 as (Rhp & Rlo & Rbrk & Rmax).
  assert (Hsize : s32 (u64 (u64 sz + psz)) = psz + sz).
  { rewrite (u64_small sz) by lia. rewrite u64_small by lia.
    rewrite s32_small by lia. lia. }
  destruct (retag_merge s1 B1 pb psz false bp sz false false B2 L1 (proj1 Hw1))
    as [Hrep2 Hf2].
  { apply Hun1. now left. }
  { apply Hun1. right. now left. }
  cbv zeta in Hrep2, Hf2.
  replace (tag (psz + sz) false) with (psz + sz) in Hrep2, Hf2 by (unfold tag; lia).
  set (s3 := put (put s1 (bp + sz - 16) (psz + sz)) (pb - 8) (psz + sz)) in *.
  exists s3, L1. split; [|split; [|split]].
  - unfold coalesce_prev. cbv zeta. rewrite (Hprev s Hlay). fold s1.
    rewrite (Hprev s1 Hlay1), Hh_p, Hs_p, Hf_b, Hsize, PACK_0.
    rewrite !mem_put.
    rewrite !PREV_BLKP_PUT_other by lia. rewrite (Hprev s1 Hlay1), Hh_p.
    rewrite !PREV_BLKP_PUT_other by lia. rewrite (Hprev s1 Hlay1).
    reflexivity.
  - unfold s3. repeat split; cbn; congruence.
  - split; [exact Hrep2|]. split.
    + replace (B1 ++ (pb, psz + sz, false) :: B2)
        with (B1 ++ [(pb, psz + sz, false)] ++ B2) by reflexivity.
      apply (complete_except_retag B1 [(pb, psz, false); (bp, sz, false)] _ B2 L1
               [pb; bp] [pb] (heap_ptr s1 + DSIZE) (mem_brk s1)).
      * apply Hlay1.
      * exact Hc1.
      * intros b z [E|[]]. injection E as <- _. now left.
      * intros x [<-|[<-|[]]]; [left; now left|right]. exists sz, false. right. now left.
    + intros x [<-|[]]. apply Hun1. now left.
  - eapply payload_frame_trans; [exact Hf1|exact Hf2|]. tauto.
Qed.

Lemma coalesce_next_spec s B1 bp sz nb nsz B2 L :
  wip s (B1 ++ (bp, sz, false) :: (nb, nsz, false) :: B2) L [bp] ->
  exists s' L',
    coalesce_next s sz bp = (s', sz + nsz) /\ same_region s s' /\
    wip s' (B1 ++ (bp, sz + nsz, false) :: B2) L' [bp] /\
    payload_frame s s' (B1 ++ (bp, sz, false) :: (nb, nsz, false) :: B2).
Proof.
  set (B := B1 ++ (bp, sz, false) :: (nb, nsz, false) :: B2).
  intros Hw. pose proof Hw as ([Hlay _] & _ & _).
  destruct (mid_pair _ _ _ _ _ _ _ _ _ Hlay) as (HBb & HBn & Enb). fold B in HBb, HBn.
  pose proof (layout_range _ _ Hlay) as Hr.
  pose proof (layout_block _ _ _ _ _ Hlay HBn) as Hn.
  pose proof (layout_block _ _ _ _ _ Hlay HBb) as Hb.
  assert (Hne : ~ In nb [bp]) by (intros [E|[]]; lia).
  destruct (wip_pop _ _ _ _ _ _ Hw HBn Hne) as [Hw1 Hf1].
  set (s1 := pop_free s nb) in *. set (L1 := unlist L nb nsz) in *.
  pose proof Hw1 as ([Hlay1 Hl1] & Hc1 & Hun1).
  pose proof (same_region_pop_free s nb) as Hreg1. fold s1 in Hreg1.
  destruct (rd_block _ _ _ _ _ Hlay HBb) as (Hh_b0 & _ & _ & Hn_b0 & _).
  destruct (rd_block _ _ _ _ _ Hlay1 HBn) as (Hh_n & Hs_n & _ & _ & Hf_n).
  destruct (rd_block _ _ _ _ _ Hlay1 HBb) as (Hh_b & Hs_b & _ & Hn_b & Hf_b).
  destruct Hreg1 as (Rhp & Rlo & Rbrk & Rmax).
  assert (Hsize : s32 (u64 (u64 sz + nsz)) = sz + nsz).
  { rewrite (u64_small sz) by lia. rewrite u64_small by lia.
    rewrite s32_small by lia. lia. }
  destruct (retag_merge s1 B1 bp sz false nb nsz false false B2 L1 (proj1 Hw1))
    as [Hrep2 Hf2].
  { apply Hun1. right. now left. }
  { apply Hun1. now left. }
  cbv zeta in Hrep2, Hf2.
  replace (tag (sz + nsz) false) with (sz + nsz) in Hrep2, Hf2 by (unfold tag; lia).
  set (s3 := put (put s1 (nb + nsz - 16) (sz + nsz)) (bp - 8) (sz + nsz)) in *.
  exists s3, L1. split; [|split; [|split]].
  - unfold coalesce_next. cbv zeta. rewrite Hn_b0, <- Enb. fold s1.
    rewrite Hn_b, <- Enb, Hh_n, Hs_n, Hf_n, Hsize, PACK_0, Hh_b.
    reflexivity.
  - unfold s3. repeat split; cbn; congruence.
  - split; [exact Hrep2|]. split.
    + replace (B1 ++ (bp, sz + nsz, false) :: B2)
        with (B1 ++ [(bp, sz + nsz, false)] ++ B2) by reflexivity.
      apply (complete_except_retag B1 [(bp, sz, false); (nb, nsz, false)] _ B2 L1
               [nb; bp] [bp] (heap_ptr s1 + DSIZE) (mem_brk s1)).
      * apply Hlay1.
      * exact Hc1.
      * intros b z [E|[]]. injection E as <- _. now left.
      * intros x [<-|[<-|[]]]; [right|left; now left]. exists nsz, false. right. now left.
    + intros x [<-|[]]. apply Hun1. right. now left.
  - eapply payload_frame_trans; [exact Hf1|exact Hf2|]. tauto.
Qed.

Lemma in_alloc_app (B1 Bm B2 : list block) b z :
  (forall x, In x Bm -> snd x = false) ->
  In (b, z, true) (B1 ++ Bm ++ B2) <-> In (b, z, true) B1 \/ In (b, z, true) B2.
Proof.
  intros Hm. rewrite !in_app_iff. split; [|tauto].
  intros [H|[H|H]]; [now left| |now right].
  apply Hm in H. discriminate.
Qed.

Lemma wip_add fuel s B1 b z B2 L :
  wip s (B1 ++ (b, z, false) :: B2) L [b] -> enough_fuel s fuel ->
  exists s' L',
    add_free fuel s b z = Some s' /\ same_region s s' /\
    heap_rep s' (B1 ++ (b, z, false) :: B2) L' /\
    complete (B1 ++ (b, z, false) :: B2) L' /\
    payload_frame s s' (B1 ++ (b, z, false) :: B2).
Proof.
  intros (Hrep & Hc & Hun) Hfuel. pose proof Hrep as [Hlay _].
  destruct (layout_in_mid _ _ _ _ _ _ Hlay) as (Hin & _).
  destruct (heap_rep_add_free fuel _ _ _ _ _ Hrep Hin (Hun b (or_introl eq_refl)) Hfuel)
    as (s' & Heq & Hreg & Hrep' & Hf).
  exists s', (enlist L b z).
  split; [exact Heq|]. split; [exact Hreg|]. split; [exact Hrep'|]. split.
  - apply complete_iff. destruct Hlay.
    apply (complete_except_enlist _ _ [b] [] _ _ _ _ lay_chain0 Hin Hc).
    intros x [<-|[]]. now left.
  - apply payload_links_frame; assumption.
Qed.

(** [coalesce] on a free, listed block: the block and its free neighbours
    become one listed block; every other block stays as it is. *)
Lemma coalesce_spec fuel s B1 bp sz B2 L :
  heap_rep s (B1 ++ (bp, sz, false) :: B2) L ->
  complete (B1 ++ (bp, sz, false) :: B2) L ->
  enough_fuel s fuel ->
  exists s' bp' sz' B1' B2' L',
    coalesce fuel s bp = Some (s', bp') /\ same_region s s' /\
    heap_rep s' (B1' ++ (bp', sz', false) :: B2') L' /\
    complete (B1' ++ (bp', sz', false) :: B2') L' /\
    payload_frame s s' (B1 ++ (bp, sz, false) :: B2) /\
    (forall b z, In (b, z, true) (B1 ++ (bp, sz, false) :: B2) <->
                 In (b, z, true) (B1' ++ (bp', sz', false) :: B2')) /\
    bp' <= bp /\ bp + sz <= bp' + sz' /\
    (B2 = [] -> B2' = []) /\
    ((B1' = B1 /\ bp' = bp /\ forall B0 pb pz, B1 <> B0 ++ [(pb, pz, false)]) \/
     (exists pz, B1 = B1' ++ [(bp', pz, false)])) /\
    ((B2' = B2 /\ forall nb nz B0, B2 <> (nb, nz, false) :: B0) \/
     (exists nz, B2 = (bp + sz, nz, false) :: B2')).
Proof.
  set (B := B1 ++ (bp, sz, false) :: B2).
  intros Hrep Hcomp Hfuel. pose proof Hrep as [Hlay _].
  pose proof (layout_range _ _ Hlay) as Hr.
  destruct (layout_in_mid _ _ _ _ _ _ Hlay) as (HBb & Hch1 & Hch2). fold B in HBb.
  pose proof (layout_block _ _ _ _ _ Hlay HBb) as Hb.
  destruct (rd_block _ _ _ _ _ Hlay HBb) as (Hh_b & Hs_b & _ & Hn_b & _).
  destruct (prev_tag _ _ _ _ _ _ Hlay) as (psz & pal & Hpt & Hp16 & Hpm & Hph & Hpc).
  destruct (next_tag _ _ _ _ _ _ Hlay) as (nsz & nal & Hnt & Hn0 & Hnm & Hnc).
  assert (Hplo : heap_ptr s <= bp - psz).
  { destruct Hpc as [(_ & -> & _ & ->)|(B1' & ->)]; [lia|].
    assert (Hin : In (bp - psz, psz, pal) B).
    { unfold B. apply in_or_app. left. apply in_or_app. right. now left. }
    pose proof (layout_block _ _ _ _ _ Hlay Hin). lia. }
  pose proof (rd_prev _ _ _ _ _ _ _ _ Hlay Hpt Hp16 Hpm Hplo) as Hprev.
  assert (Hpa : GET_ALLOC (mem s) (HDRP (PREV_BLKP (mem s) bp)) = if pal then 1 else 0).
  { rewrite Hprev, HDRP_eq by lia. replace (bp - psz - 8) with (bp - psz - 8) by lia.
    apply (tag_alloc _ _ psz); assumption. }
  assert (Hna : GET_ALLOC (mem s) (HDRP (NEXT_BLKP (mem s) bp)) = if nal then 1 else 0).
  { rewrite Hn_b, HDRP_eq by lia. apply (tag_alloc _ _ nsz); assumption. }
  assert (Hsz32 : s32 (GET_SIZE (mem s) (HDRP bp)) = sz).
  { rewrite Hh_b, Hs_b. apply s32_small. lia. }
  assert (Hu : u64 sz = sz) by (apply u64_small; lia).
  assert (Hps : pal = true -> forall B0 pb pz, B1 <> B0 ++ [(pb, pz, false)]).
  { intros Ep B0 pb pz E. destruct Hpc as [(E1 & _)|(B1' & E1)]; rewrite E1 in E.
    - exact (app_cons_not_nil _ _ _ E).
    - apply app_inj_tail in E. destruct E as [_ E]. rewrite Ep in E. discriminate. }
  assert (Hns : nal = true -> forall nb nz B0, B2 <> (nb, nz, false) :: B0).
  { intros En nb nz B0 E. destruct Hnc as [(E1 & _)|(B2' & E1)]; rewrite E1 in E;
      [discriminate|]. rewrite En in E. discriminate. }
  unfold coalesce. rewrite Hpa, Hna, Hsz32.
  destruct pal, nal; cbn [truth lnot Z.eqb negb andb].
  - (* neither neighbour is free *)
    exists s, bp, sz, B1, B2, L.
    split; [reflexivity|]. split; [apply same_region_refl|].
    split; [exact Hrep|]. split; [exact Hcomp|].
    split; [apply payload_frame_refl|].
    split; [tauto|]. split; [lia|]. split; [lia|]. split; [tauto|].
    split; [left; split; [reflexivity|split; [reflexivity|now apply Hps]]|].
    left. split; [reflexivity|now apply Hns].
  - (* the next block is free *)
    destruct Hnc as [(_ & _ & C & _)|(B2' & EB2)]; [discriminate|].
    assert (Hw0 : wip s B L []).
    { split; [exact Hrep|]. split; [now apply complete_iff|]. intros x []. }
    destruct (wip_pop _ _ _ _ _ _ Hw0 HBb (fun x => x)) as [Hw1 Hf1].
    assert (EB : B = B1 ++ (bp, sz, false) :: (bp + sz, nsz, false) :: B2')
      by (unfold B; now rewrite EB2).
    rewrite EB in Hw1, Hf1.
    destruct (coalesce_next_spec _ _ _ _ _ _ _ _ Hw1) as (s2 & L2 & E2 & R2 & Hw2 & Hf2).
    rewrite E2.
    assert (Hfuel2 : enough_fuel s2 fuel).
    { apply (enough_fuel_region (pop_free s bp)); [exact R2|].
      apply (enough_fuel_region s); [apply same_region_pop_free|exact Hfuel]. }
    destruct (wip_add fuel _ _ _ _ _ _ Hw2 Hfuel2) as (s3 & L3 & E3 & R3 & Hrep3 & Hc3 & Hf3).
    assert (HBn : In (bp + sz, nsz, false) B).
    { unfold B. rewrite EB2. apply in_or_app. right. right. now left. }
    pose proof (layout_block _ _ _ _ _ Hlay HBn) as Hn.
    rewrite (u64_small (sz + nsz)) by lia. rewrite E3. cbn [bind].
    exists s3, bp, (sz + nsz), B1, B2', L3.
    split; [reflexivity|]. split.
    { eapply same_region_trans; [apply same_region_pop_free|].
      eapply same_region_trans; eassumption. }
    split; [exact Hrep3|]. split; [exact Hc3|]. split.
    { fold B. rewrite EB.
      refine (payload_frame_trans _ _ _ _ _ Hf1 _ (fun _ _ H => H)).
      refine (payload_frame_trans _ _ _ _ _ Hf2 Hf3 _).
      intros b z. change (B1 ++ (bp, sz, false) :: (bp + sz, nsz, false) :: B2')
        with (B1 ++ [(bp, sz, false); (bp + sz, nsz, false)] ++ B2').
      change (B1 ++ (bp, sz + nsz, false) :: B2')
        with (B1 ++ [(bp, sz + nsz, false)] ++ B2').
      rewrite !in_alloc_app; [tauto| |].
      - intros x [<-|[]]. reflexivity.
      - intros x [<-|[<-|[]]]; reflexivity. }
    split.
    { intros b z. fold B. rewrite EB.
      change (B1 ++ (bp, sz, false) :: (bp + sz, nsz, false) :: B2')
        with (B1 ++ [(bp, sz, false); (bp + sz, nsz, false)] ++ B2').
      change (B1 ++ (bp, sz + nsz, false) :: B2')
        with (B1 ++ [(bp, sz + nsz, false)] ++ B2').
      rewrite !in_alloc_app; [tauto| |].
      - intros x [<-|[]]. reflexivity.
      - intros x [<-|[<-|[]]]; reflexivity. }
    split; [lia|]. split; [lia|].
    split; [intros C; rewrite C in EB2; discriminate|].
    split; [left; split; [reflexivity|split; [reflexivity|now apply Hps]]|].
    right. exists nsz. exact EB2.
  - (* the previous block is free *)
    destruct Hpc as [(_ & _ & C & _)|(B1' & EB1)]; [discriminate|].
    assert (Hw0 : wip s B L []).
    { split; [exact Hrep|]. split; [now apply complete_iff|]. intros x []. }
    destruct (wip_pop _ _ _ _ _ _ Hw0 HBb (fun x => x)) as [Hw1 Hf1].
    assert (EB : B = B1' ++ (bp - psz, psz, false) :: (bp, sz, false) :: B2)
      by (unfold B; rewrite EB1, <- app_assoc; reflexivity).
    rewrite EB in Hw1, Hf1.
    destruct (coalesce_prev_spec _ _ _ _ _ _ _ _ Hw1) as (s2 & L2 & E2 & R2 & Hw2 & Hf2).
    rewrite E2.
    assert (Hfuel2 : enough_fuel s2 fuel).
    { apply (enough_fuel_region (pop_free s bp)); [exact R2|].
      apply (enough_fuel_region s); [apply same_region_pop_free|exact Hfuel]. }
    destruct (wip_add fuel _ _ _ _ _ _ Hw2 Hfuel2) as (s3 & L3 & E3 & R3 & Hrep3 & Hc3 & Hf3).
    rewrite (u64_small (psz + sz)) by lia. rewrite E3. cbn [bind].
    exists s3, (bp - psz), (psz + sz), B1', B2, L3.
    split; [reflexivity|]. split.
    { eapply same_region_trans; [apply same_region_pop_free|].
      eapply same_region_trans; eassumption. }
    split; [exact Hrep3|]. split; [exact Hc3|]. split.
    { fold B. rewrite EB.
      refine (payload_frame_trans _ _ _ _ _ Hf1 _ (fun _ _ H => H)).
      refine (payload_frame_trans _ _ _ _ _ Hf2 Hf3 _).
      intros b z. change (B1' ++ (bp - psz, psz, false) :: (bp, sz, false) :: B2)
        with (B1' ++ [(bp - psz, psz, false); (bp, sz, false)] ++ B2).
      change (B1' ++ (bp - psz, psz + sz, false) :: B2)
        with (B1' ++ [(bp - psz, psz + sz, false)] ++ B2).
      rewrite !in_alloc_app; [tauto| |].
      - intros x [<-|[]]. reflexivity.
      - intros x [<-|[<-|[]]]; reflexivity. }
    split.
    { intros b z. fold B. rewrite EB.
      change (B1' ++ (bp - psz, psz, false) :: (bp, sz, false) :: B2)
        with (B1' ++ [(bp - psz, psz, false); (bp, sz, false)] ++ B2).
      change (B1' ++ (bp - psz, psz + sz, false) :: B2)
        with (B1' ++ [(bp - psz, psz + sz, false)] ++ B2).
      rewrite !in_alloc_app; [tauto| |].
      - intros x [<-|[]]. reflexivity.
      - intros x [<-|[<-|[]]]; reflexivity. }
    split; [lia|]. split; [lia|]. split; [tauto|].
    split; [right; exists psz; exact EB1|].
    left. split; [reflexivity|now apply Hns].
  - (* both neighbours are free *)
    destruct Hpc as [(_ & _ & C & _)|(B1' & EB1)]; [discriminate|].
    destruct Hnc as [(_ & _ & C & _)|(B2' & EB2)]; [discriminate|].
    assert (Hw0 : wip s B L []).
    { split; [exact Hrep|]. split; [now apply complete_iff|]. intros x []. }
    destruct (wip_pop _ _ _ _ _ _ Hw0 HBb (fun x => x)) as [Hw1 Hf1].
    assert (EB : B = B1' ++ (bp - psz, psz, false) :: (bp, sz, false)
                      :: (bp + sz, nsz, false) :: B2')
      by (unfold B; rewrite EB1, EB2, <- app_assoc; reflexivity).
    replace (bp + sz) with (bp - psz + (psz + sz)) in EB by lia.
    rewrite EB in Hw1, Hf1.
    destruct (coalesce_prev_spec _ _ _ _ _ _ _ _ Hw1) as (s2 & L2 & E2 & R2 & Hw2 & Hf2).
    rewrite E2.
    destruct (coalesce_next_spec _ _ _ _ _ _ _ _ Hw2) as (s3 & L3 & E3 & R3 & Hw3 & Hf3).
    rewrite E3.
    assert (Hfuel3 : enough_fuel s3 fuel).
    { apply (enough_fuel_region s2); [exact R3|].
      apply (enough_fuel_region (pop_free s bp)); [exact R2|].
      apply (enough_fuel_region s); [apply same_region_pop_free|exact Hfuel]. }
    destruct (wip_add fuel _ _ _ _ _ _ Hw3 Hfuel3) as (s4 & L4 & E4 & R4 & Hrep4 & Hc4 & Hf4).
    assert (HBn : In (bp + sz, nsz, false) B).
    { unfold B. rewrite EB2. apply in_or_app. right. right. now left. }
    pose proof (layout_block _ _ _ _ _ Hlay HBn) as Hn.
    rewrite (u64_small (psz + sz + nsz)) by lia. rewrite E4. cbn [bind].
    exists s4, (bp - psz), (psz + sz + nsz), B1', B2', L4.
    split; [reflexivity|]. split.
    { eapply same_region_trans; [apply same_region_pop_free|].
      eapply same_region_trans; [eassumption|].
      eapply same_region_trans; eassumption. }
    split; [exact Hrep4|]. split; [exact Hc4|].
    assert (Hal1 : forall b z,
              In (b, z, true) (B1' ++ (bp - psz, psz, false) :: (bp, sz, false)
                               :: (bp - psz + (psz + sz), nsz, false) :: B2') <->
              In (b, z, true) B1' \/ In (b, z, true) B2').
    { intros b z.
      change (B1' ++ (bp - psz, psz, false) :: (bp, sz, false)
                :: (bp - psz + (psz + sz), nsz, false) :: B2')
        with (B1' ++ [(bp - psz, psz, false); (bp, sz, false);
                      (bp - psz + (psz + sz), nsz, false)] ++ B2').
      apply in_alloc_app. intros x [<-|[<-|[<-|[]]]]; reflexivity. }
    assert (Hal2 : forall b z,
              In (b, z, true) (B1' ++ (bp - psz, psz + sz, false)
                               :: (bp - psz + (psz + sz), nsz, false) :: B2') <->
              In (b, z, true) B1' \/ In (b, z, true) B2').
    { intros b z.
      change (B1' ++ (bp - psz, psz + sz, false)
                :: (bp - psz + (psz + sz), nsz, false) :: B2')
        with (B1' ++ [(bp - psz, psz + sz, false);
                      (bp - psz + (psz + sz), nsz, false)] ++ B2').
      apply in_alloc_app. intros x [<-|[<-|[]]]; reflexivity. }
    assert (Hal3 : forall b z,
              In (b, z, true) (B1' ++ (bp - psz, psz + sz + nsz, false) :: B2') <->
              In (b, z, true) B1' \/ In (b, z, true) B2').
    { intros b z.
      change (B1' ++ (bp - psz, psz + sz + nsz, false) :: B2')
        with (B1' ++ [(bp - psz, psz + sz + nsz, false)] ++ B2').
      apply in_alloc_app. intros x [<-|[]]; reflexivity. }
    split.
    { fold B. rewrite EB.
      refine (payload_frame_trans _ _ _ _ _ Hf1 _ (fun _ _ H => H)).
      refine (payload_frame_trans _ _ _ _ _ Hf2 _ _).
      - refine (payload_frame_trans _ _ _ _ _ Hf3 Hf4 _).
        intros b z. rewrite Hal2, Hal3. tauto.
      - intros b z. rewrite Hal1, Hal2. tauto. }
    split; [intros b z; fold B; rewrite EB, Hal1, Hal3; tauto|].
    split; [lia|]. split; [lia|].
    split; [intros C; rewrite C in EB2; discriminate|].
    split; [right; exists psz; exact EB1|].
    right. exists nsz. exact EB2.
Qed.

(** ** Growing the heap *)

(** A new free block on top of the heap: the old epilogue word becomes its
    header, and a new epilogue follows it. *)
Lemma heap_grow s s' B L size :
  heap_rep s B L ->
  heap_ptr s' = heap_ptr s -> mem_heap s' = mem_heap s ->
  mem_max_addr s' = mem_max_addr s -> mem_brk s' = mem_brk s + size ->
  mem_brk s + size <= mem_max_addr s -> 32 <= size -> size mod 8 = 0 ->
  (forall a, a < mem_brk s - 8 -> mem s' a = mem s a) ->
  GET (mem s') (mem_brk s - 8) = tag size false ->
  GET (mem s') (mem_brk s + size - 16) = tag size false ->
  GET (mem s') (mem_brk s + size - 8) = tag 0 true ->
  heap_rep s' (B ++ [(mem_brk s, size, false)]) L /\
  unlisted L (mem_brk s).
Proof.
  intros [Hlay Hl] Hhp Hlo Hmax Hbrk Hfit H32 Hm8 Hfr Hh Hf He.
  pose proof (layout_range _ _ Hlay) as Hr.
  assert (Hget : forall x, x + 8 <= mem_brk s - 8 -> GET (mem s') x = GET (mem s) x).
  { intros x Hx. apply GET_ext. intros a Ha. apply Hfr. lia. }
  split; [split|].
  - destruct Hlay.
    constructor; rewrite ?Hhp, ?Hlo, ?Hbrk, ?Hmax; try assumption; try lia.
    + apply chain_app. exists (mem_brk s). split; [exact lay_chain0|].
      cbn [chain]. consts. repeat split; lia.
    + consts. destruct lay_pro0 as [E1 E2]. rewrite !Hget by lia. tauto.
    + intros b z al Hin. apply in_app_or in Hin. destruct Hin as [Hin|Hin].
      * pose proof (chain_in _ _ _ _ _ _ lay_chain0 Hin). consts.
        rewrite !Hget by lia. now apply lay_tags0.
      * destruct Hin as [E|[]]. injection E as <- <- <-. consts.
        split; assumption.
  - intros i Hi. pose proof (Hl i Hi) as Hc.
    assert (Hc' : class_ok s' B i (L i)).
    { apply (class_ok_frame s); try assumption.
      - intros a Ha. rewrite slot_val in Ha. apply Hfr. unfold LISTSIZE in Hi. lia.
      - intros b a Hb Ha. apply in_map_iff in Hb.
        destruct Hb as ([b' sz] & <- & Hin). cbn [fst] in Ha.
        destruct Hc as (_ & _ & Hmem & _). destruct (Hmem _ _ Hin) as [HB _].
        pose proof (layout_block _ _ _ _ _ Hlay HB). apply Hfr. lia. }
    destruct Hc' as (E1 & E2 & E3 & E4 & E5).
    split; [exact E1|]. split; [exact E2|]. split; [|tauto].
    intros b sz Hin. destruct (E3 _ _ Hin) as [HB Hi']. split; [|exact Hi'].
    apply in_or_app. now left.
  - intros i Hi Hin. apply in_map_iff in Hin. destruct Hin as ([b sz] & E & Hin).
    cbn [fst] in E. subst b. destruct (Hl i Hi) as (_ & _ & Hmem & _).
    destruct (Hmem _ _ Hin) as [HB _].
    pose proof (layout_block _ _ _ _ _ Hlay HB). lia.
Qed.

Lemma brk_not_fail s B :
  layout s B -> mem_brk s < mem_max_addr s -> (mem_brk s =? SBRK_FAIL) = false.
Proof.
  intros Hlay Hlt. pose proof (layout_range _ _ Hlay) as Hr.
  apply Z.eqb_neq. unfold SBRK_FAIL. change (u64 (-1)) with (2 ^ 64 - 1). lia.
Qed.

(** [extend_heap]: either the region cannot grow and nothing changes, or
    the heap ends in a listed free block that covers the new bytes. *)
Lemma extend_heap_spec fuel s B L size :
  heap_rep s B L -> complete B L -> enough_fuel s fuel ->
  32 <= size <= 2 ^ 64 - 8 -> size mod 8 = 0 ->
  (mem_max_addr s < mem_brk s + size /\ extend_heap fuel s size = Some (s, NULL)) \/
  (mem_brk s + size <= mem_max_addr s /\
   exists s' bp' sz' B1' L',
     extend_heap fuel s size = Some (s', bp') /\
     heap_ptr s' = heap_ptr s /\ mem_heap s' = mem_heap s /\
     mem_max_addr s' = mem_max_addr s /\ mem_brk s' = mem_brk s + size /\
     heap_rep s' (B1' ++ [(bp', sz', false)]) L' /\
     complete (B1' ++ [(bp', sz', false)]) L' /\
     payload_frame s s' B /\
     (forall b z, In (b, z, true) B <-> In (b, z, true) (B1' ++ [(bp', sz', false)])) /\
     size <= sz' /\ bp' <= mem_brk s /\
     bp' + sz' = mem_brk s + size /\
     ((B1' = B /\ bp' = mem_brk s /\ forall B0 pb pz, B <> B0 ++ [(pb, pz, false)]) \/
      (exists pz, B = B1' ++ [(bp', pz, false)]))).
Proof.
  intros Hrep Hcomp Hfuel Hsz Hm8. pose proof Hrep as [Hlay Hl].
  pose proof (layout_range _ _ Hlay) as Hr.
  unfold extend_heap. rewrite ALIGN_id by first [assumption | lia]. unfold mem_sbrk.
  destruct (mem_brk s + size >? mem_max_addr s) eqn:Hgt.
  - left. rewrite Z.eqb_refl. split; [lia|reflexivity].
  - right. split; [lia|]. assert (Hfit : mem_brk s + size <= mem_max_addr s) by lia.
    rewrite (brk_not_fail _ _ Hlay) by lia. cbv zeta.
    set (s0 := mkState (mem s) (heap_ptr s) (mem_heap s) (mem_brk s + size)
                       (mem_max_addr s)).
    set (bp := mem_brk s).
    assert (Hhd : HDRP bp = bp - 8) by (apply HDRP_eq; unfold bp; lia).
    rewrite Hhd. rewrite PACK_0.
    assert (Hft : FTRP (mem (put s0 (bp - 8) size)) bp = bp + size - 16).
    { unfold FTRP. rewrite Hhd, mem_put.
      rewrite (tag_size _ _ size false); [consts; apply u64_small; unfold bp; lia| |lia|lia].
      rewrite GET_PUT_same. unfold tag. rewrite u64_small by lia. lia. }
    rewrite Hft.
    assert (Hnx : NEXT_BLKP (mem (put (put s0 (bp - 8) size) (bp + size - 16) size)) bp
                  = bp + size).
    { unfold NEXT_BLKP. rewrite !mem_put. replace (u64 (bp - WSIZE)) with (bp - 8)
        by (consts; symmetry; apply u64_small; unfold bp; lia).
      rewrite (tag_size _ _ size false); [apply u64_small; unfold bp; lia| |lia|lia].
      rewrite GET_PUT_other by lia. rewrite GET_PUT_same.
      unfold tag. rewrite u64_small by lia. lia. }
    rewrite Hnx.
    rewrite (HDRP_eq (bp + size)) by (unfold bp; lia).
    assert (Hp1 : PACK 0 1 = tag 0 true) by reflexivity. rewrite Hp1.
    set (s3 := put (put (put s0 (bp - 8) size) (bp + size - 16) size)
                   (bp + size - 8) (tag 0 true)).
    destruct (heap_grow s s3 B L size Hrep) as [Hrep3 Hun]; try reflexivity;
      try assumption; try lia.
    { intros a Ha. unfold s3. rewrite !mem_put. fold bp in Ha.
      rewrite !PUT_byte_other by lia. reflexivity. }
    { unfold s3. rewrite !mem_put. fold bp. gput.
      unfold tag. rewrite Z.add_0_r. apply u64_small. lia. }
    { unfold s3. rewrite !mem_put. fold bp. gput.
      unfold tag. rewrite Z.add_0_r. apply u64_small. lia. }
    { unfold s3. rewrite !mem_put. fold bp. gput. reflexivity. }
    fold bp in Hrep3, Hun.
    assert (Hfuel3 : enough_fuel s3 fuel) by exact Hfuel.
    assert (Hw3 : wip s3 (B ++ (bp, size, false) :: []) L [bp]).
    { split; [exact Hrep3|]. split.
      - intros b z HB. apply in_app_or in HB. destruct HB as [HB|[E|[]]].
        + right. now apply Hcomp.
        + injection E as <- <-. left. now left.
      - intros x [<-|[]]. exact Hun. }
    destruct (wip_add fuel _ _ _ _ _ _ Hw3 Hfuel3) as (s4 & L4 & E4 & R4 & Hrep4 & Hc4 & Hf4).
    rewrite E4. cbn [bind].
    assert (Hfuel4 : enough_fuel s4 fuel) by (apply (enough_fuel_region s3); assumption).
    destruct (coalesce_spec fuel _ _ _ _ _ _ Hrep4 Hc4 Hfuel4)
      as (s5 & bp' & sz' & B1' & B2' & L5 & E5 & R5 & Hrep5 & Hc5 & Hf5 & Hal & Hle1 & Hle2 & Hnil &
          Hshape & _).
    rewrite (Hnil eq_refl) in *.
    exists s5, bp', sz', B1', L5.
    destruct R4 as (R41 & R42 & R43 & R44). destruct R5 as (R51 & R52 & R53 & R54).
    split; [exact E5|].
    split; [rewrite R51, R41; reflexivity|]. split; [rewrite R52, R42; reflexivity|].
    split; [rewrite R54, R44; reflexivity|]. split; [rewrite R53, R43; reflexivity|].
    split; [exact Hrep5|]. split; [exact Hc5|].
    assert (Hsub : forall b z, In (b, z, true) B <->
                     In (b, z, true) (B ++ [(bp, size, false)])).
    { intros b z. rewrite in_app_iff. split; [tauto|].
      intros [H|[H|[]]]; [exact H|discriminate]. }
    split.
    { assert (Hf3 : payload_frame s s3 B).
      { intros b z a HB Ha. pose proof (layout_block _ _ _ _ _ Hlay HB).
        unfold s3. rewrite !mem_put. consts. fold bp in H.
        rewrite !PUT_byte_other by lia. reflexivity. }
      refine (payload_frame_trans _ _ _ _ _ Hf3 _ (fun b z => proj1 (Hsub b z))).
      refine (payload_frame_trans _ _ _ _ _ Hf4 Hf5 (fun _ _ H => H)). }
    split; [intros b z; rewrite Hsub; apply Hal|].
    split; [lia|]. split; [exact Hle1|]. split; [|exact Hshape].
    destruct (layout_in_mid _ _ _ _ _ _ (proj1 Hrep5)) as (_ & _ & Hend).
    cbn [chain] in Hend. rewrite Hend, R53, R43. reflexivity.
Qed.

(** ** Placement *)

Lemma inner_unlisted s B L b z al x :
  heap_rep s B L -> In (b, z, al) B -> b < x < b + z -> unlisted L x.
Proof.
  intros Hrep HB Hx i Hi Hin. unfold LISTSIZE in Hi.
  destruct (listed_class _ _ _ _ _ Hrep Hi Hin) as (sz & _ & HB' & _).
  destruct Hrep as [Hlay _].
  pose proof (layout_block _ _ _ _ _ Hlay HB').
  destruct Hlay.
  destruct (chain_sep _ _ _ _ _ _ _ _ _ lay_chain0 HB HB') as [E|[?|?]]; [|lia|lia].
  injection E as -> _ _. lia.
Qed.

(** ** Neighbouring free blocks *)

Lemma nfp_app l1 x l2 :
  no_free_pair (l1 ++ x :: l2) = no_free_pair (l1 ++ [x]) && no_free_pair (x :: l2).
Proof.
  induction l1 as [|a l1 IH]; [reflexivity|].
  destruct l1 as [|b l1].
  - change (no_free_pair ([a] ++ x :: l2)) with ((a || x) && no_free_pair (x :: l2)).
    change (no_free_pair ([a] ++ [x])) with ((a || x) && true).
    now rewrite andb_true_r.
  - change (no_free_pair ((a :: b :: l1) ++ x :: l2))
      with ((a || b) && no_free_pair ((b :: l1) ++ x :: l2)).
    change (no_free_pair ((a :: b :: l1) ++ [x]))
      with ((a || b) && no_free_pair ((b :: l1) ++ [x])).
    rewrite IH. now rewrite andb_assoc.
Qed.

Lemma nfp_cons_true l : no_free_pair (true :: l) = no_free_pair l.
Proof. destruct l; reflexivity. Qed.

Lemma nfp_cons_false l : no_free_pair (false :: l) = hd true l && no_free_pair l.
Proof. destruct l; reflexivity. Qed.

Lemma nfp_snoc_true l : no_free_pair (l ++ [true]) = no_free_pair l.
Proof.
  rewrite nfp_app. change (no_free_pair [true]) with true. rewrite andb_true_r.
  induction l as [|a l IH]; [reflexivity|]. destruct l as [|b l].
  - cbn. now rewrite orb_true_r.
  - change (no_free_pair ((a :: b :: l) ++ [true]))
      with ((a || b) && no_free_pair ((b :: l) ++ [true])).
    rewrite IH. reflexivity.
Qed.

Lemma nfp_snoc_false l :
  no_free_pair (l ++ [false]) = last l true && no_free_pair l.
Proof.
  induction l as [|a l IH]; [reflexivity|]. destruct l as [|b l].
  - destruct a; reflexivity.
  - change (no_free_pair ((a :: b :: l) ++ [false]))
      with ((a || b) && no_free_pair ((b :: l) ++ [false])).
    rewrite IH.
    change (last (a :: b :: l) true) with (last (b :: l) true).
    change (no_free_pair (a :: b :: l)) with ((a || b) && no_free_pair (b :: l)).
    destruct (a || b), (last (b :: l) true), (no_free_pair (b :: l)); reflexivity.
Qed.

Lemma last_flag (B1 : list block) :
  (forall B0 pb pz, B1 <> B0 ++ [(pb, pz, false)]) -> last (map snd B1) true = true.
Proof.
  intros H. destruct (list_last_cases B1) as [->|(B0 & [[pb pz] a] & ->)]; [reflexivity|].
  rewrite map_app. cbn [map snd]. rewrite last_last. destruct a; [reflexivity|].
  exfalso. now apply (H B0 pb pz).
Qed.

Lemma head_flag (B2 : list block) :
  (forall nb nz B0, B2 <> (nb, nz, false) :: B0) -> hd true (map snd B2) = true.
Proof.
  intros H. destruct B2 as [|[[nb nz] a] B0]; [reflexivity|]. cbn [map snd hd].
  destruct a; [reflexivity|]. exfalso. now apply (H nb nz B0).
Qed.

(** What surrounds a block in a sequence without neighbouring free blocks. *)
Lemma coalesced_at B1 b z (a : bool) B2 :
  coalesced (B1 ++ (b, z, a) :: B2) = true <->
  no_free_pair (map snd B1) = true /\ no_free_pair (map snd B2) = true /\
  (a = false -> last (map snd B1) true = true /\ hd true (map snd B2) = true).
Proof.
  unfold coalesced. rewrite map_app. cbn [map snd]. rewrite nfp_app.
  destruct a.
  - rewrite nfp_snoc_true, nfp_cons_true, andb_true_iff. split; [|tauto].
    intros [H1 H2]. split; [exact H1|]. split; [exact H2|]. discriminate.
  - rewrite nfp_snoc_false, nfp_cons_false, !andb_true_iff. tauto.
Qed.

(** A block placed in a free block. *)
Lemma coalesced_place B1 bp total B2 asz B' :
  B' = B1 ++ (bp, total, true) :: B2 \/
  B' = B1 ++ (bp, asz, true) :: (bp + asz, total - asz, false) :: B2 \/
  B' = B1 ++ (bp, total - asz, false) :: (bp + (total - asz), asz, true) :: B2 ->
  coalesced (B1 ++ (bp, total, false) :: B2) = true -> coalesced B' = true.
Proof.
  intros Hs H. apply coalesced_at in H. destruct H as (H1 & H2 & H3).
  destruct (H3 eq_refl) as [H4 H5].
  destruct Hs as [->|[->| ->]]; apply coalesced_at.
  - split; [exact H1|]. split; [exact H2|]. discriminate.
  - split; [exact H1|]. split; [|discriminate].
    cbn [map snd]. rewrite nfp_cons_false. now rewrite H5, H2.
  - split; [exact H1|]. split; [|intros _; split; [exact H4|reflexivity]].
    cbn [map snd]. now rewrite nfp_cons_true.
Qed.

(** New free space at the end, merged with a free last block. *)
Lemma coalesced_extend (B B1' : list block) bp' sz' brk :
  (B1' = B /\ bp' = brk /\ forall B0 pb pz, B <> B0 ++ [(pb, pz, false)]) \/
  (exists pz, B = B1' ++ [(bp', pz, false)]) ->
  coalesced B = true -> coalesced (B1' ++ [(bp', sz', false)]) = true.
Proof.
  intros Hs H. apply coalesced_at.
  destruct Hs as [(-> & _ & Hl)|(pz & ->)].
  - split; [exact H|]. split; [reflexivity|]. intros _.
    split; [now apply last_flag|reflexivity].
  - apply coalesced_at in H. exact H.
Qed.

(** A released block merged with its free neighbours. *)
Lemma coalesced_merge (B1 B2 B1' B2' : list block) bp z bp' sz' nxt :
  (B1' = B1 /\ bp' = bp /\ forall B0 pb pz, B1 <> B0 ++ [(pb, pz, false)]) \/
  (exists pz, B1 = B1' ++ [(bp', pz, false)]) ->
  (B2' = B2 /\ forall nb nz B0, B2 <> (nb, nz, false) :: B0) \/
  (exists nz, B2 = (nxt, nz, false) :: B2') ->
  coalesced (B1 ++ (bp, z, true) :: B2) = true ->
  coalesced (B1' ++ (bp', sz', false) :: B2') = true.
Proof.
  intros Hs1 Hs2 H. apply coalesced_at in H. destruct H as (H1 & H2 & _).
  apply coalesced_at.
  assert (G1 : no_free_pair (map snd B1') = true /\ last (map snd B1') true = true).
  { destruct Hs1 as [(-> & _ & Hl)|(pz & ->)]; [split; [exact H1|now apply last_flag]|].
    rewrite map_app in H1. cbn [map snd] in H1. rewrite nfp_snoc_false in H1.
    apply andb_true_iff in H1. tauto. }
  assert (G2 : no_free_pair (map snd B2') = true /\ hd true (map snd B2') = true).
  { destruct Hs2 as [(-> & Hh)|(nz & ->)]; [split; [exact H2|now apply head_flag]|].
    cbn [map snd] in H2. rewrite nfp_cons_false in H2.
    apply andb_true_iff in H2. tauto. }
  tauto.
Qed.

(** [place] on a listed free block of [total] bytes, for an aligned request
    of at most [total] bytes: the result is an allocated block of at least
    the requested size inside the old block; the rest of the old block, if
    any, is a listed free block. *)
Lemma place_spec fuel s B1 bp total B2 L asz :
  heap_rep s (B1 ++ (bp, total, false) :: B2) L ->
  complete (B1 ++ (bp, total, false) :: B2) L ->
  enough_fuel s fuel ->
  32 <= asz <= total -> asz mod 8 = 0 ->
  exists s' r rz B' L',
    place fuel s bp asz = Some (s', r) /\ same_region s s' /\
    heap_rep s' B' L' /\ complete B' L' /\
    In (r, rz, true) B' /\ asz <= rz /\ bp <= r /\ r + rz <= bp + total /\
    payload_frame s s' (B1 ++ (bp, total, false) :: B2) /\
    (forall b z, In (b, z, true) B' <->
                 (b = r /\ z = rz) \/ In (b, z, true) (B1 ++ (bp, total, false) :: B2)) /\
    ((total - asz < 32 /\ r = bp /\ rz = total) \/
     (32 <= total - asz /\ 7 * asz <= total - asz /\ r = bp /\ rz = asz /\
      In (bp + asz, total - asz, false) B') \/
     (32 <= total - asz /\ total - asz < 7 * asz /\ r = bp + (total - asz) /\
      rz = asz /\ In (bp, total - asz, false) B')) /\
    (B' = B1 ++ (bp, total, true) :: B2 \/
     B' = B1 ++ (bp, asz, true) :: (bp + asz, total - asz, false) :: B2 \/
     B' = B1 ++ (bp, total - asz, false) :: (bp + (total - asz), asz, true) :: B2).
Proof.
  set (B := B1 ++ (bp, total, false) :: B2).
  intros Hrep Hcomp Hfuel Hasz Hm8. pose proof Hrep as [Hlay _].
  pose proof (layout_range _ _ Hlay) as Hr.
  destruct (layout_in_mid _ _ _ _ _ _ Hlay) as (HBb & Hch1 & Hch2). fold B in HBb.
  pose proof (layout_block _ _ _ _ _ Hlay HBb) as Hb.
  destruct (rd_block _ _ _ _ _ Hlay HBb) as (Hh_b & Hs_b & _ & _ & _).
  assert (Hw0 : wip s B L []).
  { split; [exact Hrep|]. split; [now apply complete_iff|]. intros x []. }
  destruct (wip_pop _ _ _ _ _ _ Hw0 HBb (fun x => x)) as [Hw1 Hf1].
  destruct Hw1 as (Hrep1 & Hc1 & Hun1).
  pose proof (Hun1 bp (or_introl eq_refl)) as Hunb.
  assert (Hfuel1 : enough_fuel (pop_free s bp) fuel).
  { apply (enough_fuel_region s); [apply same_region_pop_free|exact Hfuel]. }
  assert (Hmt : total mod 8 = 0) by tauto.
  assert (Hmr : (total - asz) mod 8 = 0) by (apply mod8_sub; assumption).
  assert (Hallocmid : forall (B1' : list block) Bm B2' b z,
            (forall x, In x Bm -> snd x = false) ->
            In (b, z, true) (B1' ++ Bm ++ B2') <->
            In (b, z, true) B1' \/ In (b, z, true) B2')
    by (intros; now apply in_alloc_app).
  assert (HallocB : forall b z, In (b, z, true) B <->
                      In (b, z, true) B1 \/ In (b, z, true) B2).
  { intros b z. apply (Hallocmid B1 [(bp, total, false)] B2).
    intros x [<-|[]]. reflexivity. }
  assert (Hu7 : u64 (THRESHOLD * asz) = 7 * asz)
    by (unfold THRESHOLD; apply u64_small; lia).
  unfold place. rewrite Hh_b, Hs_b. cbv zeta.
  rewrite (u64_small (total - asz)) by lia.
  set (s1 := pop_free s bp) in *.
  destruct (total - asz <? 4 * WSIZE) eqn:Hc32.
  - (* the whole block is taken *)
    assert (Hp : PACK total 1 = tag total true) by (apply (PACK_tag total true); lia).
    rewrite Hp.
    assert (Hft : FTRP (mem (put s1 (bp - 8) (tag total true))) bp = bp + total - 16).
    { unfold FTRP. rewrite Hh_b, mem_put.
      rewrite (tag_size _ _ total true); [consts; apply u64_small; lia| |lia|lia].
      rewrite GET_PUT_same. apply u64_small. apply tag_range. lia. }
    rewrite Hft.
    destruct (retag_one s1 B1 bp total false true B2 _ Hrep1 Hunb) as [Hrep2 Hf2].
    cbv zeta in Hrep2, Hf2.
    eexists _, bp, total, (B1 ++ (bp, total, true) :: B2), _.
    split; [reflexivity|]. split.
    { apply (same_region_trans _ s1); [apply same_region_pop_free|repeat split]. }
    split; [exact Hrep2|]. split.
    { apply complete_iff. destruct Hlay.
      apply (complete_except_retag B1 [(bp, total, false)] [(bp, total, true)] B2
               _ [bp] [] _ _ lay_chain0 Hc1).
      - intros b z [E|[]]. discriminate.
      - intros x [<-|[]]. right. exists total, false. now left. }
    split; [apply in_or_app; right; now left|].
    split; [lia|]. split; [lia|]. split; [lia|]. split.
    { refine (payload_frame_trans _ _ _ _ _ Hf1 Hf2 (fun _ _ H => H)). }
    split; [|split; [left; split; [consts; lia|split; reflexivity]|left; reflexivity]].
    intros b z. rewrite HallocB. rewrite in_app_iff. cbn [In]. split.
    + intros [H|[H|H]]; [tauto| |tauto]. injection H as <- <-. left. tauto.
    + intros [[-> ->]|[H|H]]; tauto.
  - destruct (total - asz >=? u64 (THRESHOLD * asz)) eqn:Hth.
    + (* the request first, the free rest after it *)
      unfold place_fb. rewrite Hh_b.
      assert (Hp : PACK asz 1 = tag asz true) by (apply (PACK_tag asz true); lia).
      assert (Hq : PACK (total - asz) (lnot 1) = tag (total - asz) false).
      { change (lnot 1) with 0. apply (PACK_tag _ false); lia. }
      rewrite Hp, Hq.
      set (t1 := put s1 (bp - 8) (tag asz true)).
      assert (Hft : FTRP (mem t1) bp = bp + asz - 16).
      { unfold FTRP, t1. rewrite Hh_b, mem_put.
        rewrite (tag_size _ _ asz true); [consts; apply u64_small; lia| |lia|lia].
        rewrite GET_PUT_same. apply u64_small. apply tag_range. lia. }
      rewrite Hft.
      set (t2 := put t1 (bp + asz - 16) (tag asz true)).
      assert (Hnx : NEXT_BLKP (mem t2) bp = bp + asz).
      { unfold NEXT_BLKP, t2, t1. rewrite !mem_put.
        replace (u64 (bp - WSIZE)) with (bp - 8)
          by (consts; symmetry; apply u64_small; lia).
        rewrite (tag_size _ _ asz true); [apply u64_small; lia| |lia|lia].
        rewrite GET_PUT_other by lia. rewrite GET_PUT_same.
        apply u64_small. apply tag_range. lia. }
      rewrite Hnx. rewrite (HDRP_eq (bp + asz)) by lia.
      set (t3 := put t2 (bp + asz - 8) (tag (total - asz) false)).
      assert (Hnx3 : NEXT_BLKP (mem t3) bp = bp + asz).
      { unfold NEXT_BLKP, t3, t2, t1. rewrite !mem_put.
        replace (u64 (bp - WSIZE)) with (bp - 8)
          by (consts; symmetry; apply u64_small; lia).
        rewrite (tag_size _ _ asz true); [apply u64_small; lia| |lia|lia].
        rewrite !GET_PUT_other by lia. rewrite GET_PUT_same.
        apply u64_small. apply tag_range. lia. }
      rewrite Hnx3.
      assert (Hft3 : FTRP (mem t3) (bp + asz) = bp + total - 16).
      { unfold FTRP, t3. rewrite (HDRP_eq (bp + asz)) by lia. rewrite mem_put.
        rewrite (tag_size _ _ (total - asz) false);
          [consts; rewrite u64_small by lia; lia| |lia|assumption].
        rewrite GET_PUT_same. apply u64_small. apply tag_range. lia. }
      rewrite Hft3.
      set (t4 := put t3 (bp + total - 16) (tag (total - asz) false)).
      assert (E32 : 32 <= total - asz) by (consts; lia).
      destruct (retag_split s1 B1 bp total asz (total - asz) true false B2 _ Hrep1 Hunb
                  ltac:(lia) ltac:(lia) E32 Hm8) as [Hrep4 Hf4].
      cbv zeta in Hrep4, Hf4. fold t1 t2 t3 t4 in Hrep4, Hf4.
      assert (Hnx4 : NEXT_BLKP (mem t4) bp = bp + asz).
      { destruct Hrep4 as [Hlay4 _].
        destruct (layout_in_mid _ _ _ _ _ _ Hlay4) as (Hin4 & _).
        destruct (rd_block _ _ _ _ _ Hlay4 Hin4) as (_ & _ & _ & H & _). exact H. }
      rewrite Hnx4.
      assert (Hw4 : wip t4 ((B1 ++ [(bp, asz, true)]) ++ (bp + asz, total - asz, false) :: B2)
                        (unlist L bp total) [bp + asz]).
      { rewrite <- app_assoc. cbn [app]. split; [exact Hrep4|]. split.
        - destruct Hlay.
          apply (complete_except_retag B1 [(bp, total, false)]
                   [(bp, asz, true); (bp + asz, total - asz, false)] B2
                   _ [bp] [bp + asz] _ _ lay_chain0 Hc1).
          + intros b z [E|[E|[]]]; [discriminate|]. injection E as <- _. now left.
          + intros x [<-|[]]. right. exists total, false. now left.
        - intros x [<-|[]].
          apply (inner_unlisted s1 B _ bp total false); [exact Hrep1|exact HBb|lia]. }
      assert (Hfuel4 : enough_fuel t4 fuel) by exact Hfuel1.
      destruct (wip_add fuel _ _ _ _ _ _ Hw4 Hfuel4)
        as (s5 & L5 & E5 & R5 & Hrep5 & Hc5 & Hf5).
      rewrite E5. cbn [bind].
      rewrite <- app_assoc in Hrep5, Hc5, Hf5. cbn [app] in Hrep5, Hc5, Hf5.
      exists s5, bp, asz, (B1 ++ (bp, asz, true) :: (bp + asz, total - asz, false) :: B2), L5.
      split; [reflexivity|]. split.
      { apply (same_region_trans _ s1); [apply same_region_pop_free|].
        apply (same_region_trans _ t4); [repeat split|exact R5]. }
      split; [exact Hrep5|]. split; [exact Hc5|].
      split; [apply in_or_app; right; now left|].
      split; [lia|]. split; [lia|]. split; [lia|].
      assert (Hal5 : forall b z,
                In (b, z, true) (B1 ++ (bp, asz, true) :: (bp + asz, total - asz, false) :: B2)
                <-> (b = bp /\ z = asz) \/ In (b, z, true) B).
      { intros b z. rewrite HallocB. rewrite in_app_iff. cbn [In]. split.
        - intros [H|[H|[H|H]]]; [tauto| |discriminate|tauto].
          injection H as <- <-. left. tauto.
        - intros [[-> ->]|[H|H]]; tauto. }
      split; [|split; [exact Hal5|]].
      2:{ split; [|right; left; reflexivity].
          right. left. split; [exact E32|]. split; [rewrite Hu7 in Hth; lia|].
          split; [reflexivity|]. split; [reflexivity|].
          apply in_or_app. right. right. now left. }
      refine (payload_frame_trans _ _ _ _ _ Hf1 _ (fun _ _ H => H)).
      intros b z a HB Ha. rewrite (Hf5 b z a); [apply (Hf4 b z a HB Ha)| |exact Ha].
      apply Hal5. now right.
    + (* the free rest first, the request after it *)
      unfold place_fb. rewrite Hh_b.
      assert (Hp : PACK (total - asz) 0 = tag (total - asz) false).
      { apply (PACK_tag _ false); lia. }
      assert (Hq : PACK asz (lnot 0) = tag asz true).
      { change (lnot 0) with 1. apply (PACK_tag _ true); lia. }
      rewrite Hp, Hq.
      set (t1 := put s1 (bp - 8) (tag (total - asz) false)).
      assert (E32 : 32 <= total - asz) by (consts; lia).
      assert (Hft : FTRP (mem t1) bp = bp + (total - asz) - 16).
      { unfold FTRP, t1. rewrite Hh_b, mem_put.
        rewrite (tag_size _ _ (total - asz) false);
          [consts; apply u64_small; lia| |lia|assumption].
        rewrite GET_PUT_same. apply u64_small. apply tag_range. lia. }
      rewrite Hft.
      set (t2 := put t1 (bp + (total - asz) - 16) (tag (total - asz) false)).
      assert (Hnx : NEXT_BLKP (mem t2) bp = bp + (total - asz)).
      { unfold NEXT_BLKP, t2, t1. rewrite !mem_put.
        replace (u64 (bp - WSIZE)) with (bp - 8)
          by (consts; symmetry; apply u64_small; lia).
        rewrite (tag_size _ _ (total - asz) false); [apply u64_small; lia| |lia|assumption].
        rewrite GET_PUT_other by lia. rewrite GET_PUT_same.
        apply u64_small. apply tag_range. lia. }
      rewrite Hnx. rewrite (HDRP_eq (bp + (total - asz))) by lia.
      set (t3 := put t2 (bp + (total - asz) - 8) (tag asz true)).
      assert (Hnx3 : NEXT_BLKP (mem t3) bp = bp + (total - asz)).
      { unfold NEXT_BLKP, t3, t2, t1. rewrite !mem_put.
        replace (u64 (bp - WSIZE)) with (bp - 8)
          by (consts; symmetry; apply u64_small; lia).
        rewrite (tag_size _ _ (total - asz) false); [apply u64_small; lia| |lia|assumption].
        rewrite !GET_PUT_other by lia. rewrite GET_PUT_same.
        apply u64_small. apply tag_range. lia. }
      rewrite Hnx3.
      assert (Hft3 : FTRP (mem t3) (bp + (total - asz)) = bp + total - 16).
      { unfold FTRP, t3. rewrite (HDRP_eq (bp + (total - asz))) by lia. rewrite mem_put.
        rewrite (tag_size _ _ asz true);
          [consts; rewrite u64_small by lia; lia| |lia|assumption].
        rewrite GET_PUT_same. apply u64_small. apply tag_range. lia. }
      rewrite Hft3.
      set (t4 := put t3 (bp + total - 16) (tag asz true)).
      destruct (retag_split s1 B1 bp total (total - asz) asz false true B2 _ Hrep1 Hunb
                  ltac:(lia) E32 ltac:(lia) Hmr) as [Hrep4 Hf4].
      cbv zeta in Hrep4, Hf4. fold t1 t2 t3 t4 in Hrep4, Hf4.
      assert (Hw4 : wip t4 (B1 ++ (bp, total - asz, false)
                               :: (bp + (total - asz), asz, true) :: B2)
                        (unlist L bp total) [bp]).
      { split; [exact Hrep4|]. split.
        - destruct Hlay.
          apply (complete_except_retag B1 [(bp, total, false)]
                   [(bp, total - asz, false); (bp + (total - asz), asz, true)] B2
                   _ [bp] [bp] _ _ lay_chain0 Hc1).
          + intros b z [E|[E|[]]]; [|discriminate]. injection E as <- _. now left.
          + intros x Hx. now left.
        - exact Hun1. }
      assert (Hfuel4 : enough_fuel t4 fuel) by exact Hfuel1.
      destruct (wip_add fuel _ _ _ _ _ _ Hw4 Hfuel4)
        as (s5 & L5 & E5 & R5 & Hrep5 & Hc5 & Hf5).
      rewrite E5. cbn [bind].
      assert (Hnx5 : NEXT_BLKP (mem s5) bp = bp + (total - asz)).
      { destruct Hrep5 as [Hlay5 _].
        destruct (layout_in_mid _ _ _ _ _ _ Hlay5) as (Hin5 & _).
        destruct (rd_block _ _ _ _ _ Hlay5 Hin5) as (_ & _ & _ & H & _). exact H. }
      rewrite Hnx5.
      exists s5, (bp + (total - asz)), asz,
        (B1 ++ (bp, total - asz, false) :: (bp + (total - asz), asz, true) :: B2), L5.
      split; [reflexivity|]. split.
      { apply (same_region_trans _ s1); [apply same_region_pop_free|].
        apply (same_region_trans _ t4); [repeat split|exact R5]. }
      split; [exact Hrep5|]. split; [exact Hc5|].
      split; [apply in_or_app; right; right; now left|].
      split; [lia|]. split; [lia|]. split; [lia|].
      assert (Hal5 : forall b z,
                In (b, z, true) (B1 ++ (bp, total - asz, false)
                                 :: (bp + (total - asz), asz, true) :: B2)
                <-> (b = bp + (total - asz) /\ z = asz) \/ In (b, z, true) B).
      { intros b z. rewrite HallocB. rewrite in_app_iff. cbn [In]. split.
        - intros [H|[H|[H|H]]]; [tauto|discriminate| |tauto].
          injection H as <- <-. left. tauto.
        - intros [[-> ->]|[H|H]]; tauto. }
      split; [|split; [exact Hal5|]].
      2:{ split; [|right; right; reflexivity].
          right. right. split; [exact E32|]. split; [rewrite Hu7 in Hth; lia|].
          split; [reflexivity|]. split; [reflexivity|].
          apply in_or_app. right. now left. }
      refine (payload_frame_trans _ _ _ _ _ Hf1 _ (fun _ _ H => H)).
      intros b z a HB Ha. rewrite (Hf5 b z a); [apply (Hf4 b z a HB Ha)| |exact Ha].
      apply Hal5. now right.
Qed.

(** ** [mm_malloc] *)

Lemma align_size_spec size :
  0 <= size <= 2 ^ 64 - 24 ->
  32 <= align_size size /\ size + 16 <= align_size size /\
  align_size size <= size + 32 /\ align_size size mod 8 = 0.
Proof.
  intros Hr. pose proof (align_size_mod size) as Hm. unfold ALIGNMENT in Hm.
  split; [|split; [|split; [|exact Hm]]]; unfold align_size;
    destruct (size <=? DSIZE) eqn:E; consts; try lia;
    unfold ALIGN, ALIGNMENT; rewrite (u64_small (size + 2 * 8)) by lia;
    rewrite (u64_small (size + 2 * 8 + (8 - 1))) by lia;
    pose proof (Z.div_mod (size + 2 * 8 + (8 - 1)) 8 ltac:(lia)) as Hd;
    pose proof (Z.mod_pos_bound (size + 2 * 8 + (8 - 1)) 8 ltac:(lia)) as Hb;
    rewrite u64_small by lia; lia.
Qed.

(** A candidate found by the scan is a listed free block larger than the
    request. *)
Lemma find_fit_spec s B L asz :
  heap_rep s B L ->
  find_fit (Z.to_nat LISTSIZE) s 0 asz = NULL \/
  exists total, In (find_fit (Z.to_nat LISTSIZE) s 0 asz, total, false) B /\
                asz < total /\ find_fit (Z.to_nat LISTSIZE) s 0 asz <> NULL.
Proof.
  intros [Hlay Hl]. pose proof (layout_range _ _ Hlay) as Hr.
  rewrite (find_fit_find s asz (Z.to_nat LISTSIZE) 0 : find_fit _ s 0 asz = _).
  destruct (find (head_fits s asz) (map Z.of_nat (seq 0 (Z.to_nat LISTSIZE)))) as [i|] eqn:E;
    [right|now left].
  apply find_first_index in E. destruct E as (Hi & Hf & _).
  change (Z.of_nat (0 + Z.to_nat LISTSIZE)) with 16 in Hi. change (Z.of_nat 0) with 0 in Hi.
  unfold head_fits in Hf. apply andb_true_iff in Hf. destruct Hf as [Hnz Hgt].
  apply negb_true_iff in Hnz. apply Z.eqb_neq in Hnz.
  rewrite slot_eq in * by lia.
  destruct (Hl i ltac:(unfold LISTSIZE; lia)) as (Hhd & _ & Hmem & _).
  destruct (L i) as [|[b z] l] eqn:ELi; cbn [map hd fst] in Hhd; [congruence|].
  rewrite Hhd in *. destruct (Hmem b z (or_introl eq_refl)) as [HB _].
  destruct (rd_block _ _ _ _ _ Hlay HB) as (Hh & Hs & _).
  rewrite Hh, Hs in Hgt. exists z. split; [exact HB|]. split; [lia|exact Hnz].
Qed.

(** [mm_malloc] on a consistent heap: the request fails only when no
    candidate is listed and the region cannot grow, and then nothing
    changes; otherwise the result is a new allocated block with room for the
    request, and every other allocated block keeps its place and content. *)
Lemma mm_malloc_spec fuel s B L size :
  heap_rep s B L -> complete B L -> enough_fuel s fuel ->
  0 < size <= 2 ^ 64 - 24 ->
  (find_fit (Z.to_nat LISTSIZE) s 0 (align_size size) = NULL /\
   mem_max_addr s < mem_brk s + MAX (align_size size) CHUNKSIZE /\
   mm_malloc fuel s size = Some (s, NULL)) \/
  (~ (find_fit (Z.to_nat LISTSIZE) s 0 (align_size size) = NULL /\
      mem_max_addr s < mem_brk s + MAX (align_size size) CHUNKSIZE) /\
   exists s' r rz B' L',
     mm_malloc fuel s size = Some (s', r) /\ r <> NULL /\
     heap_rep s' B' L' /\ complete B' L' /\
     In (r, rz, true) B' /\ align_size size <= rz /\
     payload_frame s s' B /\
     (forall b z, In (b, z, true) B' <-> (b = r /\ z = rz) \/ In (b, z, true) B) /\
     heap_ptr s' = heap_ptr s /\ mem_heap s' = mem_heap s /\
     mem_max_addr s' = mem_max_addr s /\ mem_brk s <= mem_brk s' /\
     (forall z0, ~ In (r, z0, true) B) /\
     (coalesced B = true -> coalesced B' = true)).
Proof.
  intros Hrep Hcomp Hfuel Hsz.
  destruct (align_size_spec size ltac:(lia)) as (Ha32 & Halo & Hahi & Ham).
  pose proof Hrep as [Hlay _]. pose proof (layout_range _ _ Hlay) as Hr.
  unfold mm_malloc. replace (size =? 0) with false by (symmetry; apply Z.eqb_neq; lia).
  cbv zeta. set (asz := align_size size) in *.
  destruct (find_fit_spec s B L asz Hrep) as [Hnone|(total & HB & Hgt & Hnz)].
  - (* no candidate: the heap must grow *)
    rewrite Hnone. rewrite Z.eqb_refl.
    assert (Hmx : 32 <= MAX asz CHUNKSIZE <= 2 ^ 64 - 8 /\ MAX asz CHUNKSIZE mod 8 = 0 /\
                  asz <= MAX asz CHUNKSIZE).
    { pose proof (align_size_bound size) as Hab. fold asz in Hab.
      destruct (MAX_cases asz CHUNKSIZE) as [[-> H]|[-> H]]; consts.
      - split; [lia|]. split; [exact Ham|lia].
      - split; [lia|]. split; [reflexivity|lia]. }
    destruct Hmx as (Hm1 & Hm2 & Hm3).
    destruct (extend_heap_spec fuel s B L _ Hrep Hcomp Hfuel Hm1 Hm2)
      as [[Hfail E]|(Hfit & s1 & bp1 & sz1 & B1' & L1 & E & Rhp & Rlo & Rmax & Rbrk &
                     Hrep1 & Hc1 & Hf1 & Hal1 & Hsz1 & Hbp1 & _ & Hsh1)].
    + left. rewrite E. cbn [bind]. rewrite Z.eqb_refl. tauto.
    + right. split; [lia|]. rewrite E. cbn [bind].
      pose proof Hrep1 as [Hlay1 _].
      destruct (layout_in_mid _ _ _ _ _ _ Hlay1) as (Hin1 & _).
      pose proof (layout_block _ _ _ _ _ Hlay1 Hin1) as Hb1.
      pose proof (layout_range _ _ Hlay1) as Hr1.
      replace (bp1 =? NULL) with false by (symmetry; apply Z.eqb_neq; unfold NULL; lia).
      assert (Hfuel1 : enough_fuel s1 fuel).
      { unfold enough_fuel in *. now rewrite Rmax, Rlo. }
      destruct (place_spec fuel s1 B1' bp1 sz1 [] L1 asz Hrep1 Hc1 Hfuel1 ltac:(lia) Ham)
        as (s2 & r & rz & B2 & L2 & E2 & R2 & Hrep2 & Hc2 & Hin2 & Hrz & Hlo2 & Hhi2 & Hf2 & Hal2 & _ & Hsh2).
      exists s2, r, rz, B2, L2. destruct R2 as (R21 & R22 & R23 & R24).
      split; [exact E2|]. split; [unfold NULL; lia|].
      split; [exact Hrep2|]. split; [exact Hc2|]. split; [exact Hin2|].
      split; [exact Hrz|]. split.
      { refine (payload_frame_trans _ _ _ _ _ Hf1 Hf2 _). intros b z. apply Hal1. }
      split. { intros b z. rewrite Hal2, <- Hal1. tauto. }
      split; [congruence|]. split; [congruence|]. split; [congruence|].
      split; [lia|]. split.
      2:{ intros Hco. apply (coalesced_place _ _ _ _ _ _ Hsh2).
          apply (coalesced_extend B _ _ _ _ Hsh1 Hco). }
      intros z0 Hz0. apply Hal1 in Hz0.
      destruct Hlay1.
      destruct (chain_sep _ _ _ _ _ _ _ _ _ lay_chain0 Hin1 Hz0) as [C|[C|C]];
        [discriminate|lia|].
      pose proof (chain_in _ _ _ _ _ _ lay_chain0 Hz0). lia.
  - (* a listed candidate *)
    right. split; [tauto|].
    replace (find_fit (Z.to_nat LISTSIZE) s 0 asz =? NULL) with false
      by (symmetry; now apply Z.eqb_neq).
    set (bp := find_fit (Z.to_nat LISTSIZE) s 0 asz) in *.
    destruct (in_split _ _ HB) as (B1 & B2 & EB). subst B.
    pose proof (layout_block _ _ _ _ _ Hlay HB) as Hb.
    destruct (place_spec fuel s B1 bp total B2 L asz Hrep Hcomp Hfuel ltac:(lia) Ham)
      as (s2 & r & rz & B' & L2 & E2 & R2 & Hrep2 & Hc2 & Hin2 & Hrz & Hlo2 & Hhi2 & Hf2 & Hal2 & _ & Hsh2).
    exists s2, r, rz, B', L2. destruct R2 as (R21 & R22 & R23 & R24).
    split; [exact E2|]. split; [unfold NULL; lia|].
    split; [exact Hrep2|]. split; [exact Hc2|]. split; [exact Hin2|].
    split; [exact Hrz|]. split; [exact Hf2|]. split; [exact Hal2|].
    split; [congruence|]. split; [congruence|]. split; [congruence|].
    split; [lia|]. split; [|apply (coalesced_place _ _ _ _ _ _ Hsh2)].
    intros z0 Hz0.
    destruct Hlay.
    destruct (chain_sep _ _ _ _ _ _ _ _ _ lay_chain0 HB Hz0) as [C|[C|C]];
      [discriminate|lia|].
    pose proof (chain_in _ _ _ _ _ _ lay_chain0 Hz0). lia.
Qed.

(** ** [mm_free] *)

Lemma payload_frame_sub s s' B B' :
  payload_frame s s' B ->
  (forall b z, In (b, z, true) B' -> In (b, z, true) B) ->
  payload_frame s s' B'.
Proof. intros H Hsub b z a HB Ha. apply (H b z a (Hsub _ _ HB) Ha). Qed.

(** [mm_free] on an allocated block of a consistent heap: the block, merged
    with its free neighbours, is a listed free block; the other allocated
    blocks keep their place and content. *)
Lemma mm_free_spec fuel s B1 bp z B2 L :
  heap_rep s (B1 ++ (bp, z, true) :: B2) L ->
  complete (B1 ++ (bp, z, true) :: B2) L ->
  enough_fuel s fuel ->
  exists s' B' L' bp' sz',
    mm_free fuel s bp = Some s' /\ same_region s s' /\
    heap_rep s' B' L' /\ complete B' L' /\
    payload_frame s s' (B1 ++ (bp, z, false) :: B2) /\
    (forall b z0, In (b, z0, true) B' <-> In (b, z0, true) B1 \/ In (b, z0, true) B2) /\
    In (bp', sz', false) B' /\ bp' <= bp /\ bp + z <= bp' + sz' /\
    (coalesced (B1 ++ (bp, z, true) :: B2) = true -> coalesced B' = true).
Proof.
  set (B := B1 ++ (bp, z, true) :: B2).
  intros Hrep Hcomp Hfuel. pose proof Hrep as [Hlay _].
  pose proof (layout_range _ _ Hlay) as Hr.
  destruct (layout_in_mid _ _ _ _ _ _ Hlay) as (HBb & _). fold B in HBb.
  pose proof (layout_block _ _ _ _ _ Hlay HBb) as Hb.
  destruct (rd_block _ _ _ _ _ Hlay HBb) as (Hh_b & Hs_b & _).
  pose proof (allocated_unlisted _ _ _ _ _ Hrep HBb) as Hun.
  unfold mm_free. rewrite Hh_b, Hs_b. cbv zeta. rewrite PACK_0.
  assert (Ht : tag z false = z) by (unfold tag; lia).
  assert (Hft : FTRP (mem (put s (bp - 8) z)) bp = bp + z - 16).
  { unfold FTRP. rewrite Hh_b, mem_put.
    rewrite (tag_size _ _ z false); [consts; apply u64_small; lia| |lia|tauto].
    rewrite GET_PUT_same, Ht. apply u64_small. lia. }
  rewrite Hft.
  destruct (retag_one s B1 bp z true false B2 L Hrep Hun) as [Hrep2 Hf2].
  cbv zeta in Hrep2, Hf2. rewrite Ht in Hrep2, Hf2.
  set (s2 := put (put s (bp - 8) z) (bp + z - 16) z) in *.
  assert (Hw2 : wip s2 (B1 ++ (bp, z, false) :: B2) L [bp]).
  { split; [exact Hrep2|]. split.
    - destruct Hlay.
      apply (complete_except_retag B1 [(bp, z, true)] [(bp, z, false)] B2
               L [] [bp] _ _ lay_chain0); [now apply complete_iff| |].
      + intros b z0 [E|[]]. injection E as <- _. now left.
      + intros x [].
    - intros x [<-|[]]. exact Hun. }
  assert (Hfuel2 : enough_fuel s2 fuel) by exact Hfuel.
  destruct (wip_add fuel _ _ _ _ _ _ Hw2 Hfuel2) as (s3 & L3 & E3 & R3 & Hrep3 & Hc3 & Hf3).
  rewrite E3. cbn [bind].
  assert (Hfuel3 : enough_fuel s3 fuel) by (apply (enough_fuel_region s2); assumption).
  destruct (coalesce_spec fuel _ _ _ _ _ _ Hrep3 Hc3 Hfuel3)
    as (s4 & bp' & sz' & B1' & B2' & L4 & E4 & R4 & Hrep4 & Hc4 & Hf4 & Hal4 & Hle1 & Hle2 &
        _ & Hsh1 & Hsh2).
  rewrite E4. cbn [bind].
  assert (Hal : forall b z0, In (b, z0, true) (B1 ++ (bp, z, false) :: B2) <->
                  In (b, z0, true) B1 \/ In (b, z0, true) B2).
  { intros b z0. apply (in_alloc_app B1 [(bp, z, false)] B2).
    intros x [<-|[]]. reflexivity. }
  exists s4, (B1' ++ (bp', sz', false) :: B2'), L4, bp', sz'.
  split; [reflexivity|]. split.
  { apply (same_region_trans _ s2); [repeat split|].
    apply (same_region_trans _ s3); assumption. }
  split; [exact Hrep4|]. split; [exact Hc4|]. split.
  { assert (Hsub : forall b z0, In (b, z0, true) (B1 ++ (bp, z, false) :: B2) ->
                                In (b, z0, true) B).
    { intros b z0 H. apply Hal in H. unfold B. rewrite in_app_iff. cbn [In]. tauto. }
    refine (payload_frame_trans _ _ _ _ _ (payload_frame_sub _ _ _ _ Hf2 Hsub) _
              (fun _ _ H => H)).
    refine (payload_frame_trans _ _ _ _ _ Hf3 Hf4 (fun _ _ H => H)). }
  split; [intros b z0; rewrite <- Hal4; apply Hal|].
  split; [apply in_or_app; right; now left|]. split; [exact Hle1|]. split; [exact Hle2|].
  apply (coalesced_merge _ _ _ _ _ _ _ _ _ Hsh1 Hsh2).
Qed.

(** ** [mm_init] *)

(** The loop of [mm_init] that clears the head slots. *)
Lemma clear_slots l : forall s,
  (forall i, In i l -> 0 <= heap_ptr s + i * 8 < 2 ^ 64) ->
  let s' := fold_left (fun s i => put s (u64 (heap_ptr s + i * WSIZE)) 0) l s in
  same_region s s' /\
  (forall a, (forall i, In i l -> a < heap_ptr s + i * 8 \/ heap_ptr s + i * 8 + 8 <= a) ->
             mem s' a = mem s a) /\
  (forall i, In i l -> GET (mem s') (heap_ptr s + i * 8) = 0).
Proof.
  induction l as [|i l IH]; intros s Hr; cbn [fold_left].
  - split; [apply same_region_refl|]. split; [reflexivity|]. intros i [].
  - set (s1 := put s (u64 (heap_ptr s + i * WSIZE)) 0).
    assert (Hhp : heap_ptr s1 = heap_ptr s) by reflexivity.
    destruct (IH s1) as (R & Hfr & Hz).
    { intros j Hj. rewrite Hhp. apply Hr. now right. }
    rewrite Hhp in Hfr, Hz.
    assert (Ha : u64 (heap_ptr s + i * WSIZE) = heap_ptr s + i * 8).
    { consts. apply u64_small. apply Hr. now left. }
    split; [apply (same_region_trans _ s1); [repeat split|exact R]|]. split.
    + intros a Hout. rewrite Hfr by (intros j Hj; apply Hout; now right).
      unfold s1. rewrite mem_put, Ha. apply PUT_byte_other. apply Hout. now left.
    + intros j [<-|Hj]; [|now apply Hz].
      destruct (in_dec Z.eq_dec i l) as [Hin|Hnin]; [now apply Hz|].
      rewrite (GET_ext (mem s1)).
      * unfold s1. rewrite mem_put, Ha. rewrite GET_PUT_same. reflexivity.
      * intros a Ha8. apply Hfr. intros j Hj.
        assert (j <> i) by (intros ->; contradiction). lia.
Qed.

(** The index, the prologue and the epilogue written by [mm_init] make an
    empty consistent heap. *)
Lemma init_index_rep s4 s5 lo mx m0 :
  heap_ptr s4 = lo -> mem_heap s4 = lo -> mem_brk s4 = lo + 160 ->
  mem_max_addr s4 = mx ->
  mem s4 = PUT (PUT (PUT (PUT m0 lo 0) (lo + 136) 17) (lo + 144) 17) (lo + 152) 1 ->
  s5 = fold_left (fun s i => put s (u64 (heap_ptr s + i * WSIZE)) 0)
                 (map Z.of_nat (seq 1 16)) s4 ->
  0 <= lo -> lo + 160 <= mx -> mx - lo < 2 ^ 31 -> mx < 2 ^ 64 ->
  heap_rep (set_heap_ptr s5 (lo + 144)) [] (fun _ => []) /\
  heap_ptr s5 = lo /\ mem_heap s5 = lo /\ mem_brk s5 = lo + 160 /\ mem_max_addr s5 = mx.
Proof.
  intros Hhp4 Hlo4 Hbrk4 Hmax4 Hm4 Es5 Hlo Hroom Hsmall Htop.
  pose proof (clear_slots (map Z.of_nat (seq 1 16)) s4) as Hcl.
  cbv zeta in Hcl. rewrite <- Es5 in Hcl. clear Es5.
  assert (Hl : forall i, In i (map Z.of_nat (seq 1 16)) <-> 1 <= i <= 16).
  { intros i. rewrite in_map_iff. split.
    - intros (n & <- & Hn). apply in_seq in Hn. lia.
    - intros Hi. exists (Z.to_nat i). split; [lia|]. apply in_seq. lia. }
  destruct Hcl as (R5 & Hfr5 & Hz5).
  { intros i Hi. apply Hl in Hi. rewrite Hhp4. lia. }
  rewrite Hhp4 in Hfr5, Hz5.
  destruct R5 as (R51 & R52 & R53 & R54).
  rewrite Hhp4 in R51. rewrite Hlo4 in R52. rewrite Hbrk4 in R53. rewrite Hmax4 in R54.
  split; [|tauto].
  set (sI := set_heap_ptr s5 (lo + 144)).
  assert (Hout : forall x, lo + 136 <= x -> GET (mem sI) x = GET (mem s4) x).
  { intros x Hx. apply GET_ext. intros a Ha. apply Hfr5. intros i Hi.
    apply Hl in Hi. lia. }
  split.
  - constructor; unfold sI; cbn [heap_ptr mem mem_heap mem_brk mem_max_addr set_heap_ptr];
      rewrite ?R52, ?R53, ?R54; consts; cbn [chain]; try lia.
    + split.
      * replace (lo + 144 - 8) with (lo + 136) by lia.
        change (mem s5) with (mem sI). rewrite Hout by lia. rewrite Hm4.
        gput. reflexivity.
      * change (mem s5) with (mem sI). rewrite Hout by lia. rewrite Hm4.
        gput. reflexivity.
    + replace (lo + 160 - 8) with (lo + 152) by lia.
      change (mem s5) with (mem sI). rewrite Hout by lia. rewrite Hm4.
      gput. reflexivity.
    + intros b z al [].
  - intros i Hi. unfold LISTSIZE in Hi.
    split; [|split; [exact I|split; [intros b z []|split; [constructor|reflexivity]]]].
    cbn [map hd]. rewrite slot_val.
    replace (heap_ptr sI - 136 + 8 * i) with (lo + (i + 1) * 8)
      by (unfold sI; cbn [heap_ptr set_heap_ptr]; lia).
    apply Hz5. apply Hl. lia.
Qed.

(** [mm_init] once the region has given the first bytes. *)
Lemma mm_init_run fuel s0 s1 p :
  mem_sbrk s0 ((LISTSIZE + 4) * WSIZE) = (s1, p) -> (p =? SBRK_FAIL) = false ->
  mm_init fuel s0 =
    let s := set_heap_ptr s1 p in
    let s := put s (heap_ptr s) 0 in
    let s := put s (u64 (heap_ptr s + (LISTSIZE + 1) * WSIZE)) (PACK DSIZE 1) in
    let s := put s (u64 (heap_ptr s + (LISTSIZE + 2) * WSIZE)) (PACK DSIZE 1) in
    let s := put s (u64 (heap_ptr s + (LISTSIZE + 3) * WSIZE)) (PACK 0 1) in
    let s := fold_left (fun s i => put s (u64 (heap_ptr s + i * WSIZE)) 0)
                       (map Z.of_nat (seq 1 16)) s in
    let s := set_heap_ptr s (u64 (heap_ptr s + (LISTSIZE + 2) * WSIZE)) in
    '(s, r) <- extend_heap fuel s INITSIZE ;;
    if r =? NULL then Some (s, -1) else Some (s, 0).
Proof. intros E H. unfold mm_init. rewrite E, H. reflexivity. Qed.

(** The straight-line part of [mm_init], with the slot loop [F] kept
    apart. *)
Lemma mm_init_lets (F : state -> state) (k : state -> option (state * Z)) s1 lo :
  0 <= lo -> lo + 160 < 2 ^ 64 ->
  (let s := set_heap_ptr s1 lo in
   let s := put s (heap_ptr s) 0 in
   let s := put s (u64 (heap_ptr s + (LISTSIZE + 1) * WSIZE)) (PACK DSIZE 1) in
   let s := put s (u64 (heap_ptr s + (LISTSIZE + 2) * WSIZE)) (PACK DSIZE 1) in
   let s := put s (u64 (heap_ptr s + (LISTSIZE + 3) * WSIZE)) (PACK 0 1) in
   let s := F s in
   let s := set_heap_ptr s (u64 (heap_ptr s + (LISTSIZE + 2) * WSIZE)) in
   k s) =
  k (set_heap_ptr
       (F (put (put (put (put (set_heap_ptr s1 lo) lo 0) (lo + 136) 17) (lo + 144) 17)
               (lo + 152) 1))
       (u64 (heap_ptr
               (F (put (put (put (put (set_heap_ptr s1 lo) lo 0) (lo + 136) 17)
                            (lo + 144) 17) (lo + 152) 1)) + 144))).
Proof.
  intros Hlo Htop. cbv zeta.
  assert (Hp : forall s a v, heap_ptr (put s a v) = heap_ptr s) by reflexivity.
  assert (Hs : forall s a, heap_ptr (set_heap_ptr s a) = a) by reflexivity.
  rewrite !Hp, !Hs. consts.
  rewrite !(u64_small (lo + _)) by lia. reflexivity.
Qed.

Lemma enough_fuel_eq s s' fuel :
  mem_max_addr s' = mem_max_addr s -> mem_heap s' = mem_heap s ->
  enough_fuel s fuel -> enough_fuel s' fuel.
Proof. intros H1 H2 H. unfold enough_fuel in *. now rewrite H1, H2. Qed.

(** The first growth of the heap, on the empty heap that [mm_init] has
    laid out. *)
Lemma mm_init_tail fuel s5 s0 :
  heap_rep (set_heap_ptr s5 (mem_heap s0 + 144)) [] (fun _ => []) /\
  heap_ptr s5 = mem_heap s0 /\ mem_heap s5 = mem_heap s0 /\
  mem_brk s5 = mem_heap s0 + 160 /\ mem_max_addr s5 = mem_max_addr s0 ->
  0 <= mem_heap s0 -> mem_heap s0 + 304 <= mem_max_addr s0 ->
  mem_max_addr s0 < 2 ^ 64 -> enough_fuel s0 fuel ->
  exists s,
    ('(s, r) <- extend_heap fuel
                  (set_heap_ptr s5 (u64 (heap_ptr s5 + 144))) INITSIZE ;;
     if r =? NULL then Some (s, -1) else Some (s, 0)) = Some (s, 0) /\
    heap_ok s /\ mem_heap s = mem_heap s0 /\ mem_max_addr s = mem_max_addr s0 /\
    mem_brk s = mem_heap s0 + 304 /\ free_block s (mem_heap s0 + 160) 144.
Proof.
  intros (HsI & R51 & R52 & R53 & R54) Hlo Hroom Htop Hfuel.
  rewrite R51. rewrite (u64_small (mem_heap s0 + 144)) by lia.
  set (sI := set_heap_ptr s5 (mem_heap s0 + 144)) in *.
  assert (HcI : complete [] (fun _ => [])) by (intros b z []).
  assert (HfI : enough_fuel sI fuel).
  { apply (enough_fuel_eq s0); [exact R54|exact R52|exact Hfuel]. }
  destruct (extend_heap_spec fuel sI [] _ INITSIZE HsI HcI HfI ltac:(consts; lia) eq_refl)
    as [[Hfail _]|(_ & s' & bp' & sz' & B1' & L' & E' & Rhp & Rlo & Rmax & Rbrk &
                   Hrep' & Hc' & _ & _ & _ & Hbp' & _)].
  - exfalso. unfold sI in Hfail. cbn [mem_brk mem_max_addr set_heap_ptr] in Hfail.
    rewrite R53, R54 in Hfail. consts. lia.
  - rewrite E'. cbn [bind].
    pose proof Hrep' as [Hlay' _].
    destruct (layout_in_mid _ _ _ _ _ _ Hlay') as (Hin' & _ & Hend).
    pose proof (layout_block _ _ _ _ _ Hlay' Hin') as Hb'.
    pose proof (layout_range _ _ Hlay') as Hr'.
    cbn [chain] in Hend.
    change (heap_ptr sI) with (mem_heap s0 + 144) in Rhp.
    change (mem_brk sI) with (mem_brk s5) in Rbrk, Hbp'.
    change (mem_heap sI) with (mem_heap s5) in Rlo.
    change (mem_max_addr sI) with (mem_max_addr s5) in Rmax.
    replace (bp' =? NULL) with false by (symmetry; apply Z.eqb_neq; unfold NULL; lia).
    assert (Ebp : bp' = mem_heap s0 + 160) by lia.
    assert (Esz : sz' = 144) by (consts; lia).
    exists s'. split; [reflexivity|]. split.
    { exists (B1' ++ [(bp', sz', false)]), L'. split; assumption. }
    split; [congruence|]. split; [congruence|]. split; [consts; lia|].
    exists (B1' ++ [(bp', sz', false)]), L'. rewrite <- Ebp, <- Esz. tauto.
Qed.

(** [mm_init] on an empty region with room for the index and the first
    block: the heap is consistent. *)
Lemma mm_init_spec fuel s0 :
  mem_brk s0 = mem_heap s0 -> 0 <= mem_heap s0 ->
  mem_heap s0 + (LISTSIZE + 4) * WSIZE + INITSIZE <= mem_max_addr s0 ->
  mem_max_addr s0 - mem_heap s0 < 2 ^ 31 -> mem_max_addr s0 < 2 ^ 64 ->
  enough_fuel s0 fuel ->
  exists s, mm_init fuel s0 = Some (s, 0) /\ heap_ok s /\
            mem_heap s = mem_heap s0 /\ mem_max_addr s = mem_max_addr s0 /\
            mem_brk s = mem_heap s0 + 304 /\ free_block s (mem_heap s0 + 160) 144.
Proof.
  intros Hbrk Hlo Hroom Hsmall Htop Hfuel.
  assert (Hroom' : mem_heap s0 + 304 <= mem_max_addr s0) by (consts; lia).
  assert (E : mem_sbrk s0 ((LISTSIZE + 4) * WSIZE) =
              (mkState (mem s0) (heap_ptr s0) (mem_heap s0) (mem_heap s0 + 160)
                       (mem_max_addr s0), mem_heap s0)).
  { unfold mem_sbrk. rewrite Hbrk.
    replace (mem_heap s0 + (LISTSIZE + 4) * WSIZE >? mem_max_addr s0) with false
      by (symmetry; consts; lia).
    reflexivity. }
  assert (Hnf : (mem_heap s0 =? SBRK_FAIL) = false).
  { apply Z.eqb_neq. unfold SBRK_FAIL. change (u64 (-1)) with (2 ^ 64 - 1). lia. }
  rewrite (mm_init_run fuel s0 _ _ E Hnf).
  rewrite (mm_init_lets
             (fold_left (fun s i => put s (u64 (heap_ptr s + i * WSIZE)) 0)
                        (map Z.of_nat (seq 1 16)))
             (fun s => '(s, r) <- extend_heap fuel s INITSIZE ;;
                       if r =? NULL then Some (s, -1) else Some (s, 0))
             _ _ Hlo ltac:(lia)).
  cbv beta.
  apply (mm_init_tail fuel _ s0); try assumption.
  apply (init_index_rep
           (put (put (put (put (set_heap_ptr
                                  (mkState (mem s0) (heap_ptr s0) (mem_heap s0)
                                           (mem_heap s0 + 160) (mem_max_addr s0))
                                  (mem_heap s0))
                               (mem_heap s0) 0)
                          (mem_heap s0 + 136) 17)
                     (mem_heap s0 + 144) 17)
                (mem_heap s0 + 152) 1)
           _ (mem_heap s0) (mem_max_addr s0) (mem s0)
           eq_refl eq_refl eq_refl eq_refl eq_refl eq_refl Hlo ltac:(lia) Hsmall Htop).
Qed.

(** ** Reading a consistent heap back *)

(** The walk over the implicit list reads exactly the blocks of the
    layout. *)
Lemma layout_walk_from s Bfull :
  layout s Bfull ->
  forall B B1 p fuel,
    Bfull = B1 ++ B -> chain p B (mem_brk s) -> (length B < fuel)%nat ->
    heap_walk fuel s p = map block_words B.
Proof.
  intros Hlay. pose proof (layout_range _ _ Hlay) as Hr.
  induction B as [|[[b z] al] B IH]; intros B1 p fuel EB Hc Hf.
  - cbn [chain] in Hc. subst p. destruct fuel as [|fuel]; [cbn [length] in Hf; lia|].
    cbn [heap_walk map]. replace (mem_brk s >=? mem_brk s) with true by lia.
    now rewrite orb_true_r.
  - destruct fuel as [|fuel]; [cbn [length] in Hf; lia|].
    cbn [chain] in Hc. destruct Hc as (-> & Hz & Hm & Hc).
    assert (HB : In (p, z, al) Bfull).
    { rewrite EB. apply in_or_app. right. now left. }
    pose proof (layout_block _ _ _ _ _ Hlay HB) as Hb.
    destruct (rd_block _ _ _ _ _ Hlay HB) as (Hh & Hs & Ha & Hn & _).
    cbn [heap_walk map block_words]. rewrite Hh, Hs, Ha, Hn.
    replace (z =? 0) with false by (symmetry; apply Z.eqb_neq; lia).
    replace (p >=? mem_brk s) with false by lia.
    cbn [orb]. f_equal.
    apply (IH (B1 ++ [(p, z, al)])).
    + rewrite EB, <- app_assoc. reflexivity.
    + exact Hc.
    + cbn [length] in Hf. lia.
Qed.

Lemma layout_walk s B fuel :
  layout s B -> (mem_max_addr s - mem_heap s) / 32 < Z.of_nat fuel ->
  heap_walk fuel s (heap_ptr s + 16) = map block_words B.
Proof.
  intros Hlay Hf. pose proof (layout_range _ _ Hlay) as Hr.
  apply (layout_walk_from s B Hlay B [] _ fuel eq_refl).
  - destruct Hlay. exact lay_chain0.
  - destruct Hlay. apply chain_length in lay_chain0.
    assert (Z.of_nat (length B) <= (mem_max_addr s - mem_heap s) / 32).
    { apply Z.div_le_lower_bound; consts; lia. }
    lia.
Qed.

Lemma block_words_inj x y : block_words x = block_words y -> x = y.
Proof.
  destruct x as [[b z] a], y as [[b' z'] a']. cbn [block_words].
  intros H. injection H as -> -> H. destruct a, a'; try reflexivity; discriminate.
Qed.

Lemma map_block_words_inj B : forall B',
  map block_words B = map block_words B' -> B = B'.
Proof.
  induction B as [|x B IH]; intros [|y B'] H; cbn [map] in H; try discriminate.
  - reflexivity.
  - injection H as Hx H. apply block_words_inj in Hx. subst y. f_equal. now apply IH.
Qed.

(** The sequence of blocks is determined by the state. *)
Lemma layout_unique s B B' : layout s B -> layout s B' -> B = B'.
Proof.
  intros H H'. apply map_block_words_inj.
  set (fuel := S (Z.to_nat ((mem_max_addr s - mem_heap s) / 32))).
  pose proof (layout_range _ _ H) as Hr.
  assert (Hf : (mem_max_addr s - mem_heap s) / 32 < Z.of_nat fuel).
  { unfold fuel. assert (0 <= (mem_max_addr s - mem_heap s) / 32)
      by (apply Z.div_pos; lia). lia. }
  rewrite <- (layout_walk s B fuel H Hf). apply (layout_walk s B' fuel H' Hf).
Qed.

Lemma allocated_block_ok s p z : allocated_block s p z -> heap_ok s.
Proof. intros (B & L & H1 & H2 & _). now exists B, L. Qed.

Lemma free_block_ok s p z : free_block s p z -> heap_ok s.
Proof. intros (B & L & H1 & H2 & _). now exists B, L. Qed.

(** A block read by the walk is a block of the heap. *)
Lemma walked_block s fuel b z a :
  heap_ok s -> (mem_max_addr s - mem_heap s) / 32 < Z.of_nat fuel ->
  In (b, z, a) (heap_walk fuel s (heap_ptr s + 16)) ->
  (a = 1 /\ allocated_block s b z) \/ (a = 0 /\ free_block s b z).
Proof.
  intros (B & L & Hrep & Hc) Hf Hin. pose proof Hrep as [Hlay _].
  rewrite (layout_walk s B fuel Hlay Hf) in Hin. apply in_map_iff in Hin.
  destruct Hin as ([[b' z'] al] & E & Hin). cbn [block_words] in E.
  injection E as -> -> <-. destruct al; [left|right]; (split; [reflexivity|]);
    exists B, L; tauto.
Qed.

(** * The allocator as its callers see it *)

Lemma heap_ok_intro s B L : heap_rep s B L -> complete B L -> heap_ok s.
Proof. intros H1 H2. now exists B, L. Qed.

Lemma allocated_block_read s p z :
  allocated_block s p z ->
  HDRP p = p - 8 /\ GET_SIZE (mem s) (p - 8) = z /\ GET_ALLOC (mem s) (p - 8) = 1 /\
  NEXT_BLKP (mem s) p = p + z /\ 32 <= z /\ z mod 8 = 0 /\
  heap_ptr s + 16 <= p /\ p + z <= mem_brk s.
Proof.
  intros (B & L & [Hlay _] & _ & HB).
  destruct (rd_block _ _ _ _ _ Hlay HB) as (H1 & H2 & H3 & H4 & _).
  pose proof (layout_block _ _ _ _ _ Hlay HB). tauto.
Qed.

Lemma free_block_read s p z :
  free_block s p z ->
  HDRP p = p - 8 /\ GET_SIZE (mem s) (p - 8) = z /\ GET_ALLOC (mem s) (p - 8) = 0 /\
  NEXT_BLKP (mem s) p = p + z /\ 32 <= z /\ z mod 8 = 0 /\
  heap_ptr s + 16 <= p /\ p + z <= mem_brk s.
Proof.
  intros (B & L & [Hlay _] & _ & HB).
  destruct (rd_block _ _ _ _ _ Hlay HB) as (H1 & H2 & H3 & H4 & _).
  pose proof (layout_block _ _ _ _ _ Hlay HB). tauto.
Qed.

(** ** The runs on the region at address 1000 *)

Ltac by_eval :=
  vm_compute;
  first [ reflexivity
        | let H := fresh in intros H; discriminate H
        | repeat first [ left; reflexivity | right ] ].

Lemma fresh_init :
  exists s, mm_init 1000 (fresh 1000 30000) = Some (s, 0) /\ heap_ok s.
Proof.
  destruct (mm_init_spec 1000 (fresh 1000 30000)
              ltac:(by_eval) ltac:(by_eval) ltac:(by_eval) ltac:(by_eval)
              ltac:(by_eval) ltac:(by_eval)) as (s & E & H & _).
  exists s. split; [exact E|exact H].
Qed.

Lemma arena_init : mm_init 1000 (fresh 1000 30000) = Some (arena, 0).
Proof.
  destruct fresh_init as (s & E & _). unfold arena. rewrite E. reflexivity.
Qed.

Lemma arena_ok : heap_ok arena.
Proof.
  destruct fresh_init as (s & E & H). unfold arena. rewrite E. exact H.
Qed.

Lemma arena_fuel : enough_fuel arena 1000.
Proof. by_eval. Qed.

Lemma arena_free : free_block arena 1160 144.
Proof.
  destruct (walked_block arena 1000 1160 144 0 arena_ok) as [[C _]|[_ H]];
    [by_eval|by_eval|discriminate C|exact H].
Qed.

Lemma arena_one_eq : mm_malloc 1000 arena 16 = Some arena_one.
Proof.
  destruct arena_ok as (B & L & Hrep & Hc).
  destruct (mm_malloc_spec 1000 arena B L 16 Hrep Hc arena_fuel ltac:(lia))
    as [(_ & _ & E)|(_ & s' & r & rz & B' & L' & E & _)];
    unfold arena_one; rewrite E; reflexivity.
Qed.

Lemma arena_one_ok : heap_ok (fst arena_one).
Proof.
  destruct arena_ok as (B & L & Hrep & Hc).
  destruct (mm_malloc_spec 1000 arena B L 16 Hrep Hc arena_fuel ltac:(lia))
    as [(_ & _ & E)|(_ & s' & r & rz & B' & L' & E & _ & Hrep' & Hc' & _)];
    unfold arena_one; rewrite E; cbn [fst].
  - exists B, L. split; assumption.
  - exists B', L'. split; assumption.
Qed.

Lemma arena_one_fuel : enough_fuel (fst arena_one) 1000.
Proof. by_eval. Qed.

Lemma arena_one_block : allocated_block (fst arena_one) 1272 32.
Proof.
  destruct (walked_block (fst arena_one) 1000 1272 32 1 arena_one_ok) as [[_ H]|[C _]];
    [by_eval|by_eval|exact H|discriminate C].
Qed.

Lemma arena_two_eq : mm_malloc 1000 (fst arena_one) 16 = Some arena_two.
Proof.
  destruct arena_one_ok as (B & L & Hrep & Hc).
  destruct (mm_malloc_spec 1000 _ B L 16 Hrep Hc arena_one_fuel ltac:(lia))
    as [(_ & _ & E)|(_ & s' & r & rz & B' & L' & E & _)];
    unfold arena_two; rewrite E; reflexivity.
Qed.

Lemma arena_two_ok : heap_ok (fst arena_two).
Proof.
  destruct arena_one_ok as (B & L & Hrep & Hc).
  destruct (mm_malloc_spec 1000 _ B L 16 Hrep Hc arena_one_fuel ltac:(lia))
    as [(_ & _ & E)|(_ & s' & r & rz & B' & L' & E & _ & Hrep' & Hc' & _)];
    unfold arena_two; rewrite E; cbn [fst].
  - exists B, L. split; assumption.
  - exists B', L'. split; assumption.
Qed.

Lemma arena_two_fuel : enough_fuel (fst arena_two) 1000.
Proof. by_eval. Qed.

Lemma arena_two_first : allocated_block (fst arena_two) 1272 32.
Proof.
  destruct (walked_block (fst arena_two) 1000 1272 32 1 arena_two_ok) as [[_ H]|[C _]];
    [by_eval|by_eval|exact H|discriminate C].
Qed.

Lemma arena_two_second : allocated_block (fst arena_two) 1240 32.
Proof.
  destruct (walked_block (fst arena_two) 1000 1240 32 1 arena_two_ok) as [[_ H]|[C _]];
    [by_eval|by_eval|exact H|discriminate C].
Qed.

Lemma arena_two_free : free_block (fst arena_two) 1160 80.
Proof.
  destruct (walked_block (fst arena_two) 1000 1160 80 0 arena_two_ok) as [[C _]|[_ H]];
    [by_eval|by_eval|discriminate C|exact H].
Qed.

(** ** [mm_init] *)

(** On an empty region of less than 2 GiB with room for the index (160
    bytes) and the first block (144 bytes), [mm_init] returns 0 and leaves a
    consistent heap: the break has moved by 304 bytes and the heap holds one
    listed free block of 144 bytes right after the prologue. *)
Theorem mm_init_consistent fuel s0 :
  mem_brk s0 = mem_heap s0 -> 0 <= mem_heap s0 ->
  mem_heap s0 + 304 <= mem_max_addr s0 ->
  mem_max_addr s0 - mem_heap s0 < 2 ^ 31 -> mem_max_addr s0 < 2 ^ 64 ->
  enough_fuel s0 fuel ->
  exists s, mm_init fuel s0 = Some (s, 0) /\ heap_ok s /\
            mem_heap s = mem_heap s0 /\ mem_max_addr s = mem_max_addr s0 /\
            mem_brk s = mem_heap s0 + 304 /\
            free_block s (mem_heap s0 + 160) 144.
Proof.
  intros Hbrk Hlo Hroom Hsmall Htop Hfuel.
  apply mm_init_spec; try assumption. consts. lia.
Qed.

Lemma mm_init_consistent_witness :
  exists s, mm_init 1000 (fresh 1000 30000) = Some (s, 0) /\ heap_ok s /\
            mem_heap s = mem_heap (fresh 1000 30000) /\
            mem_max_addr s = mem_max_addr (fresh 1000 30000) /\
            mem_brk s = mem_heap (fresh 1000 30000) + 304 /\
            free_block s (mem_heap (fresh 1000 30000) + 160) 144.
Proof.
  apply (mm_init_consistent 1000 (fresh 1000 30000)); by_eval.
Defined.

(** The first growth fails when the break cannot move by 144 bytes. *)
Lemma mm_init_tail_fail fuel s5 lo mx :
  heap_ptr s5 = lo -> mem_brk s5 = lo + 160 -> mem_max_addr s5 = mx ->
  0 <= lo -> mx < lo + 304 -> lo + 160 < 2 ^ 64 ->
  exists s,
    ('(s, r) <- extend_heap fuel
                  (set_heap_ptr s5 (u64 (heap_ptr s5 + 144))) INITSIZE ;;
     if r =? NULL then Some (s, -1) else Some (s, 0)) = Some (s, -1).
Proof.
  intros R51 R53 R54 Hlo Hroom Htop.
  unfold extend_heap. change (ALIGN INITSIZE) with 144. unfold mem_sbrk.
  cbn [mem_brk mem_max_addr set_heap_ptr]. rewrite R53, R54.
  replace (lo + 160 + 144 >? mx) with true by lia.
  rewrite Z.eqb_refl. cbn [bind]. rewrite Z.eqb_refl. eexists. reflexivity.
Qed.

(** Without room for the index and the first block, [mm_init] returns -1:
    either the region refuses the 160 bytes of the index, or the index is
    laid out and the first growth of 144 bytes fails. *)
Theorem mm_init_no_room fuel s0 :
  mem_brk s0 = mem_heap s0 -> 0 <= mem_heap s0 ->
  mem_max_addr s0 < mem_heap s0 + 304 -> mem_max_addr s0 < 2 ^ 64 ->
  exists s, mm_init fuel s0 = Some (s, -1).
Proof.
  intros Hbrk Hlo Hroom Htop.
  destruct (Z.ltb_spec (mem_max_addr s0) (mem_heap s0 + 160)) as [Hsm|Hbig].
  - unfold mm_init, mem_sbrk. rewrite Hbrk.
    replace (mem_heap s0 + (LISTSIZE + 4) * WSIZE >? mem_max_addr s0) with true
      by (consts; lia).
    cbv beta iota zeta. rewrite Z.eqb_refl. eexists. reflexivity.
  - assert (E : mem_sbrk s0 ((LISTSIZE + 4) * WSIZE) =
                (mkState (mem s0) (heap_ptr s0) (mem_heap s0) (mem_heap s0 + 160)
                         (mem_max_addr s0), mem_heap s0)).
    { unfold mem_sbrk. rewrite Hbrk.
      replace (mem_heap s0 + (LISTSIZE + 4) * WSIZE >? mem_max_addr s0) with false
        by (consts; lia).
      reflexivity. }
    assert (Hnf : (mem_heap s0 =? SBRK_FAIL) = false).
    { apply Z.eqb_neq. unfold SBRK_FAIL. change (u64 (-1)) with (2 ^ 64 - 1). lia. }
    rewrite (mm_init_run fuel s0 _ _ E Hnf).
    rewrite (mm_init_lets
               (fold_left (fun s i => put s (u64 (heap_ptr s + i * WSIZE)) 0)
                          (map Z.of_nat (seq 1 16)))
               (fun s => '(s, r) <- extend_heap fuel s INITSIZE ;;
                         if r =? NULL then Some (s, -1) else Some (s, 0))
               _ _ Hlo ltac:(lia)).
    cbv beta.
    destruct (init_index_rep
           (put (put (put (put (set_heap_ptr
                                  (mkState (mem s0) (heap_ptr s0) (mem_heap s0)
                                           (mem_heap s0 + 160) (mem_max_addr s0))
                                  (mem_heap s0))
                               (mem_heap s0) 0)
                          (mem_heap s0 + 136) 17)
                     (mem_heap s0 + 144) 17)
                (mem_heap s0 + 152) 1)
           _ (mem_heap s0) (mem_max_addr s0) (mem s0)
           eq_refl eq_refl eq_refl eq_refl eq_refl eq_refl Hlo Hbig ltac:(lia) Htop)
      as (_ & R51 & _ & R53 & R54).
    apply (mm_init_tail_fail fuel _ (mem_heap s0) (mem_max_addr s0) R51 R53 R54 Hlo Hroom).
    lia.
Qed.

Lemma mm_init_no_room_witness :
  exists s, mm_init 10 (fresh 1000 1200) = Some (s, -1).
Proof.
  apply (mm_init_no_room 10 (fresh 1000 1200)); by_eval.
Defined.

(** ** [mm_malloc] *)

(** On a consistent heap, a request of [size > 0] bytes (small enough for
    the aligned size not to wrap) always returns, and leaves the heap
    consistent.  A null result leaves the state as it was; a non-null result
    is an allocated block of at least [size + 16] bytes, so that the payload
    holds [size] bytes between header and footer. *)
Theorem mm_malloc_consistent fuel s size :
  heap_ok s -> enough_fuel s fuel -> 0 < size <= 2 ^ 64 - 24 ->
  exists s' r,
    mm_malloc fuel s size = Some (s', r) /\ heap_ok s' /\
    (r = NULL -> s' = s) /\
    (r <> NULL -> exists rz, allocated_block s' r rz /\ size + 16 <= rz).
Proof.
  intros (B & L & Hrep & Hc) Hfuel Hsz.
  destruct (align_size_spec size ltac:(lia)) as (_ & Halo & _).
  destruct (mm_malloc_spec fuel s B L size Hrep Hc Hfuel Hsz)
    as [(_ & _ & E)|(_ & s' & r & rz & B' & L' & E & Hr & Hrep' & Hc' & Hin & Hrz & _)].
  - exists s, NULL. split; [exact E|]. split; [now exists B, L|].
    split; [reflexivity|]. intros C. now contradiction C.
  - exists s', r. split; [exact E|]. split; [now exists B', L'|].
    split; [intros C; contradiction|]. intros _. exists rz. split; [|lia].
    exists B', L'. tauto.
Qed.

Lemma mm_malloc_consistent_witness :
  exists s' r,
    mm_malloc 1000 arena 16 = Some (s', r) /\ heap_ok s' /\
    (r = NULL -> s' = arena) /\
    (r <> NULL -> exists rz, allocated_block s' r rz /\ 16 + 16 <= rz).
Proof.
  apply (mm_malloc_consistent 1000 arena 16 arena_ok arena_fuel). lia.
Defined.

(** The result of [mm_malloc] is null exactly when the scan of the class
    heads finds no candidate and the region refuses to grow by
    [MAX (align_size size) CHUNKSIZE] bytes. *)
Theorem mm_malloc_null_iff fuel s size :
  heap_ok s -> enough_fuel s fuel -> 0 < size <= 2 ^ 64 - 24 ->
  exists s' r,
    mm_malloc fuel s size = Some (s', r) /\
    (r = NULL <->
     find_fit (Z.to_nat LISTSIZE) s 0 (align_size size) = NULL /\
     snd (mem_sbrk s (MAX (align_size size) CHUNKSIZE)) = SBRK_FAIL).
Proof.
  intros (B & L & Hrep & Hc) Hfuel Hsz.
  pose proof Hrep as [Hlay _]. pose proof (layout_range _ _ Hlay) as Hr.
  assert (Hsb : snd (mem_sbrk s (MAX (align_size size) CHUNKSIZE)) = SBRK_FAIL <->
                mem_max_addr s < mem_brk s + MAX (align_size size) CHUNKSIZE).
  { unfold mem_sbrk.
    destruct (mem_brk s + MAX (align_size size) CHUNKSIZE >? mem_max_addr s) eqn:E;
      cbn [snd].
    - split; [lia|reflexivity].
    - split; [|lia]. unfold SBRK_FAIL. change (u64 (-1)) with (2 ^ 64 - 1).
      destruct (MAX_cases (align_size size) CHUNKSIZE) as [[-> H]|[-> _]]; consts; lia. }
  destruct (mm_malloc_spec fuel s B L size Hrep Hc Hfuel Hsz)
    as [(Hn & Hf & E)|(Hnot & s' & r & rz & B' & L' & E & Hnz & _)].
  - exists s, NULL. split; [exact E|]. rewrite Hsb. tauto.
  - exists s', r. split; [exact E|]. rewrite Hsb. tauto.
Qed.

Lemma mm_malloc_null_iff_witness :
  exists s' r,
    mm_malloc 1000 arena 16 = Some (s', r) /\
    (r = NULL <->
     find_fit (Z.to_nat LISTSIZE) arena 0 (align_size 16) = NULL /\
     snd (mem_sbrk arena (MAX (align_size 16) CHUNKSIZE)) = SBRK_FAIL).
Proof.
  apply (mm_malloc_null_iff 1000 arena 16 arena_ok arena_fuel). lia.
Defined.

(** For a request of [0 < size <= 2^64 - 24] bytes, [mm_malloc] leaves
    every block that is already allocated where it is, with its size and
    with every byte of its payload; a new block does not overlap it. *)
Theorem mm_malloc_preserves fuel s size p z :
  allocated_block s p z -> enough_fuel s fuel -> 0 < size <= 2 ^ 64 - 24 ->
  exists s' r,
    mm_malloc fuel s size = Some (s', r) /\
    allocated_block s' p z /\
    (forall a, p <= a < p + z - 16 -> mem s' a = mem s a) /\
    (r <> NULL ->
     exists rz, allocated_block s' r rz /\ (r + rz <= p \/ p + z <= r)).
Proof.
  intros (B & L & Hrep & Hc & HB) Hfuel Hsz.
  destruct (mm_malloc_spec fuel s B L size Hrep Hc Hfuel Hsz)
    as [(_ & _ & E)|(_ & s' & r & rz & B' & L' & E & Hr & Hrep' & Hc' & Hin & Hrz &
                     Hf & Hal & _ & _ & _ & _ & Hfresh & _)].
  - exists s, NULL. split; [exact E|]. split; [exists B, L; tauto|].
    split; [reflexivity|]. intros C. now contradiction C.
  - exists s', r. split; [exact E|].
    assert (HB' : In (p, z, true) B') by (apply Hal; now right).
    split; [exists B', L'; tauto|]. split.
    { intros a Ha. apply (Hf p z a HB). consts. lia. }
    intros _. exists rz. split; [exists B', L'; tauto|].
    destruct Hrep' as [Hlay' _]. pose proof (lay_chain _ _ Hlay') as Hch.
    destruct (chain_sep _ _ _ _ _ _ _ _ _ Hch Hin HB') as [C|[C|C]];
      [|left; exact C|right; exact C].
    injection C as -> ->. exfalso. apply (Hfresh z HB).
Qed.

Lemma mm_malloc_preserves_witness :
  exists s' r,
    mm_malloc 1000 (fst arena_one) 16 = Some (s', r) /\
    allocated_block s' 1272 32 /\
    (forall a, 1272 <= a < 1272 + 32 - 16 -> mem s' a = mem (fst arena_one) a) /\
    (r <> NULL ->
     exists rz, allocated_block s' r rz /\ (r + rz <= 1272 \/ 1272 + 32 <= r)).
Proof.
  apply (mm_malloc_preserves 1000 (fst arena_one) 16 1272 32
           arena_one_block arena_one_fuel). lia.
Defined.

(** ** [mm_free] *)



(** Releasing a block leaves every other allocated block where it is, with
    its size and with every byte of its payload. *)
Theorem mm_free_preserves fuel s p z q zq :
  allocated_block s p z -> allocated_block s q zq -> q <> p ->
  enough_fuel s fuel ->
  exists s', mm_free fuel s p = Some s' /\
    allocated_block s' q zq /\
    (forall a, q <= a < q + zq - 16 -> mem s' a = mem s a).
Proof.
  intros (B & L & Hrep & Hc & HB) (B0 & L0 & [Hlay0 _] & _ & HQ) Hne Hfuel.
  pose proof Hrep as [Hlay _].
  rewrite (layout_unique s B0 B Hlay0 Hlay) in HQ.
  destruct (in_split _ _ HB) as (B1 & B2 & ->).
  destruct (mm_free_spec fuel s B1 p z B2 L Hrep Hc Hfuel)
    as (s' & B' & L' & b & zb & E & _ & Hrep' & Hc' & Hf & Hal & _).
  assert (HQ' : In (q, zq, true) B1 \/ In (q, zq, true) B2).
  { apply in_app_or in HQ. destruct HQ as [H|[H|H]]; [now left| |now right].
    injection H as -> _. contradiction. }
  exists s'. split; [exact E|]. split.
  - exists B', L'. split; [exact Hrep'|]. split; [exact Hc'|]. now apply Hal.
  - intros a Ha. apply (Hf q zq a); [|consts; lia].
    apply in_or_app. destruct HQ' as [H|H]; [now left|right; now right].
Qed.

Lemma mm_free_preserves_witness :
  exists s', mm_free 1000 (fst arena_two) 1240 = Some s' /\
    allocated_block s' 1272 32 /\
    (forall a, 1272 <= a < 1272 + 32 - 16 -> mem s' a = mem (fst arena_two) a).
Proof.
  apply (mm_free_preserves 1000 (fst arena_two) 1240 32 1272 32
           arena_two_second arena_two_first); [lia|exact arena_two_fuel].
Defined.

(** ** The helpers of the allocator *)

Lemma keep_allocated s s' B L B' L' q zq :
  heap_rep s B L -> heap_rep s' B' L' -> complete B' L' ->
  (forall b z, In (b, z, true) B -> In (b, z, true) B') ->
  payload_frame s s' B ->
  allocated_block s q zq ->
  allocated_block s' q zq /\
  (forall a, q <= a < q + zq - 16 -> mem s' a = mem s a).
Proof.
  intros [Hlay _] Hrep' Hc' Hsub Hf (B0 & L0 & [Hlay0 _] & _ & HQ).
  rewrite (layout_unique s B0 B Hlay0 Hlay) in HQ. split.
  - exists B', L'. split; [exact Hrep'|]. split; [exact Hc'|]. now apply Hsub.
  - intros a Ha. apply (Hf q zq a HQ). consts. lia.
Qed.

Lemma chain_start_unique B : forall p p' e, chain p B e -> chain p' B e -> p = p'.
Proof.
  destruct B as [|[[b z] al] B]; intros p p' e H H'; cbn [chain] in *.
  - lia.
  - destruct H as (-> & _). destruct H' as (-> & _). reflexivity.
Qed.

(** [extend_heap] on a consistent heap, for an aligned size: when the region
    refuses, the result is null and nothing has changed; otherwise the break
    has moved by exactly [size], the heap is consistent, and the result is a
    listed free block that ends at the new break and covers at least the new
    bytes.  Allocated blocks keep their place and their payload. *)
Theorem extend_heap_grows fuel s size :
  heap_ok s -> enough_fuel s fuel ->
  32 <= size <= 2 ^ 64 - 8 -> size mod 8 = 0 ->
  (mem_max_addr s < mem_brk s + size /\ extend_heap fuel s size = Some (s, NULL)) \/
  (mem_brk s + size <= mem_max_addr s /\
   exists s' bp sz,
     extend_heap fuel s size = Some (s', bp) /\ bp <> NULL /\ heap_ok s' /\
     mem_brk s' = mem_brk s + size /\
     free_block s' bp sz /\ size <= sz /\ bp + sz = mem_brk s' /\
     (forall q zq, allocated_block s q zq ->
        allocated_block s' q zq /\
        (forall a, q <= a < q + zq - 16 -> mem s' a = mem s a))).
Proof.
  intros (B & L & Hrep & Hc) Hfuel Hsz Hm8.
  destruct (extend_heap_spec fuel s B L size Hrep Hc Hfuel Hsz Hm8)
    as [H|(Hfit & s' & bp & sz & B1' & L' & E & Rhp & Rlo & Rmax & Rbrk &
           Hrep' & Hc' & Hf & Hal & Hle & Hbp & Hend & _)]; [now left|right].
  split; [exact Hfit|]. exists s', bp, sz.
  pose proof Hrep' as [Hlay' _].
  destruct (layout_in_mid _ _ _ _ _ _ Hlay') as (Hin & _).
  pose proof (layout_block _ _ _ _ _ Hlay' Hin) as Hb.
  pose proof (layout_range _ _ Hlay') as Hr.
  split; [exact E|]. split; [unfold NULL; lia|].
  split; [now exists (B1' ++ [(bp, sz, false)]), L'|]. split; [exact Rbrk|].
  split; [exists (B1' ++ [(bp, sz, false)]), L'; tauto|].
  split; [exact Hle|]. split; [lia|].
  intros q zq HQ.
  apply (keep_allocated s s' B L _ L' q zq Hrep Hrep' Hc'); try assumption.
  intros b z. apply Hal.
Qed.

Lemma extend_heap_grows_witness :
  (mem_max_addr arena < mem_brk arena + 4112 /\
   extend_heap 1000 arena 4112 = Some (arena, NULL)) \/
  (mem_brk arena + 4112 <= mem_max_addr arena /\
   exists s' bp sz,
     extend_heap 1000 arena 4112 = Some (s', bp) /\ bp <> NULL /\ heap_ok s' /\
     mem_brk s' = mem_brk arena + 4112 /\
     free_block s' bp sz /\ 4112 <= sz /\ bp + sz = mem_brk s' /\
     (forall q zq, allocated_block arena q zq ->
        allocated_block s' q zq /\
        (forall a, q <= a < q + zq - 16 -> mem s' a = mem arena a))).
Proof.
  apply (extend_heap_grows 1000 arena 4112 arena_ok arena_fuel); [lia|reflexivity].
Defined.

(** [coalesce] on a listed free block of a consistent heap: the result is a
    listed free block that covers the block, a free block right after it
    and a free block right before it; the heap stays consistent and the
    allocated blocks keep their place and their payload. *)
Theorem coalesce_merges fuel s bp sz :
  free_block s bp sz -> enough_fuel s fuel ->
  exists s' bp' sz',
    coalesce fuel s bp = Some (s', bp') /\ heap_ok s' /\
    free_block s' bp' sz' /\ bp' <= bp /\ bp + sz <= bp' + sz' /\
    (forall nz, free_block s (bp + sz) nz -> bp + sz + nz <= bp' + sz') /\
    (forall pb pz, free_block s pb pz -> pb + pz = bp -> bp' <= pb) /\
    (forall q zq, allocated_block s q zq ->
       allocated_block s' q zq /\
       (forall a, q <= a < q + zq - 16 -> mem s' a = mem s a)).
Proof.
  intros (B & L & Hrep & Hc & HB) Hfuel.
  destruct (in_split _ _ HB) as (B1 & B2 & EB). subst B.
  pose proof Hrep as [Hlay _].
  destruct (layout_in_mid _ _ _ _ _ _ Hlay) as (_ & Hch1 & Hch2).
  pose proof (lay_chain _ _ Hlay) as Hch.
  pose proof (chain_in _ _ _ _ _ _ Hch HB) as Hbb.
  destruct (coalesce_spec fuel s B1 bp sz B2 L Hrep Hc Hfuel)
    as (s' & bp' & sz' & B1' & B2' & L' & E & R & Hrep' & Hc' & Hf & Hal & Hlo & Hhi & _ &
        Hprev & Hnext).
  pose proof Hrep' as [Hlay' _].
  destruct (layout_in_mid _ _ _ _ _ _ Hlay') as (_ & Hch1' & Hch2').
  destruct R as (Rhp & _ & Rbrk & _). rewrite Rbrk in Hch2'. rewrite Rhp in Hch1'.
  exists s', bp', sz'. split; [exact E|].
  split; [now exists (B1' ++ (bp', sz', false) :: B2'), L'|].
  split.
  { exists (B1' ++ (bp', sz', false) :: B2'), L'. split; [exact Hrep'|].
    split; [exact Hc'|]. apply in_or_app. right. now left. }
  split; [exact Hlo|]. split; [exact Hhi|]. split; [|split].
  - (* a free block after the block is absorbed *)
    intros nz (B0 & L0 & [Hlay0 _] & _ & HN).
    rewrite (layout_unique s B0 _ Hlay0 Hlay) in HN.
    assert (HN2 : In (bp + sz, nz, false) B2).
    { pose proof HN as HN'. apply in_app_or in HN'.
      destruct HN' as [H|[H|H]]; [| |exact H].
      - pose proof (chain_in _ _ _ _ _ _ Hch1 H). lia.
      - injection H as H _. lia. }
    destruct B2 as [|[[nb nz'] nal] B0']; [destruct HN2|].
    cbn [chain] in Hch2. destruct Hch2 as (Enb & _ & _ & Hch3). subst nb.
    assert (Ehd : nz' = nz /\ nal = false).
    { apply (chain_same_addr _ _ _ (bp + sz) nz' nal nz false Hch);
        [apply in_or_app; right; right; now left|exact HN]. }
    destruct Ehd as [-> ->].
    destruct Hnext as [[_ C]|(nz0 & E2)]; [exfalso; now apply (C (bp + sz) nz B0')|].
    injection E2 as <- <-.
    pose proof (chain_start_unique _ _ _ _ Hch3 Hch2'). lia.
  - (* a free block before the block is absorbed *)
    intros pb pz (B0 & L0 & [Hlay0 _] & _ & HP) Hadj.
    rewrite (layout_unique s B0 _ Hlay0 Hlay) in HP.
    assert (HP1 : In (pb, pz, false) B1).
    { pose proof HP as HP'. apply in_app_or in HP'.
      destruct HP' as [H|[H|H]]; [exact H| |].
      - injection H as H1 H2. lia.
      - pose proof (chain_in _ _ _ _ _ _ Hch2 H). lia. }
    destruct (list_last_cases B1) as [->|(B0' & [[lb lz] lal] & ->)]; [destruct HP1|].
    apply chain_app in Hch1. destruct Hch1 as (q & Hq & Hlast).
    cbn [chain] in Hlast. destruct Hlast as (Eq & _ & _ & Elast). subst q.
    assert (Ehd : lz = pz /\ lal = false /\ lb = pb).
    { assert (Hl : In (lb, lz, lal) ((B0' ++ [(lb, lz, lal)]) ++ (bp, sz, false) :: B2)).
      { apply in_or_app. left. apply in_or_app. right. now left. }
      destruct (chain_sep _ _ _ _ _ _ _ _ _ Hch Hl HP) as [C|[C|C]].
      - injection C as -> -> ->. tauto.
      - pose proof (chain_in _ _ _ _ _ _ Hch HP). lia.
      - pose proof (chain_in _ _ _ _ _ _ Hch Hl). lia. }
    destruct Ehd as (-> & -> & ->).
    destruct Hprev as [(_ & _ & C)|(pz0 & E1)]; [exfalso; now apply (C B0' pb pz)|].
    apply app_inj_tail in E1. destruct E1 as [_ E1]. injection E1 as <- _. lia.
  - intros q zq HQ.
    apply (keep_allocated s s' _ L _ L' q zq Hrep Hrep' Hc'); try assumption.
    intros b z. apply Hal.
Qed.

(** [place] on a listed free block of [total] bytes, for an aligned request
    of [asz <= total] bytes.  When fewer than 32 bytes would remain, the
    whole block is allocated.  Otherwise the block is split: when the rest
    is at least [THRESHOLD] times the request, the request takes the front
    and the rest follows as a listed free block; when it is less, the rest
    stays in front as a listed free block and the request takes the back.
    The heap stays consistent and the other allocated blocks keep their
    place and their payload. *)
Theorem place_policy fuel s bp total asz :
  free_block s bp total -> enough_fuel s fuel ->
  32 <= asz <= total -> asz mod 8 = 0 ->
  exists s' r rz,
    place fuel s bp asz = Some (s', r) /\ heap_ok s' /\ allocated_block s' r rz /\
    ((total - asz < 32 /\ r = bp /\ rz = total) \/
     (32 <= total - asz /\ THRESHOLD * asz <= total - asz /\ r = bp /\ rz = asz /\
      free_block s' (bp + asz) (total - asz)) \/
     (32 <= total - asz /\ total - asz < THRESHOLD * asz /\
      r = bp + (total - asz) /\ rz = asz /\ free_block s' bp (total - asz))) /\
    (forall q zq, allocated_block s q zq ->
       allocated_block s' q zq /\
       (forall a, q <= a < q + zq - 16 -> mem s' a = mem s a)).
Proof.
  intros (B & L & Hrep & Hc & HB) Hfuel Hasz Hm8.
  destruct (in_split _ _ HB) as (B1 & B2 & EB). subst B.
  destruct (place_spec fuel s B1 bp total B2 L asz Hrep Hc Hfuel Hasz Hm8)
    as (s' & r & rz & B' & L' & E & _ & Hrep' & Hc' & Hin & _ & _ & _ & Hf & Hal & Hpol & _).
  exists s', r, rz. split; [exact E|]. split; [now exists B', L'|].
  split; [exists B', L'; tauto|]. split.
  - unfold THRESHOLD.
    destruct Hpol as [H|[(H1 & H2 & H3 & H4 & H5)|(H1 & H2 & H3 & H4 & H5)]].
    + now left.
    + right. left. repeat (split; [assumption|]). exists B', L'. tauto.
    + right. right. repeat (split; [assumption|]). exists B', L'. tauto.
  - intros q zq HQ.
    apply (keep_allocated s s' _ L _ L' q zq Hrep Hrep' Hc'); try assumption.
    intros b z H. apply Hal. now right.
Qed.

Lemma place_policy_witness :
  exists s' r rz,
    place 1000 arena 1160 32 = Some (s', r) /\ heap_ok s' /\ allocated_block s' r rz /\
    ((144 - 32 < 32 /\ r = 1160 /\ rz = 144) \/
     (32 <= 144 - 32 /\ THRESHOLD * 32 <= 144 - 32 /\ r = 1160 /\ rz = 32 /\
      free_block s' (1160 + 32) (144 - 32)) \/
     (32 <= 144 - 32 /\ 144 - 32 < THRESHOLD * 32 /\
      r = 1160 + (144 - 32) /\ rz = 32 /\ free_block s' 1160 (144 - 32))) /\
    (forall q zq, allocated_block arena q zq ->
       allocated_block s' q zq /\
       (forall a, q <= a < q + zq - 16 -> mem s' a = mem arena a)).
Proof.
  apply (place_policy 1000 arena 1160 144 32 arena_free arena_fuel); [lia|reflexivity].
Defined.

(** ** [mm_realloc] *)

Lemma ALIGN_le x z :
  0 <= x <= z -> z mod 8 = 0 -> z <= 2 ^ 64 - 8 -> ALIGN x <= z.
Proof.
  intros Hx Hm Hz. unfold ALIGN, ALIGNMENT.
  rewrite (u64_small (x + (8 - 1))) by lia.
  apply Z.mod_divide in Hm; [|lia]. destruct Hm as [k ->].
  assert (Hq : (x + (8 - 1)) / 8 < k + 1).
  { apply Z.div_lt_upper_bound; lia. }
  assert (0 <= (x + (8 - 1)) / 8) by (apply Z.div_pos; lia).
  rewrite u64_small by lia. lia.
Qed.

(** A request that the payload of the block already holds ([size] at most
    the block size less header and footer) returns the same pointer and
    changes nothing. *)
Theorem mm_realloc_fits fuel s p z size :
  allocated_block s p z -> 0 < size <= z - 16 ->
  mm_realloc fuel s p size = Some (Returns (s, p)).
Proof.
  intros Ha Hsz. pose proof Ha as (B & L & [Hlay _] & _ & _).
  pose proof (layout_range _ _ Hlay) as Hr.
  destruct (allocated_block_read s p z Ha) as (Hh & Hs & _ & _ & Hz & Hm & Hlo & Hhi).
  unfold mm_realloc. replace (size =? 0) with false by lia.
  cbv zeta. rewrite Hh, Hs.
  assert (Hal : align_size size <= z).
  { unfold align_size. destruct (size <=? DSIZE) eqn:E; [consts; lia|].
    rewrite (u64_small (size + DSIZE)) by (consts; lia).
    apply ALIGN_le; [consts; lia|exact Hm|lia]. }
  replace (z >=? align_size size) with true by lia. reflexivity.
Qed.

Lemma mm_realloc_fits_witness :
  mm_realloc 1000 (fst arena_one) 1272 16 = Some (Returns (fst arena_one, 1272)).
Proof.
  apply (mm_realloc_fits 1000 (fst arena_one) 1272 32 16 arena_one_block). lia.
Defined.

(** ** Sizes, classes and tags *)

(** For a request that does not wrap the 64-bit size, [align_size] is 32
    for at most 16 bytes and the request plus 16 rounded up to a multiple of
    8 above that: at least 32, a multiple of 8, with room for the request
    between header and footer, and less than 32 bytes more than the
    request. *)
Theorem align_size_room size :
  0 <= size <= 2 ^ 64 - 24 ->
  (size <= 16 -> align_size size = 32) /\
  (16 < size -> align_size size = (size + 23) / 8 * 8) /\
  32 <= align_size size /\ size + 16 <= align_size size /\
  align_size size <= size + 32 /\ align_size size mod 8 = 0.
Proof.
  intros Hr. destruct (align_size_spec size Hr) as (H1 & H2 & H3 & H4).
  split; [|split; [|tauto]].
  - intros H. unfold align_size. replace (size <=? DSIZE) with true by (consts; lia).
    reflexivity.
  - intros H. unfold align_size. replace (size <=? DSIZE) with false by (consts; lia).
    unfold ALIGN, ALIGNMENT. consts.
    rewrite (u64_small (size + 2 * 8)) by lia.
    rewrite (u64_small (size + 2 * 8 + (8 - 1))) by lia.
    replace (size + 2 * 8 + (8 - 1)) with (size + 23) by lia.
    pose proof (Z.div_mod (size + 23) 8 ltac:(lia)) as Hd.
    pose proof (Z.mod_pos_bound (size + 23) 8 ltac:(lia)) as Hb.
    apply u64_small. lia.
Qed.

Lemma align_size_room_witness :
  (100 <= 16 -> align_size 100 = 32) /\
  (16 < 100 -> align_size 100 = (100 + 23) / 8 * 8) /\
  32 <= align_size 100 /\ 100 + 16 <= align_size 100 /\
  align_size 100 <= 100 + 32 /\ align_size 100 mod 8 = 0.
Proof. apply (align_size_room 100). lia. Defined.

(** For the last 23 values of the 64-bit size the sum wraps: the aligned
    size is at most 16, less than the smallest block and less than the
    request. *)
Theorem align_size_wraps size :
  2 ^ 64 - 24 < size < 2 ^ 64 -> align_size size <= 16.
Proof.
  intros Hr. unfold align_size. replace (size <=? DSIZE) with false by (consts; lia).
  unfold ALIGN, ALIGNMENT, u64. consts.
  destruct (Z_lt_le_dec (size + 2 * 8) (2 ^ 64)) as [Hlt|Hge].
  - rewrite (Z.mod_small (size + 2 * 8)) by lia.
    replace ((size + 2 * 8 + (8 - 1)) mod 2 ^ 64) with (size + 23 - 2 ^ 64).
    + assert (H0 : (size + 23 - 2 ^ 64) / 8 = 0) by (apply Z.div_small; lia).
      rewrite H0. rewrite Z.mod_small by lia. lia.
    + apply (Z.mod_unique _ _ 1); lia.
  - replace ((size + 2 * 8) mod 2 ^ 64) with (size + 16 - 2 ^ 64)
      by (apply (Z.mod_unique _ _ 1); lia).
    rewrite (Z.mod_small (size + 16 - 2 ^ 64 + (8 - 1))) by lia.
    assert (H1 : (size + 16 - 2 ^ 64 + (8 - 1)) / 8 < 3)
      by (apply Z.div_lt_upper_bound; lia).
    assert (H2 : 0 <= (size + 16 - 2 ^ 64 + (8 - 1)) / 8) by (apply Z.div_pos; lia).
    rewrite Z.mod_small by lia. lia.
Qed.

Lemma align_size_wraps_witness :
  2 ^ 64 - 24 < 2 ^ 64 - 1 < 2 ^ 64 /\ align_size (2 ^ 64 - 1) <= 16.
Proof. split; [lia|]. apply (align_size_wraps (2 ^ 64 - 1)). lia. Defined.

Lemma index_of_loop_class : forall n idx size,
  0 <= idx <= 15 -> 15 - idx <= Z.of_nat n ->
  forall i, idx <= i < 15 ->
    (index_of_loop n (32 * 2 ^ idx) idx size <= i <-> size <= 32 * 2 ^ i).
Proof.
  induction n as [|n IH]; intros idx size Hidx Hn i Hi.
  - lia.
  - cbn [index_of_loop].
    change (Z.shiftl (4 * WSIZE) (LISTSIZE - 1)) with (32 * 2 ^ 15).
    assert (Hp : 2 ^ idx <= 2 ^ 14) by (apply Z.pow_le_mono_r; lia).
    assert (Hpi : 2 ^ idx <= 2 ^ i) by (apply Z.pow_le_mono_r; lia).
    replace (32 * 2 ^ idx <? 32 * 2 ^ 15) with true by lia.
    destruct (Z.geb_spec (32 * 2 ^ idx) size) as [Hge|Hlt].
    + split; lia.
    + replace (s32 (32 * 2 ^ idx * 2)) with (32 * 2 ^ (idx + 1))
        by (rewrite Z.pow_add_r by lia; rewrite s32_small; lia).
      pose proof (index_of_loop_range n (idx + 1) size ltac:(lia)) as Hrng.
      destruct (Z.eq_dec i idx) as [->|Hne].
      * split; lia.
      * apply IH; lia.
Qed.

(** [index_of] returns a class between 0 and 15, and the classes double:
    the class is at most [i] exactly when the size is at most [32 * 2 ^ i];
    sizes above [32 * 2 ^ 14] all go to the last class. *)
Theorem index_of_class size :
  0 <= index_of size <= 15 /\
  (forall i, 0 <= i < 15 -> (index_of size <= i <-> size <= 32 * 2 ^ i)).
Proof.
  split.
  - pose proof (index_of_range size). lia.
  - intros i Hi. unfold index_of.
    change (4 * WSIZE) with (32 * 2 ^ 0).
    apply index_of_loop_class; cbn; lia.
Qed.

(** A tag written with [PUT] and [PACK] is read back by [GET_SIZE] and
    [GET_ALLOC], for a size that is a multiple of 8 and an allocated bit 0
    or 1; the words that do not overlap the one written are as before. *)
Theorem tag_round_trip m p size alloc :
  0 <= size < 2 ^ 64 -> size mod 8 = 0 -> alloc = 0 \/ alloc = 1 ->
  GET_SIZE (PUT m p (PACK size alloc)) p = size /\
  GET_ALLOC (PUT m p (PACK size alloc)) p = alloc /\
  (forall q, q + 8 <= p \/ p + 8 <= q ->
     GET (PUT m p (PACK size alloc)) q = GET m q).
Proof.
  intros Hr Hm Ha.
  assert (Hle : size <= 2 ^ 64 - 8).
  { apply Z.mod_divide in Hm; [|lia]. destruct Hm as [k ->]. lia. }
  assert (Ht : GET (PUT m p (PACK size alloc)) p = tag size (alloc =? 1)).
  { rewrite GET_PUT_same. destruct Ha as [-> | ->]; cbn [Z.eqb Pos.eqb].
    - rewrite PACK_0. unfold tag. rewrite Z.add_0_r. apply u64_small. lia.
    - rewrite PACK_1 by lia. unfold tag. apply u64_small. lia. }
  split; [apply (tag_size _ _ _ _ Ht); lia|]. split.
  - rewrite (tag_alloc _ _ _ _ Ht Hm). destruct Ha as [-> | ->]; reflexivity.
  - intros q Hq. now apply GET_PUT_other.
Qed.

Lemma tag_round_trip_witness :
  GET_SIZE (PUT zero_mem 96 (PACK 48 1)) 96 = 48 /\
  GET_ALLOC (PUT zero_mem 96 (PACK 48 1)) 96 = 1 /\
  (forall q, q + 8 <= 96 \/ 96 + 8 <= q ->
     GET (PUT zero_mem 96 (PACK 48 1)) q = GET zero_mem q).
Proof.
  apply (tag_round_trip zero_mem 96 48 1); [lia|reflexivity|now right].
Defined.

(** On a consistent heap the macros agree on every block: header and footer
    hold the same word, the footer is the last word of the block, and
    stepping to the next block and back gives the block again. *)
Theorem block_navigation s p z :
  allocated_block s p z \/ free_block s p z ->
  HDRP p = p - 8 /\ FTRP (mem s) p = p + z - 16 /\
  GET (mem s) (FTRP (mem s) p) = GET (mem s) (HDRP p) /\
  NEXT_BLKP (mem s) p = p + z /\
  PREV_BLKP (mem s) (NEXT_BLKP (mem s) p) = p.
Proof.
  intros H.
  assert (Hex : exists B L al, heap_rep s B L /\ In (p, z, al) B).
  { destruct H as [(B & L & H1 & _ & H3)|(B & L & H1 & _ & H3)].
    - now exists B, L, true.
    - now exists B, L, false. }
  destruct Hex as (B & L & al & [Hlay _] & HB).
  pose proof (layout_range _ _ Hlay) as Hr.
  pose proof (layout_block _ _ _ _ _ Hlay HB) as Hb.
  destruct (rd_block _ _ _ _ _ Hlay HB) as (Hh & Hs & _ & Hn & Hf).
  destruct (layout_tag _ _ _ _ _ Hlay HB) as [Ht1 Ht2].
  split; [exact Hh|]. split; [exact Hf|]. split; [rewrite Hf, Hh; congruence|].
  split; [exact Hn|]. rewrite Hn. unfold PREV_BLKP. consts.
  rewrite (u64_small (p + z - 2 * 8)) by lia.
  replace (p + z - 2 * 8) with (p + z - 16) by lia.
  rewrite (tag_size _ _ z al Ht2) by lia.
  replace (p + z - z) with p by lia. apply u64_small. lia.
Qed.

Lemma block_navigation_witness :
  HDRP 1272 = 1272 - 8 /\ FTRP (mem (fst arena_one)) 1272 = 1272 + 32 - 16 /\
  GET (mem (fst arena_one)) (FTRP (mem (fst arena_one)) 1272) =
    GET (mem (fst arena_one)) (HDRP 1272) /\
  NEXT_BLKP (mem (fst arena_one)) 1272 = 1272 + 32 /\
  PREV_BLKP (mem (fst arena_one)) (NEXT_BLKP (mem (fst arena_one)) 1272) = 1272.
Proof.
  apply (block_navigation (fst arena_one) 1272 32). left. exact arena_one_block.
Defined.

(** ** The checker *)

(** The walk of [mm_check] over the implicit list never reports contiguous
    free blocks: the counter is incremented on a free block and decremented
    after every block, so it is at most 1 at the test against 2. *)
Theorem check_walk_no_contiguous_report fuel s :
  forall bp count consec pld fre,
    consec <= 0 -> - 2 ^ 31 + Z.of_nat fuel <= consec ->
    check_walk fuel s bp count consec pld fre <> Some None.
Proof.
  induction fuel as [|fuel IH]; intros bp count consec pld fre Hle Hge.
  - cbn [check_walk]. destruct (u64 bp <? mem_heap_hi s); discriminate.
  - cbn [check_walk]. destruct (u64 bp <? mem_heap_hi s); [|discriminate].
    destruct (GET_ALLOC (mem s) (HDRP bp) =? 0).
    + rewrite (s32_small (consec + 1)) by lia.
      replace (consec + 1 >=? 2) with false by lia.
      apply IH; rewrite s32_small; lia.
    + replace (consec >=? 2) with false by lia.
      apply IH; rewrite s32_small; lia.
Qed.

Lemma check_walk_no_contiguous_report_witness :
  (0 <= 0 /\ - 2 ^ 31 + Z.of_nat 1000 <= 0) /\
  check_walk 1000 arena (heap_ptr arena) 0 0 0 0 <> Some None.
Proof.
  split; [split; by_eval|].
  apply (check_walk_no_contiguous_report 1000 arena); by_eval.
Defined.

(** ** The class lists as read from memory *)

Lemma list_walk_rep m : forall l prev fuel,
  dlist m prev (map fst l) 0 ->
  (forall b z, In (b, z) l -> 0 < b < 2 ^ 64 - 8 /\ GET_SIZE m (HDRP b) = z) ->
  (length l < fuel)%nat ->
  list_walk fuel m (hd 0 (map fst l)) = l.
Proof.
  induction l as [|[b z] l IH]; intros prev fuel Hd He Hf.
  - destruct fuel; [cbn in Hf; lia|]. reflexivity.
  - destruct fuel as [|f]; [cbn in Hf; lia|]. cbn [map fst hd list_walk].
    destruct (He b z (or_introl eq_refl)) as [Hb Hz].
    replace (b =? NULL) with false by (unfold NULL; symmetry; apply Z.eqb_neq; lia).
    rewrite Hz. cbn [dlist map fst] in Hd. destruct Hd as (_ & Hs & Hd).
    unfold SUCC_BLKP. rewrite u64_small by (consts; lia).
    rewrite Hs. f_equal.
    apply (IH b f Hd).
    + intros b' z' H'. apply He. now right.
    + cbn in Hf. lia.
Qed.

(** Following the successor words from the head slot of class [i] reads
    exactly the list [L i] of the description. *)
Lemma class_list_rep s B L i fuel :
  heap_rep s B L -> 0 <= i < 16 -> (length (L i) < fuel)%nat ->
  class_list fuel s i = L i.
Proof.
  intros [Hlay Hl] Hi Hf. pose proof (layout_range _ _ Hlay) as Hr.
  destruct (Hl i ltac:(consts; lia)) as (Hh & Hd & He & _).
  unfold class_list. rewrite slot_eq by lia. rewrite Hh.
  apply (list_walk_rep _ _ 0 _ Hd); [|exact Hf].
  intros b z Hin. destruct (He b z Hin) as [HB _].
  pose proof (layout_block _ _ _ _ _ Hlay HB).
  destruct (rd_block _ _ _ _ _ Hlay HB) as (E & Hz & _).
  rewrite E. split; [lia|exact Hz].
Qed.

Lemma class_list_rep_S s B L i fuel :
  heap_rep s B L -> enough_fuel s fuel -> 0 <= i < 16 ->
  class_list (S fuel) s i = L i.
Proof.
  intros Hrep Hf Hi. apply (class_list_rep s B L i (S fuel) Hrep Hi).
  pose proof (fuel_covers _ _ _ _ _ Hrep Hf Hi). lia.
Qed.

(** ** [pop_free] and [add_free] on their own *)

(** [pop_free] on a listed free block takes exactly that block out of the
    list of its class and leaves the other lists as they were; the heap
    stays consistent but for the block being unlisted, and no payload byte
    of an allocated block changes. *)
Theorem pop_free_unlinks fuel s bp z :
  free_block s bp z -> enough_fuel s fuel ->
  unlisted_block (pop_free s bp) bp z /\
  (forall i, 0 <= i < LISTSIZE ->
     class_list (S fuel) (pop_free s bp) i =
     if i =? index_of z then remove_block bp (class_list (S fuel) s i)
     else class_list (S fuel) s i) /\
  (forall q zq a, allocated_block s q zq -> q <= a < q + zq - 16 ->
     mem (pop_free s bp) a = mem s a).
Proof.
  intros (B & L & Hrep & Hc & HB) Hf.
  assert (Hw : wip s B L []).
  { split; [exact Hrep|]. split; [now apply complete_iff|]. intros x []. }
  destruct (wip_pop s B L [] bp z Hw HB ltac:(intros [])) as [Hw' Hpf].
  split; [|split].
  - exists B, (unlist L bp z). split; assumption.
  - intros i Hi. destruct Hw' as (Hrep' & _).
    pose proof (enough_fuel_region _ _ _ (same_region_pop_free s bp) Hf) as Hf'.
    rewrite (class_list_rep_S _ B _ i fuel Hrep' Hf' ltac:(consts; lia)).
    rewrite (class_list_rep_S s B L i fuel Hrep Hf ltac:(consts; lia)).
    unfold unlist, upd. destruct (i =? index_of z) eqn:E; [|reflexivity].
    apply Z.eqb_eq in E. now subst i.
  - intros q zq a (B0 & L0 & [Hlay0 _] & _ & Hq) Ha.
    destruct Hrep as [Hlay _]. rewrite (layout_unique _ _ _ Hlay0 Hlay) in Hq.
    apply (Hpf q zq a Hq). consts. lia.
Qed.

Lemma pop_free_unlinks_witness :
  unlisted_block (pop_free (fst arena_two) 1160) 1160 80 /\
  (forall i, 0 <= i < LISTSIZE ->
     class_list (S 1000) (pop_free (fst arena_two) 1160) i =
     if i =? index_of 80 then remove_block 1160 (class_list (S 1000) (fst arena_two) i)
     else class_list (S 1000) (fst arena_two) i) /\
  (forall q zq a, allocated_block (fst arena_two) q zq -> q <= a < q + zq - 16 ->
     mem (pop_free (fst arena_two) 1160) a = mem (fst arena_two) a).
Proof.
  apply (pop_free_unlinks 1000 (fst arena_two) 1160 80 arena_two_free arena_two_fuel).
Defined.

Lemma arena_two_popped : unlisted_block (pop_free (fst arena_two) 1160) 1160 80.
Proof.
  destruct arena_two_free as (B & L & Hrep & Hc & HB).
  assert (Hw : wip (fst arena_two) B L []).
  { split; [exact Hrep|]. split; [now apply complete_iff|]. intros x []. }
  destruct (wip_pop _ B L [] 1160 80 Hw HB ltac:(intros [])) as [Hw' _].
  exists B, (unlist L 1160 80). split; assumption.
Qed.

Lemma arena_two_popped_fuel : enough_fuel (pop_free (fst arena_two) 1160) 1000.
Proof.
  apply (enough_fuel_region _ _ _ (same_region_pop_free _ _) arena_two_fuel).
Qed.

(** [add_free] on a free block that is in no list links it into the list of
    the class of its size, immediately before the first entry at least as
    large, and leaves the other lists as they were; the heap is consistent
    afterwards and no payload byte of an allocated block changes. *)
Theorem add_free_links fuel s bp z :
  unlisted_block s bp z -> enough_fuel s fuel ->
  exists s', add_free fuel s bp z = Some s' /\
    free_block s' bp z /\
    (forall i, 0 <= i < LISTSIZE ->
       class_list (S fuel) s' i =
       if i =? index_of z then insert_by_size (bp, z) (class_list (S fuel) s i)
       else class_list (S fuel) s i) /\
    (forall q zq a, allocated_block s' q zq -> q <= a < q + zq - 16 ->
       mem s' a = mem s a).
Proof.
  intros (B & L & (Hrep & Hc & Hun) & HB) Hf. pose proof Hrep as [Hlay _].
  destruct (heap_rep_add_free fuel _ _ _ _ _ Hrep HB (Hun bp (or_introl eq_refl)) Hf)
    as (s' & Heq & Hreg & Hrep' & Hlf).
  assert (Hc' : complete B (enlist L bp z)).
  { apply complete_iff.
    apply (complete_except_enlist _ _ [bp] [] _ _ _ _ (lay_chain _ _ Hlay) HB Hc).
    intros x [<-|[]]. now left. }
  exists s'. split; [exact Heq|]. split; [|split].
  - exists B, (enlist L bp z). split; [exact Hrep'|]. split; assumption.
  - intros i Hi.
    pose proof (enough_fuel_region _ _ _ Hreg Hf) as Hf'.
    rewrite (class_list_rep_S _ B _ i fuel Hrep' Hf' ltac:(consts; lia)).
    rewrite (class_list_rep_S s B L i fuel Hrep Hf ltac:(consts; lia)).
    unfold enlist, upd. destruct (i =? index_of z) eqn:E; [|reflexivity].
    apply Z.eqb_eq in E. now subst i.
  - intros q zq a (B0 & L0 & [Hlay0 _] & _ & Hq) Ha. destruct Hrep' as [Hlay' _].
    rewrite (layout_unique _ _ _ Hlay0 Hlay') in Hq.
    apply (payload_links_frame _ _ _ Hlay Hlf q zq a Hq). consts. lia.
Qed.

Lemma add_free_links_witness :
  exists s', add_free 1000 (pop_free (fst arena_two) 1160) 1160 80 = Some s' /\
    free_block s' 1160 80 /\
    (forall i, 0 <= i < LISTSIZE ->
       class_list (S 1000) s' i =
       if i =? index_of 80
       then insert_by_size (1160, 80)
              (class_list (S 1000) (pop_free (fst arena_two) 1160) i)
       else class_list (S 1000) (pop_free (fst arena_two) 1160) i) /\
    (forall q zq a, allocated_block s' q zq -> q <= a < q + zq - 16 ->
       mem s' a = mem (pop_free (fst arena_two) 1160) a).
Proof.
  apply (add_free_links 1000 (pop_free (fst arena_two) 1160) 1160 80
           arena_two_popped arena_two_popped_fuel).
Defined.
(** ** [mm_realloc]: the growth paths *)

(** Two neighbours become one block; header written first, as in
    [mm_realloc]. *)
Lemma retag_merge_hf s B1 b1 z1 a1 b2 z2 a2 al B2 L :
  heap_rep s (B1 ++ (b1, z1, a1) :: (b2, z2, a2) :: B2) L ->
  unlisted L b1 -> unlisted L b2 ->
  let s' := put (put s (b1 - 8) (tag (z1 + z2) al)) (b2 + z2 - 16)
                (tag (z1 + z2) al) in
  heap_rep s' (B1 ++ (b1, z1 + z2, al) :: B2) L /\
  payload_frame s s' (B1 ++ (b1, z1, a1) :: (b2, z2, a2) :: B2).
Proof.
  intros Hrep Hun1 Hun2 s'. pose proof Hrep as [Hlay _].
  destruct (layout_in_mid _ _ _ _ _ _ Hlay) as (Hin1 & Hc1 & Hc2).
  assert (Hin2 : In (b2, z2, a2) (B1 ++ (b1, z1, a1) :: (b2, z2, a2) :: B2)).
  { apply in_or_app. right. right. now left. }
  pose proof (layout_block _ _ _ _ _ Hlay Hin1) as Hb1.
  pose proof (layout_block _ _ _ _ _ Hlay Hin2) as Hb2.
  pose proof (layout_range _ _ Hlay) as Hr.
  cbn [chain] in Hc2. destruct Hc2 as (E2 & _ & _ & Hc2).
  assert (Ht : 0 <= tag (z1 + z2) al < 2 ^ 64) by (apply tag_range; lia).
  split.
  - apply (region_retag s s' B1 [(b1, z1, a1); (b2, z2, a2)] [(b1, z1 + z2, al)]
             B2 L b1 (b1 + z1 + z2)); try assumption.
    + repeat split.
    + cbn [chain]. consts. repeat split; lia.
    + cbn [chain]. consts. repeat split; try lia. apply mod8_add; tauto.
    + intros a Ha. unfold s'. rewrite !mem_put. rewrite !PUT_byte_other by lia.
      reflexivity.
    + intros b0 z0 al0 [E|[]]. injection E as <- <- <-. unfold s'. rewrite !mem_put.
      consts. replace (b1 + (z1 + z2) - 2 * 8) with (b2 + z2 - 16) by lia.
      gput. rewrite !u64_small by lia. tauto.
    + intros b0 z0 al0 [E|[E|[]]]; injection E as <- _ _; assumption.
  - intros b' z' a HB Ha. unfold s'. rewrite !mem_put.
    destruct (payload_off_tags _ _ _ _ _ _ _ _ Hlay Hin1 HB Ha).
    destruct (payload_off_tags _ _ _ _ _ _ _ _ Hlay Hin2 HB Ha).
    rewrite !PUT_byte_other by lia. reflexivity.
Qed.

(** Case 1-b: the block takes the whole of its free right neighbour. *)
Lemma realloc_grow_spec s B1 p z zn B2 L asz rem :
  heap_rep s (B1 ++ (p, z, true) :: (p + z, zn, false) :: B2) L ->
  complete (B1 ++ (p, z, true) :: (p + z, zn, false) :: B2) L ->
  asz + rem = z + zn ->
  exists L',
    same_region s (realloc_grow s p asz rem) /\
    heap_rep (realloc_grow s p asz rem) (B1 ++ (p, z + zn, true) :: B2) L' /\
    complete (B1 ++ (p, z + zn, true) :: B2) L' /\
    payload_frame s (realloc_grow s p asz rem)
      (B1 ++ (p, z, true) :: (p + z, zn, false) :: B2).
Proof.
  set (B := B1 ++ (p, z, true) :: (p + z, zn, false) :: B2).
  intros Hrep Hc Hsum. pose proof Hrep as [Hlay _].
  destruct (mid_pair _ _ _ _ _ _ _ _ _ Hlay) as (HBp & HBn & _). fold B in HBp, HBn.
  pose proof (layout_range _ _ Hlay) as Hr.
  pose proof (layout_block _ _ _ _ _ Hlay HBp) as Hp.
  pose proof (layout_block _ _ _ _ _ Hlay HBn) as Hn.
  destruct (rd_block _ _ _ _ _ Hlay HBp) as (Hh & _ & _ & Hnx & _).
  assert (Hw : wip s B L []).
  { split; [exact Hrep|]. split; [now apply complete_iff|]. intros x []. }
  destruct (wip_pop s B L [] (p + z) zn Hw HBn ltac:(intros [])) as [Hw1 Hf1].
  pose proof (same_region_pop_free s (p + z)) as Hreg1.
  set (s1 := pop_free s (p + z)) in *. set (L1 := unlist L (p + z) zn) in *.
  pose proof Hw1 as (Hrep1 & Hc1 & Hun1). pose proof Hrep1 as [Hlay1 _].
  assert (Ht : PACK (z + zn) 1 = tag (z + zn) true).
  { apply (PACK_tag (z + zn) true); [lia|]. apply mod8_add; tauto. }
  assert (Hmod : (z + zn) mod 8 = 0) by (apply mod8_add; tauto).
  assert (Htr : 0 <= tag (z + zn) true < 2 ^ 64) by (apply tag_range; lia).
  assert (Hft : FTRP (mem (put s1 (p - 8) (tag (z + zn) true))) p = p + z + zn - 16).
  { unfold FTRP. rewrite Hh, mem_put.
    rewrite (tag_size _ _ (z + zn) true);
      [consts; rewrite u64_small by lia; lia| |lia|exact Hmod].
    rewrite GET_PUT_same. apply u64_small. exact Htr. }
  assert (E : realloc_grow s p asz rem =
              put (put s1 (p - 8) (tag (z + zn) true)) (p + z + zn - 16)
                  (tag (z + zn) true)).
  { unfold realloc_grow. cbv zeta. rewrite Hnx. fold s1. rewrite Hh, Hsum.
    rewrite (u64_small (z + zn)) by lia. rewrite Ht, Hft. reflexivity. }
  rewrite E.
  destruct (retag_merge_hf s1 B1 p z true (p + z) zn false true B2 L1 Hrep1)
    as [Hrep2 Hf2].
  { apply (allocated_unlisted _ _ _ _ _ Hrep1 HBp). }
  { apply Hun1. now left. }
  cbv zeta in Hrep2, Hf2.
  exists L1. split; [|split; [|split]].
  - apply (same_region_trans _ s1); [exact Hreg1|repeat split].
  - exact Hrep2.
  - apply complete_iff.
    replace (B1 ++ (p, z + zn, true) :: B2)
      with (B1 ++ [(p, z + zn, true)] ++ B2) by reflexivity.
    apply (complete_except_retag B1 [(p, z, true); (p + z, zn, false)] _ B2 L1
             [p + z] [] (heap_ptr s1 + DSIZE) (mem_brk s1)).
    + apply Hlay1.
    + exact Hc1.
    + intros b z0 [E0|[]]. discriminate E0.
    + intros x [<-|[]]. right. exists zn, false. right. now left.
  - refine (payload_frame_trans _ _ _ _ _ Hf1 Hf2 (fun _ _ H => H)).
Qed.

Lemma allocated_in s B L q zq :
  heap_rep s B L -> allocated_block s q zq -> In (q, zq, true) B.
Proof.
  intros [Hlay _] (B0 & L0 & [Hlay0 _] & _ & Hq).
  now rewrite (layout_unique _ _ _ Hlay Hlay0).
Qed.

Lemma free_in s B L q zq :
  heap_rep s B L -> free_block s q zq -> In (q, zq, false) B.
Proof.
  intros [Hlay _] (B0 & L0 & [Hlay0 _] & _ & Hq).
  now rewrite (layout_unique _ _ _ Hlay Hlay0).
Qed.

(** The block after [(p, z)] in address order. *)
Lemma next_block_shape s B1 p z a B2 zn an :
  layout s (B1 ++ (p, z, a) :: B2) ->
  In (p + z, zn, an) (B1 ++ (p, z, a) :: B2) ->
  exists B2', B2 = (p + z, zn, an) :: B2'.
Proof.
  intros Hlay Hin. destruct (layout_in_mid _ _ _ _ _ _ Hlay) as (_ & _ & Hc2).
  pose proof (layout_block _ _ _ _ _ Hlay Hin) as Hn.
  destruct B2 as [|[[b zb] ab] B2'].
  - cbn [chain] in Hc2. lia.
  - cbn [chain] in Hc2. destruct Hc2 as (-> & _).
    assert (Hin' : In (p + z, zb, ab) (B1 ++ (p, z, a) :: (p + z, zb, ab) :: B2')).
    { apply in_or_app. right. right. now left. }
    destruct (chain_same_addr _ _ _ _ _ _ _ _ (lay_chain _ _ Hlay) Hin Hin') as [-> ->].
    now exists B2'.
Qed.

(** A block that ends at the break is the last one. *)
Lemma last_block_shape s B1 p z a B2 :
  layout s (B1 ++ (p, z, a) :: B2) -> p + z = mem_brk s -> B2 = [].
Proof.
  intros Hlay Hend. destruct (layout_in_mid _ _ _ _ _ _ Hlay) as (_ & _ & Hc2).
  destruct B2 as [|[[b zb] ab] B2']; [reflexivity|].
  cbn [chain] in Hc2. destruct Hc2 as (-> & Hz & _ & Hc2).
  apply chain_le in Hc2. consts. lia.
Qed.

(** What a caller sees after the block at [p] was re-tagged in place. *)
Lemma realloc_result s s' B1 p z Bn znew B2 L L' :
  heap_rep s (B1 ++ (p, z, true) :: Bn ++ B2) L ->
  (forall x, In x Bn -> snd x = false) ->
  z <= znew ->
  heap_rep s' (B1 ++ (p, znew, true) :: B2) L' ->
  complete (B1 ++ (p, znew, true) :: B2) L' ->
  payload_frame s s' (B1 ++ (p, z, true) :: Bn ++ B2) ->
  heap_ok s' /\ allocated_block s' p znew /\
  (forall a, p <= a < p + z - 16 -> mem s' a = mem s a) /\
  (forall q zq, allocated_block s q zq -> q <> p ->
     allocated_block s' q zq /\
     (forall a, q <= a < q + zq - 16 -> mem s' a = mem s a)).
Proof.
  intros Hrep Hfree Hle Hrep' Hc' Hpf.
  split; [now exists (B1 ++ (p, znew, true) :: B2), L'|]. split; [|split].
  - exists (B1 ++ (p, znew, true) :: B2), L'. split; [exact Hrep'|].
    split; [exact Hc'|]. apply in_or_app. right. now left.
  - intros a Ha. apply (Hpf p z a); [|consts; lia]. apply in_or_app. right. now left.
  - intros q zq Hq Hne. pose proof (allocated_in _ _ _ _ _ Hrep Hq) as Hin.
    split.
    + exists (B1 ++ (p, znew, true) :: B2), L'. split; [exact Hrep'|].
      split; [exact Hc'|].
      apply in_app_or in Hin. apply in_or_app.
      destruct Hin as [H|[E|H]]; [now left|injection E as -> _; congruence|].
      apply in_app_or in H. destruct H as [H|H]; [|right; now right].
      apply Hfree in H. discriminate H.
    + intros a Ha. apply (Hpf q zq a Hin). consts. lia.
Qed.
Lemma s32_u64 d : - 2 ^ 31 <= d < 2 ^ 31 -> s32 (u64 d) = d.
Proof.
  intros H. destruct (u64_decomp d) as [k E]. rewrite E. unfold s32.
  replace (d + k * 2 ^ 64 + 2 ^ 31) with (d + 2 ^ 31 + (k * 2 ^ 32) * 2 ^ 32) by lia.
  rewrite Z.mod_add by lia. rewrite Z.mod_small by lia. lia.
Qed.

(** The two flags [mm_realloc] computes from the block after [p]. *)
Lemma realloc_flags s B p z a zn an :
  layout s B -> In (p, z, a) B -> In (p + z, zn, an) B ->
  HDRP p = p - 8 /\ GET_SIZE (mem s) (p - 8) = z /\
  NEXT_BLKP (mem s) p = p + z /\ HDRP (p + z) = p + z - 8 /\
  GET_SIZE (mem s) (p + z - 8) = zn /\
  GET_ALLOC (mem s) (p + z - 8) = (if an then 1 else 0).
Proof.
  intros Hlay Hp Hn.
  destruct (rd_block _ _ _ _ _ Hlay Hp) as (H1 & H2 & _ & H3 & _).
  destruct (rd_block _ _ _ _ _ Hlay Hn) as (H4 & H5 & H6 & _).
  repeat split; assumption.
Qed.

(** When the block after [p] is free and the two together hold the aligned
    request, [mm_realloc] grows the block in place: it returns [p], the
    block now spans both (the neighbour is taken whole, nothing is split
    off), the heap stays consistent, and the payload of every allocated
    block, that of [p] included, is unchanged. *)
Theorem mm_realloc_absorbs fuel s p z zn size :
  allocated_block s p z -> free_block s (p + z) zn ->
  0 < size <= 2 ^ 64 - 24 -> z < align_size size <= z + zn ->
  exists s', mm_realloc fuel s p size = Some (Returns (s', p)) /\
    heap_ok s' /\ allocated_block s' p (z + zn) /\ mem_brk s' = mem_brk s /\
    (forall a, p <= a < p + z - 16 -> mem s' a = mem s a) /\
    (forall q zq, allocated_block s q zq -> q <> p ->
       allocated_block s' q zq /\
       (forall a, q <= a < q + zq - 16 -> mem s' a = mem s a)).
Proof.
  intros (B & L & Hrep & Hc & HBp) Hn Hsz Hfit. pose proof Hrep as [Hlay _].
  pose proof (free_in _ _ _ _ _ Hrep Hn) as HBn.
  pose proof (layout_range _ _ Hlay) as Hr.
  pose proof (layout_block _ _ _ _ _ Hlay HBp) as Hp.
  pose proof (layout_block _ _ _ _ _ Hlay HBn) as Hnn.
  destruct (realloc_flags _ _ _ _ _ _ _ Hlay HBp HBn) as (Hh & Hs & Hnx & Hhn & Hsn & Han).
  destruct (in_split _ _ HBp) as (B1 & B2 & EB). subst B.
  destruct (next_block_shape _ _ _ _ _ _ _ _ Hlay HBn) as (B2' & ->).
  set (rem := z + zn - align_size size).
  assert (Erem : s32 (u64 (u64 (z + zn) - align_size size)) = rem).
  { rewrite (u64_small (z + zn)) by lia. rewrite u64_small by lia.
    apply s32_small. unfold rem. lia. }
  assert (E : mm_realloc fuel s p size =
              Some (Returns (realloc_grow s p (align_size size) rem, p))).
  { unfold mm_realloc. replace (size =? 0) with false by lia. cbv zeta.
    rewrite Hh, Hs, Hnx, Hhn, Hsn, Han.
    replace (z >=? align_size size) with false by lia.
    unfold lnot, truth. cbn [Z.eqb negb orb]. rewrite Erem.
    replace (rem <? 0) with false by (unfold rem; lia). reflexivity. }
  destruct (realloc_grow_spec s B1 p z zn B2' L (align_size size) rem Hrep Hc)
    as (L' & Hreg & Hrep' & Hc' & Hpf); [unfold rem; lia|].
  exists (realloc_grow s p (align_size size) rem). split; [exact E|].
  destruct (realloc_result s _ B1 p z [(p + z, zn, false)] (z + zn) B2' L L'
              Hrep ltac:(intros x [<-|[]]; reflexivity) ltac:(lia) Hrep' Hc' Hpf)
    as (H1 & H2 & H3 & H4).
  split; [exact H1|]. split; [exact H2|]. split; [apply Hreg|]. split; assumption.
Qed.
(** Case 1-a followed by 1-b: nothing but free space, if anything, lies
    between the block and the break, and the block is grown by moving the
    break. *)
Lemma realloc_extend_spec fuel s B1 p z Bn zn L size :
  heap_rep s (B1 ++ (p, z, true) :: Bn) L ->
  complete (B1 ++ (p, z, true) :: Bn) L ->
  enough_fuel s fuel ->
  (Bn = [] /\ zn = 0) \/ Bn = [(p + z, zn, false)] ->
  0 < size < 2 ^ 31 - 24 -> z + zn < align_size size ->
  (mem_max_addr s < mem_brk s + MAX CHUNKSIZE (align_size size - (z + zn)) /\
   mm_realloc fuel s p size = Some (Returns (s, NULL))) \/
  (mem_brk s + MAX CHUNKSIZE (align_size size - (z + zn)) <= mem_max_addr s /\
   exists s' L',
     mm_realloc fuel s p size = Some (Returns (s', p)) /\
     heap_rep s' (B1 ++ [(p, z + zn + MAX CHUNKSIZE (align_size size - (z + zn)), true)]) L' /\
     complete (B1 ++ [(p, z + zn + MAX CHUNKSIZE (align_size size - (z + zn)), true)]) L' /\
     mem_brk s' = mem_brk s + MAX CHUNKSIZE (align_size size - (z + zn)) /\
     payload_frame s s' (B1 ++ (p, z, true) :: Bn)).
Proof.
  set (asz := align_size size). set (ext := MAX CHUNKSIZE (asz - (z + zn))).
  intros Hrep Hc Hf Hshape Hsz Hlt. pose proof Hrep as [Hlay _].
  pose proof (layout_range _ _ Hlay) as Hr.
  destruct (layout_in_mid _ _ _ _ _ _ Hlay) as (HBp & _ & Hc2).
  pose proof (layout_block _ _ _ _ _ Hlay HBp) as Hp.
  destruct (rd_block _ _ _ _ _ Hlay HBp) as (Hh & Hs & _ & Hnx & _).
  destruct (align_size_spec size ltac:(lia)) as (Ha1 & Ha2 & Ha3 & Ha4). fold asz in Ha1, Ha2, Ha3, Ha4.
  assert (Hzn : 0 <= zn /\ zn mod 8 = 0 /\ p + z + zn = mem_brk s /\
                HDRP (p + z) = p + z - 8 /\
                GET_SIZE (mem s) (p + z - 8) = zn /\
                (truth (lnot (GET_ALLOC (mem s) (p + z - 8))) ||
                 truth (lnot zn) = true)).
  { destruct Hshape as [[-> ->]| ->].
    - cbn [chain] in Hc2. pose proof (lay_epi _ _ Hlay) as He. unfold WSIZE in He.
      rewrite <- Hc2 in He.
      split; [lia|]. split; [reflexivity|]. split; [lia|].
      split; [apply HDRP_eq; lia|].
      split; [apply (tag_size _ _ 0 true He); [lia|reflexivity]|].
      apply orb_true_iff. right. reflexivity.
    - assert (HBn : In (p + z, zn, false) (B1 ++ [(p, z, true); (p + z, zn, false)])).
      { apply in_or_app. right. right. now left. }
      pose proof (layout_block _ _ _ _ _ Hlay HBn) as Hn.
      destruct (realloc_flags _ _ _ _ _ _ _ Hlay HBp HBn) as (_ & _ & _ & H4 & H5 & H6).
      cbn [chain] in Hc2. destruct Hc2 as (_ & _ & _ & Hc2).
      split; [lia|]. split; [tauto|]. split; [lia|]. split; [exact H4|].
      split; [exact H5|]. rewrite H6. reflexivity. }
  destruct Hzn as (Hzn0 & Hznm & Hend & Hhn & Hsn & Hfl).
  set (d := z + zn - asz).
  assert (Ed : s32 (u64 (u64 (z + zn) - asz)) = d).
  { rewrite (u64_small (z + zn)) by lia. apply s32_u64. unfold d. lia. }
  assert (Ee : MAX CHUNKSIZE (s32 (- d)) = ext).
  { rewrite s32_small by (unfold d; lia). unfold ext. f_equal. unfold d. lia. }
  assert (Hext : 4112 <= ext /\ asz - (z + zn) <= ext /\ ext mod 8 = 0 /\ ext < 2 ^ 31 + 8).
  { unfold ext. destruct (MAX_cases CHUNKSIZE (asz - (z + zn))) as [[-> H]|[-> H]];
      consts; (split; [lia|]); (split; [lia|]); (split; [|lia]).
    - reflexivity.
    - apply mod8_sub; [exact Ha4|]. apply mod8_add; tauto. }
  destruct Hext as (He1 & He2 & He3 & He4).
  assert (Epre : mm_realloc fuel s p size =
                 '(s1, r) <- extend_heap fuel s ext ;;
                 if r =? NULL then Some (Returns (s1, NULL))
                 else Some (Returns (realloc_grow s1 p asz (s32 (d + ext)), p))).
  { unfold mm_realloc. replace (size =? 0) with false by lia. cbv zeta.
    fold asz. rewrite Hh, Hs, Hnx, Hhn, Hsn, Hfl.
    replace (z >=? asz) with false by lia. rewrite Ed.
    replace (d <? 0) with true by (unfold d; lia). rewrite Ee.
    rewrite (u64_small ext) by lia. reflexivity. }
  rewrite Epre.
  destruct (extend_heap_spec fuel s _ L ext Hrep Hc Hf ltac:(lia) He3)
    as [[Hno E]|(Hroom & s1 & bp' & sz' & B1' & L1 & E & Rhp & Rlo & Rmax & Rbrk &
                 Hrep1 & Hc1 & Hpf1 & Hal1 & Hsz1 & Hbp1 & Hend1 & Hsh)].
  { left. split; [exact Hno|]. rewrite E. reflexivity. }
  right. split; [exact Hroom|]. rewrite E. cbn [bind].
  assert (Eb : B1' ++ [(bp', sz', false)] = B1 ++ [(p, z, true); (p + z, zn + ext, false)]).
  { destruct Hshape as [[-> ->]| ->].
    - destruct Hsh as [(-> & -> & _)|(pz & EB)].
      + replace (mem_brk s) with (p + z) by lia. replace sz' with (0 + ext) by lia.
        rewrite <- app_assoc. reflexivity.
      + apply (app_inj_tail (B1) B1') in EB. destruct EB as [_ EB]. discriminate EB.
    - destruct Hsh as [(_ & _ & Hnot)|(pz & EB)].
      + exfalso. apply (Hnot (B1 ++ [(p, z, true)]) (p + z) zn).
        rewrite <- app_assoc. reflexivity.
      + change (B1 ++ [(p, z, true); (p + z, zn, false)])
          with (B1 ++ [(p, z, true)] ++ [(p + z, zn, false)]) in EB.
        rewrite app_assoc in EB. apply app_inj_tail in EB. destruct EB as [<- EB].
        injection EB as <- <-. replace sz' with (zn + ext) by lia.
        rewrite <- app_assoc. reflexivity. }
  rewrite Eb in Hrep1, Hc1, Hal1.
  assert (Hbpn : (bp' =? NULL) = false).
  { assert (In (bp', sz', false) (B1 ++ [(p, z, true); (p + z, zn + ext, false)])).
    { rewrite <- Eb. apply in_or_app. right. now left. }
    pose proof (layout_block _ _ _ _ _ (proj1 Hrep1) H). rewrite Rhp in *.
    unfold NULL. lia. }
  rewrite Hbpn.
  assert (Ers : s32 (d + ext) = d + ext) by (apply s32_small; unfold d; lia).
  rewrite Ers.
  destruct (realloc_grow_spec s1 B1 p z (zn + ext) [] L1 asz (d + ext) Hrep1 Hc1)
    as (L2 & Hreg2 & Hrep2 & Hc2' & Hpf2); [unfold d; lia|].
  replace (z + (zn + ext)) with (z + zn + ext) in Hrep2, Hc2' by lia.
  exists (realloc_grow s1 p asz (d + ext)), L2.
  split; [reflexivity|]. split; [exact Hrep2|]. split; [exact Hc2'|]. split.
  - destruct Hreg2 as (_ & _ & -> & _). exact Rbrk.
  - refine (payload_frame_trans _ _ _ _ _ Hpf1 Hpf2 _).
    intros b z0 H. apply Hal1. exact H.
Qed.

(** When the block at [p] is the last one of the heap and is too small,
    [mm_realloc] moves the break by the missing bytes, and by 4112 at
    least.  If the region has no room for that, it returns NULL and leaves
    the heap as it was; otherwise it returns [p], the block has grown by
    exactly that amount, the heap is consistent and every payload is
    unchanged. *)
Theorem mm_realloc_extends_last fuel s p z size :
  allocated_block s p z -> p + z = mem_brk s -> enough_fuel s fuel ->
  0 < size < 2 ^ 31 - 24 -> z < align_size size ->
  (mem_max_addr s < mem_brk s + MAX CHUNKSIZE (align_size size - z) /\
   mm_realloc fuel s p size = Some (Returns (s, NULL))) \/
  (mem_brk s + MAX CHUNKSIZE (align_size size - z) <= mem_max_addr s /\
   exists s', mm_realloc fuel s p size = Some (Returns (s', p)) /\
     heap_ok s' /\
     allocated_block s' p (z + MAX CHUNKSIZE (align_size size - z)) /\
     mem_brk s' = mem_brk s + MAX CHUNKSIZE (align_size size - z) /\
     (forall a, p <= a < p + z - 16 -> mem s' a = mem s a) /\
     (forall q zq, allocated_block s q zq -> q <> p ->
        allocated_block s' q zq /\
        (forall a, q <= a < q + zq - 16 -> mem s' a = mem s a))).
Proof.
  intros (B & L & Hrep & Hc & HBp) Hend Hf Hsz Hlt. pose proof Hrep as [Hlay _].
  destruct (in_split _ _ HBp) as (B1 & B2 & EB). subst B.
  pose proof (last_block_shape _ _ _ _ _ _ Hlay Hend) as ->.
  pose proof (layout_block _ _ _ _ _ Hlay HBp) as Hp.
  destruct (realloc_extend_spec fuel s B1 p z [] 0 L size Hrep Hc Hf
              ltac:(left; split; reflexivity) Hsz ltac:(lia))
    as [H|(Hroom & s' & L' & E & Hrep' & Hc' & Hbrk & Hpf)];
    rewrite ?Z.add_0_r in *; [left; exact H|].
  right. split; [exact Hroom|]. exists s'. split; [exact E|].
  pose proof (MAX_cases CHUNKSIZE (align_size size - z)) as HM.
  destruct (realloc_result s s' B1 p z [] (z + MAX CHUNKSIZE (align_size size - z)) [] L L' Hrep ltac:(intros x [])
              ltac:(consts; lia) Hrep' Hc' Hpf) as (H1 & H2 & H3 & H4).
  split; [exact H1|]. split; [exact H2|]. split; [exact Hbrk|]. split; assumption.
Qed.

(** The same when a free block, the last of the heap, follows the block at
    [p] and the two together are still too small: the break moves by what
    is missing beyond both, and by 4112 at least, and the block takes the
    free block and the new space whole. *)
Theorem mm_realloc_extends_free fuel s p z zn size :
  allocated_block s p z -> free_block s (p + z) zn ->
  p + z + zn = mem_brk s -> enough_fuel s fuel ->
  0 < size < 2 ^ 31 - 24 -> z + zn < align_size size ->
  (mem_max_addr s < mem_brk s + MAX CHUNKSIZE (align_size size - (z + zn)) /\
   mm_realloc fuel s p size = Some (Returns (s, NULL))) \/
  (mem_brk s + MAX CHUNKSIZE (align_size size - (z + zn)) <= mem_max_addr s /\
   exists s', mm_realloc fuel s p size = Some (Returns (s', p)) /\
     heap_ok s' /\
     allocated_block s' p (z + zn + MAX CHUNKSIZE (align_size size - (z + zn))) /\
     mem_brk s' = mem_brk s + MAX CHUNKSIZE (align_size size - (z + zn)) /\
     (forall a, p <= a < p + z - 16 -> mem s' a = mem s a) /\
     (forall q zq, allocated_block s q zq -> q <> p ->
        allocated_block s' q zq /\
        (forall a, q <= a < q + zq - 16 -> mem s' a = mem s a))).
Proof.
  intros (B & L & Hrep & Hc & HBp) Hn Hend Hf Hsz Hlt. pose proof Hrep as [Hlay _].
  pose proof (free_in _ _ _ _ _ Hrep Hn) as HBn.
  destruct (in_split _ _ HBp) as (B1 & B2 & EB). subst B.
  destruct (next_block_shape _ _ _ _ _ _ _ _ Hlay HBn) as (B2' & ->).
  assert (B2' = []) as ->.
  { apply (last_block_shape s (B1 ++ [(p, z, true)]) (p + z) zn false B2'); [|exact Hend].
    rewrite <- app_assoc. exact Hlay. }
  pose proof (layout_block _ _ _ _ _ Hlay HBp) as Hp.
  pose proof (layout_block _ _ _ _ _ Hlay HBn) as Hnn.
  destruct (realloc_extend_spec fuel s B1 p z [(p + z, zn, false)] zn L size Hrep Hc Hf
              ltac:(right; reflexivity) Hsz Hlt)
    as [H|(Hroom & s' & L' & E & Hrep' & Hc' & Hbrk & Hpf)]; [left; exact H|].
  right. split; [exact Hroom|]. exists s'. split; [exact E|].
  pose proof (MAX_cases CHUNKSIZE (align_size size - (z + zn))) as HM.
  destruct (realloc_result s s' B1 p z [(p + z, zn, false)]
              (z + zn + MAX CHUNKSIZE (align_size size - (z + zn))) [] L L' Hrep
              ltac:(intros x [<-|[]]; reflexivity)
              ltac:(consts; lia) Hrep' Hc' Hpf) as (H1 & H2 & H3 & H4).
  split; [exact H1|]. split; [exact H2|]. split; [exact Hbrk|]. split; assumption.
Qed.
(** Writing inside the payload of an allocated block keeps the heap
    description. *)
Lemma heap_rep_payload_write s m' B L r rz :
  heap_rep s B L -> In (r, rz, true) B ->
  (forall a, a < r \/ r + rz - 16 <= a -> m' a = mem s a) ->
  heap_rep (set_mem s m') B L.
Proof.
  intros Hrep Hin Hout. pose proof Hrep as [Hlay _].
  destruct (in_split _ _ Hin) as (Ba & Bb & ->).
  destruct (layout_in_mid _ _ _ _ _ _ Hlay) as (_ & Hc1 & Hc2).
  pose proof (layout_block _ _ _ _ _ Hlay Hin) as Hb.
  apply (region_retag s (set_mem s m') Ba [(r, rz, true)] [(r, rz, true)] Bb L
           r (r + rz)); try assumption.
  - apply same_region_set_mem.
  - cbn [chain]. consts. repeat split; lia.
  - cbn [chain]. consts. repeat split; lia.
  - intros a Ha. apply Hout. lia.
  - intros b z al [E|[]]. injection E as <- <- <-.
    destruct (lay_tags _ _ Hlay r rz true Hin) as [H1 H2]. cbn [mem set_mem].
    split.
    + rewrite <- H1. apply GET_ext. intros a Ha. apply Hout. consts. lia.
    + rewrite <- H2. apply GET_ext. intros a Ha. apply Hout. consts. lia.
  - intros b z al [E|[]]. injection E as <- _ _.
    apply (allocated_unlisted _ _ _ _ _ Hrep Hin).
Qed.

(** For a request of [0 < size <= 2^64 - 56] bytes: when the block after
    [p] is allocated, the block is too small, and [mm_malloc] can serve the
    request (the scan finds a candidate, or the region can grow),
    [mm_realloc] moves the data: it returns another allocated block, large
    enough, whose first bytes are the payload of the block at [p]; the old
    block has become free space; the heap is consistent and the other
    allocated blocks keep their place and payload. *)
Theorem mm_realloc_moves fuel s p z zn size :
  allocated_block s p z -> allocated_block s (p + z) zn ->
  enough_fuel s fuel ->
  0 < size <= 2 ^ 64 - 56 -> z < align_size size ->
  find_fit (Z.to_nat LISTSIZE) s 0 (align_size (align_size size)) <> NULL \/
  mem_brk s + MAX (align_size (align_size size)) CHUNKSIZE <= mem_max_addr s ->
  exists s' r rz,
    mm_realloc fuel s p size = Some (Returns (s', r)) /\ r <> NULL /\ r <> p /\
    heap_ok s' /\ allocated_block s' r rz /\
    align_size (align_size size) <= rz /\
    (forall i, 0 <= i < z - 16 -> mem s' (r + i) = mem s (p + i)) /\
    (exists b zb, free_block s' b zb /\ b <= p /\ p + z <= b + zb) /\
    (forall q zq, allocated_block s q zq -> q <> p ->
       allocated_block s' q zq /\
       (forall a, q <= a < q + zq - 16 -> mem s' a = mem s a)).
Proof.
  intros (B & L & Hrep & Hc & HBp) Hn Hf Hsz Hlt Hroom. pose proof Hrep as [Hlay _].
  pose proof (allocated_in _ _ _ _ _ Hrep Hn) as HBn.
  pose proof (layout_range _ _ Hlay) as Hr.
  pose proof (layout_block _ _ _ _ _ Hlay HBp) as Hp.
  pose proof (layout_block _ _ _ _ _ Hlay HBn) as Hnn.
  destruct (realloc_flags _ _ _ _ _ _ _ Hlay HBp HBn) as (Hh & Hs & Hnx & Hhn & Hsn & Han).
  destruct (align_size_spec size ltac:(lia)) as (Ha1 & Ha2 & Ha3 & Ha4).
  set (asz := align_size size) in *.
  destruct (align_size_spec asz ltac:(lia)) as (Hb1 & Hb2 & Hb3 & Hb4).
  assert (Epre : mm_realloc fuel s p size = realloc_move fuel s p asz).
  { unfold mm_realloc. replace (size =? 0) with false by lia. cbv zeta.
    fold asz. rewrite Hh, Hs, Hnx, Hhn, Hsn, Han.
    replace (z >=? asz) with false by lia.
    unfold lnot, truth. cbn [Z.eqb negb orb].
    replace (zn =? 0) with false by lia. reflexivity. }
  rewrite Epre. unfold realloc_move.
  destruct (mm_malloc_spec fuel s B L asz Hrep Hc Hf ltac:(lia))
    as [(Hnf & Hnr & _)|(_ & s1 & r & rz & B1 & L1 & E1 & Hr0 & Hrep1 & Hc1 & HBr &
                          Hrz & Hpf1 & Hal1 & Rhp & Rlo & Rmax & Rbrk & Hnew & _)].
  { exfalso. destruct Hroom as [H|H]; [now apply H|lia]. }
  rewrite E1. cbn [bind]. pose proof Hrep1 as [Hlay1 _].
  assert (HBp1 : In (p, z, true) B1) by (apply Hal1; now right).
  destruct (rd_block _ _ _ _ _ Hlay1 HBp1) as (_ & Hs1 & _).
  rewrite Hh, Hs1.
  pose proof (layout_block _ _ _ _ _ Hlay1 HBr) as Hrb.
  assert (Hrp : r <> p) by (intros ->; apply (Hnew z HBp)).
  unfold memcpy. replace (r =? NULL) with false by (unfold NULL in *; lia).
  cbn [andb]. cbv zeta.
  set (s2 := set_mem s1 (copy_bytes (mem s1) r p z)).
  assert (Hrep2 : heap_rep s2 B1 L1).
  { apply (heap_rep_payload_write s1 _ B1 L1 r rz Hrep1 HBr).
    intros a Ha. unfold copy_bytes.
    replace ((r <=? a) && (a <? r + z)) with false; [reflexivity|].
    symmetry. apply andb_false_iff. lia. }
  destruct (in_split _ _ HBp1) as (Ba & Bb & EB1). subst B1.
  assert (Hf2 : enough_fuel s2 fuel).
  { apply (enough_fuel_eq s); [exact Rmax|exact Rlo|exact Hf]. }
  destruct (mm_free_spec fuel s2 Ba p z Bb L1 Hrep2 Hc1 Hf2)
    as (s3 & B3 & L3 & bf & zf & E3 & Hreg3 & Hrep3 & Hc3 & Hpf3 & Hal3 & HBf & Hf1 & Hf3 & _).
  fold s2. rewrite E3. cbn [bind].
  assert (Hkeep : forall q zq, In (q, zq, true) (Ba ++ (p, z, true) :: Bb) -> q <> p ->
                    In (q, zq, true) B3 /\ In (q, zq, true) (Ba ++ (p, z, false) :: Bb)).
  { intros q zq H Hne. apply in_app_or in H.
    destruct H as [H|[E|H]]; [| injection E as -> _; congruence |].
    - split; [apply Hal3; now left|apply in_or_app; now left].
    - split; [apply Hal3; now right|apply in_or_app; right; now right]. }
  exists s3, r, rz. split; [reflexivity|]. split; [exact Hr0|]. split; [exact Hrp|].
  split; [now exists B3, L3|]. split.
  { exists B3, L3. split; [exact Hrep3|]. split; [exact Hc3|].
    apply (Hkeep r rz HBr Hrp). }
  split; [exact Hrz|]. split.
  { intros i Hi.
    rewrite (Hpf3 r rz (r + i) (proj2 (Hkeep r rz HBr Hrp)) ltac:(consts; lia)).
    unfold s2. cbn [mem set_mem]. unfold copy_bytes.
    replace ((r <=? r + i) && (r + i <? r + z)) with true
      by (symmetry; apply andb_true_iff; lia).
    replace (p + (r + i - r)) with (p + i) by lia.
    apply (Hpf1 p z (p + i) HBp). consts. lia. }
  split.
  { exists bf, zf. split; [|split; assumption].
    exists B3, L3. split; [exact Hrep3|]. split; assumption. }
  intros q zq Hq Hne. pose proof (allocated_in _ _ _ _ _ Hrep Hq) as HBq.
  assert (HBq1 : In (q, zq, true) (Ba ++ (p, z, true) :: Bb)) by (apply Hal1; now right).
  destruct (Hkeep q zq HBq1 Hne) as [HB3 HBf'].
  split; [exists B3, L3; split; [exact Hrep3|]; split; assumption|].
  intros a Ha.
  rewrite (Hpf3 q zq a HBf' ltac:(consts; lia)).
  unfold s2. cbn [mem set_mem]. unfold copy_bytes.
  pose proof (layout_block _ _ _ _ _ Hlay1 HBq1) as Hqb.
  destruct (chain_sep _ _ _ _ _ _ _ _ _ (lay_chain _ _ Hlay1) HBq1 HBr) as [E|Hsep].
  { injection E as -> ->. exfalso. apply (Hnew rz HBq). }
  replace ((r <=? a) && (a <? r + z)) with false
    by (symmetry; apply andb_false_iff; lia).
  apply (Hpf1 q zq a HBq). consts. lia.
Qed.
Lemma arena_gap_run :
  exists s, mm_free 1000 (fst arena_two) 1272 = Some s /\ heap_ok s.
Proof.
  destruct arena_two_first as (B & L & Hrep & Hc & HB).
  destruct (in_split _ _ HB) as (B1 & B2 & ->).
  destruct (mm_free_spec 1000 _ B1 1272 32 B2 L Hrep Hc arena_two_fuel)
    as (s' & B' & L' & _ & _ & E & _ & Hrep' & Hc' & _).
  exists s'. split; [exact E|]. exists B', L'. split; assumption.
Qed.

Lemma arena_gap_eq : mm_free 1000 (fst arena_two) 1272 = Some arena_gap.
Proof.
  destruct arena_gap_run as (s & E & _). unfold arena_gap. rewrite E. reflexivity.
Qed.

Lemma arena_gap_ok : heap_ok arena_gap.
Proof.
  destruct arena_gap_run as (s & E & H). unfold arena_gap. rewrite E. exact H.
Qed.

Lemma arena_gap_fuel : enough_fuel arena_gap 1000.
Proof. by_eval. Qed.

Lemma arena_gap_block : allocated_block arena_gap 1240 32.
Proof.
  destruct (walked_block arena_gap 1000 1240 32 1 arena_gap_ok) as [[_ H]|[C _]];
    [by_eval|by_eval|exact H|discriminate C].
Qed.

Lemma arena_gap_free : free_block arena_gap 1272 32.
Proof.
  destruct (walked_block arena_gap 1000 1272 32 0 arena_gap_ok) as [[C _]|[_ H]];
    [by_eval|by_eval|discriminate C|exact H].
Qed.

Lemma mm_realloc_absorbs_witness :
  exists s', mm_realloc 1000 arena_gap 1240 40 = Some (Returns (s', 1240)) /\
    heap_ok s' /\ allocated_block s' 1240 (32 + 32) /\
    mem_brk s' = mem_brk arena_gap /\
    (forall a, 1240 <= a < 1240 + 32 - 16 -> mem s' a = mem arena_gap a) /\
    (forall q zq, allocated_block arena_gap q zq -> q <> 1240 ->
       allocated_block s' q zq /\
       (forall a, q <= a < q + zq - 16 -> mem s' a = mem arena_gap a)).
Proof.
  apply (mm_realloc_absorbs 1000 arena_gap 1240 32 32 40 arena_gap_block arena_gap_free);
    [lia|split; by_eval].
Defined.

Lemma mm_realloc_extends_last_witness :
  (mem_max_addr (fst arena_two) <
     mem_brk (fst arena_two) + MAX CHUNKSIZE (align_size 100 - 32) /\
   mm_realloc 1000 (fst arena_two) 1272 100 = Some (Returns (fst arena_two, NULL))) \/
  (mem_brk (fst arena_two) + MAX CHUNKSIZE (align_size 100 - 32) <=
     mem_max_addr (fst arena_two) /\
   exists s', mm_realloc 1000 (fst arena_two) 1272 100 = Some (Returns (s', 1272)) /\
     heap_ok s' /\
     allocated_block s' 1272 (32 + MAX CHUNKSIZE (align_size 100 - 32)) /\
     mem_brk s' = mem_brk (fst arena_two) + MAX CHUNKSIZE (align_size 100 - 32) /\
     (forall a, 1272 <= a < 1272 + 32 - 16 -> mem s' a = mem (fst arena_two) a) /\
     (forall q zq, allocated_block (fst arena_two) q zq -> q <> 1272 ->
        allocated_block s' q zq /\
        (forall a, q <= a < q + zq - 16 -> mem s' a = mem (fst arena_two) a))).
Proof.
  apply (mm_realloc_extends_last 1000 (fst arena_two) 1272 32 100 arena_two_first);
    [by_eval|exact arena_two_fuel|lia|by_eval].
Defined.

Lemma mm_realloc_extends_free_witness :
  (mem_max_addr arena_gap <
     mem_brk arena_gap + MAX CHUNKSIZE (align_size 100 - (32 + 32)) /\
   mm_realloc 1000 arena_gap 1240 100 = Some (Returns (arena_gap, NULL))) \/
  (mem_brk arena_gap + MAX CHUNKSIZE (align_size 100 - (32 + 32)) <=
     mem_max_addr arena_gap /\
   exists s', mm_realloc 1000 arena_gap 1240 100 = Some (Returns (s', 1240)) /\
     heap_ok s' /\
     allocated_block s' 1240 (32 + 32 + MAX CHUNKSIZE (align_size 100 - (32 + 32))) /\
     mem_brk s' = mem_brk arena_gap + MAX CHUNKSIZE (align_size 100 - (32 + 32)) /\
     (forall a, 1240 <= a < 1240 + 32 - 16 -> mem s' a = mem arena_gap a) /\
     (forall q zq, allocated_block arena_gap q zq -> q <> 1240 ->
        allocated_block s' q zq /\
        (forall a, q <= a < q + zq - 16 -> mem s' a = mem arena_gap a))).
Proof.
  apply (mm_realloc_extends_free 1000 arena_gap 1240 32 32 100
           arena_gap_block arena_gap_free);
    [by_eval|exact arena_gap_fuel|lia|by_eval].
Defined.

Lemma mm_realloc_moves_witness :
  exists s' r rz,
    mm_realloc 1000 (fst arena_two) 1240 100 = Some (Returns (s', r)) /\ r <> NULL /\ r <> 1240 /\
    heap_ok s' /\ allocated_block s' r rz /\
    align_size (align_size 100) <= rz /\
    (forall i, 0 <= i < 32 - 16 -> mem s' (r + i) = mem (fst arena_two) (1240 + i)) /\
    (exists b zb, free_block s' b zb /\ b <= 1240 /\ 1240 + 32 <= b + zb) /\
    (forall q zq, allocated_block (fst arena_two) q zq -> q <> 1240 ->
       allocated_block s' q zq /\
       (forall a, q <= a < q + zq - 16 -> mem s' a = mem (fst arena_two) a)).
Proof.
  apply (mm_realloc_moves 1000 (fst arena_two) 1240 32 32 100
           arena_two_second arena_two_first arena_two_fuel);
    [lia|by_eval|right; by_eval].
Defined.

(** ** [mm_check] on a consistent heap *)

Lemma total_app f l1 l2 : total f (l1 ++ l2) = total f l1 + total f l2.
Proof. induction l1 as [|x l1 IH]; cbn [app total]; lia. Qed.

Lemma total_nonneg f l : (forall x, In x l -> 0 <= f x) -> 0 <= total f l.
Proof.
  induction l as [|x l IH]; intros H; cbn [total]; [lia|].
  pose proof (H x (or_introl eq_refl)). pose proof (IH (fun y Hy => H y (or_intror Hy))).
  lia.
Qed.

Lemma total_perm f l l' : Permutation l l' -> total f l = total f l'.
Proof. induction 1; cbn [total]; lia. Qed.

Lemma total_length l : total (fun _ => 1) l = Z.of_nat (length l).
Proof. induction l as [|x l IH]; cbn [total length]; lia. Qed.

Lemma free_entries_in B b z : In (b, z) (free_entries B) <-> In (b, z, false) B.
Proof.
  induction B as [|[[b' z'] [|]] B IH]; cbn [free_entries In].
  - tauto.
  - rewrite IH. split; [tauto|]. intros [E|H]; [discriminate E|exact H].
  - rewrite IH. split; (intros [E|H]; [left; congruence|now right]).
Qed.

Lemma free_entries_NoDup B : forall p e, chain p B e -> NoDup (free_entries B).
Proof.
  induction B as [|[[b z] al] B IH]; intros p e Hc; cbn [free_entries].
  - constructor.
  - cbn [chain] in Hc. destruct Hc as (-> & Hz & _ & Hc).
    destruct al; [now apply (IH _ _ Hc)|]. constructor; [|now apply (IH _ _ Hc)].
    intros Hin. apply free_entries_in in Hin.
    pose proof (chain_in _ _ _ _ _ _ Hc Hin). consts. lia.
Qed.

Lemma free_entries_length B : (length (free_entries B) <= length B)%nat.
Proof.
  induction B as [|[[b z] [|]] B IH]; cbn [free_entries length]; lia.
Qed.

(** The blocks of a chain fill it. *)
Lemma chain_bytes B : forall p e,
  chain p B e -> allocated_bytes B + total snd (free_entries B) = e - p.
Proof.
  induction B as [|[[b z] al] B IH]; intros p e Hc; cbn [chain] in Hc.
  - cbn. lia.
  - destruct Hc as (-> & _ & _ & Hc). apply IH in Hc.
    destruct al; cbn [allocated_bytes free_entries total snd]; lia.
Qed.

Lemma filter_all {A} (f : A -> bool) l :
  (forall x, In x l -> f x = true) -> filter f l = l.
Proof.
  induction l as [|x l IH]; intros H; cbn [filter]; [reflexivity|].
  rewrite (H x (or_introl eq_refl)). f_equal. apply IH. intros y Hy. apply H. now right.
Qed.

Lemma filter_none {A} (f : A -> bool) l :
  (forall x, In x l -> f x = false) -> filter f l = [].
Proof.
  induction l as [|x l IH]; intros H; cbn [filter]; [reflexivity|].
  rewrite (H x (or_introl eq_refl)). apply IH. intros y Hy. apply H. now right.
Qed.

(** A class and the classes above it. *)
Lemma total_filter_split f (E : list (Z * Z)) k n :
  0 <= n ->
  total f (filter (fun x => index_of (snd x) =? k) E) +
  total f (filter (fun x => (k + 1 <=? index_of (snd x)) &&
                            (index_of (snd x) <? k + 1 + n)) E) =
  total f (filter (fun x => (k <=? index_of (snd x)) &&
                            (index_of (snd x) <? k + (1 + n))) E).
Proof.
  intros Hn. induction E as [|x E IH]; cbn [filter total]; [lia|].
  destruct (Z.eqb_spec (index_of (snd x)) k), (Z.leb_spec (k + 1) (index_of (snd x))),
    (Z.ltb_spec (index_of (snd x)) (k + 1 + n)), (Z.leb_spec k (index_of (snd x))),
    (Z.ltb_spec (index_of (snd x)) (k + (1 + n))); cbn [andb total]; lia.
Qed.

(** The lists hold the free blocks of their class, once each. *)
Lemma class_perm s B L i :
  heap_rep s B L -> complete B L -> 0 <= i < 16 ->
  Permutation (L i) (filter (fun x => index_of (snd x) =? i) (free_entries B)).
Proof.
  intros [Hlay Hl] Hc Hi. destruct (Hl i Hi) as (_ & _ & He & Hnd & _).
  apply NoDup_Permutation.
  - apply (NoDup_map_inv fst). exact Hnd.
  - apply NoDup_filter. apply (free_entries_NoDup _ _ _ (lay_chain _ _ Hlay)).
  - intros [b z]. rewrite filter_In, free_entries_in. cbn [snd]. split.
    + intros H. destruct (He b z H) as [HB Hidx]. split; [exact HB|]. now apply Z.eqb_eq.
    + intros [HB Hidx]. apply Z.eqb_eq in Hidx. rewrite <- Hidx. now apply Hc.
Qed.

Lemma listed_total s B L f :
  heap_rep s B L -> complete B L ->
  forall n k, 0 <= k -> k + Z.of_nat n <= 16 ->
    total f (listed L n k) =
    total f (filter (fun x => (k <=? index_of (snd x)) &&
                              (index_of (snd x) <? k + Z.of_nat n)) (free_entries B)).
Proof.
  intros Hrep Hc. induction n as [|n IH]; intros k Hk Hn.
  - cbn [listed total]. rewrite filter_none; [reflexivity|].
    intros x _. destruct (Z.leb_spec k (index_of (snd x))),
      (Z.ltb_spec (index_of (snd x)) (k + Z.of_nat 0)); cbn [andb]; try reflexivity; lia.
  - cbn [listed]. rewrite total_app. rewrite (IH (k + 1)) by lia.
    rewrite (total_perm f _ _ (class_perm s B L k Hrep Hc ltac:(lia))).
    rewrite total_filter_split by lia. replace (k + (1 + Z.of_nat n)) with (k + Z.of_nat (S n)) by lia.
    reflexivity.
Qed.

(** Summed over the sixteen lists, a quantity is what it is over the free
    blocks of the heap. *)
Lemma listed_all s B L f :
  heap_rep s B L -> complete B L ->
  total f (listed L 16 0) = total f (free_entries B).
Proof.
  intros Hrep Hc. rewrite (listed_total s B L f Hrep Hc 16 0) by lia.
  rewrite filter_all; [reflexivity|]. intros x _.
  pose proof (index_of_range (snd x)). change (Z.of_nat 16) with 16.
  apply andb_true_iff. split; [apply Z.leb_le|apply Z.ltb_lt]; lia.
Qed.

Lemma check_list_unfold fuel m bp count fre :
  check_list fuel m bp count fre =
  if GET_ALLOC m (HDRP bp) =? 1 then Some None
  else if SUCC_BLKP m bp =? NULL
       then Some (Some (s32 (count + 1), u64 (fre + GET_SIZE m (HDRP bp))))
       else match fuel with
            | O => None
            | S fuel' => check_list fuel' m (SUCC_BLKP m bp) (s32 (count + 1))
                           (u64 (fre + GET_SIZE m (HDRP bp)))
            end.
Proof. destruct fuel; reflexivity. Qed.

Lemma check_list_rep m : forall l b z prev count fre fuel,
  dlist m prev (map fst ((b, z) :: l)) 0 ->
  (forall b' z', In (b', z') ((b, z) :: l) ->
     0 < b' < 2 ^ 64 - 8 /\ GET_SIZE m (HDRP b') = z' /\
     GET_ALLOC m (HDRP b') = 0 /\ 0 <= z') ->
  (length l <= fuel)%nat ->
  0 <= count -> count + 1 + Z.of_nat (length l) < 2 ^ 31 ->
  0 <= fre -> fre + z + total snd l < 2 ^ 64 ->
  check_list fuel m b count fre =
  Some (Some (count + 1 + Z.of_nat (length l), fre + z + total snd l)).
Proof.
  induction l as [|[b2 z2] l IH]; intros b z prev count fre fuel Hd He Hf Hc0 Hc1 Hf0 Hf1;
    destruct (He b z (or_introl eq_refl)) as (Hb & Hz & Ha & Hz0);
    rewrite check_list_unfold, Ha, Hz; cbn [Z.eqb];
    cbn [map fst dlist] in Hd; destruct Hd as (_ & Hs & Hd);
    unfold SUCC_BLKP; rewrite (u64_small (b + WSIZE)) by (consts; lia); rewrite Hs.
  - cbn [hd Z.eqb NULL length total] in *. unfold NULL. cbn [Z.eqb].
    rewrite s32_small by lia. rewrite u64_small by lia.
    do 3 f_equal; lia.
  - cbn [hd]. destruct (He b2 z2 (or_intror (or_introl eq_refl))) as (Hb2 & _).
    replace (b2 =? NULL) with false by (unfold NULL; lia).
    destruct fuel as [|fuel]; [cbn in Hf; lia|].
    assert (Ht : 0 <= total snd l).
    { apply total_nonneg. intros [b' z'] H. cbn [snd].
      apply (He b' z'). right. now right. }
    destruct (He b2 z2 (or_intror (or_introl eq_refl))) as (_ & _ & _ & Hz2).
    cbn [length total snd] in *.
    rewrite s32_small by lia. rewrite u64_small by lia.
    rewrite (IH b2 z2 b (count + 1) (fre + z) fuel); try lia.
    + do 3 f_equal; lia.
    + cbn [map fst dlist]. exact Hd.
    + intros b' z' H. apply He. now right.
Qed.

Lemma check_lists_rep s B L fuel :
  heap_rep s B L ->
  (forall i, 0 <= i < 16 -> (length (L i) <= S fuel)%nat) ->
  forall n k count fre,
    0 <= k -> k + Z.of_nat n <= 16 ->
    0 <= count -> count + Z.of_nat (length (listed L n k)) < 2 ^ 31 ->
    0 <= fre -> fre + total snd (listed L n k) < 2 ^ 64 ->
    check_lists n fuel s k count fre =
    Some (Some (count + Z.of_nat (length (listed L n k)),
                fre + total snd (listed L n k))).
Proof.
  intros Hrep Hlen. pose proof Hrep as [Hlay Hl].
  pose proof (layout_range _ _ Hlay) as Hr.
  assert (Hent : forall i, 0 <= i < 16 -> forall b z, In (b, z) (L i) ->
            0 < b < 2 ^ 64 - 8 /\ GET_SIZE (mem s) (HDRP b) = z /\
            GET_ALLOC (mem s) (HDRP b) = 0 /\ 0 <= z).
  { intros i Hi b z Hin. destruct (Hl i Hi) as (_ & _ & He & _).
    destruct (He b z Hin) as [HB _].
    pose proof (layout_block _ _ _ _ _ Hlay HB).
    destruct (rd_block _ _ _ _ _ Hlay HB) as (E & Hz & Ha & _).
    rewrite E. repeat split; try assumption; lia. }
  assert (Hnn : forall n k, 0 <= k -> k + Z.of_nat n <= 16 ->
            0 <= total snd (listed L n k)).
  { induction n as [|n IH]; intros k Hk Hn; cbn [listed total]; [lia|].
    rewrite total_app. pose proof (IH (k + 1) ltac:(lia) ltac:(lia)).
    assert (0 <= total snd (L k)); [|lia].
    apply total_nonneg. intros [b z] H0. cbn [snd]. apply (Hent k ltac:(lia) b z H0). }
  induction n as [|n IH]; intros k count fre Hk Hn Hc0 Hc1 Hf0 Hf1.
  - cbn [check_lists listed length total]. do 3 f_equal; lia.
  - cbn [check_lists listed] in Hc1, Hf1 |- *.
    rewrite length_app in Hc1 |- *. rewrite total_app in Hf1 |- *.
    pose proof (Hnn n (k + 1) ltac:(lia) ltac:(lia)) as Hrest.
    destruct (Hl k ltac:(consts; lia)) as (Hh & Hd & _).
    rewrite slot_eq by lia. rewrite Hh.
    pose proof (Hent k ltac:(lia)) as Hek. pose proof (Hlen k ltac:(lia)) as Hlk.
    destruct (L k) as [|[b z] l].
    + cbn [map hd Z.eqb negb app length total] in *.
      rewrite (IH (k + 1) count fre) by lia. do 3 f_equal; lia.
    + cbn [map fst hd app length total snd] in *.
      destruct (Hek b z (or_introl eq_refl)) as (Hb & _ & _ & Hz0).
      replace (b =? 0) with false by lia. cbn [negb].
      assert (Ht : 0 <= total snd l).
      { apply total_nonneg. intros [b' z'] H. cbn [snd]. apply (Hek b' z'). now right. }
      rewrite (check_list_rep (mem s) l b z 0 count fre fuel Hd Hek); try lia.
      cbn [bind].
      rewrite (IH (k + 1) (count + 1 + Z.of_nat (length l)) (fre + z + total snd l)) by lia.
      do 3 f_equal; lia.
Qed.

Lemma check_walk_unfold fuel s bp count consec pld fre :
  check_walk fuel s bp count consec pld fre =
  if u64 bp <? mem_heap_hi s then
    match fuel with
    | O => None
    | S fuel' =>
        let free := GET_ALLOC (mem s) (HDRP bp) =? 0 in
        let count := if free then s32 (count - 1) else count in
        let consec := if free then s32 (consec + 1) else consec in
        let fre := if free then u64 (fre + GET_SIZE (mem s) (HDRP bp)) else fre in
        let pld := if free then pld else u64 (pld + GET_SIZE (mem s) (HDRP bp)) in
        if consec >=? 2 then Some None
        else check_walk fuel' s (NEXT_BLKP (mem s) bp) count (s32 (consec - 1))
                        pld fre
    end
  else Some (Some (count, pld, fre)).
Proof. destruct fuel; reflexivity. Qed.

(** One step of the walk over a well-tagged block. *)
Lemma check_walk_step fuel s bp z (al : bool) count consec pld fre :
  8 <= bp -> bp + z <= mem_brk s -> mem_brk s < 2 ^ 64 -> 16 <= z -> z mod 8 = 0 ->
  GET (mem s) (bp - 8) = tag z al ->
  consec <= 0 -> - 2 ^ 31 < consec - 1 -> - 2 ^ 31 < count - 1 -> count < 2 ^ 31 ->
  0 <= pld -> 0 <= fre -> pld + fre + z < 2 ^ 64 ->
  check_walk (S fuel) s bp count consec pld fre =
  check_walk fuel s (bp + z) (if al then count else count - 1)
    (if al then consec - 1 else consec)
    (if al then pld + z else pld) (if al then fre else fre + z).
Proof.
  intros Hb Hlt Hbrk Hz Hm Ht Hc0 Hc1 Hn0 Hn1 Hp Hf Hsum.
  rewrite check_walk_unfold. unfold mem_heap_hi.
  rewrite (u64_small bp) by lia. rewrite (u64_small (mem_brk s - 1)) by lia.
  replace (bp <? mem_brk s - 1) with true by lia.
  rewrite HDRP_eq by lia.
  rewrite (tag_size _ _ z al Ht ltac:(lia) Hm), (tag_alloc _ _ z al Ht Hm).
  assert (En : NEXT_BLKP (mem s) bp = bp + z).
  { unfold NEXT_BLKP. unfold WSIZE. rewrite (u64_small (bp - 8)) by lia.
    rewrite (tag_size _ _ z al Ht ltac:(lia) Hm). apply u64_small. lia. }
  rewrite En. destruct al; cbv beta zeta.
  - change (1 =? 0) with false. cbv iota.
    replace (consec >=? 2) with false by lia.
    rewrite (s32_small (consec - 1)) by lia. rewrite u64_small by lia. reflexivity.
  - change (0 =? 0) with true. cbv iota.
    rewrite (s32_small (consec + 1)) by lia.
    replace (consec + 1 >=? 2) with false by lia.
    rewrite (s32_small (count - 1)) by lia.
    rewrite (s32_small (consec + 1 - 1)) by lia. rewrite u64_small by lia.
    replace (consec + 1 - 1) with consec by lia. reflexivity.
Qed.

Ltac same_tally :=
  apply (f_equal Some); apply (f_equal Some);
  apply (f_equal2 pair); [apply (f_equal2 pair)|]; lia.

Lemma check_walk_rep s : forall B bp count consec pld fre fuel,
  chain bp B (mem_brk s) -> tags_ok (mem s) B ->
  8 <= bp -> mem_brk s < 2 ^ 64 ->
  (length B <= fuel)%nat ->
  consec <= 0 -> - 2 ^ 31 < consec - Z.of_nat (length B) ->
  - 2 ^ 31 < count - Z.of_nat (length B) -> count < 2 ^ 31 ->
  0 <= pld -> 0 <= fre -> pld + fre + (mem_brk s - bp) < 2 ^ 64 ->
  check_walk fuel s bp count consec pld fre =
  Some (Some (count - Z.of_nat (length (free_entries B)),
              pld + allocated_bytes B, fre + total snd (free_entries B))).
Proof.
  induction B as [|[[b z] al] B IH];
    intros bp count consec pld fre fuel Hc Ht Hb Hbrk Hf Hc0 Hc1 Hn0 Hn1 Hp Hfr Hsum.
  - cbn [chain] in Hc. subst bp. rewrite check_walk_unfold. unfold mem_heap_hi.
    rewrite (u64_small (mem_brk s)) by lia. rewrite (u64_small (mem_brk s - 1)) by lia.
    replace (mem_brk s <? mem_brk s - 1) with false by lia.
    cbn [free_entries length allocated_bytes total]. same_tally.
  - cbn [chain] in Hc. destruct Hc as (-> & Hz & Hm & Hc).
    pose proof (chain_le _ _ _ Hc) as Hle.
    destruct (Ht bp z al (or_introl eq_refl)) as [Hh _].
    destruct fuel as [|fuel]; [cbn in Hf; lia|].
    cbn [length] in Hf, Hc1, Hn0.
    pose proof (free_entries_length B) as Hfl.
    assert (Htot : 0 <= total snd (free_entries B) /\ 0 <= allocated_bytes B).
    { pose proof (chain_bytes _ _ _ Hc) as Hsum'.
      assert (0 <= total snd (free_entries B)).
      { apply total_nonneg. intros [b' z'] H. cbn [snd]. apply free_entries_in in H.
        pose proof (chain_in _ _ _ _ _ _ Hc H). lia. }
      split; [assumption|].
      clear - Hc. revert Hc. generalize (bp + z). induction B as [|[[b' z'] al'] B IHB];
        intros p Hc; cbn [allocated_bytes]; [lia|].
      cbn [chain] in Hc. destruct Hc as (_ & Hz' & _ & Hc). apply IHB in Hc.
      consts. destruct al'; lia. }
    rewrite (check_walk_step fuel s bp z al); consts; try lia; try exact Hh.
    rewrite (IH (bp + z)); try assumption; try (destruct al; lia).
    + destruct al; cbn [free_entries length allocated_bytes total snd]; same_tally.
    + intros b' z' al' H. apply Ht. now right.
Qed.

(** On a consistent heap every test of [mm_check] passes: the checker
    returns 1.  The count of listed blocks and the count of free blocks met
    by the walk cancel, the two sums of free bytes agree, and the sum of all
    bytes is the size of the heap. *)
Theorem mm_check_accepts fuel s :
  heap_ok s -> enough_fuel s fuel -> mm_check (S fuel) s = Some 1.
Proof.
  intros (B & L & Hrep & Hc) Hf. pose proof Hrep as [Hlay Hl].
  pose proof (layout_range _ _ Hlay) as Hr.
  pose proof (lay_chain _ _ Hlay) as Hch. pose proof (chain_length _ _ _ Hch) as Hlen.
  pose proof (chain_bytes _ _ _ Hch) as Hbytes.
  pose proof (free_entries_length B) as Hfl.
  assert (HlenB : (length B <= fuel)%nat).
  { unfold enough_fuel in Hf. consts.
    assert (Z.of_nat (length B) <= (mem_max_addr s - mem_heap s) / 32); [|lia].
    apply Z.div_le_lower_bound; lia. }
  assert (Hfree0 : 0 <= total snd (free_entries B)).
  { apply total_nonneg. intros [b z] H. cbn [snd]. apply free_entries_in in H.
    pose proof (layout_block _ _ _ _ _ Hlay H). lia. }
  assert (Halloc0 : 0 <= allocated_bytes B).
  { clear - Hch. revert Hch. generalize (heap_ptr s + DSIZE).
    induction B as [|[[b z] al] B IHB]; intros p Hc; cbn [allocated_bytes]; [lia|].
    cbn [chain] in Hc. destruct Hc as (_ & Hz & _ & Hc). apply IHB in Hc.
    consts. destruct al; lia. }
  pose proof (listed_all s B L (fun _ => 1) Hrep Hc) as Hcount.
  rewrite !total_length in Hcount.
  pose proof (listed_all s B L snd Hrep Hc) as Hsize.
  destruct (lay_pro _ _ Hlay) as [Hpro _]. pose proof (lay_epi _ _ Hlay) as Hepi.
  unfold DSIZE, WSIZE in Hpro, Hepi, Hch, Hbytes, Hlen.
  assert (Hlists : check_lists (Z.to_nat LISTSIZE) (S fuel) s 0 0 0 =
            Some (Some (Z.of_nat (length (free_entries B)), total snd (free_entries B)))).
  { rewrite (check_lists_rep s B L (S fuel) Hrep); change (Z.to_nat LISTSIZE) with 16%nat;
      try (rewrite ?Hcount, ?Hsize; lia); try (rewrite Hcount, Hsize; reflexivity).
    intros i Hi. pose proof (fuel_covers _ _ _ _ _ Hrep Hf Hi). lia. }
  assert (Hwalk : check_walk (S fuel) s (heap_ptr s)
                    (Z.of_nat (length (free_entries B))) 0 0 0 =
            Some (Some (0, 16 + allocated_bytes B, total snd (free_entries B)))).
  { rewrite (check_walk_step fuel s (heap_ptr s) 16 true); try lia; try exact Hpro;
      try reflexivity.
    rewrite (check_walk_rep s B); try assumption; try lia;
      try apply (lay_tags _ _ Hlay).
    same_tally. }
  unfold mm_check. rewrite HDRP_eq by lia.
  rewrite (tag_size _ _ 16 true Hpro ltac:(lia) eq_refl).
  rewrite (tag_alloc _ _ 16 true Hpro eq_refl).
  unfold mem_heap_hi, mem_heapsize. rewrite (u64_small (mem_brk s - 1)) by lia.
  unfold WSIZE at 1 2. replace (mem_brk s - 1 - 8 + 1) with (mem_brk s - 8) by lia.
  rewrite (u64_small (mem_brk s - 8)) by lia.
  rewrite (tag_size _ _ 0 true Hepi ltac:(lia) eq_refl).
  rewrite (tag_alloc _ _ 0 true Hepi eq_refl).
  change (negb (16 =? DSIZE) || truth (lnot 1)) with false.
  change (negb (0 =? 0) || truth (lnot 1)) with false. cbv iota.
  rewrite Hlists. cbn [bind]. rewrite Hwalk. cbn [bind].
  change (0 <? 0) with false. change (0 >? 0) with false. cbv iota.
  rewrite Z.eqb_refl. cbn [negb].
  rewrite (u64_small (total snd (free_entries B) + (16 + allocated_bytes B))) by lia.
  consts. rewrite u64_small by lia. rewrite (u64_small (mem_brk s - mem_heap s)) by lia.
  replace (_ >? _) with false by lia. reflexivity.
Qed.

Lemma mm_check_accepts_witness : mm_check (S 1000) (fst arena_two) = Some 1.
Proof. apply (mm_check_accepts 1000 (fst arena_two) arena_two_ok arena_two_fuel). Defined.

(** ** Neighbouring free blocks in the walk *)

Lemma adjacent_free_cons (x y : Z * Z * Z) l :
  adjacent_free (x :: y :: l) =
  ((snd x =? 0) && (snd y =? 0)) || adjacent_free (y :: l).
Proof. destruct x as [[? ?] ?], y as [[? ?] ?]. reflexivity. Qed.

Lemma adjacent_free_words B :
  adjacent_free (map block_words B) = negb (coalesced B).
Proof.
  induction B as [|[[b z] a] B IH]; [reflexivity|].
  destruct B as [|[[b2 z2] a2] B]; [reflexivity|].
  cbn [map]. rewrite adjacent_free_cons.
  change (block_words (b2, z2, a2) :: map block_words B)
    with (@map block _ block_words (@cons block (b2, z2, a2) B)).
  rewrite IH. unfold coalesced. cbn [map snd block_words].
  change (no_free_pair (a :: a2 :: map snd B))
    with ((a || a2) && no_free_pair (a2 :: map snd B)).
  destruct (no_free_pair (a2 :: map snd B)), a, a2; reflexivity.
Qed.

Lemma chain_empty B : forall p, chain p B p -> B = [].
Proof.
  destruct B as [|[[b z] a] B]; [reflexivity|]. cbn [chain].
  intros p (_ & Hz & _ & Hc). apply chain_le in Hc. consts. lia.
Qed.

(** ** What a verdict of 1 certifies *)

Lemma list_walk_unfold fuel m bp :
  list_walk (S fuel) m bp =
  if bp =? NULL then []
  else (bp, GET_SIZE m (HDRP bp)) :: list_walk fuel m (SUCC_BLKP m bp).
Proof. reflexivity. Qed.

Lemma check_list_sound m : forall fuel bp count fre r,
  check_list fuel m bp count fre = Some (Some r) -> bp <> 0 ->
  forall b z, In (b, z) (list_walk (S fuel) m bp) -> GET_ALLOC m (HDRP b) <> 1.
Proof.
  induction fuel as [|fuel IH]; intros bp count fre r H Hbp b z Hin;
    rewrite check_list_unfold in H;
    destruct (GET_ALLOC m (HDRP bp) =? 1) eqn:Ha; try discriminate H;
    apply Z.eqb_neq in Ha;
    rewrite list_walk_unfold in Hin;
    replace (bp =? NULL) with false in Hin by (unfold NULL; lia).
  - destruct Hin as [E|[]]. injection E as <- _. exact Ha.
  - destruct Hin as [E|Hin]; [injection E as <- _; exact Ha|].
    destruct (SUCC_BLKP m bp =? NULL) eqn:Hs.
    + apply Z.eqb_eq in Hs. rewrite Hs in Hin. rewrite list_walk_unfold in Hin.
      change (NULL =? NULL) with true in Hin. destruct Hin.
    + apply Z.eqb_neq in Hs. apply (IH _ _ _ _ H Hs b z Hin).
Qed.

Lemma check_lists_sound s fuel : forall n k count fre r,
  check_lists n fuel s k count fre = Some (Some r) ->
  forall i, k <= i < k + Z.of_nat n ->
  forall b z, In (b, z) (class_list (S fuel) s i) -> GET_ALLOC (mem s) (HDRP b) <> 1.
Proof.
  induction n as [|n IH]; intros k count fre r H i Hi b z Hin; [lia|].
  cbn [check_lists] in H.
  destruct (GET (mem s) (freelists s k) =? 0) eqn:Hh; cbn [negb] in H.
  - destruct (Z.eq_dec i k) as [->|Hne].
    + apply Z.eqb_eq in Hh. unfold class_list in Hin. rewrite Hh in Hin.
      rewrite list_walk_unfold in Hin. change (0 =? NULL) with true in Hin. destruct Hin.
    + apply (IH _ _ _ _ H i ltac:(lia) b z Hin).
  - apply Z.eqb_neq in Hh.
    destruct (check_list fuel (mem s) (GET (mem s) (freelists s k)) count fre)
      as [[[c1 f1]|]|] eqn:Hl; cbn [bind] in H; try discriminate H.
    destruct (Z.eq_dec i k) as [->|Hne].
    + apply (check_list_sound _ _ _ _ _ _ Hl Hh b z Hin).
    + apply (IH _ _ _ _ H i ltac:(lia) b z Hin).
Qed.

(** When [mm_check] returns 1: the prologue header holds size 16 and a set
    allocated bit, the word before the break holds size 0 and a set
    allocated bit, no block on any class list is marked allocated, the
    blocks counted on the lists and the free blocks counted by the walk
    cancel exactly, both sums of free bytes agree, and free bytes, other
    bytes and the 144 bytes of the index do not exceed the heap size; on a
    heap laid out by [mm_init] they equal it. *)
Theorem mm_check_sound fuel s :
  mm_check fuel s = Some 1 ->
  GET_SIZE (mem s) (HDRP (heap_ptr s)) = DSIZE /\
  GET_ALLOC (mem s) (HDRP (heap_ptr s)) <> 0 /\
  GET_SIZE (mem s) (u64 (mem_heap_hi s - WSIZE + 1)) = 0 /\
  GET_ALLOC (mem s) (u64 (mem_heap_hi s - WSIZE + 1)) <> 0 /\
  (forall i b z, 0 <= i < LISTSIZE -> In (b, z) (class_list (S fuel) s i) ->
     GET_ALLOC (mem s) (HDRP b) <> 1) /\
  exists n fre pld,
    check_lists (Z.to_nat LISTSIZE) fuel s 0 0 0 = Some (Some (n, fre)) /\
    check_walk fuel s (heap_ptr s) n 0 0 0 = Some (Some (0, pld, fre)) /\
    u64 (u64 (fre + pld) + (LISTSIZE + 2) * WSIZE) <= mem_heapsize s /\
    (0 <= mem_heap s -> heap_ptr s = mem_heap s + (LISTSIZE + 2) * WSIZE ->
     heap_ptr s <= mem_brk s < 2 ^ 64 -> (mem_brk s - mem_heap s) mod WSIZE = 0 ->
     u64 (u64 (fre + pld) + (LISTSIZE + 2) * WSIZE) = mem_heapsize s).
Proof.
  unfold mm_check. intros H.
  destruct (GET_SIZE (mem s) (HDRP (heap_ptr s)) =? DSIZE) eqn:H1;
    [|cbn [negb orb] in H; discriminate H].
  destruct (GET_ALLOC (mem s) (HDRP (heap_ptr s)) =? 0) eqn:H2.
  { apply Z.eqb_eq in H2. rewrite H2 in H. cbn in H. discriminate H. }
  assert (Ht : truth (lnot (GET_ALLOC (mem s) (HDRP (heap_ptr s)))) = false).
  { unfold lnot. rewrite H2. reflexivity. }
  rewrite Ht in H. cbn [negb orb] in H.
  destruct (GET_SIZE (mem s) (u64 (mem_heap_hi s - WSIZE + 1)) =? 0) eqn:H3;
    [|cbn [negb orb] in H; discriminate H].
  destruct (GET_ALLOC (mem s) (u64 (mem_heap_hi s - WSIZE + 1)) =? 0) eqn:H4.
  { apply Z.eqb_eq in H4. rewrite H4 in H. cbn in H. discriminate H. }
  assert (Ht' : truth (lnot (GET_ALLOC (mem s) (u64 (mem_heap_hi s - WSIZE + 1)))) = false).
  { unfold lnot. rewrite H4. reflexivity. }
  rewrite Ht' in H. cbn [negb orb] in H.
  destruct (check_lists (Z.to_nat LISTSIZE) fuel s 0 0 0) as [[[n fre]|]|] eqn:Hl;
    cbn [bind] in H; try discriminate H.
  destruct (check_walk fuel s (heap_ptr s) n 0 0 0) as [[[[n' pld] fre']|]|] eqn:Hw;
    cbn [bind] in H; try discriminate H.
  destruct (n' <? 0) eqn:Hn1; [discriminate H|].
  destruct (n' >? 0) eqn:Hn2; [discriminate H|].
  destruct (fre =? fre') eqn:Hf; [|discriminate H]. cbn [negb] in H.
  destruct (u64 (u64 (fre + pld) + (LISTSIZE + 2) * WSIZE) >? mem_heapsize s) eqn:Hgt;
    [discriminate H|].
  apply Z.eqb_eq in H1, H3, Hf. apply Z.eqb_neq in H2, H4. subst fre'.
  assert (n' = 0) as -> by lia.
  split; [exact H1|]. split; [exact H2|]. split; [exact H3|]. split; [exact H4|].
  split.
  { intros i b z Hi. apply (check_lists_sound s fuel _ _ _ _ _ Hl i).
    change (Z.of_nat (Z.to_nat LISTSIZE)) with LISTSIZE. lia. }
  exists n, fre, pld. split; [reflexivity|]. split; [exact Hw|]. split; [lia|].
  intros Hlo Hhp Hbrk Hmod.
  pose proof (check_walk_total _ _ _ _ _ _ Hlo Hhp Hbrk Hmod Hw). lia.
Qed.

Lemma mm_check_sound_witness :
  GET_SIZE (mem arena_gap) (HDRP (heap_ptr arena_gap)) = DSIZE /\
  GET_ALLOC (mem arena_gap) (HDRP (heap_ptr arena_gap)) <> 0 /\
  GET_SIZE (mem arena_gap) (u64 (mem_heap_hi arena_gap - WSIZE + 1)) = 0 /\
  GET_ALLOC (mem arena_gap) (u64 (mem_heap_hi arena_gap - WSIZE + 1)) <> 0 /\
  (forall i b z, 0 <= i < LISTSIZE -> In (b, z) (class_list (S 1000) arena_gap i) ->
     GET_ALLOC (mem arena_gap) (HDRP b) <> 1) /\
  exists n fre pld,
    check_lists (Z.to_nat LISTSIZE) 1000 arena_gap 0 0 0 = Some (Some (n, fre)) /\
    check_walk 1000 arena_gap (heap_ptr arena_gap) n 0 0 0 = Some (Some (0, pld, fre)) /\
    u64 (u64 (fre + pld) + (LISTSIZE + 2) * WSIZE) <= mem_heapsize arena_gap /\
    (0 <= mem_heap arena_gap ->
     heap_ptr arena_gap = mem_heap arena_gap + (LISTSIZE + 2) * WSIZE ->
     heap_ptr arena_gap <= mem_brk arena_gap < 2 ^ 64 ->
     (mem_brk arena_gap - mem_heap arena_gap) mod WSIZE = 0 ->
     u64 (u64 (fre + pld) + (LISTSIZE + 2) * WSIZE) = mem_heapsize arena_gap).
Proof. apply (mm_check_sound 1000 arena_gap). by_eval. Defined.

(** ** Block addresses *)

Lemma chain_aligned B : forall p e b z a,
  chain p B e -> In (b, z, a) B -> (b - p) mod 8 = 0.
Proof.
  induction B as [|[[b0 z0] a0] B IH]; intros p e b z a Hc Hin; [destruct Hin|].
  cbn [chain] in Hc. destruct Hc as (-> & _ & Hm & Hc).
  destruct Hin as [E|Hin].
  - injection E as <- _ _. now rewrite Z.sub_diag.
  - pose proof (IH _ _ _ _ _ Hc Hin) as H.
    replace (b - p) with ((b - (p + z0)) + z0) by lia. apply mod8_add; assumption.
Qed.

(** ** [coalesce] between two free blocks *)

(** [mm_free] up to [coalesce]: the block is free and listed, its
    neighbours are as they were. *)
Lemma mm_free_listed_spec fuel s B1 bp z B2 L :
  heap_rep s (B1 ++ (bp, z, true) :: B2) L ->
  complete (B1 ++ (bp, z, true) :: B2) L ->
  enough_fuel s fuel ->
  exists s' L',
    mm_free_listed fuel s bp = Some s' /\ same_region s s' /\
    heap_rep s' (B1 ++ (bp, z, false) :: B2) L' /\
    complete (B1 ++ (bp, z, false) :: B2) L'.
Proof.
  set (B := B1 ++ (bp, z, true) :: B2).
  intros Hrep Hcomp Hfuel. pose proof Hrep as [Hlay _].
  pose proof (layout_range _ _ Hlay) as Hr.
  destruct (layout_in_mid _ _ _ _ _ _ Hlay) as (HBb & _). fold B in HBb.
  pose proof (layout_block _ _ _ _ _ Hlay HBb) as Hb.
  destruct (rd_block _ _ _ _ _ Hlay HBb) as (Hh_b & Hs_b & _).
  pose proof (allocated_unlisted _ _ _ _ _ Hrep HBb) as Hun.
  unfold mm_free_listed. rewrite Hh_b, Hs_b. cbv zeta. rewrite PACK_0.
  assert (Ht : tag z false = z) by (unfold tag; lia).
  assert (Hft : FTRP (mem (put s (bp - 8) z)) bp = bp + z - 16).
  { unfold FTRP. rewrite Hh_b, mem_put.
    rewrite (tag_size _ _ z false); [consts; apply u64_small; lia| |lia|tauto].
    rewrite GET_PUT_same, Ht. apply u64_small. lia. }
  rewrite Hft.
  destruct (retag_one s B1 bp z true false B2 L Hrep Hun) as [Hrep2 Hf2].
  cbv zeta in Hrep2, Hf2. rewrite Ht in Hrep2, Hf2.
  set (s2 := put (put s (bp - 8) z) (bp + z - 16) z) in *.
  assert (Hw2 : wip s2 (B1 ++ (bp, z, false) :: B2) L [bp]).
  { split; [exact Hrep2|]. split.
    - apply (complete_except_retag B1 [(bp, z, true)] [(bp, z, false)] B2
               L [] [bp] _ _ (lay_chain _ _ Hlay)); [now apply complete_iff| |].
      + intros b z0 [E|[]]. injection E as <- _. now left.
      + intros x [].
    - intros x [<-|[]]. exact Hun. }
  destruct (wip_add fuel _ _ _ _ _ _ Hw2 Hfuel) as (s3 & L3 & E3 & R3 & Hrep3 & Hc3 & _).
  exists s3, L3. split; [exact E3|]. split; [|split; assumption].
  apply (same_region_trans _ s2); [repeat split|exact R3].
Qed.

Lemma arena_mid_run :
  exists s, mm_free_listed 1000 arena_gap 1240 = Some s /\ heap_ok s.
Proof.
  destruct arena_gap_block as (B & L & Hrep & Hc & HB).
  destruct (in_split _ _ HB) as (B1 & B2 & ->).
  destruct (mm_free_listed_spec 1000 _ B1 1240 32 B2 L Hrep Hc arena_gap_fuel)
    as (s' & L' & E & _ & Hrep' & Hc').
  exists s'. split; [exact E|]. exists (B1 ++ (1240, 32, false) :: B2), L'.
  split; assumption.
Qed.

Lemma arena_mid_ok : heap_ok arena_mid.
Proof.
  destruct arena_mid_run as (s & E & H). unfold arena_mid. rewrite E. exact H.
Qed.

Lemma arena_mid_fuel : enough_fuel arena_mid 1000.
Proof. by_eval. Qed.

Lemma arena_mid_block : free_block arena_mid 1240 32.
Proof.
  destruct (walked_block arena_mid 1000 1240 32 0 arena_mid_ok) as [[C _]|[_ H]];
    [by_eval|by_eval|discriminate C|exact H].
Qed.

Lemma arena_mid_before : free_block arena_mid 1160 80.
Proof.
  destruct (walked_block arena_mid 1000 1160 80 0 arena_mid_ok) as [[C _]|[_ H]];
    [by_eval|by_eval|discriminate C|exact H].
Qed.

Lemma arena_mid_after : free_block arena_mid 1272 32.
Proof.
  destruct (walked_block arena_mid 1000 1272 32 0 arena_mid_ok) as [[C _]|[_ H]];
    [by_eval|by_eval|discriminate C|exact H].
Qed.

Lemma coalesce_merges_witness :
  free_block arena_mid 1160 80 /\ free_block arena_mid 1272 32 /\
  exists s' bp' sz',
    coalesce 1000 arena_mid 1240 = Some (s', bp') /\ heap_ok s' /\
    free_block s' bp' sz' /\ bp' <= 1160 /\ 1272 + 32 <= bp' + sz'.
Proof.
  split; [exact arena_mid_before|]. split; [exact arena_mid_after|].
  destruct (coalesce_merges 1000 arena_mid 1240 32 arena_mid_block arena_mid_fuel)
    as (s' & bp' & sz' & E & Hok & Hfree & _ & _ & Hnext & Hprev & _).
  exists s', bp', sz'. split; [exact E|]. split; [exact Hok|]. split; [exact Hfree|].
  split.
  - apply (Hprev 1160 80 arena_mid_before). reflexivity.
  - apply (Hnext 32 arena_mid_after).
Defined.
(** ** The reachable states: the invariant *)

Lemma filter_other_in (live : list (Z * Z)) p q n :
  In (q, n) (filter (fun x => negb (fst x =? p)) live) <-> In (q, n) live /\ q <> p.
Proof.
  rewrite filter_In. cbn [fst]. rewrite negb_true_iff, Z.eqb_neq. tauto.
Qed.

Lemma filter_other_NoDup (live : list (Z * Z)) p :
  NoDup (map fst live) -> NoDup (map fst (filter (fun x => negb (fst x =? p)) live)).
Proof.
  induction live as [|[q n] live IH]; intros H; cbn [filter map fst]; [constructor|].
  inversion H as [|? ? Hn Hd]; subst.
  destruct (negb (q =? p)); [|now apply IH].
  cbn [map fst]. constructor; [|now apply IH].
  intros Hin. apply Hn. apply in_map_iff in Hin. destruct Hin as ([q' n'] & E & Hin).
  cbn [fst] in E. subst q'. apply filter_other_in in Hin.
  apply in_map_iff. exists (q, n'). split; [reflexivity|tauto].
Qed.

(** The invariant of the reachable states: a consistent heap without
    neighbouring free blocks, in which every live request has an allocated
    block of its own with room for it. *)
Lemma reachable_rep fuel s live :
  reachable fuel s live ->
  exists B L, heap_rep s B L /\ complete B L /\ coalesced B = true /\
              enough_fuel s fuel /\ NoDup (map fst live) /\
              forall p n, In (p, n) live -> exists z, In (p, z, true) B /\ n + 16 <= z.
Proof.
  induction 1 as [s0 s Hbrk Hlo Hroom Hsmall Htop Hfuel Hinit
                 |s live size s' r _ IH Hsz Hm Hr
                 |s live size s' _ IH Hsz Hm
                 |s live p n s' _ IH Hp Hfr].
  - destruct (mm_init_spec fuel s0 Hbrk Hlo ltac:(consts; lia) Hsmall Htop Hfuel)
      as (s1 & E & _ & Rlo & Rmax & Rbrk & (B & L & Hrep & Hc & HB)).
    rewrite E in Hinit. injection Hinit as <-.
    pose proof Hrep as [Hlay _]. pose proof (layout_range _ _ Hlay) as Hr.
    destruct (in_split _ _ HB) as (Ba & Bb & ->).
    destruct (layout_in_mid _ _ _ _ _ _ Hlay) as (_ & Hc1 & _).
    assert (Ba = []) as ->.
    { apply (chain_empty Ba (mem_heap s0 + 160)).
      replace (heap_ptr s1 + 16) with (mem_heap s0 + 160) in Hc1 by lia. exact Hc1. }
    assert (Bb = []) as -> by (apply (last_block_shape _ _ _ _ _ _ Hlay); lia).
    exists [(mem_heap s0 + 160, 144, false)], L.
    split; [exact Hrep|]. split; [exact Hc|]. split; [reflexivity|].
    split; [apply (enough_fuel_eq s0); assumption|].
    split; [constructor|]. intros p n [].
  - destruct IH as (B & L & Hrep & Hc & Hco & Hf & Hnd & Hlive).
    assert (Hpos : 0 < size).
    { destruct (Z.eq_dec size 0) as [->|]; [|lia]. exfalso.
      unfold mm_malloc in Hm. change (0 =? 0) with true in Hm. cbv iota in Hm.
      injection Hm as _ <-. now apply Hr. }
    destruct (align_size_spec size ltac:(lia)) as (_ & Ha & _).
    destruct (mm_malloc_spec fuel s B L size Hrep Hc Hf ltac:(lia))
      as [(_ & _ & E)|(_ & s1 & r1 & rz & B' & L' & E & _ & Hrep' & Hc' & Hin & Hrz & _ &
                       Hal & _ & Rlo & Rmax & _ & Hfresh & Hco')];
      rewrite E in Hm; injection Hm as <- <-; [now contradiction Hr|].
    exists B', L'. split; [exact Hrep'|]. split; [exact Hc'|].
    split; [now apply Hco'|]. split; [apply (enough_fuel_eq s); assumption|].
    split.
    + cbn [map fst]. constructor; [|exact Hnd].
      intros Hi. apply in_map_iff in Hi. destruct Hi as ([q n] & E' & Hi).
      cbn [fst] in E'. subst q. destruct (Hlive _ _ Hi) as (z & Hz & _).
      apply (Hfresh z Hz).
    + intros p n [E'|Hi].
      * injection E' as <- <-. exists rz. split; [exact Hin|lia].
      * destruct (Hlive _ _ Hi) as (z & Hz & Hn). exists z. split; [|exact Hn].
        apply Hal. now right.
  - destruct IH as (B & L & Hrep & Hc & Hco & Hf & Hnd & Hlive).
    destruct (Z.eq_dec size 0) as [->|Hne].
    + unfold mm_malloc in Hm. change (0 =? 0) with true in Hm. cbv iota in Hm.
      injection Hm as <-. now exists B, L.
    + destruct (mm_malloc_spec fuel s B L size Hrep Hc Hf ltac:(lia))
        as [(_ & _ & E)|(_ & s1 & r1 & rz & B' & L' & E & Hr1 & _)];
        rewrite E in Hm.
      * injection Hm as <-. now exists B, L.
      * injection Hm as _ E'. now contradiction Hr1.
  - destruct IH as (B & L & Hrep & Hc & Hco & Hf & Hnd & Hlive).
    destruct (Hlive _ _ Hp) as (z & HB & _).
    destruct (in_split _ _ HB) as (B1 & B2 & ->).
    destruct (mm_free_spec fuel s B1 p z B2 L Hrep Hc Hf)
      as (s1 & B' & L' & _ & _ & E & Hreg & Hrep' & Hc' & _ & Hal & _ & _ & _ & Hco').
    rewrite E in Hfr. injection Hfr as <-.
    exists B', L'. split; [exact Hrep'|]. split; [exact Hc'|].
    split; [now apply Hco'|]. split; [apply (enough_fuel_region s); assumption|].
    split; [now apply filter_other_NoDup|].
    intros q m Hq. apply filter_other_in in Hq. destruct Hq as [Hq Hne].
    destruct (Hlive _ _ Hq) as (zq & Hzq & Hm). exists zq. split; [|exact Hm].
    apply Hal. apply in_app_or in Hzq.
    destruct Hzq as [H|[H|H]]; [now left| |now right].
    injection H as -> _. now contradiction Hne.
Qed.

(** Every state reached by [mm_init] followed by any calls of [mm_malloc]
    with a size of at most [2^64 - 24] and of [mm_free] on live blocks is a
    consistent heap in which no two neighbouring blocks are both free: the
    walk over the blocks, read from memory, never meets a free block right
    after a free block. *)
Theorem reachable_coalesced fuel s live :
  reachable fuel s live ->
  heap_ok s /\ adjacent_free (heap_walk (S fuel) s (heap_ptr s + 16)) = false.
Proof.
  intros H. destruct (reachable_rep fuel s live H) as (B & L & Hrep & Hc & Hco & Hf & _).
  split; [now exists B, L|]. destruct Hrep as [Hlay _].
  rewrite (layout_walk s B (S fuel) Hlay); [|unfold enough_fuel in Hf; lia].
  rewrite adjacent_free_words, Hco. reflexivity.
Qed.

(** What the blocks of a state are, read from memory. *)
Lemma reachable_walk fuel s live :
  reachable fuel s live ->
  exists B L, heap_rep s B L /\ complete B L /\
    heap_walk (S fuel) s (heap_ptr s + 16) = map block_words B /\
    (forall i, 0 <= i < 16 -> class_list (S fuel) s i = L i) /\
    forall p n, In (p, n) live -> exists z, In (p, z, true) B /\ n + 16 <= z.
Proof.
  intros H. destruct (reachable_rep fuel s live H) as (B & L & Hrep & Hc & _ & Hf & _ & Hl).
  exists B, L. split; [exact Hrep|]. split; [exact Hc|]. split; [|split; [|exact Hl]].
  - destruct Hrep as [Hlay _].
    apply (layout_walk s B (S fuel) Hlay). unfold enough_fuel in Hf. lia.
  - intros i Hi. apply (class_list_rep_S s B L i fuel Hrep Hf Hi).
Qed.

Lemma block_words_in (B : list block) b z (a : bool) :
  In (b, z, if a then 1 else 0) (map block_words B) <-> In (b, z, a) B.
Proof.
  rewrite in_map_iff. split.
  - intros ([[b' z'] a'] & E & H). cbn [block_words] in E.
    injection E as -> -> E. destruct a, a'; try discriminate E; exact H.
  - intros H. exists (b, z, a). split; [reflexivity|exact H].
Qed.

(** In every reachable state each class list, read from its head slot
    along the successor words, is sorted by size and names no block twice;
    every entry is a block of the heap, marked free, of the size the list
    reads and in the class of that size. *)
Theorem class_lists_sorted fuel s live i :
  reachable fuel s live -> 0 <= i < LISTSIZE ->
  ascending (class_list (S fuel) s i) = true /\
  NoDup (map fst (class_list (S fuel) s i)) /\
  (forall b z, In (b, z) (class_list (S fuel) s i) ->
     In (b, z, 0) (heap_walk (S fuel) s (heap_ptr s + 16)) /\
     GET_ALLOC (mem s) (HDRP b) = 0 /\ index_of z = i).
Proof.
  intros H Hi. destruct (reachable_walk fuel s live H) as (B & L & Hrep & _ & Hw & Hcl & _).
  rewrite (Hcl i ltac:(consts; lia)), Hw. destruct Hrep as [Hlay Hl].
  destruct (Hl i Hi) as (_ & _ & He & Hnd & Ha).
  split; [exact Ha|]. split; [exact Hnd|].
  intros b z Hin. destruct (He b z Hin) as [HB Hidx].
  split; [now apply (block_words_in B b z false)|]. split; [|exact Hidx].
  destruct (rd_block _ _ _ _ _ Hlay HB) as (E & _ & Hal & _). now rewrite E.
Qed.

(** In every reachable state each free block of the heap is on the class
    list that [index_of] assigns to its size. *)
Theorem free_block_listed fuel s live b z :
  reachable fuel s live ->
  In (b, z, 0) (heap_walk (S fuel) s (heap_ptr s + 16)) ->
  In (b, z) (class_list (S fuel) s (index_of z)).
Proof.
  intros H Hin. destruct (reachable_walk fuel s live H) as (B & L & Hrep & Hc & Hw & Hcl & _).
  rewrite (Hcl _ (index_of_range z)). apply Hc.
  rewrite Hw in Hin. now apply (block_words_in B b z false).
Qed.

(** In every reachable state the live requests have blocks of their own:
    no pointer is live twice; the block of each is marked allocated, lies
    between the prologue and the break, and has room for the size asked
    for between header and footer; and the blocks of two live requests do
    not overlap, tags included. *)
Theorem live_blocks_disjoint fuel s live :
  reachable fuel s live ->
  NoDup (map fst live) /\
  (forall p n, In (p, n) live ->
     GET_ALLOC (mem s) (HDRP p) = 1 /\
     n + 16 <= GET_SIZE (mem s) (HDRP p) /\
     heap_ptr s + 16 <= p /\ p + GET_SIZE (mem s) (HDRP p) <= mem_brk s) /\
  (forall p n q m, In (p, n) live -> In (q, m) live -> p <> q ->
     p + GET_SIZE (mem s) (HDRP p) <= q \/ q + GET_SIZE (mem s) (HDRP q) <= p).
Proof.
  intros H. destruct (reachable_rep fuel s live H) as (B & L & Hrep & _ & _ & _ & Hnd & Hl).
  destruct Hrep as [Hlay _].
  assert (Hrd : forall p n, In (p, n) live ->
            exists z, In (p, z, true) B /\ n + 16 <= z /\
                      GET_SIZE (mem s) (HDRP p) = z /\ GET_ALLOC (mem s) (HDRP p) = 1).
  { intros p n Hp. destruct (Hl p n Hp) as (z & HB & Hn). exists z.
    destruct (rd_block _ _ _ _ _ Hlay HB) as (E & Hz & Ha & _). rewrite E. tauto. }
  split; [exact Hnd|]. split.
  - intros p n Hp. destruct (Hrd p n Hp) as (z & HB & Hn & -> & ->).
    pose proof (layout_block _ _ _ _ _ Hlay HB). repeat split; lia.
  - intros p n q m Hp Hq Hne.
    destruct (Hrd p n Hp) as (z & HB & _ & -> & _).
    destruct (Hrd q m Hq) as (zq & HBq & _ & -> & _).
    destruct (chain_sep _ _ _ _ _ _ _ _ _ (lay_chain _ _ Hlay) HB HBq) as [E|Hs].
    + injection E as -> _. now contradiction Hne.
    + exact Hs.
Qed.
(** ** Reachable states to run on *)

Lemma reachable_malloc_runs fuel s live size :
  reachable fuel s live -> 0 <= size <= 2 ^ 64 - 24 ->
  exists r, mm_malloc fuel s size = Some r.
Proof.
  intros H Hsz. destruct (reachable_rep fuel s live H) as (B & L & Hrep & Hc & _ & Hf & _).
  destruct (Z.eq_dec size 0) as [->|Hne]; [now exists (s, NULL)|].
  destruct (mm_malloc_spec fuel s B L size Hrep Hc Hf ltac:(lia))
    as [(_ & _ & E)|(_ & s1 & r1 & _ & _ & _ & E & _)]; rewrite E; eauto.
Qed.

Lemma reachable_free_runs fuel s live p n :
  reachable fuel s live -> In (p, n) live -> exists s', mm_free fuel s p = Some s'.
Proof.
  intros H Hp.
  destruct (reachable_rep fuel s live H) as (B & L & Hrep & Hc & _ & Hf & _ & Hl).
  destruct (Hl _ _ Hp) as (z & HB & _). destruct (in_split _ _ HB) as (B1 & B2 & ->).
  destruct (mm_free_spec fuel s B1 p z B2 L Hrep Hc Hf) as (s' & _ & _ & _ & _ & E & _).
  now exists s'.
Qed.

Lemma arena_reach : reachable 1000 arena [].
Proof.
  apply (reach_init 1000 (fresh 1000 30000) arena);
    [by_eval|by_eval|by_eval|by_eval|by_eval|by_eval|exact arena_init].
Qed.

Lemma arena_one_reach : reachable 1000 (fst arena_one) [(snd arena_one, 16)].
Proof.
  apply (reach_malloc 1000 arena [] 16 (fst arena_one) (snd arena_one) arena_reach);
    [lia| |by_eval].
  exact (eq_trans arena_one_eq (f_equal Some (surjective_pairing arena_one))).
Qed.

Lemma arena_two_reach :
  reachable 1000 (fst arena_two) [(snd arena_two, 16); (snd arena_one, 16)].
Proof.
  apply (reach_malloc 1000 (fst arena_one) _ 16 (fst arena_two) (snd arena_two)
           arena_one_reach); [lia| |by_eval].
  exact (eq_trans arena_two_eq (f_equal Some (surjective_pairing arena_two))).
Qed.

Lemma arena_gap_reach :
  reachable 1000 arena_gap
    (filter (fun x => negb (fst x =? 1272)) [(snd arena_two, 16); (snd arena_one, 16)]).
Proof.
  apply (reach_free 1000 (fst arena_two) _ 1272 16 arena_gap arena_two_reach);
    [|exact arena_gap_eq].
  right. left. by_eval.
Qed.

Lemma arena_big_eq : mm_malloc 1000 arena 32 = Some arena_big.
Proof.
  destruct (reachable_malloc_runs 1000 arena [] 32 arena_reach ltac:(lia)) as (r & E).
  unfold arena_big. rewrite E. reflexivity.
Qed.

Lemma arena_big_reach : reachable 1000 (fst arena_big) [(snd arena_big, 32)].
Proof.
  apply (reach_malloc 1000 arena [] 32 (fst arena_big) (snd arena_big) arena_reach);
    [lia| |by_eval].
  exact (eq_trans arena_big_eq (f_equal Some (surjective_pairing arena_big))).
Qed.

Lemma arena_big_small_eq : mm_malloc 1000 (fst arena_big) 16 = Some arena_big_small.
Proof.
  destruct (reachable_malloc_runs 1000 _ _ 16 arena_big_reach ltac:(lia)) as (r & E).
  unfold arena_big_small. rewrite E. reflexivity.
Qed.

Lemma arena_big_small_reach :
  reachable 1000 (fst arena_big_small)
    [(snd arena_big_small, 16); (snd arena_big, 32)].
Proof.
  apply (reach_malloc 1000 (fst arena_big) _ 16 (fst arena_big_small)
           (snd arena_big_small) arena_big_reach); [lia| |by_eval].
  exact (eq_trans arena_big_small_eq (f_equal Some (surjective_pairing arena_big_small))).
Qed.

Lemma arena_pair_eq :
  mm_free 1000 (fst arena_big_small) (snd arena_big) = Some arena_pair.
Proof.
  destruct (reachable_free_runs 1000 _ _ (snd arena_big) 32 arena_big_small_reach
              ltac:(right; left; reflexivity)) as (s' & E).
  unfold arena_pair. rewrite E. reflexivity.
Qed.

Lemma arena_pair_reach :
  reachable 1000 arena_pair
    (filter (fun x => negb (fst x =? snd arena_big))
       [(snd arena_big_small, 16); (snd arena_big, 32)]).
Proof.
  apply (reach_free 1000 (fst arena_big_small) _ (snd arena_big) 32 arena_pair
           arena_big_small_reach); [|exact arena_pair_eq].
  right. left. reflexivity.
Qed.

Lemma reachable_coalesced_witness :
  heap_ok arena_gap /\
  adjacent_free (heap_walk (S 1000) arena_gap (heap_ptr arena_gap + 16)) = false.
Proof. apply (reachable_coalesced 1000 arena_gap _ arena_gap_reach). Defined.

Lemma class_lists_sorted_witness :
  class_list (S 1000) arena_pair 1 = [(1256, 48); (1160, 64)] /\
  ascending (class_list (S 1000) arena_pair 1) = true /\
  NoDup (map fst (class_list (S 1000) arena_pair 1)) /\
  (forall b z, In (b, z) (class_list (S 1000) arena_pair 1) ->
     In (b, z, 0) (heap_walk (S 1000) arena_pair (heap_ptr arena_pair + 16)) /\
     GET_ALLOC (mem arena_pair) (HDRP b) = 0 /\ index_of z = 1).
Proof.
  split; [by_eval|].
  apply (class_lists_sorted 1000 arena_pair _ 1 arena_pair_reach). unfold LISTSIZE. lia.
Defined.

Lemma free_block_listed_witness :
  In (1160, 64) (class_list (S 1000) arena_pair (index_of 64)).
Proof.
  apply (free_block_listed 1000 arena_pair _ 1160 64 arena_pair_reach). by_eval.
Defined.

Lemma live_blocks_disjoint_witness :
  NoDup (map fst [(snd arena_two, 16); (snd arena_one, 16)]) /\
  (forall p n, In (p, n) [(snd arena_two, 16); (snd arena_one, 16)] ->
     GET_ALLOC (mem (fst arena_two)) (HDRP p) = 1 /\
     n + 16 <= GET_SIZE (mem (fst arena_two)) (HDRP p) /\
     heap_ptr (fst arena_two) + 16 <= p /\
     p + GET_SIZE (mem (fst arena_two)) (HDRP p) <= mem_brk (fst arena_two)) /\
  (forall p n q m, In (p, n) [(snd arena_two, 16); (snd arena_one, 16)] ->
     In (q, m) [(snd arena_two, 16); (snd arena_one, 16)] -> p <> q ->
     p + GET_SIZE (mem (fst arena_two)) (HDRP p) <= q \/
     q + GET_SIZE (mem (fst arena_two)) (HDRP q) <= p).
Proof. apply (live_blocks_disjoint 1000 (fst arena_two) _ arena_two_reach). Defined.

(** ** Alignment *)

(** A non-null result of [mm_malloc(size)], for [0 < size <= 2^64 - 24], is
    a multiple of 8 away from the start of the heap (payloads are aligned
    to the word when the region is), lies above the index and the prologue,
    and the [size] bytes from it end at or before the footer of its own
    block, which ends at or before the epilogue header. *)
Theorem mm_malloc_aligned fuel s size s' r :
  heap_ok s -> enough_fuel s fuel -> 0 < size <= 2 ^ 64 - 24 ->
  mm_malloc fuel s size = Some (s', r) -> r <> NULL ->
  (r - mem_heap s) mod 8 = 0 /\ mem_heap s + 160 <= r /\
  GET_ALLOC (mem s') (HDRP r) = 1 /\
  r + size <= FTRP (mem s') r /\ FTRP (mem s') r + 8 <= mem_brk s' - 8.
Proof.
  intros (B & L & Hrep & Hc) Hf Hsz Hm Hr.
  destruct (align_size_spec size ltac:(lia)) as (_ & Ha & _).
  destruct (mm_malloc_spec fuel s B L size Hrep Hc Hf Hsz)
    as [(_ & _ & E)|(_ & s1 & r1 & rz & B' & L' & E & _ & Hrep' & _ & Hin & Hrz & _ & _ &
                     Rhp & Rlo & _)];
    rewrite E in Hm; injection Hm as <- <-; [contradiction|].
  destruct Hrep' as [Hlay' _]. pose proof (layout_range _ _ Hlay') as Hr'.
  pose proof (layout_block _ _ _ _ _ Hlay' Hin) as Hb.
  pose proof (chain_aligned _ _ _ _ _ _ (lay_chain _ _ Hlay') Hin) as Hal.
  destruct (rd_block _ _ _ _ _ Hlay' Hin) as (Eh & _ & Eal & _ & Ef).
  rewrite Ef, Eh, Eal. split; [|repeat split; lia].
  replace (r1 - mem_heap s) with ((r1 - (heap_ptr s1 + DSIZE)) + 160) by (consts; lia).
  apply mod8_add; [exact Hal|reflexivity].
Qed.

Lemma mm_malloc_aligned_witness :
  (snd arena_two - mem_heap (fst arena_one)) mod 8 = 0 /\
  mem_heap (fst arena_one) + 160 <= snd arena_two /\
  GET_ALLOC (mem (fst arena_two)) (HDRP (snd arena_two)) = 1 /\
  snd arena_two + 16 <= FTRP (mem (fst arena_two)) (snd arena_two) /\
  FTRP (mem (fst arena_two)) (snd arena_two) + 8 <= mem_brk (fst arena_two) - 8.
Proof.
  apply (mm_malloc_aligned 1000 (fst arena_one) 16 (fst arena_two) (snd arena_two)
           arena_one_ok arena_one_fuel); [lia| |by_eval].
  exact (eq_trans arena_two_eq (f_equal Some (surjective_pairing arena_two))).
Defined.
(** ** The candidate of [mm_malloc] and the growth of the heap *)

(** Two free blocks that end at the same address are one block. *)
Lemma free_block_end_unique s q zq q' zq' :
  free_block s q zq -> free_block s q' zq' -> q + zq = q' + zq' ->
  q = q' /\ zq = zq'.
Proof.
  intros (B & L & Hrep & _ & HB) H' He. pose proof Hrep as [Hlay _].
  pose proof (free_in _ _ _ _ _ Hrep H') as HB'.
  pose proof (layout_block _ _ _ _ _ Hlay HB).
  pose proof (layout_block _ _ _ _ _ Hlay HB').
  destruct (chain_sep _ _ _ _ _ _ _ _ _ (lay_chain _ _ Hlay) HB HB') as [E|Hs].
  - injection E as -> ->. split; reflexivity.
  - lia.
Qed.

(** When no class head qualifies: [extend_heap] is asked for
    [MAX asz CHUNKSIZE] bytes; if the region has them, what comes back is
    the new space merged with the free block that ended the heap, if there
    was one, and that block is the one handed to [place]. *)
Lemma malloc_growth fuel s size :
  0 < size -> heap_ok s -> enough_fuel s fuel ->
  find_fit (Z.to_nat LISTSIZE) s 0 (align_size size) = NULL ->
  (mem_max_addr s < mem_brk s + MAX (align_size size) CHUNKSIZE /\
   mm_malloc fuel s size = Some (s, NULL)) \/
  (mem_brk s + MAX (align_size size) CHUNKSIZE <= mem_max_addr s /\
   exists s1 bp1 sz1,
     extend_heap fuel s (MAX (align_size size) CHUNKSIZE) = Some (s1, bp1) /\
     bp1 <> NULL /\ heap_ok s1 /\ free_block s1 bp1 sz1 /\
     bp1 + sz1 = mem_brk s1 /\
     mem_brk s1 = mem_brk s + MAX (align_size size) CHUNKSIZE /\
     ((bp1 = mem_brk s /\ sz1 = MAX (align_size size) CHUNKSIZE /\
       forall q zq, free_block s q zq -> q + zq <> mem_brk s) \/
      (exists pz, free_block s bp1 pz /\ bp1 + pz = mem_brk s /\
                  sz1 = pz + MAX (align_size size) CHUNKSIZE)) /\
     mm_malloc fuel s size = place fuel s1 bp1 (align_size size) /\
     (size <= 2 ^ 64 - 24 ->
      exists s' r rz,
        mm_malloc fuel s size = Some (s', r) /\ heap_ok s' /\
        allocated_block s' r rz /\ bp1 <= r /\ r + rz <= bp1 + sz1)).
Proof.
  intros Hsize (B & L & Hrep & Hc) Hf Hnone. set (asz := align_size size) in *.
  pose proof Hrep as [Hlay _]. pose proof (layout_range _ _ Hlay) as Hr.
  assert (Hmx : 32 <= MAX asz CHUNKSIZE <= 2 ^ 64 - 8 /\ MAX asz CHUNKSIZE mod 8 = 0 /\
                asz <= MAX asz CHUNKSIZE).
  { pose proof (align_size_bound size) as Hab. fold asz in Hab.
    pose proof (align_size_mod size) as Ham. fold asz in Ham. unfold ALIGNMENT in Ham.
    destruct (MAX_cases asz CHUNKSIZE) as [[-> H]|[-> H]]; consts.
    - split; [lia|]. split; [exact Ham|lia].
    - split; [lia|]. split; [reflexivity|lia]. }
  destruct Hmx as (Hm1 & Hm2 & Hm3).
  assert (Emm : mm_malloc fuel s size =
                '(s1, bp) <- extend_heap fuel s (MAX asz CHUNKSIZE) ;;
                if bp =? NULL then Some (s1, NULL) else place fuel s1 bp asz).
  { unfold mm_malloc. replace (size =? 0) with false by lia. cbv zeta. fold asz.
    rewrite Hnone. rewrite Z.eqb_refl. reflexivity. }
  destruct (extend_heap_spec fuel s B L _ Hrep Hc Hf Hm1 Hm2)
    as [[Hfail E]|(Hfit & s1 & bp1 & sz1 & B1' & L1 & E & Rhp & Rlo & Rmax & Rbrk &
                   Hrep1 & Hc1 & _ & _ & Hsz1 & Hbp1 & Hend1 & Hsh1)].
  { left. split; [exact Hfail|]. rewrite Emm, E. reflexivity. }
  right. split; [exact Hfit|]. exists s1, bp1, sz1.
  pose proof Hrep1 as [Hlay1 _].
  destruct (layout_in_mid _ _ _ _ _ _ Hlay1) as (Hin1 & _).
  pose proof (layout_block _ _ _ _ _ Hlay1 Hin1) as Hb1.
  pose proof (layout_range _ _ Hlay1) as Hr1.
  assert (Hnz : bp1 <> NULL) by (unfold NULL; lia).
  split; [exact E|]. split; [exact Hnz|].
  split; [now exists (B1' ++ [(bp1, sz1, false)]), L1|].
  split; [exists (B1' ++ [(bp1, sz1, false)]), L1; tauto|].
  split; [lia|]. split; [exact Rbrk|]. split; [|split].
  - destruct Hsh1 as [(-> & -> & Hl)|(pz & EB)].
    + left. split; [reflexivity|]. split; [lia|].
      intros q zq Hq He. pose proof (free_in _ _ _ _ _ Hrep Hq) as HBq.
      destruct (in_split _ _ HBq) as (Ba & Bb & EB). subst B.
      pose proof (last_block_shape _ _ _ _ _ _ Hlay He) as ->.
      now apply (Hl Ba q zq).
    + right. exists pz. subst B.
      destruct (layout_in_mid _ _ _ _ _ _ Hlay) as (Hinp & _ & Hce).
      cbn [chain] in Hce.
      split; [exists (B1' ++ [(bp1, pz, false)]), L; tauto|]. split; lia.
  - rewrite Emm, E. cbn [bind].
    replace (bp1 =? NULL) with false by (symmetry; now apply Z.eqb_neq).
    reflexivity.
  - intros Hbound.
    destruct (align_size_spec size ltac:(lia)) as (Ha32 & _ & _ & Ham). fold asz in Ha32, Ham.
    assert (Hf1 : enough_fuel s1 fuel) by (apply (enough_fuel_eq s); assumption).
    destruct (place_spec fuel s1 B1' bp1 sz1 [] L1 asz Hrep1 Hc1 Hf1 ltac:(lia) Ham)
      as (s2 & r & rz & B2 & L2 & E2 & _ & Hrep2 & Hc2 & Hin2 & _ & Hlo2 & Hhi2 & _).
    exists s2, r, rz. split.
    { rewrite Emm, E. cbn [bind].
      replace (bp1 =? NULL) with false by (symmetry; now apply Z.eqb_neq).
      exact E2. }
    split; [now exists B2, L2|]. split; [exists B2, L2; tauto|]. split; assumption.
Qed.

(** C7: for a request [size > 0], with [asz = align_size size], the scan of
    [mm_malloc] is the search of the specification: the candidate is the
    head of the first class, from class 0 upward, that is non-empty and whose
    head block is strictly larger than [asz] (no class before it
    qualifies), and it is handed to [place] at once; the choice reads only
    the head slots and the headers of the head blocks, so states that agree
    on those choose alike.  When no class head qualifies, [extend_heap] is
    called with [MAX asz CHUNKSIZE] and the break moves by exactly that
    amount; on a consistent heap the block that comes back is free, listed
    and ends at the new break: it is the new space alone when no free block
    ended the heap, and the new space merged with that free block when one
    did; this block is the one handed to [place], and the block returned
    lies inside it. *)
Theorem malloc_candidate_selection :
  forall (fuel : nat) (s : state) (size : Z),
    0 < size ->
    let asz := align_size size in
    (forall i, first_fit_class s asz = Some i ->
       0 <= i < LISTSIZE /\ head_fits s asz i = true /\
       forall j, 0 <= j < i -> head_fits s asz j = false) /\
    (first_fit_class s asz = None ->
       forall j, 0 <= j < LISTSIZE -> head_fits s asz j = false) /\
    mm_malloc fuel s size =
      match first_fit_class s asz with
      | Some i => place fuel s (GET (mem s) (freelists s i)) asz
      | None =>
          '(s', bp) <- extend_heap fuel s (MAX asz CHUNKSIZE) ;;
          if bp =? NULL then Some (s', NULL) else place fuel s' bp asz
      end /\
    (forall s2,
       (forall i, 0 <= i < LISTSIZE ->
          GET (mem s2) (freelists s2 i) = GET (mem s) (freelists s i) /\
          GET_SIZE (mem s2) (HDRP (GET (mem s) (freelists s i))) =
          GET_SIZE (mem s) (HDRP (GET (mem s) (freelists s i)))) ->
       first_fit_class s2 asz = first_fit_class s asz) /\
    (forall s' bp,
       extend_heap fuel s (MAX asz CHUNKSIZE) = Some (s', bp) -> bp <> NULL ->
       mem_brk s' = mem_brk s + MAX asz CHUNKSIZE) /\
    (heap_ok s -> enough_fuel s fuel -> first_fit_class s asz = None ->
     (mem_max_addr s < mem_brk s + MAX asz CHUNKSIZE /\
      mm_malloc fuel s size = Some (s, NULL)) \/
     (mem_brk s + MAX asz CHUNKSIZE <= mem_max_addr s /\
      exists s1 bp1 sz1,
        extend_heap fuel s (MAX asz CHUNKSIZE) = Some (s1, bp1) /\
        bp1 <> NULL /\ heap_ok s1 /\ free_block s1 bp1 sz1 /\
        bp1 + sz1 = mem_brk s1 /\
        mem_brk s1 = mem_brk s + MAX asz CHUNKSIZE /\
        ((bp1 = mem_brk s /\ sz1 = MAX asz CHUNKSIZE /\
          forall q zq, free_block s q zq -> q + zq <> mem_brk s) \/
         (exists pz, free_block s bp1 pz /\ bp1 + pz = mem_brk s /\
                     sz1 = pz + MAX asz CHUNKSIZE)) /\
        mm_malloc fuel s size = place fuel s1 bp1 asz /\
        (size <= 2 ^ 64 - 24 ->
         exists s' r rz,
           mm_malloc fuel s size = Some (s', r) /\ heap_ok s' /\
           allocated_block s' r rz /\ bp1 <= r /\ r + rz <= bp1 + sz1))).
Proof.
  intros fuel s size Hsize asz.
  split; [|split; [|split; [|split; [|split]]]].
  - intros i H. apply (find_first_index (head_fits s asz)) in H.
    destruct H as (Hr & Hi & Hj). cbn in Hr. unfold LISTSIZE.
    split; [lia|]. split; [exact Hi|]. intros j Hjr. apply Hj. cbn. lia.
  - intros H j Hj. apply (find_no_index (head_fits s asz) _ _ H). cbn.
    unfold LISTSIZE in Hj. lia.
  - unfold mm_malloc. replace (size =? 0) with false by (symmetry; apply Z.eqb_neq; lia).
    fold asz.
    rewrite (find_fit_find s asz (Z.to_nat LISTSIZE) 0 : find_fit _ s 0 asz = _).
    fold (first_fit_class s asz).
    destruct (first_fit_class s asz) as [i|] eqn:Hf.
    + apply (find_first_index (head_fits s asz)) in Hf. destruct Hf as (_ & Hf & _).
      rewrite (head_fits_nonnull _ _ _ Hf). reflexivity.
    + reflexivity.
  - intros s2 H. unfold first_fit_class.
    assert (Hext : forall l, Forall (fun i => 0 <= i < LISTSIZE) l ->
              find (head_fits s2 asz) l = find (head_fits s asz) l).
    { induction l as [|i l IH]; intros Hl.
      - reflexivity.
      - inversion Hl as [|? ? Hi Hl']; subst. cbn [find].
        rewrite (IH Hl'). unfold head_fits.
        destruct (H i Hi) as [-> ->]. reflexivity. }
    apply Hext. apply Forall_forall. intros i Hi.
    apply in_map_iff in Hi. destruct Hi as (k & <- & Hk).
    apply in_seq in Hk. cbn in Hk. unfold LISTSIZE. lia.
  - intros s' bp He Hbp. apply extend_heap_brk in He; [|exact Hbp].
    unfold asz in *. rewrite ALIGN_growth in He. exact He.
  - intros Hok Hf Hnone. apply (malloc_growth fuel s size Hsize Hok Hf).
    rewrite (find_fit_find s (align_size size) (Z.to_nat LISTSIZE) 0
             : find_fit _ s 0 (align_size size) = _).
    fold (first_fit_class s (align_size size)). fold asz. rewrite Hnone. reflexivity.
Qed.

Lemma malloc_candidate_selection_witness :
  (0 < 16 /\
   first_fit_class (heap0 100000) (align_size 16) = Some 3 /\
   mm_malloc 100 (heap0 100000) 16 =
     place 100 (heap0 100000)
       (GET (mem (heap0 100000)) (freelists (heap0 100000) 3)) (align_size 16)) /\
  (0 < 200 /\ first_fit_class arena (align_size 200) = None /\
   free_block arena 1160 144 /\ 1160 + 144 = mem_brk arena /\
   exists s1 s' r rz,
     extend_heap 1000 arena (MAX (align_size 200) CHUNKSIZE) = Some (s1, 1160) /\
     free_block s1 1160 (144 + MAX (align_size 200) CHUNKSIZE) /\
     1160 + (144 + MAX (align_size 200) CHUNKSIZE) = mem_brk s1 /\
     mem_brk s1 = mem_brk arena + MAX (align_size 200) CHUNKSIZE /\
     mm_malloc 1000 arena 200 = place 1000 s1 1160 (align_size 200) /\
     mm_malloc 1000 arena 200 = Some (s', r) /\
     allocated_block s' r rz /\ 1160 <= r /\
     r + rz <= 1160 + (144 + MAX (align_size 200) CHUNKSIZE)).
Proof.
  split.
  - split; [lia|]. split; [vm_compute; reflexivity|].
    pose proof (malloc_candidate_selection 100 (heap0 100000) 16 ltac:(lia)) as H.
    cbv zeta in H. destruct H as (_ & _ & H & _).
    replace (first_fit_class (heap0 100000) (align_size 16)) with (Some 3) in H
      by (vm_compute; reflexivity).
    exact H.
  - split; [lia|]. split; [by_eval|]. split; [exact arena_free|]. split; [by_eval|].
    pose proof (malloc_candidate_selection 1000 arena 200 ltac:(lia)) as H.
    cbv zeta in H. destruct H as (_ & _ & _ & _ & _ & H).
    destruct (H arena_ok arena_fuel ltac:(by_eval))
      as [[C _]|(_ & s1 & bp1 & sz1 & E & _ & _ & Hfree & Hend & Hbrk & Hmerge & Hplace & Hin)].
    { exfalso. revert C. by_eval. }
    destruct Hmerge as [(_ & _ & Hno)|(pz & Hpz & Hpe & Hsz)].
    { exfalso. apply (Hno 1160 144 arena_free). by_eval. }
    destruct (free_block_end_unique arena bp1 pz 1160 144 Hpz arena_free) as [-> ->].
    { rewrite Hpe. by_eval. }
    subst sz1.
    destruct (Hin ltac:(lia)) as (s' & r & rz & Em & _ & Hal & Hlo & Hhi).
    exists s1, s', r, rz. repeat (split; [assumption|]). assumption.
Defined.
